(** * youtube-stream-grabber: the discovery-and-reconciliation core

    A shallow embedding of [yt_live_link_saver.js] (both script variants of
    the repository) and the properties of its specification.

    Conventions of the embedding.
    - A JavaScript string is a list of code units; code units are [ascii]
      (the units below 256, i.e. the Latin-1 range).  String literals are
      written [str "..."].
    - A JavaScript [Set] is the list of its elements in insertion order;
      a [Map] is a [gmap].
    - The file system is a finite map from paths to file contents; a
      missing key is a missing file ([ENOENT]).  Directories, permissions
      and other I/O errors are outside the model.
    - Network calls and the clock are the fields of the class [Remote];
      every property is proved for all their behaviours.  Resolving a
      channel, fetching its live videos and resolving the target playlist
      are one remote operation each.
    - What the script prints ([console.log], [console.error], [debugLog])
      is not part of the model; of [runOnce] the exit code, the files and
      the remote calls are. *)

From Stdlib Require Import Ascii String ZArith Lia.
From stdpp Require Import base option list gmap strings.

Abbreviation jstring := (list ascii).
Definition str (s : string) : jstring := list_ascii_of_string s.
Arguments str : simpl never.

(** ** JavaScript string primitives *)

Module JS.

Definition TAB : ascii := ascii_of_N 9.
Definition LF : ascii := ascii_of_N 10.
Definition CR : ascii := ascii_of_N 13.

(** The [WhiteSpace] and [LineTerminator] code units below 256: what
    [String.prototype.trim] removes and what [\s] matches. *)
Definition is_whitespace (c : ascii) : bool :=
  match N_of_ascii c with
  | 9 | 10 | 11 | 12 | 13 | 32 | 160 => true
  | _ => false
  end%N.

Fixpoint trimStart (s : jstring) : jstring :=
  match s with
  | [] => []
  | c :: s' => if is_whitespace c then trimStart s' else s
  end.

Definition trimEnd (s : jstring) : jstring := rev (trimStart (rev s)).

Definition trim (s : jstring) : jstring := trimEnd (trimStart s).

(** [s.split(/[class]+/)]: the pieces between maximal runs of separator
    units.  [insep] tells that the previous unit was a separator, [cur]
    is the piece being read. *)
Fixpoint split_runs (sep : ascii -> bool) (insep : bool) (cur s : jstring)
  : list jstring :=
  match s with
  | [] => [cur]
  | c :: s' =>
      if sep c then
        if insep then split_runs sep true cur s'
        else cur :: split_runs sep true [] s'
      else split_runs sep false (cur ++ [c]) s'
  end.

(** [s.split(/\s+/)] *)
Definition split_whitespace (s : jstring) : list jstring :=
  split_runs is_whitespace false [] s.

Definition is_comma_or_whitespace (c : ascii) : bool :=
  Ascii.eqb c "," || is_whitespace c.

(** [s.split(/[,\s]+/)] *)
Definition split_comma_whitespace (s : jstring) : list jstring :=
  split_runs is_comma_or_whitespace false [] s.

(** A piece that ended at a line feed loses one carriage return in front
    of it: the separator [/\r?\n/] matched both. *)
Definition strip_cr (piece : jstring) : jstring :=
  match rev piece with
  | c :: r => if Ascii.eqb c CR then rev r else piece
  | [] => piece
  end.

(** [s.split(/\r?\n/)] *)
Fixpoint split_lines_from (cur s : jstring) : list jstring :=
  match s with
  | [] => [cur]
  | c :: s' =>
      if Ascii.eqb c LF then strip_cr cur :: split_lines_from [] s'
      else split_lines_from (cur ++ [c]) s'
  end.

Definition split_lines (s : jstring) : list jstring := split_lines_from [] s.

(** [toLowerCase] on code units below 256: A-Z and the Latin-1 capitals
    (U+00C0..U+00DE without the multiplication sign) move up by 32. *)
Definition toLowerCase_unit (c : ascii) : ascii :=
  let n := N_of_ascii c in
  if ((65 <=? n) && (n <=? 90)
      || (192 <=? n) && (n <=? 222) && negb (n =? 215))%N
  then ascii_of_N (n + 32) else c.

Definition toLowerCase (s : jstring) : jstring := map toLowerCase_unit s.

Fixpoint startsWith (s prefix : jstring) {struct prefix} : bool :=
  match prefix, s with
  | [], _ => true
  | p :: prefix', c :: s' => Ascii.eqb c p && startsWith s' prefix'
  | _ :: _, [] => false
  end.

Definition endsWith (s suffix : jstring) : bool :=
  startsWith (rev s) (rev suffix).

(** [Array.prototype.join] *)
Fixpoint join (sep : jstring) (parts : list jstring) : jstring :=
  match parts with
  | [] => []
  | [p] => p
  | p :: rest => p ++ sep ++ join sep rest
  end.

(** A [Set] of strings, in insertion order. *)
Definition Set_has (s : list jstring) (x : jstring) : bool :=
  bool_decide (x ∈ s).

Definition Set_add (x : jstring) (s : list jstring) : list jstring :=
  if Set_has s x then s else s ++ [x].

End JS.

(** ** Channel inputs: [splitCommaWhitespaceList], [uniqueStrings],
       [uniqueExactStrings], [getChannelInputs] *)

(** [String(value).split(/[,\s]+/).map((part) => part.trim()).filter(Boolean)];
    [None] is [null] or [undefined]. *)
Definition splitCommaWhitespaceList (value : option jstring) : list jstring :=
  match value with
  | None => []
  | Some v =>
      List.filter (fun part => negb (bool_decide (part = [])))
        (map JS.trim (JS.split_comma_whitespace v))
  end.

(** The loop of [uniqueStrings], with its two locals [seen] and [out]. *)
Fixpoint uniqueStrings_loop (values seen out : list jstring) : list jstring :=
  match values with
  | [] => out
  | value :: rest =>
      let trimmed := JS.trim value in
      if bool_decide (trimmed = []) then uniqueStrings_loop rest seen out
      else
        let key := JS.toLowerCase trimmed in
        if JS.Set_has seen key then uniqueStrings_loop rest seen out
        else uniqueStrings_loop rest (JS.Set_add key seen) (out ++ [trimmed])
  end.

Definition uniqueStrings (values : list jstring) : list jstring :=
  uniqueStrings_loop values [] [].

Fixpoint uniqueExactStrings_loop (values seen out : list jstring)
  : list jstring :=
  match values with
  | [] => out
  | value :: rest =>
      let trimmed := JS.trim value in
      if bool_decide (trimmed = []) then uniqueExactStrings_loop rest seen out
      else if JS.Set_has seen trimmed then uniqueExactStrings_loop rest seen out
      else uniqueExactStrings_loop rest (JS.Set_add trimmed seen) (out ++ [trimmed])
  end.

Definition uniqueExactStrings (values : list jstring) : list jstring :=
  uniqueExactStrings_loop values [] [].

(** The channel references of a run before deduplication: the [flattened]
    array built from the [--channels] flags when there is at least one, the
    split of [YOUTUBE_CHANNELS] otherwise. *)
Definition channelReferences (channels : list jstring) (env : option jstring)
  : list jstring :=
  match channels with
  | [] => splitCommaWhitespaceList env
  | _ :: _ => flat_map (fun raw => splitCommaWhitespaceList (Some raw)) channels
  end.

Definition getChannelInputs (channels : list jstring) (env : option jstring)
  : list jstring :=
  uniqueStrings (channelReferences channels env).

(** [references text refs]: the text holds the channel references [refs],
    in this order: maximal runs of units other than commas and white
    space.  Commas and white space separate them and may come first and
    last. *)
Inductive references : jstring -> list jstring -> Prop :=
| references_nil : references [] []
| references_sep c text refs :
    JS.is_comma_or_whitespace c = true ->
    references text refs ->
    references (c :: text) refs
| references_ref r text refs :
    r <> [] ->
    Forall (fun c => JS.is_comma_or_whitespace c = false) r ->
    (text = [] \/ exists c rest, text = c :: rest
                                /\ JS.is_comma_or_whitespace c = true) ->
    references text refs ->
    references (r ++ text) (r :: refs).

(** The channel references supplied to a run: those of the [--channels]
    flags, in the order of the flags, when there is at least one flag;
    those of [YOUTUBE_CHANNELS] otherwise, none when it is not set. *)
Definition supplied (channels : list jstring) (env : option jstring)
  (refs : list jstring) : Prop :=
  match channels, env with
  | [], None => refs = []
  | [], Some text => references text refs
  | _ :: _, _ =>
      exists parts, Forall2 references channels parts /\ refs = concat parts
  end.

(** The common shape of the two deduplication loops: keep the elements of
    [l] whose key was not seen before, first occurrence first.  The loops
    are shown equal to it in [uniqueStrings_loop_keep_first] and
    [uniqueExactStrings_loop_keep_first]. *)
Fixpoint keep_first (key : jstring -> jstring) (l seen : list jstring)
  : list jstring :=
  match l with
  | [] => []
  | x :: r =>
      if JS.Set_has seen (key x) then keep_first key r seen
      else x :: keep_first key r (JS.Set_add (key x) seen)
  end.

(** The values a deduplication loop looks at: trimmed, blanks skipped. *)
Definition nonblank_trimmed (values : list jstring) : list jstring :=
  List.filter (fun t => negb (bool_decide (t = []))) (map JS.trim values).

(** ** JSON values

    What [JSON.parse] returns and what the code inspects with [typeof],
    truthiness tests and property access.  Numbers are integers in the
    model. *)

#[local] Set Warnings "-register-all".
Inductive jsval :=
| JUndefined
| JNull
| JBool (b : bool)
| JNumber (n : Z)
| JString (s : jstring)
| JArray (items : list jsval)
| JObject (fields : list (jstring * jsval)).

Module Js.

(** [Boolean(v)] *)
Definition truthy (v : jsval) : bool :=
  match v with
  | JUndefined | JNull => false
  | JBool b => b
  | JNumber n => negb (n =? 0)%Z
  | JString s => negb (bool_decide (s = []))
  | JArray _ | JObject _ => true
  end.

Fixpoint assoc (fields : list (jstring * jsval)) (key : jstring) : jsval :=
  match fields with
  | [] => JUndefined
  | (k, v) :: rest => if bool_decide (k = key) then v else assoc rest key
  end.

(** [v === null || v === undefined] *)
Definition nullish (v : jsval) : bool :=
  match v with
  | JUndefined | JNull => true
  | _ => false
  end.

(** [v.key] for the property names the code reads ([id], [snippet],
    [items], ...) on a receiver that is neither [null] nor [undefined]: the
    field of an object, [undefined] on a boolean, a number, a string or an
    array.  On [null] and [undefined] the access throws a [TypeError]
    instead.  The code reads a property of an item or of one of its fields
    only behind a truthiness test of the receiver ([item && item.id]), and
    there [get] is the access.  What [apiGetJson] returns is read without
    such a test ([data.items], [data.nextPageToken]): that access is
    [member] below. *)
Definition get (v : jsval) (key : jstring) : jsval :=
  match v with
  | JObject fields => assoc fields key
  | _ => JUndefined
  end.

(** The message of the [TypeError] thrown by [v.key] when [v] is [null] or
    [undefined], in the wording of V8. *)
Definition cannot_read (v : jsval) (key : jstring) : jstring :=
  str "Cannot read properties of "
  ++ match v with JNull => str "null" | _ => str "undefined" end
  ++ str " (reading '" ++ key ++ str "')".

(** [Array.isArray(v) ? v : []] *)
Definition array_or_empty (v : jsval) : list jsval :=
  match v with
  | JArray items => items
  | _ => []
  end.

(** [typeof v === "string" ? v : null] *)
Definition string_or_null (v : jsval) : option jstring :=
  match v with
  | JString s => Some s
  | _ => None
  end.

End Js.

(** ** Effects

    The outside world [W] (the remote services, the terminal, the clock)
    is reached through the operations of [Remote]; each takes the world and
    returns a reply and the world after the call. *)

Inductive reply (A : Type) :=
| Reply (a : A)
| Fail (message : jstring).
Arguments Reply {A} a.
Arguments Fail {A} message.

(** The OAuth settings of a run, as [resolveOauthConfig] returns them
    ([None] is a missing or empty setting). *)
Record OauthConfig := {
  oauth_accessToken : option jstring;
  oauth_clientId : option jstring;
  oauth_clientSecret : option jstring;
  oauth_refreshToken : option jstring;
  oauth_tokenFilePath : option jstring;
}.

Class Remote (W : Type) := {
  (** [apiGetJson(YOUTUBE_VIDEOS_ENDPOINT, {id: ids.join(","), ...})] *)
  remote_videos : list jstring -> W -> reply jsval * W;
  (** [resolveChannelId(apiKey, channelInput, ...)] *)
  remote_resolveChannelId : jstring -> W -> reply jstring * W;
  (** [fetchLiveVideoIdsViaSearch] or [fetchLiveVideoIdsViaUploads], as
      [useSearch] selects, for a channel ID *)
  remote_liveVideoIds : jstring -> W -> reply (list jstring) * W;
  (** [apiPostForm(GOOGLE_OAUTH_TOKEN_ENDPOINT, {client_id, client_secret,
      refresh_token, grant_type: "refresh_token"})] *)
  remote_tokenRefresh : jstring -> jstring -> jstring -> W -> reply jsval * W;
  (** [obtainOauthTokensInteractive(oauth, ...)]: refresh token, access
      token, [expiresInSeconds] *)
  remote_tokenInteractive :
    OauthConfig -> W -> reply (jstring * jstring * option Z) * W;
  (** [resolveTargetPlaylistId(args, accessToken, state, ...)] *)
  remote_resolvePlaylist : jstring -> W -> reply jstring * W;
  (** [apiGetJson(YOUTUBE_PLAYLIST_ITEMS_ENDPOINT, {playlistId, pageToken})]
      with the bearer token *)
  remote_playlistItems :
    jstring -> jstring -> option jstring -> W -> reply jsval * W;
  (** [insertVideoIntoPlaylist(accessToken, playlistId, videoId, ...)] *)
  remote_insert : jstring -> jstring -> jstring -> W -> reply unit * W;
  (** [Date.now()], in milliseconds *)
  clock_now : W -> Z * W;
  (** [utcNowIsoSeconds()] *)
  clock_timestamp : W -> jstring * W;
  (** The text that [writePlaylistSyncState] writes,
      [`${JSON.stringify(data, null, 2)}\n`]: the record [data] holds the
      playlist key, [playlistId] (when it is missing, the playlist ID that
      the run state remembers), the path, size and modification time of
      the Ledger, and [utcNowIsoSeconds()]. *)
  sync_state_text : option jstring -> W -> jstring * W;
}.

(** The remote calls a run makes, and its writes to disk, in order. *)
Inductive call :=
| CallVideos (ids : list jstring)
| CallResolveChannel (input : jstring)
| CallLiveVideoIds (channelId : jstring)
| CallTokenRefresh (clientId clientSecret refreshToken : jstring)
| CallTokenInteractive
| CallResolvePlaylist (accessToken : jstring)
| CallPlaylistItems (accessToken playlistId : jstring) (pageToken : option jstring)
| CallInsert (accessToken playlistId videoId : jstring).

(** [Net c ok]: the call [c] was made and succeeded ([ok]) or failed. *)
Inductive event :=
| Net (c : call) (ok : bool)
| WroteFile (path content : jstring)
| AppendedFile (path content : jstring)
| Unlinked (path : jstring).

(** [state.oauth] *)
Record OauthState := {
  cached_accessToken : option jstring;
  cached_expiresAtMs : Z;
}.

Record State (W : Type) := {
  files : gmap jstring jstring;
  (** [state.oauth]; [None] when the run state has no such object *)
  oauthState : option OauthState;
  (** [state.channelIdByInput] *)
  channelIdByInput : gmap jstring jstring;
  world : W;
  trace : list event;
}.
Arguments files {W} _.
Arguments oauthState {W} _.
Arguments channelIdByInput {W} _.
Arguments world {W} _.
Arguments trace {W} _.

(** How a computation ends: normally, with an exception ([err.message]), or
    not at all (a loop of the model that was given too little fuel). *)
Inductive outcome (A : Type) :=
| Ok (a : A)
| Throw (message : jstring)
| Diverge.
Arguments Ok {A} a.
Arguments Throw {A} message.
Arguments Diverge {A}.

Definition M (W A : Type) : Type := State W -> outcome A * State W.

Section Monad.
Context {W : Type}.

Definition ret {A} (a : A) : M W A := fun st => (Ok a, st).

Definition throw {A} (message : jstring) : M W A := fun st => (Throw message, st).

Definition bind {A B} (m : M W A) (k : A -> M W B) : M W B :=
  fun st =>
    match m st with
    | (Ok a, st') => k a st'
    | (Throw message, st') => (Throw message, st')
    | (Diverge, st') => (Diverge, st')
    end.

(** [try { m } catch (err) { handler(err.message) }] *)
Definition try_catch {A} (m : M W A) (handler : jstring -> M W A) : M W A :=
  fun st =>
    match m st with
    | (Throw message, st') => handler message st'
    | r => r
    end.

Definition log (e : event) : M W unit :=
  fun st =>
    (Ok tt, {| files := files st; oauthState := oauthState st;
               channelIdByInput := channelIdByInput st;
               world := world st; trace := trace st ++ [e] |}).

Definition set_world (w : W) (st : State W) : State W :=
  {| files := files st; oauthState := oauthState st;
     channelIdByInput := channelIdByInput st;
     world := w; trace := trace st |}.

Definition set_files (fs : gmap jstring jstring) (st : State W) : State W :=
  {| files := fs; oauthState := oauthState st;
     channelIdByInput := channelIdByInput st;
     world := world st; trace := trace st |}.

Definition set_oauthState (o : option OauthState) (st : State W) : State W :=
  {| files := files st; oauthState := o;
     channelIdByInput := channelIdByInput st;
     world := world st; trace := trace st |}.

Definition set_channelIdByInput (m : gmap jstring jstring) (st : State W)
  : State W :=
  {| files := files st; oauthState := oauthState st;
     channelIdByInput := m;
     world := world st; trace := trace st |}.

(** A remote call: recorded in the trace, then answered by the world; a
    failure is an exception. *)
Definition net {A} (c : call) (op : W -> reply A * W) : M W A :=
  fun st =>
    match op (world st) with
    | (Reply a, w) =>
        (Ok a, {| files := files st; oauthState := oauthState st;
                  channelIdByInput := channelIdByInput st;
                  world := w; trace := trace st ++ [Net c true] |})
    | (Fail message, w) =>
        (Throw message,
         {| files := files st; oauthState := oauthState st;
            channelIdByInput := channelIdByInput st;
            world := w; trace := trace st ++ [Net c false] |})
    end.

(** Reading the clock is no remote call. *)
Definition ask {A} (op : W -> A * W) : M W A :=
  fun st => let '(a, w) := op (world st) in (Ok a, set_world w st).

(** [data.key] where the code has not tested [data]: a [TypeError] when
    [data] is [null] or [undefined]. *)
Definition member (data : jsval) (key : jstring) : M W jsval :=
  if Js.nullish data then throw (Js.cannot_read data key)
  else ret (Js.get data key).

End Monad.

Declare Scope monad_scope.
Delimit Scope monad_scope with monad.
Notation "x <- m ;; k" := (bind m (fun x => k))
  (at level 100, m at next level, right associativity) : monad_scope.
Notation "m ;;; k" := (bind m (fun _ => k))
  (at level 100, right associativity) : monad_scope.
Open Scope monad_scope.

(** ** Liveness filter: [filterCurrentlyLiveVideoIds] *)

(** [item && typeof item.id === "string" ? item.id : null] *)
Definition item_videoId (item : jsval) : option jstring :=
  if Js.truthy item then Js.string_or_null (Js.get item (str "id")) else None.

Definition item_liveBroadcastContent (item : jsval) : option jstring :=
  if Js.truthy item && Js.truthy (Js.get item (str "snippet"))
  then Js.string_or_null
         (Js.get (Js.get item (str "snippet")) (str "liveBroadcastContent"))
  else None.

(** [item && item.liveStreamingDetails ? item.liveStreamingDetails : null] *)
Definition item_details (item : jsval) : jsval :=
  if Js.truthy item && Js.truthy (Js.get item (str "liveStreamingDetails"))
  then Js.get item (str "liveStreamingDetails")
  else JNull.

Definition isLiveBySnippet (item : jsval) : bool :=
  bool_decide (item_liveBroadcastContent item = Some (str "live")).

Definition isLiveByDetails (item : jsval) : bool :=
  let details := item_details item in
  Js.truthy details
  && match Js.get details (str "actualStartTime") with
     | JString s => negb (bool_decide (s = []))
     | _ => false
     end
  && match Js.get details (str "actualEndTime") with
     | JUndefined | JNull => true
     | _ => false
     end.

(** The loop over [items]; what it returns is [liveIds]. *)
Fixpoint liveIds_of_items (items : list jsval) : list jstring :=
  match items with
  | [] => []
  | item :: rest =>
      match item_videoId item with
      | None => liveIds_of_items rest
      | Some videoId =>
          if bool_decide (videoId = []) then liveIds_of_items rest
          else if isLiveBySnippet item || isLiveByDetails item
               then videoId :: liveIds_of_items rest
               else liveIds_of_items rest
      end
  end.

Definition filterCurrentlyLiveVideoIds {W : Type} `{Remote W} (videoIds : list jstring)
  : M W (list jstring) :=
  let ids := take 50 (uniqueExactStrings videoIds) in
  if bool_decide (ids = []) then ret []
  else
    data <- net (CallVideos ids) (remote_videos ids) ;;
    data_items <- member data (str "items") ;;
    let items := Js.array_or_empty data_items in
    ret (uniqueExactStrings (liveIds_of_items items)).

(** ** A scripted world

    The instance of [Remote] used by the examples: every operation answers
    from a table; the pages of a playlist listing are handed out in order. *)

Record Script := {
  script_videos : reply jsval;
  script_channel : jstring -> reply jstring;
  script_live : jstring -> reply (list jstring);
  script_refresh : reply jsval;
  script_interactive : reply (jstring * jstring * option Z);
  script_playlist : reply jstring;
  script_pages : list (reply jsval);
  script_insert : jstring -> reply unit;
  script_now : Z;
  script_timestamp : jstring;
  script_syncState : jstring;
}.

Definition script_next_page (w : Script) : reply jsval * Script :=
  match script_pages w with
  | [] => (Fail (str "no more pages"), w)
  | page :: rest =>
      (page,
       {| script_videos := script_videos w; script_channel := script_channel w;
          script_live := script_live w; script_refresh := script_refresh w;
          script_interactive := script_interactive w;
          script_playlist := script_playlist w; script_pages := rest;
          script_insert := script_insert w; script_now := script_now w;
          script_timestamp := script_timestamp w;
          script_syncState := script_syncState w |})
  end.

#[export] Instance Script_Remote : Remote Script := {
  remote_videos _ w := (script_videos w, w);
  remote_resolveChannelId input w := (script_channel w input, w);
  remote_liveVideoIds channelId w := (script_live w channelId, w);
  remote_tokenRefresh _ _ _ w := (script_refresh w, w);
  remote_tokenInteractive _ w := (script_interactive w, w);
  remote_resolvePlaylist _ w := (script_playlist w, w);
  remote_playlistItems _ _ _ w := script_next_page w;
  remote_insert _ _ videoId w := (script_insert w videoId, w);
  clock_now w := (script_now w, w);
  clock_timestamp w := (script_timestamp w, w);
  sync_state_text _ w := (script_syncState w, w);
}.

(** A world in which every call fails, to start examples from. *)
Definition silent_world : Script := {|
  script_videos := Fail (str "offline");
  script_channel := fun _ => Fail (str "offline");
  script_live := fun _ => Fail (str "offline");
  script_refresh := Fail (str "offline");
  script_interactive := Fail (str "offline");
  script_playlist := Fail (str "offline");
  script_pages := [];
  script_insert := fun _ => Fail (str "offline");
  script_now := 0;
  script_timestamp := str "2024-01-01T00:00:00Z";
  script_syncState := str "{}" ++ [JS.LF];
|}.

Definition initial_state {W : Type} (fs : gmap jstring jstring) (w : W) : State W := {|
  files := fs;
  oauthState := Some {| cached_accessToken := None; cached_expiresAtMs := 0 |};
  channelIdByInput := ∅;
  world := w;
  trace := [];
|}.

(** An answer of the video-details lookup with three items: one live by its
    status field, one whose status is not ["live"] but which started and
    has not ended, one that ended. *)
Definition example_videos_answer : jsval :=
  JObject [(str "items", JArray [
    JObject [(str "id", JString (str "aaaaaaaaaaa"));
             (str "snippet",
              JObject [(str "liveBroadcastContent", JString (str "live"))])];
    JObject [(str "id", JString (str "bbbbbbbbbbb"));
             (str "snippet",
              JObject [(str "liveBroadcastContent", JString (str "none"))]);
             (str "liveStreamingDetails",
              JObject [(str "actualStartTime",
                        JString (str "2024-01-01T00:00:00Z"))])];
    JObject [(str "id", JString (str "ccccccccccc"));
             (str "snippet",
              JObject [(str "liveBroadcastContent", JString (str "none"))]);
             (str "liveStreamingDetails",
              JObject [(str "actualStartTime",
                        JString (str "2024-01-01T00:00:00Z"));
                       (str "actualEndTime",
                        JString (str "2024-01-01T01:00:00Z"))])]])].

Definition example_videos_world : Script := {|
  script_videos := Reply example_videos_answer;
  script_channel := script_channel silent_world;
  script_live := script_live silent_world;
  script_refresh := script_refresh silent_world;
  script_interactive := script_interactive silent_world;
  script_playlist := script_playlist silent_world;
  script_pages := [];
  script_insert := script_insert silent_world;
  script_now := 0;
  script_timestamp := script_timestamp silent_world;
  script_syncState := script_syncState silent_world;
|}.

(** A world whose video-details lookup and whose playlist listing answer
    with the body [null]. *)
Definition example_null_world : Script := {|
  script_videos := Reply JNull;
  script_channel := script_channel silent_world;
  script_live := script_live silent_world;
  script_refresh := script_refresh silent_world;
  script_interactive := script_interactive silent_world;
  script_playlist := script_playlist silent_world;
  script_pages := [Reply JNull];
  script_insert := script_insert silent_world;
  script_now := 0;
  script_timestamp := script_timestamp silent_world;
  script_syncState := script_syncState silent_world;
|}.

(** ** The platform's [URL]

    [new URL(raw)] is not code of the repository: it is the URL parser of
    the WHATWG URL Standard, run without a base URL.  The model follows the
    standard's state machine for the three getters the code reads
    ([hostname], [pathname], [searchParams.get]), for the inputs whose
    units are all below 128, whose host is a domain name without an [xn--]
    label, not in square brackets and not ending in a number (the standard
    takes such a host for an IPv4 address), and whose query holds no
    percent-escape of a byte above 127; [www.youtube.com] and [youtu.be]
    are such hosts.  On other inputs the model is not that parser, and it
    accepts more than the standard does: a host
    holding a unit above 127 is kept without the IDNA mapping, [xn--] labels
    are not validated, IP-address literals are kept as written instead of
    being validated and rendered in canonical form, and percent-escapes of
    bytes above 127 in a query are decoded to the byte instead of through
    UTF-8. *)

Module URL.

#[local] Open Scope N_scope.

Definition code (c : ascii) : N := N_of_ascii c.

Definition is_ascii_upper (c : ascii) : bool :=
  ((65 <=? code c) && (code c <=? 90))%N.

Definition is_ascii_alpha (c : ascii) : bool :=
  is_ascii_upper c || ((97 <=? code c) && (code c <=? 122))%N.

Definition is_ascii_digit (c : ascii) : bool :=
  ((48 <=? code c) && (code c <=? 57))%N.

Definition ascii_lower (c : ascii) : ascii :=
  if is_ascii_upper c then ascii_of_N (code c + 32) else c.

Definition is_c0_or_space (c : ascii) : bool := (code c <=? 32)%N.

Definition is_tab_or_newline (c : ascii) : bool :=
  match code c with 9 | 10 | 13 => true | _ => false end%N.

Fixpoint drop_while (p : ascii -> bool) (s : jstring) : jstring :=
  match s with
  | [] => []
  | c :: s' => if p c then drop_while p s' else s
  end.

(** The prefix before the first unit that satisfies [p], and the rest
    from that unit on. *)
Fixpoint span_until (p : ascii -> bool) (s : jstring) : jstring * jstring :=
  match s with
  | [] => ([], [])
  | c :: s' =>
      if p c then ([], s)
      else let '(a, r) := span_until p s' in (c :: a, r)
  end.

(** Leading and trailing C0 controls and spaces are removed, then every
    tab and newline. *)
Definition preprocess (input : jstring) : jstring :=
  List.filter (fun c => negb (is_tab_or_newline c))
    (rev (drop_while is_c0_or_space (rev (drop_while is_c0_or_space input)))).

(** *** Percent-encoding *)

Definition hex_digit (n : N) : ascii :=
  ascii_of_N (if (n <? 10)%N then 48 + n else 55 + n).

Definition percent_byte (n : N) : jstring :=
  ["%"%char; hex_digit (n / 16); hex_digit (n mod 16)].

(** The UTF-8 bytes of a code unit below 256, each percent-encoded. *)
Definition utf8_percent_encode (c : ascii) : jstring :=
  let n := code c in
  if (n <? 128)%N then percent_byte n
  else percent_byte (192 + n / 64) ++ percent_byte (128 + n mod 64).

Definition percent_encode (in_set : ascii -> bool) (s : jstring) : jstring :=
  flat_map (fun c => if in_set c then utf8_percent_encode c else [c]) s.

Definition in_c0_control_set (c : ascii) : bool :=
  ((code c <? 32) || (126 <? code c))%N.

Definition in_query_set (special : bool) (c : ascii) : bool :=
  in_c0_control_set c
  || match code c with
     | 32 | 34 | 35 | 60 | 62 => true
     | 39 => special
     | _ => false
     end%N.

Definition in_path_set (c : ascii) : bool :=
  in_query_set false c
  || match code c with
     | 63 | 94 | 96 | 123 | 125 => true
     | _ => false
     end%N.

Definition hex_value (c : ascii) : option N :=
  let n := code c in
  if is_ascii_digit c then Some (n - 48)
  else if ((65 <=? n) && (n <=? 70))%N then Some (n - 55)
  else if ((97 <=? n) && (n <=? 102))%N then Some (n - 87)
  else None.

Fixpoint percent_decode (s : jstring) : jstring :=
  match s with
  | [] => []
  | c :: s' =>
      if Ascii.eqb c "%" then
        match s' with
        | h :: l :: r =>
            match hex_value h, hex_value l with
            | Some a, Some b => ascii_of_N (16 * a + b) :: percent_decode r
            | _, _ => c :: percent_decode s'
            end
        | _ => c :: percent_decode s'
        end
      else c :: percent_decode s'
  end.

(** *** Scheme *)

Definition is_scheme_unit (c : ascii) : bool :=
  is_ascii_alpha c || is_ascii_digit c
  || match code c with 43 | 45 | 46 => true | _ => false end%N.

(** The scheme state: units of the scheme up to the colon. *)
Fixpoint scheme_rest (s : jstring) : option (jstring * jstring) :=
  match s with
  | [] => None
  | c :: s' =>
      if Ascii.eqb c ":" then Some ([], s')
      else if is_scheme_unit c then
        match scheme_rest s' with
        | Some (a, r) => Some (ascii_lower c :: a, r)
        | None => None
        end
      else None
  end.

(** Scheme start state and scheme state; without a scheme (and without a
    base URL) parsing fails. *)
Definition parse_scheme (s : jstring) : option (jstring * jstring) :=
  match s with
  | c :: s' =>
      if is_ascii_alpha c then
        match scheme_rest s' with
        | Some (a, r) => Some (ascii_lower c :: a, r)
        | None => None
        end
      else None
  | [] => None
  end.

Definition is_special (scheme : jstring) : bool :=
  bool_decide (scheme ∈ [str "ftp"; str "file"; str "http"; str "https";
                         str "ws"; str "wss"]).

(** *** Host *)

Definition is_forbidden_host_unit (c : ascii) : bool :=
  match code c with
  | 0 | 9 | 10 | 13 | 32 | 35 | 47 | 58 | 60 | 62 | 63 | 64
  | 91 | 92 | 93 | 94 | 124 => true
  | _ => false
  end%N.

Definition is_forbidden_domain_unit (c : ascii) : bool :=
  is_forbidden_host_unit c || (code c <? 32)%N
  || match code c with 37 | 127 => true | _ => false end%N.

Definition is_bracketed (h : jstring) : option bool :=
  match h with
  | c :: _ =>
      if Ascii.eqb c "[" then
        Some match rev h with
             | d :: _ => Ascii.eqb d "]"
             | [] => false
             end
      else None
  | [] => None
  end.

(** The host parser. *)
Definition parse_host (special : bool) (h : jstring) : option jstring :=
  match is_bracketed h with
  | Some closed => if closed then Some (map ascii_lower h) else None
  | None =>
      if special then
        let domain := map ascii_lower (percent_decode h) in
        if bool_decide (domain = []) then None
        else if existsb is_forbidden_domain_unit domain then None
        else Some domain
      else
        if existsb is_forbidden_host_unit h then None
        else Some (percent_encode in_c0_control_set h)
  end.

(** The authority state: what follows the last [@] is host and port; an
    [@] with nothing behind it is a failure. *)
Definition host_and_port (authority : jstring) : option jstring :=
  let '(rev_hostport, rev_credentials) :=
    span_until (Ascii.eqb "@") (rev authority) in
  if negb (bool_decide (rev_credentials = []))
     && bool_decide (rev_hostport = [])
  then None else Some (rev rev_hostport).

(** The host state: the host ends at the first colon outside of square
    brackets. *)
Fixpoint split_host_port (inside_brackets : bool) (s : jstring)
  : jstring * option jstring :=
  match s with
  | [] => ([], None)
  | c :: s' =>
      if Ascii.eqb c ":" && negb inside_brackets then ([], Some s')
      else
        let inside :=
          if Ascii.eqb c "[" then true
          else if Ascii.eqb c "]" then false else inside_brackets in
        let '(h, p) := split_host_port inside s' in (c :: h, p)
  end.

Fixpoint decimal_value (acc : N) (digits : jstring) : N :=
  match digits with
  | [] => acc
  | d :: rest => decimal_value (10 * acc + (code d - 48)) rest
  end.

(** The port state. *)
Definition valid_port (port : jstring) : bool :=
  forallb is_ascii_digit port && (decimal_value 0 port <=? 65535)%N.

Definition parse_authority (special : bool) (authority : jstring)
  : option jstring :=
  hostport ← host_and_port authority;
  let '(h, port) := split_host_port false hostport in
  match port with
  | Some p =>
      if bool_decide (h = []) then None
      else if valid_port p then parse_host special h else None
  | None =>
      if special && bool_decide (h = []) then None
      else parse_host special h
  end.

(** *** Path *)

Definition is_single_dot (segment : jstring) : bool :=
  bool_decide (map ascii_lower segment ∈ [str "."; str "%2e"]).

Definition is_double_dot (segment : jstring) : bool :=
  bool_decide (map ascii_lower segment
               ∈ [str ".."; str ".%2e"; str "%2e."; str "%2e%2e"]).

Definition is_drive_letter (normalized : bool) (segment : jstring) : bool :=
  match segment with
  | [a; b] =>
      is_ascii_alpha a
      && (Ascii.eqb b ":" || (negb normalized && Ascii.eqb b "|"))
  | _ => false
  end.

Definition shorten (file : bool) (path : list jstring) : list jstring :=
  match path with
  | [d] => if file && is_drive_letter true d then path else []
  | _ => removelast path
  end.

Definition normalize_drive (file : bool) (path : list jstring)
  (segment : jstring) : jstring :=
  match path, segment with
  | [], [a; b] =>
      if file && is_drive_letter false segment then [a; ":"%char] else segment
  | _, _ => segment
  end.

(** The pieces of [s] between the units that satisfy [sep]. *)
Fixpoint split_at (sep : ascii -> bool) (cur s : jstring) : list jstring :=
  match s with
  | [] => [cur]
  | c :: s' =>
      if sep c then cur :: split_at sep [] s'
      else split_at sep (cur ++ [c]) s'
  end.

(** The path state, one segment at a time; the last segment is the one
    that ends at the end of the path. *)
Fixpoint path_state (file : bool) (segments path : list jstring)
  : list jstring :=
  match segments with
  | [] => path
  | segment :: rest =>
      let last := bool_decide (rest = []) in
      let path' :=
        if is_double_dot segment then
          let p := shorten file path in if last then p ++ [[]] else p
        else if is_single_dot segment then
          if last then path ++ [[]] else path
        else path ++ [normalize_drive file path segment] in
      path_state file rest path'
  end.

Definition is_slash (special : bool) (c : ascii) : bool :=
  Ascii.eqb c "/" || (special && Ascii.eqb c "\").

(** Path state on what follows the slash that opened the path. *)
Definition parse_path (special file : bool) (after_slash : jstring)
  (path : list jstring) : list jstring :=
  path_state file
    (map (percent_encode in_path_set) (split_at (is_slash special) [] after_slash))
    path.

(** Path start state. *)
Definition path_start (special file : bool) (s : jstring) : list jstring :=
  match s with
  | [] => if special then parse_path special file [] [] else []
  | c :: s' =>
      if is_slash special c then parse_path special file s' []
      else parse_path special file s []
  end.

Definition serialize_path (path : list jstring) : jstring :=
  flat_map (fun segment => "/"%char :: segment) path.

(** *** The record and the parser *)

Record t := {
  scheme : jstring;
  hostname : jstring;
  pathname : jstring;
  (** the query, without its question mark *)
  query : jstring;
}.

Definition with_authority (special file : bool) (scheme authority path query : jstring)
  : option t :=
  host ← parse_authority special authority;
  Some {| scheme := scheme; hostname := host;
          pathname := serialize_path (path_start special file path);
          query := query |}.

(** The file host state. *)
Definition file_host (scheme after_slashes query : jstring) : option t :=
  let '(buffer, path) := span_until (is_slash true) after_slashes in
  if is_drive_letter false buffer then
    Some {| scheme := scheme; hostname := [];
            pathname := serialize_path (parse_path true true after_slashes []);
            query := query |}
  else if bool_decide (buffer = []) then
    Some {| scheme := scheme; hostname := [];
            pathname := serialize_path (path_start true true path);
            query := query |}
  else
    host ← parse_host true buffer;
    Some {| scheme := scheme;
            hostname := if bool_decide (host = str "localhost") then [] else host;
            pathname := serialize_path (path_start true true path);
            query := query |}.

Definition parse (input : jstring) : option t :=
  '(scheme, rest) ← parse_scheme (preprocess input);
  let special := is_special scheme in
  let '(before_fragment, _) := span_until (Ascii.eqb "#") rest in
  let '(body, question) := span_until (Ascii.eqb "?") before_fragment in
  let query := percent_encode (in_query_set special) (tail question) in
  if bool_decide (scheme = str "file") then
    (* file state, file slash state *)
    match body with
    | c :: d :: after =>
        if is_slash true c then
          if is_slash true d then file_host scheme after query
          else Some {| scheme := scheme; hostname := [];
                       pathname := serialize_path (parse_path true true (d :: after) []);
                       query := query |}
        else Some {| scheme := scheme; hostname := [];
                     pathname := serialize_path (parse_path true true body []);
                     query := query |}
    | [c] =>
        Some {| scheme := scheme; hostname := [];
                pathname := serialize_path
                              (parse_path true true (if is_slash true c then [] else body) []);
                query := query |}
    | [] =>
        Some {| scheme := scheme; hostname := [];
                pathname := serialize_path (parse_path true true [] []);
                query := query |}
    end
  else if special then
    (* special authority slashes and special authority ignore slashes *)
    let '(authority, path) :=
      span_until (is_slash true) (drop_while (is_slash true) body) in
    with_authority true false scheme authority path query
  else
    match body with
    | c :: body' =>
        if Ascii.eqb c "/" then
          (* path or authority state *)
          match body' with
          | d :: after =>
              if Ascii.eqb d "/" then
                let '(authority, path) := span_until (Ascii.eqb "/") after in
                with_authority false false scheme authority path query
              else Some {| scheme := scheme; hostname := [];
                           pathname := serialize_path (parse_path false false body' []);
                           query := query |}
          | [] => Some {| scheme := scheme; hostname := [];
                          pathname := serialize_path (parse_path false false [] []);
                          query := query |}
          end
        else
          (* opaque path state *)
          Some {| scheme := scheme; hostname := [];
                  pathname := percent_encode in_c0_control_set body;
                  query := query |}
    | [] => Some {| scheme := scheme; hostname := []; pathname := []; query := query |}
    end.

(** *** [searchParams.get]: the [application/x-www-form-urlencoded]
    parser on the query *)

Definition form_decode (s : jstring) : jstring :=
  percent_decode (map (fun c => if Ascii.eqb c "+" then " "%char else c) s).

Fixpoint first_value (name : jstring) (sequences : list jstring)
  : option jstring :=
  match sequences with
  | [] => None
  | [] :: rest => first_value name rest
  | sequence :: rest =>
      let '(n, v) := span_until (Ascii.eqb "=") sequence in
      if bool_decide (form_decode n = name) then Some (form_decode (tail v))
      else first_value name rest
  end.

Definition searchParams_get (url : t) (name : jstring) : option jstring :=
  first_value name (split_at (Ascii.eqb "&") [] (query url)).

End URL.

(** ** Video IDs: [extractVideoIdFromUrlOrId] *)

(** [/^[a-zA-Z0-9_-]+$/] on one unit *)
Definition is_video_id_unit (c : ascii) : bool :=
  URL.is_ascii_alpha c || URL.is_ascii_digit c
  || Ascii.eqb c "_" || Ascii.eqb c "-".

(** A well-formed video ID: [raw.length === 11 && /^[a-zA-Z0-9_-]+$/.test(raw)]. *)
Definition is_video_id (raw : jstring) : bool :=
  (length raw =? 11)%nat && forallb is_video_id_unit raw.

(** [candidate || null] *)
Definition nonempty_or_null (candidate : jstring) : option jstring :=
  if bool_decide (candidate = []) then None else Some candidate.

(** [s.split("/", 1)[0]] *)
Definition first_segment (s : jstring) : jstring :=
  fst (URL.span_until (Ascii.eqb "/") s).

Definition extractVideoIdFromUrlOrId (text : jstring) : option jstring :=
  let raw := JS.trim text in
  if bool_decide (raw = []) then None
  else if is_video_id raw then Some raw
  else
    match URL.parse raw with
    | None => None
    | Some parsed =>
        let host := JS.toLowerCase (URL.hostname parsed) in
        let pathname := URL.pathname parsed in
        if bool_decide (host = str "youtu.be") then
          nonempty_or_null
            (first_segment (URL.drop_while (Ascii.eqb "/") pathname))
        else if bool_decide (host = str "youtube.com")
                || JS.endsWith host (str ".youtube.com") then
          if bool_decide (pathname = str "/watch") then
            URL.searchParams_get parsed (str "v")
          else if JS.startsWith pathname (str "/live/") then
            nonempty_or_null
              (first_segment (drop (length (str "/live/")) pathname))
          else None
        else None
    end.

(** [`https://www.youtube.com/watch?v=${videoId}`] *)
Definition watch_url (videoId : jstring) : jstring :=
  str "https://www.youtube.com/watch?v=" ++ videoId.

(** ** The Ledger: [readExistingVideoIds], [appendNewLiveLinks] *)

Abbreviation filesystem := (gmap jstring jstring).

(** The body of the loop over lines that [readExistingVideoIds] and
    [readVideoIdQueue] share: the ID in the last white-space-delimited
    token of a line, if there is one ([if (id)]). *)
Definition line_video_id (line : jstring) : option jstring :=
  let stripped := JS.trim line in
  if bool_decide (stripped = []) then None
  else
    let parts := JS.split_whitespace stripped in
    let lastToken := List.last parts [] in
    match extractVideoIdFromUrlOrId lastToken with
    | Some id => if bool_decide (id = []) then None else Some id
    | None => None
    end.

(** The [Set] that the loop of [readExistingVideoIds] builds. *)
Definition video_ids_of_content (content : jstring) : list jstring :=
  fold_left
    (fun ids line =>
       match line_video_id line with
       | Some id => JS.Set_add id ids
       | None => ids
       end)
    (JS.split_lines content) [].

Definition readExistingVideoIds (fs : filesystem) (filePath : jstring)
  : list jstring :=
  match fs !! filePath with
  | None => []
  | Some content => video_ids_of_content content
  end.

(** [fs.appendFileSync]: the file is created when it is missing. *)
Definition appendFileSync (fs : filesystem) (path data : jstring) : filesystem :=
  <[path := default [] (fs !! path) ++ data]> fs.

(** The line written for a video:
    [withTimestamp ? `${timestamp}\t${url}\n` : `${url}\n`] *)
Definition ledger_line (withTimestamp : bool) (timestamp videoId : jstring)
  : jstring :=
  if withTimestamp then timestamp ++ [JS.TAB] ++ watch_url videoId ++ [JS.LF]
  else watch_url videoId ++ [JS.LF].

Record SavedResult := {
  savedVideoIds : list jstring;
  savedUrls : list jstring;
}.

(** The loop of [appendNewLiveLinks] with its locals [existing], [buffer],
    [savedVideoIds] and [savedUrls]. *)
Fixpoint appendNewLiveLinks_loop (withTimestamp : bool) (timestamp : jstring)
  (videoIds existing : list jstring) (buffer : jstring)
  (savedVideoIds savedUrls : list jstring)
  : jstring * list jstring * list jstring :=
  match videoIds with
  | [] => (buffer, savedVideoIds, savedUrls)
  | videoId :: rest =>
      if JS.Set_has existing videoId then
        appendNewLiveLinks_loop withTimestamp timestamp rest existing buffer
          savedVideoIds savedUrls
      else
        appendNewLiveLinks_loop withTimestamp timestamp rest
          (JS.Set_add videoId existing)
          (buffer ++ ledger_line withTimestamp timestamp videoId)
          (savedVideoIds ++ [videoId]) (savedUrls ++ [watch_url videoId])
  end.

(** [appendNewLiveLinks(outputPath, videoIds, { withTimestamp })];
    [timestamp] is what [utcNowIsoSeconds()] returns during the call. *)
Definition appendNewLiveLinks (fs : filesystem) (outputPath : jstring)
  (videoIds : list jstring) (withTimestamp : bool) (timestamp : jstring)
  : SavedResult * filesystem :=
  if bool_decide (videoIds = []) then
    ({| savedVideoIds := []; savedUrls := [] |}, fs)
  else
    let existing := readExistingVideoIds fs outputPath in
    let '(buffer, ids, urls) :=
      appendNewLiveLinks_loop withTimestamp timestamp videoIds existing [] [] [] in
    ({| savedVideoIds := ids; savedUrls := urls |},
     if bool_decide (buffer = []) then fs
     else appendFileSync fs outputPath buffer).

(** The first variant of the script ([yt_live_link_saver.js]) returns the
    URLs only. *)
Module Simple.

Fixpoint appendNewLiveLinks_loop (withTimestamp : bool) (timestamp : jstring)
  (videoIds existing : list jstring) (buffer : jstring) (saved : list jstring)
  : jstring * list jstring :=
  match videoIds with
  | [] => (buffer, saved)
  | videoId :: rest =>
      if JS.Set_has existing videoId then
        appendNewLiveLinks_loop withTimestamp timestamp rest existing buffer saved
      else
        appendNewLiveLinks_loop withTimestamp timestamp rest
          (JS.Set_add videoId existing)
          (buffer ++ ledger_line withTimestamp timestamp videoId)
          (saved ++ [watch_url videoId])
  end.

Definition appendNewLiveLinks (fs : filesystem) (outputPath : jstring)
  (videoIds : list jstring) (withTimestamp : bool) (timestamp : jstring)
  : list jstring * filesystem :=
  if bool_decide (videoIds = []) then ([], fs)
  else
    let existing := readExistingVideoIds fs outputPath in
    let '(buffer, saved) :=
      appendNewLiveLinks_loop withTimestamp timestamp videoIds existing [] [] in
    (saved,
     if bool_decide (buffer = []) then fs
     else appendFileSync fs outputPath buffer).

End Simple.

(** The idempotence law of the specification at one Ledger and one list of
    IDs: a second call with the same list returns empty results and leaves
    the file, hence its lines and the IDs extracted from it, as they
    are. *)
Definition second_append_appends_nothing (fs : filesystem)
  (outputPath : jstring) (videoIds : list jstring) (withTimestamp : bool)
  (timestamp1 timestamp2 : jstring) : Prop :=
  let fs1 := snd (appendNewLiveLinks fs outputPath videoIds withTimestamp timestamp1) in
  let '(again, fs2) :=
    appendNewLiveLinks fs1 outputPath videoIds withTimestamp timestamp2 in
  savedVideoIds again = [] /\ savedUrls again = [] /\ fs2 = fs1
  /\ readExistingVideoIds fs2 outputPath = readExistingVideoIds fs1 outputPath.

(** A Ledger whose last line is complete: the file is missing, empty, or
    ends with a line feed. *)
Definition ends_with_newline (fs : filesystem) (path : jstring) : Prop :=
  match fs !! path with
  | None => True
  | Some content => content = [] \/ exists before, content = before ++ [JS.LF]
  end.

(** A text that is empty or ends with a white-space unit: what stands in
    front of a URL that [appendNewLiveLinks] writes into a Ledger whose
    last line is complete. *)
Definition ends_with_whitespace (s : jstring) : Prop :=
  s = [] \/ exists before w, s = before ++ [w] /\ JS.is_whitespace w = true.

(** Ledgers for the examples. *)
Definition example_ledger_path : jstring := str "saved_live_links.txt".

(** One recorded video, the line complete. *)
Definition example_ledger : filesystem :=
  {[ example_ledger_path := str "https://youtu.be/aaaaaaaaaaa" ++ [JS.LF] ]}.

(** The same record after an editor dropped the final line feed. *)
Definition unterminated_ledger : filesystem :=
  {[ example_ledger_path := str "https://www.youtube.com/watch?v=aaaaaaaaaaa" ]}.

Definition example_timestamp : jstring := str "2024-01-01T00:00:00Z".

(** ** OAuth access tokens: [refreshAccessToken], [getYouTubeAccessToken],
       [getYouTubeAccessTokenAuto] *)

(** [s || null]: an empty string counts as missing. *)
Definition nonempty (o : option jstring) : option jstring :=
  match o with
  | Some [] => None
  | _ => o
  end.

(** The guard on [state.oauth]: a cached token is used when it is a
    non-empty string and [expiresAtMs - now > 60_000]. *)
Definition cached_token_if_fresh (o : OauthState) (now : Z) : option jstring :=
  match nonempty (cached_accessToken o) with
  | Some token =>
      if (60000 <? cached_expiresAtMs o - now)%Z then Some token else None
  | None => None
  end.

(** [Math.max(60_000, Number(expiresInSeconds || 0) * 1000)] *)
Definition ttl_ms (expiresInSeconds : option Z) : Z :=
  Z.max 60000 (default 0%Z expiresInSeconds * 1000).

Definition quote : ascii := ascii_of_N 34.

(** [JSON.stringify] of a string *)
Definition json_escape_unit (c : ascii) : jstring :=
  match N_of_ascii c with
  | 34 => ["\"%char; quote]
  | 92 => str "\\"
  | 8 => str "\b"
  | 9 => str "\t"
  | 10 => str "\n"
  | 12 => str "\f"
  | 13 => str "\r"
  | n =>
      if (n <? 32)%N
      then str "\u00"
           ++ [URL.ascii_lower (URL.hex_digit (n / 16));
               URL.ascii_lower (URL.hex_digit (n mod 16))]
      else [c]
  end%N.

Definition json_string (s : jstring) : jstring :=
  quote :: flat_map json_escape_unit s ++ [quote].

(** [`${JSON.stringify({ refresh_token, updated_at }, null, 2)}\n`] *)
Definition token_file_text (token updated_at : jstring) : jstring :=
  str "{" ++ [JS.LF]
  ++ str "  " ++ json_string (str "refresh_token") ++ str ": "
  ++ json_string token ++ str "," ++ [JS.LF]
  ++ str "  " ++ json_string (str "updated_at") ++ str ": "
  ++ json_string updated_at ++ [JS.LF]
  ++ str "}" ++ [JS.LF].

Section Program.
Context {W : Type} `{Remote W}.

Definition get_state : M W (State W) := fun st => (Ok st, st).

Definition diverge {A} : M W A := fun st => (Diverge, st).

(** [fs.writeFileSync] *)
Definition writeFileSync (path content : jstring) : M W unit :=
  fun st =>
    (Ok tt, {| files := <[path := content]> (files st);
               oauthState := oauthState st;
               channelIdByInput := channelIdByInput st;
               world := world st;
               trace := trace st ++ [WroteFile path content] |}).

(** [try { fs.unlinkSync(path) } catch { }] *)
Definition unlinkSync_ignore (path : jstring) : M W unit :=
  fun st =>
    (Ok tt, {| files := delete path (files st);
               oauthState := oauthState st;
               channelIdByInput := channelIdByInput st;
               world := world st;
               trace := trace st ++ [Unlinked path] |}).

Definition refreshAccessToken (oauth : OauthConfig) : M W (jstring * option Z) :=
  match nonempty (oauth_clientId oauth), nonempty (oauth_clientSecret oauth),
        nonempty (oauth_refreshToken oauth) with
  | Some clientId, Some clientSecret, Some refreshToken =>
      data <- net (CallTokenRefresh clientId clientSecret refreshToken)
                (remote_tokenRefresh clientId clientSecret refreshToken) ;;
      let token := Js.string_or_null (Js.get data (str "access_token")) in
      let expiresIn :=
        match Js.get data (str "expires_in") with
        | JNumber n => Some n
        | _ => None
        end in
      match nonempty token with
      | Some accessToken => ret (accessToken, expiresIn)
      | None =>
          throw (str "OAuth token refresh succeeded but no access_token was returned.")
      end
  | _, _, _ =>
      throw (str "Missing OAuth credentials. Set YOUTUBE_OAUTH_CLIENT_ID, YOUTUBE_OAUTH_CLIENT_SECRET, and YOUTUBE_OAUTH_REFRESH_TOKEN (or pass --oauth-... flags).")
  end.

(** [if (oauthState) { oauthState.accessToken = ...; oauthState.expiresAtMs
    = now + ttlMs; }] *)
Definition cache_access_token (accessToken : jstring) (now : Z)
  (expiresInSeconds : option Z) : M W unit :=
  fun st =>
    match oauthState st with
    | Some _ =>
        (Ok tt,
         set_oauthState
           (Some {| cached_accessToken := Some accessToken;
                    cached_expiresAtMs := now + ttl_ms expiresInSeconds |}) st)
    | None => (Ok tt, st)
    end.

Definition getYouTubeAccessToken (oauth : OauthConfig) : M W jstring :=
  match nonempty (oauth_accessToken oauth) with
  | Some accessTokenFromEnv => ret accessTokenFromEnv
  | None =>
      st <- get_state ;;
      now <- ask clock_now ;;
      match oauthState st ≫= (fun o => cached_token_if_fresh o now) with
      | Some cached => ret cached
      | None =>
          refreshed <- refreshAccessToken oauth ;;
          cache_access_token refreshed.1 now refreshed.2 ;;;
          ret refreshed.1
      end
  end.

Definition writeOauthRefreshTokenToFile (filePath refreshToken : jstring)
  : M W unit :=
  let token := JS.trim refreshToken in
  if bool_decide (token = []) then
    throw (str "Refusing to write empty OAuth refresh token.")
  else
    updated_at <- ask clock_timestamp ;;
    writeFileSync filePath (token_file_text token updated_at).

(** [autoSetup] is [shouldAutoSetupOauth(args)]. *)
Definition getYouTubeAccessTokenAuto (oauth : OauthConfig) (autoSetup : bool)
  : M W jstring :=
  match nonempty (oauth_accessToken oauth) with
  | Some accessTokenFromEnv => ret accessTokenFromEnv
  | None =>
      st <- get_state ;;
      now <- ask clock_now ;;
      match oauthState st ≫= (fun o => cached_token_if_fresh o now) with
      | Some cached => ret cached
      | None =>
          match nonempty (oauth_refreshToken oauth) with
          | None =>
              if bool_decide (nonempty (oauth_clientId oauth) = None)
                 || bool_decide (nonempty (oauth_clientSecret oauth) = None)
              then throw (str "Missing OAuth client. Set YOUTUBE_OAUTH_CLIENT_ID and YOUTUBE_OAUTH_CLIENT_SECRET, then run --oauth-setup (or run once interactively with playlist saving enabled).")
              else if negb autoSetup
              then throw (str "Missing OAuth refresh token. Run --oauth-setup once (interactive), or set YOUTUBE_OAUTH_REFRESH_TOKEN.")
              else
                obtained <- net CallTokenInteractive (remote_tokenInteractive oauth) ;;
                let '(refreshToken, accessToken, expiresInSeconds) := obtained in
                match nonempty (oauth_tokenFilePath oauth) with
                | Some tokenFilePath =>
                    writeOauthRefreshTokenToFile tokenFilePath refreshToken
                | None => ret tt
                end ;;;
                cache_access_token accessToken now expiresInSeconds ;;;
                ret accessToken
          | Some _ => getYouTubeAccessToken oauth
          end
      end
  end.

(** ** The Retry Queue and the playlist *)

Definition readVideoIdQueue (fs : filesystem) (queuePath : jstring)
  : list jstring :=
  match fs !! queuePath with
  | None => []
  | Some content =>
      uniqueExactStrings (omap line_video_id (JS.split_lines content))
  end.

(** [`${ids.join("\n")}\n`] *)
Definition queue_text (ids : list jstring) : jstring :=
  JS.join [JS.LF] ids ++ [JS.LF].

Definition writeVideoIdQueue (queuePath : jstring) (videoIds : list jstring)
  : M W unit :=
  let ids := uniqueExactStrings videoIds in
  if bool_decide (ids = []) then unlinkSync_ignore queuePath
  else writeFileSync queuePath (queue_text ids).

(** The loop of [addVideoIdsToPlaylist] with its locals [addedCount] and
    [failures] (pairs of [videoId] and [message]). *)
Fixpoint addVideoIdsToPlaylist_loop (accessToken playlistId : jstring)
  (ids : list jstring) (addedCount : nat) (failures : list (jstring * jstring))
  : M W (nat * list (jstring * jstring)) :=
  match ids with
  | [] => ret (addedCount, failures)
  | videoId :: rest =>
      failed <- try_catch
                  (net (CallInsert accessToken playlistId videoId)
                     (remote_insert accessToken playlistId videoId) ;;;
                   ret None)
                  (fun message => ret (Some message)) ;;
      match failed with
      | None =>
          addVideoIdsToPlaylist_loop accessToken playlistId rest
            (S addedCount) failures
      | Some message =>
          addVideoIdsToPlaylist_loop accessToken playlistId rest
            addedCount (failures ++ [(videoId, message)])
      end
  end.

Definition addVideoIdsToPlaylist (accessToken playlistId : jstring)
  (videoIds : list jstring) : M W (nat * list (jstring * jstring)) :=
  addVideoIdsToPlaylist_loop accessToken playlistId
    (uniqueExactStrings videoIds) 0 [].

(** The video ID of an item of a playlist page, when it is a non-empty
    string. *)
Definition item_contentVideoId (item : jsval) : option jstring :=
  if Js.truthy item && Js.truthy (Js.get item (str "contentDetails"))
  then nonempty (Js.string_or_null
                   (Js.get (Js.get item (str "contentDetails")) (str "videoId")))
  else None.

(** The [while (true)] loop of [fetchPlaylistVideoIdSet]; [fuel] bounds the
    number of pages the model follows. *)
Fixpoint fetchPlaylistVideoIdSet_loop (fuel : nat) (accessToken playlistId : jstring)
  (pageToken : option jstring) (ids : list jstring) : M W (list jstring) :=
  match fuel with
  | O => diverge
  | S fuel' =>
      data <- net (CallPlaylistItems accessToken playlistId pageToken)
                (remote_playlistItems accessToken playlistId pageToken) ;;
      data_items <- member data (str "items") ;;
      let items := Js.array_or_empty data_items in
      let ids' :=
        fold_left (fun ids item =>
                     match item_contentVideoId item with
                     | Some videoId => JS.Set_add videoId ids
                     | None => ids
                     end) items ids in
      data_nextPageToken <- member data (str "nextPageToken") ;;
      match nonempty (Js.string_or_null data_nextPageToken) with
      | None => ret ids'
      | Some nextToken =>
          fetchPlaylistVideoIdSet_loop fuel' accessToken playlistId
            (Some nextToken) ids'
      end
  end.

Definition fetchPlaylistVideoIdSet (fuel : nat) (accessToken playlistId : jstring)
  : M W (list jstring) :=
  fetchPlaylistVideoIdSet_loop fuel accessToken playlistId None [].

(** What [flushPlaylistQueue] and [syncOutputFileToPlaylist] return
    ([synced] is set by the latter only). *)
Record PlaylistResult := {
  res_queuePath : jstring;
  res_playlistId : option jstring;
  res_addedCount : nat;
  res_failures : list (jstring * jstring);
  res_remainingCount : nat;
  res_synced : option bool;
}.

(** The settings of a run, as [runOnce] reads them from [args] and from
    the environment at its start. *)
Record Config := {
  (** [args.apiKey || process.env.YOUTUBE_API_KEY] *)
  cfg_apiKey : option jstring;
  (** [getChannelInputs(args)] *)
  cfg_channelInputs : list jstring;
  (** [resolveOutputPath(...)] *)
  cfg_outputPath : jstring;
  (** [resolvePlaylistQueuePath(outputPath)] *)
  cfg_queuePath : jstring;
  (** [resolvePlaylistStatePath(outputPath)] *)
  cfg_statePath : jstring;
  (** What [resolveOauthConfig(args)] returns when the token is acquired.
      It reads the refresh token from the token file when none is set;
      that file is taken as it is at the start of the run, which is what
      the call sees as long as the run writes no other file to the token
      file's path. *)
  cfg_oauth : OauthConfig;
  (** [shouldAutoSetupOauth(args)] *)
  cfg_autoSetup : bool;
  cfg_withTimestamp : bool;
  cfg_saveToPlaylist : bool;
  cfg_playlistSyncOutputEnabled : bool;
  (** [shouldSyncOutputToPlaylist(playlistState, playlistTargetKey,
      outputFingerprintAtStart)], as evaluated at the start of the run *)
  cfg_shouldSyncOutput : bool;
  (** [scanLatest], after the defaults were applied *)
  cfg_scanLatest : Z;
  (** [isDebugEnabled(args)] *)
  cfg_debug : bool;
}.

Definition playlist_failure (cfg : Config) (message : jstring)
  (remaining : nat) (synced : option bool) : PlaylistResult :=
  {| res_queuePath := cfg_queuePath cfg; res_playlistId := None;
     res_addedCount := 0; res_failures := [(str "playlist", message)];
     res_remainingCount := remaining; res_synced := synced |}.

Definition playlist_nothing (cfg : Config) (playlistId : option jstring)
  (remaining : nat) (synced : option bool) : PlaylistResult :=
  {| res_queuePath := cfg_queuePath cfg; res_playlistId := playlistId;
     res_addedCount := 0; res_failures := [];
     res_remainingCount := remaining; res_synced := synced |}.

(** [mergedQueue.filter((id) => failedIds.has(id))] *)
Definition failed_of (failures : list (jstring * jstring)) (ids : list jstring)
  : list jstring :=
  List.filter (fun id => JS.Set_has (map fst failures) id) ids.

Definition resolveTargetPlaylistId (accessToken : jstring) : M W jstring :=
  net (CallResolvePlaylist accessToken) (remote_resolvePlaylist accessToken).

Definition flushPlaylistQueue (cfg : Config) (newVideoIds : list jstring)
  (ensurePlaylist : bool) : M W PlaylistResult :=
  let queuePath := cfg_queuePath cfg in
  st <- get_state ;;
  let existingQueue := readVideoIdQueue (files st) queuePath in
  if bool_decide (existingQueue = []) && bool_decide (newVideoIds = []) then
    if negb ensurePlaylist then ret (playlist_nothing cfg None 0 None)
    else
      try_catch
        (accessToken <- getYouTubeAccessTokenAuto (cfg_oauth cfg) (cfg_autoSetup cfg) ;;
         playlistId <- resolveTargetPlaylistId accessToken ;;
         ret (playlist_nothing cfg (Some playlistId) 0 None))
        (fun message => ret (playlist_failure cfg message 0 None))
  else
    let mergedQueue := uniqueExactStrings (existingQueue ++ newVideoIds) in
    writeVideoIdQueue queuePath mergedQueue ;;;
    if bool_decide (mergedQueue = []) then ret (playlist_nothing cfg None 0 None)
    else
      try_catch
        (accessToken <- getYouTubeAccessTokenAuto (cfg_oauth cfg) (cfg_autoSetup cfg) ;;
         playlistId <- resolveTargetPlaylistId accessToken ;;
         result <- addVideoIdsToPlaylist accessToken playlistId mergedQueue ;;
         let remaining := failed_of result.2 mergedQueue in
         writeVideoIdQueue queuePath remaining ;;;
         ret {| res_queuePath := queuePath; res_playlistId := Some playlistId;
                res_addedCount := result.1; res_failures := result.2;
                res_remainingCount := length remaining; res_synced := None |})
        (fun message =>
           ret (playlist_failure cfg message (length mergedQueue) None)).

(** [desiredIds.filter((id) => !alreadyInPlaylist.has(id))] *)
Definition missing_from (alreadyInPlaylist desiredIds : list jstring)
  : list jstring :=
  List.filter (fun id => negb (JS.Set_has alreadyInPlaylist id)) desiredIds.

Definition syncOutputFileToPlaylist (cfg : Config) (fuel : nat)
  : M W PlaylistResult :=
  let queuePath := cfg_queuePath cfg in
  st <- get_state ;;
  let existingQueue := readVideoIdQueue (files st) queuePath in
  let outputIds := readExistingVideoIds (files st) (cfg_outputPath cfg) in
  let desiredIds := uniqueExactStrings (existingQueue ++ outputIds) in
  if bool_decide (desiredIds = []) then
    ret (playlist_nothing cfg None (length existingQueue) (Some true))
  else
    try_catch
      (accessToken <- getYouTubeAccessTokenAuto (cfg_oauth cfg) (cfg_autoSetup cfg) ;;
       playlistId <- resolveTargetPlaylistId accessToken ;;
       alreadyInPlaylist <- fetchPlaylistVideoIdSet fuel accessToken playlistId ;;
       let pending := missing_from alreadyInPlaylist desiredIds in
       if bool_decide (pending = []) then
         (if bool_decide (existingQueue = []) then ret tt
          else writeVideoIdQueue queuePath []) ;;;
         ret (playlist_nothing cfg (Some playlistId) 0 (Some true))
       else
         result <- addVideoIdsToPlaylist accessToken playlistId pending ;;
         let remaining := failed_of result.2 pending in
         writeVideoIdQueue queuePath remaining ;;;
         ret {| res_queuePath := queuePath; res_playlistId := Some playlistId;
                res_addedCount := result.1; res_failures := result.2;
                res_remainingCount := length remaining;
                res_synced := Some true |})
      (fun message =>
         ret (playlist_failure cfg message (length desiredIds) (Some false))).

End Program.

(** ** The expiry guard, in the words of the specification *)

Section ExpiryGuard.
Context {W : Type} `{Remote W}.

(** A token is cached and strictly more than 60 seconds remain before its
    recorded expiry, at the time [Date.now()] returns in [st]. *)
Definition cached_token_fresh (st : State W) (token : jstring) : Prop :=
  exists o, oauthState st = Some o
    /\ nonempty (cached_accessToken o) = Some token
    /\ (60000 < cached_expiresAtMs o - (clock_now (world st)).1)%Z.




End ExpiryGuard.

(** Settings that carry a refresh token but no client ID, as
    [resolveOauthConfig] returns them when [YOUTUBE_OAUTH_REFRESH_TOKEN] and
    [YOUTUBE_OAUTH_CLIENT_SECRET] are set and [YOUTUBE_OAUTH_CLIENT_ID] is
    not. *)
Definition example_no_client_oauth : OauthConfig := {|
  oauth_accessToken := None;
  oauth_clientId := None;
  oauth_clientSecret := Some (str "secret");
  oauth_refreshToken := Some (str "refresh");
  oauth_tokenFilePath := None;
|}.

Definition example_refresh_oauth : OauthConfig := {|
  oauth_accessToken := None;
  oauth_clientId := Some (str "client");
  oauth_clientSecret := Some (str "secret");
  oauth_refreshToken := Some (str "refresh");
  oauth_tokenFilePath := None;
|}.

(** A world whose token endpoint answers with a token valid for an hour, at
    clock time 100000. *)
Definition example_refresh_world : Script := {|
  script_videos := script_videos silent_world;
  script_channel := script_channel silent_world;
  script_live := script_live silent_world;
  script_refresh :=
    Reply (JObject [(str "access_token", JString (str "new-token"));
                    (str "expires_in", JNumber 3600)]);
  script_interactive := script_interactive silent_world;
  script_playlist := script_playlist silent_world;
  script_pages := [];
  script_insert := script_insert silent_world;
  script_now := 100000;
  script_timestamp := script_timestamp silent_world;
  script_syncState := script_syncState silent_world;
|}.

(** The cached token has 20 seconds left. *)
Definition example_stale_state : State Script := {|
  files := ∅;
  oauthState := Some {| cached_accessToken := Some (str "cached-token");
                        cached_expiresAtMs := 120000 |};
  channelIdByInput := ∅;
  world := example_refresh_world;
  trace := [];
|}.

(** ** Reading a trace *)

(** The events a computation added to the trace. *)
Definition new_events {W : Type} (before after : State W) : list event :=
  drop (length (trace before)) (trace after).

(** An insertion of [videoId] into the playlist was requested and
    succeeded. *)
Definition inserted_ok (events : list event) (videoId : jstring) : bool :=
  existsb (fun e =>
             match e with
             | Net (CallInsert _ _ v) true => bool_decide (v = videoId)
             | _ => false
             end) events.

(** An insertion of [videoId] into the playlist was requested. *)
Definition insert_requested (events : list event) (videoId : jstring) : bool :=
  existsb (fun e =>
             match e with
             | Net (CallInsert _ _ v) _ => bool_decide (v = videoId)
             | _ => false
             end) events.

Definition is_insert_event (e : event) : bool :=
  match e with
  | Net (CallInsert _ _ _) _ => true
  | _ => false
  end.

Definition is_net_event (e : event) : bool :=
  match e with
  | Net _ _ => true
  | _ => false
  end.

(** The event writes, appends to or removes the file [path]. *)
Definition touches (path : jstring) (e : event) : bool :=
  match e with
  | WroteFile p _ | AppendedFile p _ | Unlinked p => bool_decide (p = path)
  | Net _ _ => false
  end.

(** The Retry Queue file holds exactly [ids]: their lines when there are
    some, no file when there are none. *)
Definition queue_holds (fs : filesystem) (queuePath : jstring)
  (ids : list jstring) : Prop :=
  fs !! queuePath = if bool_decide (ids = []) then None else Some (queue_text ids).

Section QueueLaws.
Context {W : Type} `{Remote W}.

(** The merged queue of a flush: the queue on disk, then the new IDs. *)
Definition merged_queue (cfg : Config) (newVideoIds : list jstring)
  (st : State W) : list jstring :=
  uniqueExactStrings
    (readVideoIdQueue (files st) (cfg_queuePath cfg) ++ newVideoIds).

(** The law of the specification for one flush: afterwards the queue file
    holds precisely the entries of the merged queue whose insertion did not
    succeed, and is gone when there is none. *)
Definition queue_after_flush_as_stated (cfg : Config)
  (newVideoIds : list jstring) (ensurePlaylist : bool) (st : State W) : Prop :=
  let st' := (flushPlaylistQueue cfg newVideoIds ensurePlaylist st).2 in
  queue_holds (files st') (cfg_queuePath cfg)
    (List.filter (fun id => negb (inserted_ok (new_events st st') id))
       (merged_queue cfg newVideoIds st)).

End QueueLaws.

(** [quiet path st st']: between [st] and [st'] the file [path] was left
    alone and no insertion into the playlist was requested. *)
Definition quiet {W : Type} (path : jstring) (st st' : State W) : Prop :=
  files st' !! path = files st !! path
  /\ exists events,
       trace st' = trace st ++ events
       /\ Forall (fun e => is_insert_event e = false /\ touches path e = false)
            events.

(** ** Example runs of the playlist side *)

Definition example_queue_path : jstring := str "saved_live_links.playlist_queue.txt".

Definition example_state_path : jstring := str "saved_live_links.playlist_state.json".

Definition example_config : Config := {|
  cfg_apiKey := Some (str "key");
  cfg_channelInputs := [str "@channel"];
  cfg_outputPath := example_ledger_path;
  cfg_queuePath := example_queue_path;
  cfg_statePath := example_state_path;
  cfg_oauth := example_refresh_oauth;
  cfg_autoSetup := false;
  cfg_withTimestamp := false;
  cfg_saveToPlaylist := true;
  cfg_playlistSyncOutputEnabled := true;
  cfg_shouldSyncOutput := false;
  cfg_scanLatest := 50;
  cfg_debug := false;
|}.

(** A world that grants a token and a playlist and refuses the insertion of
    one video, [video000001]. *)
Definition example_playlist_world : Script := {|
  script_videos := script_videos silent_world;
  script_channel := fun _ => Reply (str "UCxxxxxxxxxxxxxxxxxxxxxx");
  script_live := fun _ => Reply [str "video000003"];
  script_refresh :=
    Reply (JObject [(str "access_token", JString (str "new-token"));
                    (str "expires_in", JNumber 3600)]);
  script_interactive := script_interactive silent_world;
  script_playlist := Reply (str "PL1");
  script_pages :=
    [Reply (JObject [(str "items", JArray [
       JObject [(str "contentDetails",
                 JObject [(str "videoId", JString (str "video000002"))])]])])];
  script_insert := fun videoId =>
    if bool_decide (videoId = str "video000001") || bool_decide (videoId = str "v1")
    then Fail (str "HTTP 403: quotaExceeded") else Reply tt;
  script_now := 100000;
  script_timestamp := script_timestamp silent_world;
  script_syncState := script_syncState silent_world;
|}.

(** A Retry Queue with two entries. *)
Definition example_queue : filesystem :=
  {[ example_queue_path := queue_text [str "video000001"; str "video000002"] ]}.

(** A queue file that holds a blank line only. *)
Definition blank_queue : filesystem := {[ example_queue_path := [JS.LF] ]}.

(** ** One run: [runOnce] *)

(** [needsPlaylistBackfill] *)
Definition needsPlaylistBackfill (cfg : Config) : bool :=
  cfg_playlistSyncOutputEnabled cfg && cfg_shouldSyncOutput cfg.

(** [`[${channelInput}] ${message}`] *)
Definition channel_error (channelInput message : jstring) : jstring :=
  str "[" ++ channelInput ++ str "] " ++ message.

(** [for (const id of liveVideoIds) allLiveVideoIds.add(id)] *)
Definition add_all (liveVideoIds allLiveVideoIds : list jstring) : list jstring :=
  fold_left (fun all id => JS.Set_add id all) liveVideoIds allLiveVideoIds.

(** [errors.length || playlistFailures.length ? 1 : 0] *)
Definition exit_code (errors : list jstring)
  (playlistFailures : list (jstring * jstring)) : Z :=
  if bool_decide (errors = []) && bool_decide (playlistFailures = []) then 0%Z
  else 1%Z.

Section Run.
Context {W : Type} `{Remote W}.

(** The loop over [channelInputs] of [runOnce] with its locals
    [allLiveVideoIds] and [errors]; [attempt] is the body of the [try]
    block and [count] is [channelInputs.length]. *)
Fixpoint channel_loop (attempt : jstring -> M W (list jstring)) (count : nat)
  (channelInputs allLiveVideoIds errors : list jstring)
  : M W (list jstring * list jstring) :=
  match channelInputs with
  | [] => ret (allLiveVideoIds, errors)
  | channelInput :: rest =>
      found <- try_catch
                 (liveVideoIds <- attempt channelInput ;; ret (inl liveVideoIds))
                 (fun message =>
                    if bool_decide (count = 1) then throw message
                    else ret (inr message)) ;;
      match found with
      | inl liveVideoIds =>
          channel_loop attempt count rest
            (add_all liveVideoIds allLiveVideoIds) errors
      | inr message =>
          channel_loop attempt count rest allLiveVideoIds
            (errors ++ [channel_error channelInput message])
      end
  end.

(** [channelIdByInput.set(channelInput, channelId)] *)
Definition remember_channel (channelInput channelId : jstring) : M W unit :=
  fun st =>
    (Ok tt,
     set_channelIdByInput (<[channelInput := channelId]> (channelIdByInput st)) st).

(** The [try] block for one channel: the channel ID comes from
    [channelIdByInput] or is resolved and remembered, then the live videos
    of the channel are fetched. *)
Definition discover_channel (channelInput : jstring) : M W (list jstring) :=
  st <- get_state ;;
  channelId <-
    match nonempty (channelIdByInput st !! channelInput) with
    | Some channelId => ret channelId
    | None =>
        channelId <- net (CallResolveChannel channelInput)
                       (remote_resolveChannelId channelInput) ;;
        remember_channel channelInput channelId ;;;
        ret channelId
    end ;;
  net (CallLiveVideoIds channelId) (remote_liveVideoIds channelId).

(** [fs.appendFileSync(path, data, "utf8")] *)
Definition appendFile (path data : jstring) : M W unit :=
  fun st =>
    (Ok tt, {| files := appendFileSync (files st) path data;
               oauthState := oauthState st;
               channelIdByInput := channelIdByInput st;
               world := world st;
               trace := trace st ++ [AppendedFile path data] |}).

(** [appendNewLiveLinks] as a step of a run: the Ledger is read, the clock
    is asked for the timestamp, and the new lines are appended. *)
Definition saveNewLiveLinks (outputPath : jstring) (videoIds : list jstring)
  (withTimestamp : bool) : M W SavedResult :=
  if bool_decide (videoIds = []) then
    ret {| savedVideoIds := []; savedUrls := [] |}
  else
    st <- get_state ;;
    let existing := readExistingVideoIds (files st) outputPath in
    timestamp <- ask clock_timestamp ;;
    let '(buffer, ids, urls) :=
      appendNewLiveLinks_loop withTimestamp timestamp videoIds existing [] [] [] in
    (if bool_decide (buffer = []) then ret tt else appendFile outputPath buffer) ;;;
    ret {| savedVideoIds := ids; savedUrls := urls |}.

(** [writePlaylistSyncState(playlistStatePath, {playlistKey, playlistId,
    outputPath})] *)
Definition writePlaylistSyncState (cfg : Config) (playlistId : option jstring)
  : M W unit :=
  text <- ask (sync_state_text playlistId) ;;
  writeFileSync (cfg_statePath cfg) text.

(** [Boolean(result.synced)] *)
Definition synced (result : PlaylistResult) : bool :=
  match res_synced result with
  | Some true => true
  | _ => false
  end.

(** The block [if (saveToPlaylist) { ... }] of [runOnce], which both
    branches of the run share: backfill or flush, then the Sync State.
    What it leaves in [playlistFailures] is returned. *)
Definition playlist_phase (cfg : Config) (fuel : nat) (newVideoIds : list jstring)
  (ensurePlaylist : bool) : M W (list (jstring * jstring)) :=
  result <- (if needsPlaylistBackfill cfg then syncOutputFileToPlaylist cfg fuel
             else flushPlaylistQueue cfg newVideoIds ensurePlaylist) ;;
  let outputSyncOk :=
    if needsPlaylistBackfill cfg then synced result else true in
  (if cfg_playlistSyncOutputEnabled cfg
      && (negb (needsPlaylistBackfill cfg) || outputSyncOk)
   then writePlaylistSyncState cfg (res_playlistId result)
   else ret tt) ;;;
  ret (res_failures result).

(** [runOnce] from the end of the loop over channels on: nothing is live,
    or the links are saved; with playlist saving enabled the playlist
    follows. *)
Definition after_discovery (cfg : Config) (fuel : nat)
  (liveVideoIds errors : list jstring) : M W Z :=
  if bool_decide (liveVideoIds = []) then
    playlistFailures <-
      (if cfg_saveToPlaylist cfg then playlist_phase cfg fuel [] (cfg_debug cfg)
       else ret []) ;;
    ret (exit_code errors playlistFailures)
  else
    savedResult <- saveNewLiveLinks (cfg_outputPath cfg) liveVideoIds
                     (cfg_withTimestamp cfg) ;;
    playlistFailures <-
      (if cfg_saveToPlaylist cfg
       then playlist_phase cfg fuel (savedVideoIds savedResult) false
       else ret []) ;;
    ret (exit_code errors playlistFailures).

(** [runOnce(args, state)]; what it returns is the exit code of the run. *)
Definition runOnce (cfg : Config) (fuel : nat) : M W Z :=
  if bool_decide (nonempty (cfg_apiKey cfg) = None) then ret 2%Z
  else if bool_decide (cfg_channelInputs cfg = []) then ret 2%Z
  else if (cfg_scanLatest cfg <=? 0)%Z || (50 <? cfg_scanLatest cfg)%Z then ret 2%Z
  else
    found <- channel_loop discover_channel (length (cfg_channelInputs cfg))
               (cfg_channelInputs cfg) [] [] ;;
    after_discovery cfg fuel found.1 found.2.

End Run.

(** The first variant of the script ([yt_live_link_saver.js]): no memory
    of channel IDs, no playlist. *)
Module Saver.
Section Run.
Context {W : Type} `{Remote W}.

(** The [try] block for one channel: [resolveChannelId], then
    [fetchLiveVideoIds]. *)
Definition discover_channel (channelInput : jstring) : M W (list jstring) :=
  channelId <- net (CallResolveChannel channelInput)
                 (remote_resolveChannelId channelInput) ;;
  net (CallLiveVideoIds channelId) (remote_liveVideoIds channelId).

(** [runOnce] from the end of the loop over channels on.  The
    [appendNewLiveLinks] of this variant writes what the other one writes
    and returns the URLs only, which [runOnce] prints. *)
Definition after_discovery (cfg : Config) (liveVideoIds errors : list jstring)
  : M W Z :=
  if bool_decide (liveVideoIds = []) then ret (exit_code errors [])
  else
    saveNewLiveLinks (cfg_outputPath cfg) liveVideoIds (cfg_withTimestamp cfg) ;;;
    ret (exit_code errors []).

(** [runOnce(args)] *)
Definition runOnce (cfg : Config) : M W Z :=
  if bool_decide (nonempty (cfg_apiKey cfg) = None) then ret 2%Z
  else if bool_decide (cfg_channelInputs cfg = []) then ret 2%Z
  else
    found <- channel_loop discover_channel (length (cfg_channelInputs cfg))
               (cfg_channelInputs cfg) [] [] ;;
    after_discovery cfg found.1 found.2.

End Run.
End Saver.

(** ** Channel failures, in the words of the specification *)

Section Channels.
Context {W : Type} `{Remote W}.

(** Every channel is attempted, in order, each in the state its
    predecessor left behind, whatever became of the predecessor. *)
Fixpoint attempt_each (attempt : jstring -> M W (list jstring))
  (channelInputs : list jstring) (st : State W)
  : list (jstring * outcome (list jstring)) * State W :=
  match channelInputs with
  | [] => ([], st)
  | channelInput :: rest =>
      let '(o, st1) := attempt channelInput st in
      let '(os, st2) := attempt_each attempt rest st1 in
      ((channelInput, o) :: os, st2)
  end.

(** The union of the live videos of the channels that succeeded. *)
Definition live_union (attempts : list (jstring * outcome (list jstring)))
  : list jstring :=
  fold_left (fun all a =>
               match a.2 with
               | Ok liveVideoIds => add_all liveVideoIds all
               | _ => all
               end) attempts [].

(** One recorded error per channel that failed. *)
Definition recorded_errors (attempts : list (jstring * outcome (list jstring)))
  : list jstring :=
  omap (fun a =>
          match a.2 with
          | Throw message => Some (channel_error a.1 message)
          | _ => None
          end) attempts.

End Channels.
(** ** Example runs over several channels *)

(** Three channels; the second one cannot be resolved. *)
Definition example_channels_world : Script := {|
  script_videos := script_videos silent_world;
  script_channel := fun input =>
    if bool_decide (input = str "@second") then Fail (str "HTTP 404: channelNotFound")
    else Reply (str "UC" ++ input);
  script_live := fun channelId =>
    if bool_decide (channelId = str "UC@first") then Reply [str "video000001"]
    else Reply [str "video000003"; str "video000001"];
  script_refresh := script_refresh silent_world;
  script_interactive := script_interactive silent_world;
  script_playlist := script_playlist silent_world;
  script_pages := [];
  script_insert := script_insert silent_world;
  script_now := script_now silent_world;
  script_timestamp := script_timestamp silent_world;
  script_syncState := script_syncState silent_world;
|}.

Definition example_channels_config : Config := {|
  cfg_apiKey := Some (str "key");
  cfg_channelInputs := [str "@first"; str "@second"; str "@third"];
  cfg_outputPath := example_ledger_path;
  cfg_queuePath := example_queue_path;
  cfg_statePath := example_state_path;
  cfg_oauth := example_refresh_oauth;
  cfg_autoSetup := false;
  cfg_withTimestamp := false;
  cfg_saveToPlaylist := false;
  cfg_playlistSyncOutputEnabled := false;
  cfg_shouldSyncOutput := false;
  cfg_scanLatest := 50;
  cfg_debug := false;
|}.

(** The same run with the failing channel alone. *)
Definition example_single_channel_config : Config := {|
  cfg_apiKey := Some (str "key");
  cfg_channelInputs := [str "@second"];
  cfg_outputPath := example_ledger_path;
  cfg_queuePath := example_queue_path;
  cfg_statePath := example_state_path;
  cfg_oauth := example_refresh_oauth;
  cfg_autoSetup := false;
  cfg_withTimestamp := false;
  cfg_saveToPlaylist := false;
  cfg_playlistSyncOutputEnabled := false;
  cfg_shouldSyncOutput := false;
  cfg_scanLatest := 50;
  cfg_debug := false;
|}.
(** ** Playlist failures, in the words of the specification *)

Section Graceful.
Context {W : Type} `{Remote W}.

(** [videoId] is an entry of the Retry Queue file. *)
Definition queued (fs : filesystem) (queuePath videoId : jstring) : Prop :=
  exists ids, fs !! queuePath = Some (queue_text ids) /\ videoId ∈ ids.

(** The Ledger, the Retry Queue, the Sync State and the token file are
    four different files. *)
Definition paths_distinct (cfg : Config) : Prop :=
  cfg_queuePath cfg <> cfg_outputPath cfg
  /\ cfg_statePath cfg <> cfg_outputPath cfg
  /\ cfg_statePath cfg <> cfg_queuePath cfg
  /\ nonempty (oauth_tokenFilePath (cfg_oauth cfg)) <> Some (cfg_outputPath cfg)
  /\ nonempty (oauth_tokenFilePath (cfg_oauth cfg)) <> Some (cfg_queuePath cfg)
  /\ nonempty (oauth_tokenFilePath (cfg_oauth cfg)) <> Some (cfg_statePath cfg).



End Graceful.

(** A run in full-backfill mode (a Ledger with one record and no Sync
    State) in a world that finds one live video and refuses to refresh the
    token. *)
Definition example_backfill_config : Config := {|
  cfg_apiKey := Some (str "key");
  cfg_channelInputs := [str "@channel"];
  cfg_outputPath := example_ledger_path;
  cfg_queuePath := example_queue_path;
  cfg_statePath := example_state_path;
  cfg_oauth := example_refresh_oauth;
  cfg_autoSetup := false;
  cfg_withTimestamp := false;
  cfg_saveToPlaylist := true;
  cfg_playlistSyncOutputEnabled := true;
  cfg_shouldSyncOutput := true;
  cfg_scanLatest := 50;
  cfg_debug := false;
|}.

Definition example_revoked_world : Script := {|
  script_videos := script_videos silent_world;
  script_channel := fun _ => Reply (str "UCxxxxxxxxxxxxxxxxxxxxxx");
  script_live := fun _ => Reply [str "video000003"];
  script_refresh := Fail (str "HTTP 400: invalid_grant");
  script_interactive := script_interactive silent_world;
  script_playlist := script_playlist silent_world;
  script_pages := [];
  script_insert := script_insert silent_world;
  script_now := 100000;
  script_timestamp := script_timestamp silent_world;
  script_syncState := script_syncState silent_world;
|}.

(** The state after a remote call or a write was recorded. *)
Definition recorded {W : Type} (e : event) (w : W) (st : State W) : State W :=
  {| files := files st; oauthState := oauthState st;
     channelIdByInput := channelIdByInput st;
     world := w; trace := trace st ++ [e] |}.

(** ** Example runs of the interactive setup *)

(** Client credentials without a refresh token, and a token file. *)
Definition example_setup_oauth : OauthConfig := {|
  oauth_accessToken := None;
  oauth_clientId := Some (str "client");
  oauth_clientSecret := Some (str "secret");
  oauth_refreshToken := None;
  oauth_tokenFilePath := Some (str ".youtube_oauth_tokens.json");
|}.

(** A world in which the interactive exchange hands out a refresh token
    (with white space around it) and an access token valid for an hour. *)
Definition example_setup_world : Script := {|
  script_videos := script_videos silent_world;
  script_channel := script_channel silent_world;
  script_live := script_live silent_world;
  script_refresh := script_refresh silent_world;
  script_interactive :=
    Reply (str " refresh-1 ", str "access-1", Some 3600%Z);
  script_playlist := script_playlist silent_world;
  script_pages := [];
  script_insert := script_insert silent_world;
  script_now := 100000;
  script_timestamp := script_timestamp silent_world;
  script_syncState := script_syncState silent_world;
|}.

(** The video IDs of the insertions that were requested, in order. *)
Definition requested_insertions (events : list event) : list jstring :=
  omap (fun e =>
          match e with
          | Net (CallInsert _ _ videoId) _ => Some videoId
          | _ => None
          end) events.

(** ** A playlist listing, page by page *)

(** The video IDs that one page of a listing holds; the page is not
    [null]. *)
Definition page_video_ids (data : jsval) : list jstring :=
  omap item_contentVideoId (Js.array_or_empty (Js.get data (str "items"))).

(** The token of the page that follows, when there is one. *)
Definition next_page_token (data : jsval) : option jstring :=
  nonempty (Js.string_or_null (Js.get data (str "nextPageToken"))).

(** [listing accessToken playlistId pageToken w pages w']: asked for the
    page at [pageToken] in the world [w], and then for the page that each
    answer names, the service answers [pages], none of which is [null] and
    of which the last one names no further page, and leaves the world
    [w']. *)
Inductive listing {W : Type} `{Remote W} (accessToken playlistId : jstring)
  : option jstring -> W -> list jsval -> W -> Prop :=
| listing_last pageToken w data w' :
    remote_playlistItems accessToken playlistId pageToken w = (Reply data, w') ->
    Js.nullish data = false ->
    next_page_token data = None ->
    listing accessToken playlistId pageToken w [data] w'
| listing_next pageToken w data w1 nextToken rest w' :
    remote_playlistItems accessToken playlistId pageToken w = (Reply data, w1) ->
    Js.nullish data = false ->
    next_page_token data = Some nextToken ->
    listing accessToken playlistId (Some nextToken) w1 rest w' ->
    listing accessToken playlistId pageToken w (data :: rest) w'.

(** The calls that fetch [pages], the first one at [pageToken]. *)
Fixpoint listing_calls (accessToken playlistId : jstring)
  (pageToken : option jstring) (pages : list jsval) : list event :=
  match pages with
  | [] => []
  | data :: rest =>
      Net (CallPlaylistItems accessToken playlistId pageToken) true
      :: listing_calls accessToken playlistId (next_page_token data) rest
  end.

(** A playlist listed on two pages; the second repeats a video of the
    first. *)
Definition example_page_one : jsval :=
  JObject [(str "items", JArray [
             JObject [(str "contentDetails",
                       JObject [(str "videoId", JString (str "video000001"))])];
             JObject [(str "contentDetails",
                       JObject [(str "videoId", JString (str "video000002"))])]]);
           (str "nextPageToken", JString (str "page-2"))].

Definition example_page_two : jsval :=
  JObject [(str "items", JArray [
             JObject [(str "contentDetails",
                       JObject [(str "videoId", JString (str "video000002"))])];
             JObject [(str "contentDetails", JObject [])];
             JObject [(str "contentDetails",
                       JObject [(str "videoId", JString (str "video000003"))])]])].

Definition example_paged_world : Script := {|
  script_videos := script_videos silent_world;
  script_channel := script_channel silent_world;
  script_live := script_live silent_world;
  script_refresh := script_refresh silent_world;
  script_interactive := script_interactive silent_world;
  script_playlist := Reply (str "PL1");
  script_pages := [Reply example_page_one; Reply example_page_two];
  script_insert := fun _ => Reply tt;
  script_now := 100000;
  script_timestamp := script_timestamp silent_world;
  script_syncState := script_syncState silent_world;
|}.

(** A call of the discovery side of a run: a channel is resolved or its
    live videos are fetched. *)
Definition is_discovery_event (e : event) : bool :=
  match e with
  | Net (CallResolveChannel _) _ | Net (CallLiveVideoIds _) _ => true
  | _ => false
  end.

(** [no_discovery st st']: between [st] and [st'] the memory of channel
    IDs was left alone and no call of the discovery side was made. *)
Definition no_discovery {W : Type} (st st' : State W) : Prop :=
  channelIdByInput st' = channelIdByInput st
  /\ exists events,
       trace st' = trace st ++ events
       /\ Forall (fun e => is_discovery_event e = false) events.

(** A computation that stays away from the discovery side in every state. *)
Definition keeps_channels {W : Type} {A : Type} (m : M W A) : Prop :=
  forall st, no_discovery st (m st).2.

(** [resolves_unknown inputs st st']: between [st] and [st'] a channel was
    resolved only if it is one of [inputs] and no ID was remembered for
    it; what was remembered stays, and a change of the memory comes from a
    resolution that succeeded. *)
Definition resolves_unknown {W : Type} (inputs : list jstring)
  (st st' : State W) : Prop :=
  exists events,
    trace st' = trace st ++ events
    /\ (forall input channelId,
          nonempty (channelIdByInput st !! input) = Some channelId ->
          channelIdByInput st' !! input = channelIdByInput st !! input
          /\ forall ok, Net (CallResolveChannel input) ok ∉ events)
    /\ (forall input,
          channelIdByInput st' !! input <> channelIdByInput st !! input ->
          Net (CallResolveChannel input) true ∈ events)
    /\ (forall input ok,
          Net (CallResolveChannel input) ok ∈ events -> input ∈ inputs).

(** ** The other modes of the script: [--playlist-sync], [--oauth-setup] *)

Section Modes.
Context {W : Type} `{Remote W}.

(** [runPlaylistSync(args, state)]; what it returns is the exit code.
    [notePlaylistSynced] is [writePlaylistSyncState] at the playlist that
    was resolved. *)
Definition runPlaylistSync (cfg : Config) (fuel : nat) : M W Z :=
  accessToken <- getYouTubeAccessTokenAuto (cfg_oauth cfg) (cfg_autoSetup cfg) ;;
  playlistId <- resolveTargetPlaylistId accessToken ;;
  let notePlaylistSynced := writePlaylistSyncState cfg (Some playlistId) in
  st <- get_state ;;
  let savedIds := readExistingVideoIds (files st) (cfg_outputPath cfg) in
  if bool_decide (savedIds = []) then notePlaylistSynced ;;; ret 0%Z
  else
    alreadyInPlaylist <- fetchPlaylistVideoIdSet fuel accessToken playlistId ;;
    let videoIds := missing_from alreadyInPlaylist savedIds in
    if bool_decide (videoIds = []) then notePlaylistSynced ;;; ret 0%Z
    else
      result <- addVideoIdsToPlaylist accessToken playlistId videoIds ;;
      if bool_decide (result.2 = []) then notePlaylistSynced ;;; ret 0%Z
      else ret 1%Z.

(** [runOauthSetup(args)]; [oauth] is [resolveOauthConfig(args)]. *)
Definition runOauthSetup (oauth : OauthConfig) : M W Z :=
  if bool_decide (nonempty (oauth_clientId oauth) = None)
     || bool_decide (nonempty (oauth_clientSecret oauth) = None)
  then ret 2%Z
  else
    obtained <- try_catch
                  (obtained <- net CallTokenInteractive
                                 (remote_tokenInteractive oauth) ;;
                   ret (Some obtained))
                  (fun _ => ret None) ;;
    match obtained with
    | None => ret 1%Z
    | Some (refreshToken, _, _) =>
        match nonempty (oauth_tokenFilePath oauth) with
        | Some tokenFilePath =>
            try_catch
              (writeOauthRefreshTokenToFile tokenFilePath refreshToken ;;;
               ret 0%Z)
              (fun _ => ret 1%Z)
        | None => ret 0%Z
        end
    end.

End Modes.

(** A later run of a watch: the ID of the first channel is remembered. *)
Definition example_later_state : State Script := {|
  files := ∅;
  oauthState := Some {| cached_accessToken := None; cached_expiresAtMs := 0 |};
  channelIdByInput := {[ str "@first" := str "UC@first" ]};
  world := example_channels_world;
  trace := [];
|}.

(** ** The environment file: [loadEnvFile] *)

(** [process.env]: the variables that are set. *)
Abbreviation environment := (gmap jstring jstring).

(** [stripQuotes(value)]; [trimmed.slice(1, -1)] drops the first and the
    last unit (of a single quote character nothing is left). *)
Definition stripQuotes (value : jstring) : jstring :=
  let trimmed := JS.trim value in
  if JS.startsWith trimmed [quote] && JS.endsWith trimmed [quote]
     || JS.startsWith trimmed (str "'") && JS.endsWith trimmed (str "'")
  then removelast (tail trimmed)
  else trimmed.

(** The body of the loop of [loadEnvFile] up to the assignment: the key
    and the value that a line defines, if it defines one. *)
Definition env_binding (rawLine : jstring) : option (jstring * jstring) :=
  let line := JS.trim rawLine in
  let '(before, from_equals) := URL.span_until (Ascii.eqb "=") line in
  if bool_decide (line = []) || JS.startsWith line (str "#")
     || bool_decide (from_equals = [])
  then None
  else
    let key := JS.trim before in
    let value := stripQuotes (tail from_equals) in
    if bool_decide (key = []) then None else Some (key, value).

(** The value of the first binding of [key]. *)
Fixpoint first_binding (key : jstring) (bindings : list (jstring * jstring))
  : option jstring :=
  match bindings with
  | [] => None
  | (k, v) :: rest => if bool_decide (k = key) then Some v else first_binding key rest
  end.

Section EnvFile.

(** The names for which [process.env[name]] is not [undefined] although no
    such variable is set: the properties that [process.env] inherits. *)
Variable inherited : jstring -> bool.

(** [process.env[key] !== undefined] *)
Definition env_defined (env : environment) (key : jstring) : bool :=
  inherited key || bool_decide (is_Some (env !! key)).

Definition loadEnvFile_line (env : environment) (rawLine : jstring)
  : environment :=
  match env_binding rawLine with
  | Some (key, value) =>
      if env_defined env key then env else <[key := value]> env
  | None => env
  end.

(** [loadEnvFile(filePath)]: the environment afterwards; [None] when
    [fs.readFileSync] throws. *)
Definition loadEnvFile (fs : filesystem) (filePath : jstring)
  (env : environment) : option environment :=
  content ← fs !! filePath;
  Some (fold_left loadEnvFile_line (JS.split_lines content) env).

End EnvFile.

(** An environment file with a comment, a quoted value, a key that is
    defined twice and a line that defines nothing. *)
Definition example_env_file : filesystem :=
  {[ str ".env" :=
       str "# settings" ++ [JS.LF]
       ++ str "YOUTUBE_API_KEY = 'abc' " ++ [JS.LF]
       ++ str "YOUTUBE_CHANNELS=@one, @two" ++ [JS.CR; JS.LF]
       ++ str "YOUTUBE_API_KEY=other" ++ [JS.LF]
       ++ str "no binding here" ++ [JS.LF] ]}.

(** ** Channel references: [extractChannelIdOrHandle] *)

(** [kind]: ["channel_id"] or ["handle"]. *)
Inductive channel_kind := channel_id | handle.

(** [s.includes(needle)] *)
Fixpoint includes (s needle : jstring) : bool :=
  JS.startsWith s needle
  || match s with
     | [] => false
     | _ :: s' => includes s' needle
     end.

(** [extractChannelIdOrHandle(value)]: [kind] and [value]; [None] is the
    error ["Channel is empty"]. *)
Definition extractChannelIdOrHandle (value : jstring)
  : option (channel_kind * jstring) :=
  let raw := JS.trim value in
  if bool_decide (raw = []) then None
  else if JS.startsWith raw (str "UC") && (16 <=? length raw)%nat
  then Some (channel_id, raw)
  else if JS.startsWith raw (str "@") then Some (handle, tail raw)
  else
    match (if includes raw (str "://") then URL.parse raw else None) with
    | Some parsed =>
        let parts :=
          List.filter (fun p => negb (bool_decide (p = [])))
            (map JS.trim
               (URL.split_at (Ascii.eqb "/") [] (URL.pathname parsed))) in
        match parts with
        | p0 :: rest =>
            if bool_decide (rest <> []) && bool_decide (p0 = str "channel")
            then Some (channel_id, default [] (head rest))
            else if JS.startsWith p0 (str "@") then Some (handle, tail p0)
            else Some (handle, raw)
        | [] => Some (handle, raw)
        end
    | None => Some (handle, raw)
    end.

(** ** Behind the remote operations: the requests to the Data API

    [resolveChannelId], the two ways of fetching the live videos of a
    channel and [resolveTargetPlaylistId] are single operations of [Remote]
    above.  Here they are embedded themselves, down to [apiGetJson] and
    [apiPostJson].  The maps and the playlist ID that they keep in the run
    state, and the log of their requests, stand in front of the world in a
    [Session]. *)

Module Api.

(** [apiGetJson] and [apiPostJson] with the endpoint and the parameters
    that vary. *)
Inductive request :=
(** [YOUTUBE_CHANNELS_ENDPOINT], [{part: "snippet", forHandle}] *)
| GetChannelByHandle (forHandle : jstring)
(** [YOUTUBE_SEARCH_ENDPOINT], [{channelId, eventType: "live", maxResults}] *)
| GetLiveSearch (channelId : jstring) (maxResults : nat)
(** [YOUTUBE_CHANNELS_ENDPOINT], [{part: "contentDetails", id}] *)
| GetUploadsPlaylist (channelId : jstring)
(** [YOUTUBE_PLAYLIST_ITEMS_ENDPOINT], [{playlistId, maxResults: scanLatest}] *)
| GetRecentUploads (uploadsPlaylistId : jstring) (scanLatest : Z)
(** [YOUTUBE_VIDEOS_ENDPOINT], [{id: ids.join(",")}] *)
| GetVideos (ids : list jstring)
(** [YOUTUBE_PLAYLISTS_ENDPOINT], [{mine: "true", pageToken}], bearer token *)
| GetMyPlaylists (accessToken : jstring) (pageToken : option jstring)
(** [apiPostJson(YOUTUBE_PLAYLISTS_ENDPOINT, ...)], bearer token *)
| PostPlaylist (accessToken title privacyStatus : jstring)
(** [YOUTUBE_PLAYLIST_ITEMS_ENDPOINT], [{playlistId, maxResults: "1"}],
    bearer token *)
| GetPlaylistProbe (accessToken playlistId : jstring).

(** What the log of a session records: a request and whether it
    succeeded, or [sleep(ms)]. *)
Inductive entry :=
| Requested (r : request) (ok : bool)
| Slept (ms : Z).

Class Service (W : Type) := {
  (** every request but [GetVideos], which is [remote_videos] *)
  service : request -> W -> reply jsval * W;
}.

Record Session (W : Type) := {
  (** [state.uploadsPlaylistIdByChannelId] *)
  uploadsPlaylistIdByChannelId : gmap jstring jstring;
  (** [state.knownLiveVideoIdsByChannelId] *)
  knownLiveVideoIdsByChannelId : gmap jstring (list jstring);
  (** [state.playlistId], [None] for [null] *)
  playlistId : option jstring;
  log : list entry;
  remote : W;
}.
Arguments uploadsPlaylistIdByChannelId {W} _.
Arguments knownLiveVideoIdsByChannelId {W} _.
Arguments playlistId {W} _.
Arguments log {W} _.
Arguments remote {W} _.

(** The settings that select the target playlist: [args.playlistId],
    [process.env.YOUTUBE_PLAYLIST_ID], [args.playlistTitle],
    [process.env.YOUTUBE_PLAYLIST_TITLE], [args.playlistPrivacy] and
    [process.env.YOUTUBE_PLAYLIST_PRIVACY]; the empty string stands for a
    setting that is missing. *)
Record PlaylistTarget := {
  args_playlistId : jstring;
  env_playlistId : jstring;
  args_playlistTitle : jstring;
  env_playlistTitle : jstring;
  args_playlistPrivacy : jstring;
  env_playlistPrivacy : jstring;
}.

Section Session.
Context {W : Type} `{Remote W} `{Service W}.

Definition set_remote (w : W) (s : Session W) : Session W :=
  {| uploadsPlaylistIdByChannelId := uploadsPlaylistIdByChannelId s;
     knownLiveVideoIdsByChannelId := knownLiveVideoIdsByChannelId s;
     playlistId := playlistId s; log := log s; remote := w |}.

Definition logged (e : entry) (s : Session W) : Session W :=
  {| uploadsPlaylistIdByChannelId := uploadsPlaylistIdByChannelId s;
     knownLiveVideoIdsByChannelId := knownLiveVideoIdsByChannelId s;
     playlistId := playlistId s; log := log s ++ [e]; remote := remote s |}.

(** An operation of the world, seen from the session. *)
Definition through {A} (op : W -> A * W) (s : Session W) : A * Session W :=
  let '(a, w) := op (remote s) in (a, set_remote w s).

(** A request of the world, logged. *)
Definition request_through (r : request) (op : W -> reply jsval * W)
  (s : Session W) : reply jsval * Session W :=
  let '(answer, w) := op (remote s) in
  (answer,
   logged (Requested r (match answer with Reply _ => true | Fail _ => false end))
     (set_remote w s)).

(** The session is a world: the video lookup is logged as a request, the
    other operations pass through. *)
#[export] Instance Session_Remote : Remote (Session W) := {
  remote_videos ids := request_through (GetVideos ids) (remote_videos ids);
  remote_resolveChannelId input := through (remote_resolveChannelId input);
  remote_liveVideoIds channelId := through (remote_liveVideoIds channelId);
  remote_tokenRefresh clientId clientSecret refreshToken :=
    through (remote_tokenRefresh clientId clientSecret refreshToken);
  remote_tokenInteractive oauth := through (remote_tokenInteractive oauth);
  remote_resolvePlaylist accessToken := through (remote_resolvePlaylist accessToken);
  remote_playlistItems accessToken playlistId pageToken :=
    through (remote_playlistItems accessToken playlistId pageToken);
  remote_insert accessToken playlistId videoId :=
    through (remote_insert accessToken playlistId videoId);
  clock_now := through clock_now;
  clock_timestamp := through clock_timestamp;
  sync_state_text playlistId := through (sync_state_text playlistId);
}.

(** [await apiGetJson(...)] or [await apiPostJson(...)]: the answer, or
    the error thrown. *)
Definition api (r : request) : M (Session W) jsval :=
  fun st =>
    match request_through r (service r) (world st) with
    | (Reply data, s) => (Ok data, set_world s st)
    | (Fail message, s) => (Throw message, set_world s st)
    end.

(** [await sleep(ms)] *)
Definition sleep (ms : Z) : M (Session W) unit :=
  fun st => (Ok tt, set_world (logged (Slept ms) (world st)) st).

Definition session : M (Session W) (Session W) := fun st => (Ok (world st), st).

(** [uploadsCache.set(channelId, uploadsPlaylistId)] *)
Definition set_uploads (channelId uploadsPlaylistId : jstring)
  : M (Session W) unit :=
  fun st =>
    let s := world st in
    (Ok tt,
     set_world
       {| uploadsPlaylistIdByChannelId :=
            <[channelId := uploadsPlaylistId]> (uploadsPlaylistIdByChannelId s);
          knownLiveVideoIdsByChannelId := knownLiveVideoIdsByChannelId s;
          playlistId := playlistId s; log := log s; remote := remote s |} st).

(** [knownLiveCache.set(channelId, ids)] *)
Definition set_known (channelId : jstring) (ids : list jstring)
  : M (Session W) unit :=
  fun st =>
    let s := world st in
    (Ok tt,
     set_world
       {| uploadsPlaylistIdByChannelId := uploadsPlaylistIdByChannelId s;
          knownLiveVideoIdsByChannelId :=
            <[channelId := ids]> (knownLiveVideoIdsByChannelId s);
          playlistId := playlistId s; log := log s; remote := remote s |} st).

(** [state.playlistId = playlistId] *)
Definition set_playlistId (id : jstring) : M (Session W) unit :=
  fun st =>
    let s := world st in
    (Ok tt,
     set_world
       {| uploadsPlaylistIdByChannelId := uploadsPlaylistIdByChannelId s;
          knownLiveVideoIdsByChannelId := knownLiveVideoIdsByChannelId s;
          playlistId := Some id; log := log s; remote := remote s |} st).

(** *** Channels *)

(** [resolveChannelId(apiKey, channelInput, ...)] *)
Definition resolveChannelId (channelInput : jstring) : M (Session W) jstring :=
  match extractChannelIdOrHandle channelInput with
  | None => throw (str "Channel is empty")
  | Some (channel_id, value) => ret value
  | Some (handle, value) =>
      try_catch
        (data <- api (GetChannelByHandle value) ;;
         data_items <- member data (str "items") ;;
         match Js.array_or_empty data_items with
         | item :: _ =>
             match (if Js.truthy item
                    then Js.string_or_null (Js.get item (str "id")) else None) with
             | Some id => ret id
             | None =>
                 throw (str "No channel found for @" ++ value
                        ++ str ". Try passing the channel ID (looks like UCxxxx...).")
             end
         | [] =>
             throw (str "No channel found for @" ++ value
                    ++ str ". Try passing the channel ID (looks like UCxxxx...).")
         end)
        (fun message =>
           if includes message (str "forHandle")
           then throw (str "Failed to resolve @" ++ value
                       ++ str " via the YouTube API. Pass the channel ID instead (looks like UCxxxx...). ("
                       ++ message ++ str ")")
           else throw message)
  end.

(** *** Live videos of a channel *)

(** The loop over [items] with [item.id.videoId] or
    [item.contentDetails.videoId]: the IDs that are non-empty strings. *)
Definition item_nested_videoId (field : jstring) (item : jsval) : option jstring :=
  if Js.truthy item && Js.truthy (Js.get item field)
  then nonempty (Js.string_or_null (Js.get (Js.get item field) (str "videoId")))
  else None.

(** [fetchLiveVideoIdsViaSearch(apiKey, channelId, {maxResults, ...})] *)
Definition fetchLiveVideoIdsViaSearch (channelId : jstring) (maxResults : nat)
  : M (Session W) (list jstring) :=
  data <- api (GetLiveSearch channelId maxResults) ;;
  data_items <- member data (str "items") ;;
  let items := Js.array_or_empty data_items in
  ret (omap (item_nested_videoId (str "id")) items).

(** [a && b]: [b] when [a] is truthy, [a] otherwise. *)
Definition js_and (a b : jsval) : jsval := if Js.truthy a then b else a.

(** [fetchUploadsPlaylistId(apiKey, channelId, ...)] *)
Definition fetchUploadsPlaylistId (channelId : jstring) : M (Session W) jstring :=
  data <- api (GetUploadsPlaylist channelId) ;;
  data_items <- member data (str "items") ;;
  let item0 := default JUndefined (head (Js.array_or_empty data_items)) in
  let contentDetails := Js.get item0 (str "contentDetails") in
  let relatedPlaylists := Js.get contentDetails (str "relatedPlaylists") in
  let uploads :=
    js_and item0
      (js_and contentDetails
         (js_and relatedPlaylists (Js.get relatedPlaylists (str "uploads")))) in
  match nonempty (Js.string_or_null uploads) with
  | Some id => ret id
  | None =>
      throw (str "Could not determine uploads playlist for channel " ++ channelId)
  end.

(** [fetchRecentVideoIdsFromUploadsPlaylist(apiKey, uploadsPlaylistId,
    {scanLatest, ...})] *)
Definition fetchRecentVideoIdsFromUploadsPlaylist (uploadsPlaylistId : jstring)
  (scanLatest : Z) : M (Session W) (list jstring) :=
  data <- api (GetRecentUploads uploadsPlaylistId scanLatest) ;;
  data_items <- member data (str "items") ;;
  let items := Js.array_or_empty data_items in
  ret (uniqueExactStrings (omap (item_nested_videoId (str "contentDetails")) items)).

(** The first part of [fetchLiveVideoIdsViaUploads]: the videos known to
    be live are asked about again; what is returned is what the function
    returns at once, if it does. *)
Definition check_known_live (channelId : jstring) (maxResults : nat)
  : M (Session W) (option (list jstring)) :=
  s <- session ;;
  let knownIds := default [] (knownLiveVideoIdsByChannelId s !! channelId) in
  if bool_decide (knownIds = []) then ret None
  else
    stillLive <- filterCurrentlyLiveVideoIds knownIds ;;
    if bool_decide (stillLive = []) then set_known channelId [] ;;; ret None
    else set_known channelId stillLive ;;; ret (Some (take maxResults stillLive)).

(** Its second part: the latest uploads of the channel are scanned. *)
Definition scan_uploads (channelId : jstring) (scanLatest : Z) (maxResults : nat)
  : M (Session W) (list jstring) :=
  s <- session ;;
  uploadsPlaylistId <-
    match nonempty (uploadsPlaylistIdByChannelId s !! channelId) with
    | Some uploadsPlaylistId => ret uploadsPlaylistId
    | None =>
        uploadsPlaylistId <- fetchUploadsPlaylistId channelId ;;
        set_uploads channelId uploadsPlaylistId ;;;
        ret uploadsPlaylistId
    end ;;
  recentVideoIds <-
    fetchRecentVideoIdsFromUploadsPlaylist uploadsPlaylistId scanLatest ;;
  liveIds <- filterCurrentlyLiveVideoIds recentVideoIds ;;
  set_known channelId liveIds ;;;
  ret (take maxResults liveIds).

(** [fetchLiveVideoIdsViaUploads(apiKey, channelId, {scanLatest,
    maxResults, ...})]; [maxResults] is a positive integer. *)
Definition fetchLiveVideoIdsViaUploads (channelId : jstring) (scanLatest : Z)
  (maxResults : nat) : M (Session W) (list jstring) :=
  found <- check_known_live channelId maxResults ;;
  match found with
  | Some stillLive => ret stillLive
  | None => scan_uploads channelId scanLatest maxResults
  end.

(** *** The target playlist *)

(** [listMyPlaylistsPage(accessToken, {pageToken, ...})]: [items] and
    [nextPageToken]; a page token is sent when it is not empty. *)
Definition listMyPlaylistsPage (accessToken : jstring) (pageToken : option jstring)
  : M (Session W) (list jsval * option jstring) :=
  data <- api (GetMyPlaylists accessToken (nonempty pageToken)) ;;
  data_items <- member data (str "items") ;;
  data_nextPageToken <- member data (str "nextPageToken") ;;
  ret (Js.array_or_empty data_items, Js.string_or_null data_nextPageToken).

(** [id] and [itemTitle] of an item of the page, when neither is missing
    or empty. *)
Definition playlist_id_and_title (item : jsval) : option (jstring * jstring) :=
  let id :=
    if Js.truthy item then Js.string_or_null (Js.get item (str "id")) else None in
  let itemTitle :=
    if Js.truthy item && Js.truthy (Js.get item (str "snippet"))
    then Js.string_or_null (Js.get (Js.get item (str "snippet")) (str "title"))
    else None in
  match nonempty id, nonempty itemTitle with
  | Some id, Some itemTitle => Some (id, itemTitle)
  | _, _ => None
  end.

(** The loop over the items of a page. *)
Fixpoint find_title (targetLower : jstring) (items : list jsval) : option jstring :=
  match items with
  | [] => None
  | item :: rest =>
      match playlist_id_and_title item with
      | Some (id, itemTitle) =>
          if bool_decide (JS.toLowerCase (JS.trim itemTitle) = targetLower)
          then Some id
          else find_title targetLower rest
      | None => find_title targetLower rest
      end
  end.

(** The loop [while (true)] of [findPlaylistIdByTitle]. *)
Fixpoint findPlaylistIdByTitle_loop (fuel : nat) (accessToken targetLower : jstring)
  (pageToken : option jstring) : M (Session W) (option jstring) :=
  match fuel with
  | O => diverge
  | S fuel' =>
      page <- listMyPlaylistsPage accessToken pageToken ;;
      match find_title targetLower page.1 with
      | Some id => ret (Some id)
      | None =>
          match nonempty page.2 with
          | None => ret None
          | Some nextPageToken =>
              findPlaylistIdByTitle_loop fuel' accessToken targetLower
                (Some nextPageToken)
          end
      end
  end.

(** [findPlaylistIdByTitle(accessToken, title, ...)] *)
Definition findPlaylistIdByTitle (fuel : nat) (accessToken title : jstring)
  : M (Session W) (option jstring) :=
  let target := JS.trim title in
  if bool_decide (target = []) then throw (str "Playlist title is empty.")
  else findPlaylistIdByTitle_loop fuel accessToken (JS.toLowerCase target) None.

(** [createPlaylist(accessToken, title, privacyStatus, ...)] *)
Definition createPlaylist (accessToken title privacyStatus : jstring)
  : M (Session W) jstring :=
  data <- api (PostPlaylist accessToken (JS.trim title) privacyStatus) ;;
  match nonempty (if Js.truthy data
                  then Js.string_or_null (Js.get data (str "id")) else None) with
  | Some id => ret id
  | None =>
      throw (str "Playlist creation succeeded but no playlist id was returned.")
  end.

(** [isPlaylistNotFoundError(err)] for an error with the message
    [message]. *)
Definition isPlaylistNotFoundError (message : jstring) : bool :=
  includes message (str "playlistNotFound").

(** The loop of [waitForPlaylistToBeReady]: [attempts] are left,
    [delayMs] is the next delay. *)
Fixpoint waitForPlaylistToBeReady_loop (attempts : nat) (delayMs : Z)
  (accessToken playlistId : jstring) : M (Session W) unit :=
  match attempts with
  | O => ret tt
  | S attempts' =>
      failed <- try_catch
                  (api (GetPlaylistProbe accessToken playlistId) ;;; ret None)
                  (fun message => ret (Some message)) ;;
      match failed with
      | None => ret tt
      | Some message =>
          if negb (isPlaylistNotFoundError message) || bool_decide (attempts' = 0)
          then throw message
          else
            sleep delayMs ;;;
            waitForPlaylistToBeReady_loop attempts' (Z.min 4000 (delayMs * 2))
              accessToken playlistId
      end
  end.

(** [waitForPlaylistToBeReady(args, accessToken, playlistId, ...)] *)
Definition waitForPlaylistToBeReady (accessToken playlistId : jstring)
  : M (Session W) unit :=
  waitForPlaylistToBeReady_loop 6 500 accessToken playlistId.

(** [normalizePlaylistPrivacy(value)] *)
Definition normalizePlaylistPrivacy (value : jstring)
  : M (Session W) (option jstring) :=
  let raw := JS.toLowerCase (JS.trim value) in
  if bool_decide (raw = []) then ret None
  else if bool_decide (raw = str "private") || bool_decide (raw = str "unlisted")
          || bool_decide (raw = str "public")
  then ret (Some raw)
  else throw (str "Playlist privacy must be one of: private, unlisted, public").

(** [a || b] on strings *)
Definition or_else (a b : jstring) : jstring :=
  if bool_decide (a = []) then b else a.

(** [resolveTargetPlaylistId(args, oauthAccessToken, state, ...)] *)
Definition resolveTargetPlaylistId (target : PlaylistTarget) (fuel : nat)
  (oauthAccessToken : jstring) : M (Session W) jstring :=
  let fromArgs := JS.trim (args_playlistId target) in
  let fromEnv := JS.trim (env_playlistId target) in
  let explicit := or_else fromArgs fromEnv in
  if negb (bool_decide (explicit = [])) then ret explicit
  else
    s <- session ;;
    match nonempty (playlistId s) with
    | Some remembered => ret remembered
    | None =>
        let title :=
          JS.trim (or_else (args_playlistTitle target)
                     (or_else (env_playlistTitle target) (str "Saved Streams"))) in
        if bool_decide (title = []) then
          throw (str "Playlist title is empty. Set YOUTUBE_PLAYLIST_TITLE or pass --playlist-title.")
        else
          normalized <-
            normalizePlaylistPrivacy
              (or_else (args_playlistPrivacy target) (env_playlistPrivacy target)) ;;
          let privacy := default (str "private") normalized in
          found <- findPlaylistIdByTitle fuel oauthAccessToken title ;;
          id <-
            match nonempty found with
            | Some id => ret id
            | None =>
                id <- createPlaylist oauthAccessToken title privacy ;;
                waitForPlaylistToBeReady oauthAccessToken id ;;;
                ret id
            end ;;
          set_playlistId id ;;;
          ret id
    end.

End Session.
End Api.

(** The steps of a computation over a session between [st] and [st']:
    no file was touched, and the log grew by [n] entries at most, all of
    which satisfy [P]. *)
Definition within {W : Type} (P : Api.entry -> Prop) (n : nat)
  (st st' : State (Api.Session W)) : Prop :=
  files st' = files st
  /\ exists new,
       Api.log (world st') = Api.log (world st) ++ new
       /\ length new <= n
       /\ Forall P new.

(** The entries that the log gained. *)
Definition new_entries {W : Type} (st st' : State (Api.Session W))
  : list Api.entry :=
  drop (length (Api.log (world st))) (Api.log (world st')).

Definition is_request (e : Api.entry) : Prop :=
  match e with
  | Api.Requested _ _ => True
  | Api.Slept _ => False
  end.

(** The delays of [waitForPlaylistToBeReady]: [n] of them, from [delayMs]
    on, each twice the one before up to 4000 ms. *)
Fixpoint backoff (n : nat) (delayMs : Z) : list Z :=
  match n with
  | O => []
  | S n' => delayMs :: backoff n' (Z.min 4000 (delayMs * 2))
  end.

(** The entries of a wait: for each delay a probe that failed and the
    sleep after it. *)
Definition waiting (probe : Api.request) (delays : list Z) : list Api.entry :=
  flat_map (fun ms => [Api.Requested probe false; Api.Slept ms]) delays.

(** The time slept, in ms. *)
Definition slept (entries : list Api.entry) : Z :=
  foldr (fun e total =>
           match e with
           | Api.Slept ms => (ms + total)%Z
           | Api.Requested _ _ => total
           end) 0%Z entries.

(** An entry that is not the creation of a playlist. *)
Definition no_creation (e : Api.entry) : Prop :=
  forall accessToken title privacyStatus ok,
    e <> Api.Requested (Api.PostPlaylist accessToken title privacyStatus) ok.

(** ** Example runs of the requests *)

(** The Data API of the examples: one channel with one uploads playlist,
    two recent uploads, one playlist of the account, titled
    [" saved streams "]; a probe of a playlist always fails with
    [playlistNotFound]. *)
#[export] Instance Script_Service : Api.Service Script := {
  Api.service r w :=
    (match r with
     | Api.GetChannelByHandle _ =>
         Reply (JObject [(str "items", JArray [
           JObject [(str "id", JString (str "UCxxxxxxxxxxxxxxxxxxxxxx"))]])])
     | Api.GetUploadsPlaylist _ =>
         Reply (JObject [(str "items", JArray [
           JObject [(str "contentDetails",
             JObject [(str "relatedPlaylists",
               JObject [(str "uploads",
                         JString (str "UUxxxxxxxxxxxxxxxxxxxxxx"))])])]])])
     | Api.GetRecentUploads _ _ =>
         Reply (JObject [(str "items", JArray [
           JObject [(str "contentDetails",
                     JObject [(str "videoId", JString (str "aaaaaaaaaaa"))])];
           JObject [(str "contentDetails",
                     JObject [(str "videoId", JString (str "ccccccccccc"))])]])])
     | Api.GetMyPlaylists _ _ =>
         Reply (JObject [(str "items", JArray [
           JObject [(str "id", JString (str "PL1"));
                    (str "snippet",
                     JObject [(str "title", JString (str " saved streams "))])]])])
     | Api.PostPlaylist _ _ _ =>
         Reply (JObject [(str "id", JString (str "PLnew"))])
     | Api.GetPlaylistProbe _ _ => Fail (str "HTTP 404: playlistNotFound")
     | _ => Fail (str "offline")
     end, w);
}.

(** A session at the start of a process. *)
Definition example_session (w : Script) : State (Api.Session Script) :=
  initial_state ∅
    {| Api.uploadsPlaylistIdByChannelId := ∅;
       Api.knownLiveVideoIdsByChannelId := ∅;
       Api.playlistId := None;
       Api.log := [];
       Api.remote := w |}.

(** No playlist ID in the settings, the default title. *)
Definition example_target : Api.PlaylistTarget := {|
  Api.args_playlistId := [];
  Api.env_playlistId := [];
  Api.args_playlistTitle := [];
  Api.env_playlistTitle := [];
  Api.args_playlistPrivacy := [];
  Api.env_playlistPrivacy := [];
|}.

(** * Proofs *)

Example split_ws_ex :
  JS.split_whitespace (str " a  b ") = [[]; str "a"; str "b"; []].
Proof. reflexivity. Qed.

Example getChannelInputs_ex :
  getChannelInputs [str "@Foo, UCabc"; str "@foo @Bar"] None
  = [str "@Foo"; str "UCabc"; str "@Bar"].
Proof. vm_compute. reflexivity. Qed.

(** ** Strings *)

Lemma Set_has_true s x : JS.Set_has s x = true <-> x ∈ s.
Proof. unfold JS.Set_has. apply bool_decide_eq_true. Qed.

Lemma Set_has_false s x : JS.Set_has s x = false <-> x ∉ s.
Proof. unfold JS.Set_has. apply bool_decide_eq_false. Qed.

Lemma Set_add_elem x y s : y ∈ JS.Set_add x s <-> y = x \/ y ∈ s.
Proof.
  unfold JS.Set_add. destruct (JS.Set_has s x) eqn:E.
  - apply Set_has_true in E. split; [auto | intros [-> | ?]; auto].
  - rewrite elem_of_app, list_elem_of_singleton. tauto.
Qed.

Lemma trimStart_not_ws c s :
  JS.is_whitespace c = false -> JS.trimStart (c :: s) = c :: s.
Proof. intros H. simpl. now rewrite H. Qed.

Lemma trimStart_idem s : JS.trimStart (JS.trimStart s) = JS.trimStart s.
Proof.
  induction s as [|c s IH]; simpl; [done|].
  destruct (JS.is_whitespace c) eqn:E; [done|]. simpl. now rewrite E.
Qed.

Lemma trimStart_app_not_ws s c t :
  JS.is_whitespace c = false ->
  JS.trimStart (s ++ c :: t) = JS.trimStart s ++ c :: t.
Proof.
  intros H. induction s as [|d s IH]; simpl.
  - now rewrite H.
  - destruct (JS.is_whitespace d); [apply IH | done].
Qed.

(** What [trimStart] returns is empty or starts with a unit that is not
    white space. *)
Lemma trimStart_head s :
  JS.trimStart s = [] \/
  exists c t, JS.trimStart s = c :: t /\ JS.is_whitespace c = false.
Proof.
  induction s as [|c s IH]; simpl; [by left|].
  destruct (JS.is_whitespace c) eqn:E; [done|]. right. eauto.
Qed.

Lemma trimStart_suffix s : exists p, s = p ++ JS.trimStart s /\
  Forall (fun c => JS.is_whitespace c = true) p.
Proof.
  induction s as [|c s (p & Hp & Hws)]; simpl.
  - exists []. by split.
  - destruct (JS.is_whitespace c) eqn:E.
    + exists (c :: p). split; [simpl; congruence | by constructor].
    + exists []. by split.
Qed.

Lemma trimStart_all_ws p :
  Forall (fun c => JS.is_whitespace c = true) p -> JS.trimStart p = [].
Proof. induction 1 as [|c p Hc _ IH]; simpl; [done | now rewrite Hc]. Qed.

Lemma trimStart_ws_app p s :
  Forall (fun c => JS.is_whitespace c = true) p ->
  JS.trimStart (p ++ s) = JS.trimStart s.
Proof. induction 1 as [|c p Hc _ IH]; simpl; [done | now rewrite Hc]. Qed.

Lemma trimEnd_snoc_not_ws s c :
  JS.is_whitespace c = false -> JS.trimEnd (s ++ [c]) = s ++ [c].
Proof.
  intros H. unfold JS.trimEnd. rewrite rev_app_distr. simpl. rewrite H.
  simpl. now rewrite rev_involutive.
Qed.

Lemma trimEnd_prefix s : exists q, s = JS.trimEnd s ++ q /\
  Forall (fun c => JS.is_whitespace c = true) q.
Proof.
  unfold JS.trimEnd.
  destruct (trimStart_suffix (rev s)) as (p & Hp & Hws).
  exists (rev p). split; [|by apply Forall_rev].
  rewrite <- rev_app_distr, <- Hp. now rewrite rev_involutive.
Qed.

Lemma trimEnd_last s :
  JS.trimEnd s = [] \/
  exists u d, JS.trimEnd s = u ++ [d] /\ JS.is_whitespace d = false.
Proof.
  unfold JS.trimEnd.
  destruct (trimStart_head (rev s)) as [E | (d & u & E & Hd)]; rewrite E.
  - by left.
  - right. exists (rev u), d. by split.
Qed.

(** A trimmed string is empty, or starts and ends with units that are not
    white space. *)
Lemma trim_shape s :
  JS.trim s = [] \/
  exists c t d u, JS.is_whitespace c = false /\ JS.is_whitespace d = false /\
    JS.trim s = c :: t /\ JS.trim s = u ++ [d].
Proof.
  unfold JS.trim.
  destruct (trimEnd_last (JS.trimStart s)) as [E | (u & d & E & Hd)];
    [by left | right].
  destruct (trimStart_head s) as [E0 | (c & t & E0 & Hc)].
  { rewrite E0 in E. by destruct u. }
  destruct (trimEnd_prefix (JS.trimStart s)) as (q & Hq & Hws).
  rewrite E in Hq |- *. rewrite E0 in Hq.
  destruct u as [|e u]; simpl in Hq; injection Hq as <- Hq.
  - exists c, [], c, []. by repeat split.
  - exists c, (u ++ [d]), d, (c :: u). by repeat split.
Qed.

Lemma trim_fixed_iff_shape s c t d u :
  s = c :: t -> s = u ++ [d] ->
  JS.is_whitespace c = false -> JS.is_whitespace d = false ->
  JS.trim s = s.
Proof.
  intros Hs Hu Hc Hd. unfold JS.trim.
  rewrite Hs, (trimStart_not_ws _ _ Hc), <- Hs, Hu.
  now apply trimEnd_snoc_not_ws.
Qed.

Lemma trim_idem s : JS.trim (JS.trim s) = JS.trim s.
Proof.
  destruct (trim_shape s) as [E | (c & t & d & u & Hc & Hd & E1 & E2)].
  - now rewrite E.
  - eapply trim_fixed_iff_shape; eauto.
Qed.

(** ** Deduplication loops *)

Section KeepFirst.
Variable key : jstring -> jstring.

Lemma keep_first_sublist l seen : keep_first key l seen `sublist_of` l.
Proof.
  revert seen. induction l as [|x l IH]; intros seen; simpl; [done|].
  destruct (JS.Set_has seen (key x)).
  - apply sublist_cons, IH.
  - apply sublist_skip, IH.
Qed.

Lemma keep_first_elem l seen x :
  x ∈ keep_first key l seen -> x ∈ l /\ key x ∉ seen.
Proof.
  revert seen. induction l as [|y l IH]; intros seen; simpl.
  - intros H. by apply elem_of_nil in H.
  - destruct (JS.Set_has seen (key y)) eqn:E.
    + intros H. apply IH in H as [? ?]. split; [by right | done].
    + apply Set_has_false in E. intros [-> | H]%elem_of_cons.
      * split; [by left | done].
      * apply IH in H as [? Hn]. split; [by right|].
        intros Hs. apply Hn, Set_add_elem. by right.
Qed.

Lemma keep_first_NoDup l seen : NoDup (key <$> keep_first key l seen).
Proof.
  revert seen. induction l as [|x l IH]; intros seen; simpl.
  - constructor.
  - destruct (JS.Set_has seen (key x)) eqn:E; [apply IH|].
    rewrite fmap_cons. constructor; [|apply IH].
    intros (y & Hy & Hin)%list_elem_of_fmap.
    apply keep_first_elem in Hin as [_ Hn]. apply Hn, Set_add_elem.
    left. by symmetry.
Qed.

Lemma keep_first_cover l seen x :
  x ∈ l -> key x ∈ seen \/ key x ∈ (key <$> keep_first key l seen).
Proof.
  revert seen. induction l as [|y l IH]; intros seen; simpl.
  - intros H. by apply elem_of_nil in H.
  - intros [-> | H]%elem_of_cons.
    + destruct (JS.Set_has seen (key y)) eqn:E.
      * left. by apply Set_has_true.
      * right. rewrite fmap_cons. by left.
    + destruct (JS.Set_has seen (key y)) eqn:E; [by apply IH|].
      destruct (IH (JS.Set_add (key y) seen) H) as [Hs | Hk].
      * apply Set_add_elem in Hs as [-> | Hs]; [|by left].
        right. rewrite fmap_cons. by left.
      * right. rewrite fmap_cons. by right.
Qed.

(** The element kept for a key is its first occurrence. *)
Lemma keep_first_first l1 x l2 seen :
  key x ∉ seen -> (forall y, y ∈ l1 -> key y <> key x) ->
  x ∈ keep_first key (l1 ++ x :: l2) seen.
Proof.
  revert seen. induction l1 as [|y l1 IH]; intros seen Hn Hl1; simpl.
  - apply Set_has_false in Hn. rewrite Hn. by left.
  - assert (Hy : key y <> key x) by (apply Hl1; by left).
    assert (IH' : forall seen', key x ∉ seen' ->
               x ∈ keep_first key (l1 ++ x :: l2) seen').
    { intros seen' Hn'. apply IH; [done|]. intros z Hz. apply Hl1. by right. }
    destruct (JS.Set_has seen (key y)); [by apply IH'|].
    right. apply IH'. intros [E | Hs]%Set_add_elem; [by symmetry in E | done].
Qed.

(** On a list whose keys are pairwise different and new, nothing is
    dropped. *)
Lemma keep_first_id l seen :
  NoDup (key <$> l) -> (forall x, x ∈ l -> key x ∉ seen) ->
  keep_first key l seen = l.
Proof.
  revert seen. induction l as [|x l IH]; intros seen Hnd Hs; simpl; [done|].
  rewrite fmap_cons in Hnd. apply NoDup_cons in Hnd as [Hx Hnd].
  assert (E : JS.Set_has seen (key x) = false).
  { apply Set_has_false, Hs. by left. }
  rewrite E. f_equal. apply IH; [done|].
  intros y Hy [Ey | Hin]%Set_add_elem.
  - apply Hx, list_elem_of_fmap. exists y. by split.
  - eapply Hs; [by right | done].
Qed.
End KeepFirst.

Lemma uniqueStrings_loop_keep_first values seen out :
  uniqueStrings_loop values seen out
  = out ++ keep_first JS.toLowerCase (nonblank_trimmed values) seen.
Proof.
  revert seen out. unfold nonblank_trimmed.
  induction values as [|v values IH]; intros seen out; simpl.
  - by rewrite app_nil_r.
  - destruct (bool_decide (JS.trim v = [])) eqn:E; simpl; [apply IH|].
    destruct (JS.Set_has seen (JS.toLowerCase (JS.trim v))); [apply IH|].
    rewrite IH. by rewrite <- app_assoc.
Qed.

Lemma uniqueExactStrings_loop_keep_first values seen out :
  uniqueExactStrings_loop values seen out
  = out ++ keep_first id (nonblank_trimmed values) seen.
Proof.
  revert seen out. unfold nonblank_trimmed.
  induction values as [|v values IH]; intros seen out; simpl.
  - by rewrite app_nil_r.
  - destruct (bool_decide (JS.trim v = [])) eqn:E; simpl; [apply IH|].
    change (id (JS.trim v)) with (JS.trim v).
    destruct (JS.Set_has seen (JS.trim v)); [apply IH|].
    rewrite IH. by rewrite <- app_assoc.
Qed.

Lemma uniqueStrings_keep_first values :
  uniqueStrings values = keep_first JS.toLowerCase (nonblank_trimmed values) [].
Proof. unfold uniqueStrings. by rewrite uniqueStrings_loop_keep_first. Qed.

Lemma uniqueExactStrings_keep_first values :
  uniqueExactStrings values = keep_first id (nonblank_trimmed values) [].
Proof. unfold uniqueExactStrings. by rewrite uniqueExactStrings_loop_keep_first. Qed.

Lemma elem_of_nonblank_trimmed values x :
  x ∈ nonblank_trimmed values <-> x <> [] /\ exists v, v ∈ values /\ JS.trim v = x.
Proof.
  unfold nonblank_trimmed. rewrite list_elem_of_In, filter_In, <- list_elem_of_In.
  rewrite list_elem_of_fmap, negb_true_iff, bool_decide_eq_false.
  split.
  - intros [(v & -> & Hv) Hne]. eauto.
  - intros [Hne (v & Hv & <-)]. eauto.
Qed.

Lemma nonblank_trimmed_fixed l :
  Forall (fun x => x <> [] /\ JS.trim x = x) l -> nonblank_trimmed l = l.
Proof.
  unfold nonblank_trimmed. induction 1 as [|x l [Hne Ht] _ IH]; simpl; [done|].
  rewrite Ht. rewrite bool_decide_eq_false_2 by done. simpl. by f_equal.
Qed.

Lemma nonblank_trimmed_Forall values :
  Forall (fun x => x <> [] /\ JS.trim x = x) (nonblank_trimmed values).
Proof.
  apply Forall_forall. intros x (Hne & v & _ & <-)%elem_of_nonblank_trimmed.
  split; [done | apply trim_idem].
Qed.

(** ** Channel inputs *)

Lemma split_runs_pieces sep insep cur s :
  Forall (fun c => sep c = false) cur ->
  Forall (Forall (fun c => sep c = false)) (JS.split_runs sep insep cur s).
Proof.
  revert insep cur. induction s as [|c s IH]; intros insep cur Hcur; simpl.
  - by repeat constructor.
  - destruct (sep c) eqn:E.
    + destruct insep; [by apply IH|]. constructor; [done|]. by apply IH.
    + apply IH. apply Forall_app. split; [done|]. by repeat constructor.
Qed.

Lemma trim_no_whitespace s :
  Forall (fun c => JS.is_whitespace c = false) s -> JS.trim s = s.
Proof.
  intros H. destruct s as [|c t]; [done|].
  destruct (exists_last (l := c :: t)) as (u & d & E); [done|].
  eapply trim_fixed_iff_shape; eauto.
  - by inversion H.
  - rewrite E in H. apply Forall_app in H as [_ H]. by inversion H.
Qed.

Lemma splitCommaWhitespaceList_tokens value :
  Forall (fun t => t <> [] /\ Forall (fun c => JS.is_comma_or_whitespace c = false) t)
    (splitCommaWhitespaceList value).
Proof.
  destruct value as [v|]; simpl; [|constructor].
  apply Forall_forall. intros t. rewrite list_elem_of_In, filter_In.
  rewrite <- list_elem_of_In, list_elem_of_fmap, negb_true_iff, bool_decide_eq_false.
  intros [(p & -> & Hp) Hne].
  pose proof (split_runs_pieces JS.is_comma_or_whitespace false [] v
                ltac:(constructor)) as Hall.
  rewrite Forall_forall in Hall. specialize (Hall p Hp).
  assert (Hws : Forall (fun c => JS.is_whitespace c = false) p).
  { eapply Forall_impl; [exact Hall|]. unfold JS.is_comma_or_whitespace.
    intros c Hc. simpl in Hc. by apply orb_false_iff in Hc as [_ ?]. }
  rewrite (trim_no_whitespace _ Hws) in *. by split.
Qed.

Lemma channelReferences_tokens channels env :
  Forall (fun t => t <> [] /\ Forall (fun c => JS.is_comma_or_whitespace c = false) t)
    (channelReferences channels env).
Proof.
  unfold channelReferences. destruct channels as [|c0 cs].
  - apply splitCommaWhitespaceList_tokens.
  - apply Forall_forall. intros t. rewrite list_elem_of_In, in_flat_map.
    intros (raw & _ & Hin). apply list_elem_of_In in Hin.
    pose proof (splitCommaWhitespaceList_tokens (Some raw)) as H.
    rewrite Forall_forall in H. by apply H.
Qed.

Lemma channelReferences_nonblank_trimmed channels env :
  nonblank_trimmed (channelReferences channels env) = channelReferences channels env.
Proof.
  apply nonblank_trimmed_fixed.
  eapply Forall_impl; [apply channelReferences_tokens|].
  intros t [Hne Hall]. split; [done|]. apply trim_no_whitespace.
  eapply Forall_impl; [exact Hall|]. unfold JS.is_comma_or_whitespace.
  intros c Hc. simpl in Hc. by apply orb_false_iff in Hc as [_ ?].
Qed.

(** A run of units that are no separators is read as one piece. *)
Lemma split_runs_run sep insep cur c r s :
  sep c = false -> Forall (fun c => sep c = false) r ->
  JS.split_runs sep insep cur (c :: r ++ s)
  = JS.split_runs sep false (cur ++ c :: r) s.
Proof.
  assert (Hunit : forall insep cur c t, sep c = false ->
            JS.split_runs sep insep cur (c :: t)
            = JS.split_runs sep false (cur ++ [c]) t).
  { intros ? ? ? ? E. cbn [JS.split_runs]. by rewrite E. }
  revert insep cur c. induction r as [|d r IH]; intros insep cur c Hc Hr.
  - by apply Hunit.
  - apply Forall_cons in Hr as [Hd Hr].
    change (c :: (d :: r) ++ s) with (c :: d :: r ++ s).
    rewrite (Hunit _ _ _ _ Hc).
    rewrite (IH false (cur ++ [c]) d Hd Hr). by rewrite <- app_assoc.
Qed.

Lemma references_of_nothing refs : references [] refs -> refs = [].
Proof.
  intros Hrefs. inversion Hrefs as [| |r text refs' Hne Hr Htext Hrest E]; [done|].
  apply app_eq_nil in E as [-> ->]. by destruct Hne.
Qed.

(** What [splitCommaWhitespaceList] makes of a text is the list of the
    references that the text holds. *)
Lemma references_split text refs :
  references text refs ->
  forall insep,
    List.filter (fun part => negb (bool_decide (part = [])))
      (map JS.trim (JS.split_runs JS.is_comma_or_whitespace insep [] text))
    = refs.
Proof.
  induction 1 as [|c text refs Hc _ IH|r text refs Hne Hr Htext Hrefs IH];
    intros insep.
  - done.
  - cbn [JS.split_runs]. rewrite Hc. destruct insep; [apply IH|].
    cbn [map List.filter]. change (JS.trim []) with (@nil ascii).
    rewrite bool_decide_eq_true_2 by done. apply IH.
  - destruct r as [|c0 r0]; [done|]. apply Forall_cons in Hr as [Hc0 Hr0].
    change ((c0 :: r0) ++ text) with (c0 :: r0 ++ text).
    rewrite (split_runs_run _ insep [] c0 r0 text Hc0 Hr0). cbn [app].
    assert (Htrim : JS.trim (c0 :: r0) = c0 :: r0).
    { apply trim_no_whitespace. constructor.
      - unfold JS.is_comma_or_whitespace in Hc0.
        by apply orb_false_iff in Hc0 as [_ ?].
      - eapply Forall_impl; [exact Hr0|]. unfold JS.is_comma_or_whitespace.
        intros c Hc. simpl in Hc. by apply orb_false_iff in Hc as [_ ?]. }
    destruct Htext as [-> | (c & rest & -> & Hc)].
    + cbn [JS.split_runs map List.filter]. rewrite Htrim.
      rewrite bool_decide_eq_false_2 by done. cbn [negb].
      by rewrite (references_of_nothing _ Hrefs).
    + cbn [JS.split_runs]. rewrite Hc. cbn [map List.filter]. rewrite Htrim.
      rewrite bool_decide_eq_false_2 by done. cbn [negb]. f_equal.
      specialize (IH true). cbn [JS.split_runs] in IH. by rewrite Hc in IH.
Qed.

Lemma references_splitCommaWhitespaceList text refs :
  references text refs -> splitCommaWhitespaceList (Some text) = refs.
Proof. intros Hrefs. exact (references_split text refs Hrefs false). Qed.

(** Every text holds a list of references. *)
Lemma references_exist text : exists refs, references text refs.
Proof.
  induction text as [|c text [refs IH]]; [exists []; constructor|].
  destruct (JS.is_comma_or_whitespace c) eqn:Hc.
  - exists refs. by constructor.
  - destruct IH as [|d text refs Hd Hrefs|r text refs Hne Hr Htext Hrefs].
    + exists [[c]]. apply (references_ref [c] []); [done | by repeat constructor | by left |].
      constructor.
    + exists ([c] :: refs).
      apply (references_ref [c] (d :: text)); [done | by repeat constructor | |].
      * right. by exists d, text.
      * by constructor.
    + exists ((c :: r) :: refs).
      by apply (references_ref (c :: r) text); [done | constructor | |].
Qed.

Lemma supplied_channelReferences channels env refs :
  supplied channels env refs -> channelReferences channels env = refs.
Proof.
  unfold supplied, channelReferences. destruct channels as [|raw channels].
  - destruct env as [text|]; [apply references_splitCommaWhitespaceList | done].
  - intros (parts & Hparts & ->).
    induction Hparts as [|raw' part channels' parts' Hpart _ IH]; [done|].
    cbn [flat_map concat]. by rewrite (references_splitCommaWhitespaceList _ _ Hpart), IH.
Qed.

Lemma supplied_exist channels env : exists refs, supplied channels env refs.
Proof.
  destruct channels as [|raw channels].
  - destruct env as [text|]; [apply references_exist | by exists []].
  - assert (Hparts : exists parts, Forall2 references (raw :: channels) parts).
    { induction (raw :: channels) as [|t l [parts IH]]; [exists []; constructor|].
      destruct (references_exist t) as [refs Hrefs].
      exists (refs :: parts). by constructor. }
    destruct Hparts as [parts Hparts]. exists (concat parts). by exists parts.
Qed.

(** C10.  [getChannelInputs] deduplicates the channel references supplied
    to a run (those that the [--channels] flags hold or, without such a
    flag, those that [YOUTUBE_CHANNELS] holds) without regard to letter
    case: what it returns is a sub-list of the references (original
    spelling, original order), no two of its elements have the same
    lower-case form, every reference has its lower-case form among those of
    the result, the element kept for a lower-case form is the first
    reference that has it, and no element is blank (none is empty or
    contains a comma or white space). *)
Theorem getChannelInputs_dedup_case_insensitive
  (channels : list jstring) (env : option jstring) (refs : list jstring) :
  supplied channels env refs ->
  let out := getChannelInputs channels env in
  out `sublist_of` refs
  /\ NoDup (JS.toLowerCase <$> out)
  /\ (forall r, r ∈ refs -> JS.toLowerCase r ∈ (JS.toLowerCase <$> out))
  /\ (forall l1 r l2, refs = l1 ++ r :: l2 ->
        (forall y, y ∈ l1 -> JS.toLowerCase y <> JS.toLowerCase r) -> r ∈ out)
  /\ (forall o, o ∈ out ->
        o <> [] /\ Forall (fun c => JS.is_comma_or_whitespace c = false) o).
Proof.
  intros Hsupplied out.
  pose proof (supplied_channelReferences _ _ _ Hsupplied) as Hrefs.
  assert (E : out = keep_first JS.toLowerCase refs []).
  { unfold out, getChannelInputs. rewrite uniqueStrings_keep_first.
    by rewrite channelReferences_nonblank_trimmed, Hrefs. }
  rewrite E. repeat split.
  - apply keep_first_sublist.
  - apply keep_first_NoDup.
  - intros r Hr. destruct (keep_first_cover JS.toLowerCase refs [] r Hr) as [H|H];
      [by apply elem_of_nil in H | done].
  - intros l1 r l2 -> Hfirst. apply keep_first_first; [|done].
    apply not_elem_of_nil.
  - apply keep_first_elem in H as [H _].
    pose proof (channelReferences_tokens channels env) as Ht.
    rewrite Hrefs, Forall_forall in Ht. by apply Ht.
  - apply keep_first_elem in H as [H _].
    pose proof (channelReferences_tokens channels env) as Ht.
    rewrite Hrefs, Forall_forall in Ht. by apply Ht.
Qed.

(** Four references in [YOUTUBE_CHANNELS], of which two differ in letter
    case only. *)
Lemma getChannelInputs_dedup_case_insensitive_witness :
  let text := str "@Foo" ++ str ", " ++ str "UCabc" ++ [JS.LF]
              ++ str "@foo" ++ str " ,," ++ str "ucABC" in
  let refs := [str "@Foo"; str "UCabc"; str "@foo"; str "ucABC"] in
  supplied [] (Some text) refs
  /\ getChannelInputs [] (Some text) = [str "@Foo"; str "UCabc"]
  /\ getChannelInputs [] (Some text) `sublist_of` refs
  /\ (forall r, r ∈ refs ->
        JS.toLowerCase r ∈ (JS.toLowerCase <$> getChannelInputs [] (Some text))).
Proof.
  intros text refs.
  assert (Hsupplied : supplied [] (Some text) refs).
  { unfold supplied, text, refs.
    apply (references_ref (str "@Foo"));
      [done | by repeat constructor | right; by eexists _, _ |].
    do 2 (apply references_sep; [done|]).
    apply (references_ref (str "UCabc"));
      [done | by repeat constructor | right; by eexists _, _ |].
    apply references_sep; [done|].
    apply (references_ref (str "@foo"));
      [done | by repeat constructor | right; by eexists _, _ |].
    do 3 (apply references_sep; [done|]).
    apply (references_ref (str "ucABC") []);
      [done | by repeat constructor | by left |].
    constructor. }
  split; [exact Hsupplied|]. split; [by vm_compute|].
  destruct (getChannelInputs_dedup_case_insensitive [] (Some text) refs Hsupplied)
    as (Hsub & _ & Hcover & _).
  split; [exact Hsub | exact Hcover].
Defined.

Lemma elem_of_uniqueExactStrings values x :
  x ∈ uniqueExactStrings values <->
  x <> [] /\ exists v, v ∈ values /\ JS.trim v = x.
Proof.
  rewrite uniqueExactStrings_keep_first, <- elem_of_nonblank_trimmed. split.
  - by intros [? _]%keep_first_elem.
  - intros Hx. destruct (keep_first_cover id _ [] x Hx) as [H | H].
    + by apply elem_of_nil in H.
    + by rewrite list_fmap_id in H.
Qed.

Lemma uniqueExactStrings_NoDup values : NoDup (uniqueExactStrings values).
Proof.
  rewrite uniqueExactStrings_keep_first.
  rewrite <- (list_fmap_id (keep_first _ _ _)). apply keep_first_NoDup.
Qed.

Lemma uniqueExactStrings_Forall values :
  Forall (fun x => x <> [] /\ JS.trim x = x) (uniqueExactStrings values).
Proof.
  apply Forall_forall. intros x (Hne & v & _ & <-)%elem_of_uniqueExactStrings.
  split; [done | apply trim_idem].
Qed.

(** A list of trimmed, non-empty, pairwise different strings is left as it
    is. *)
Lemma uniqueExactStrings_fixed l :
  NoDup l -> Forall (fun x => x <> [] /\ JS.trim x = x) l ->
  uniqueExactStrings l = l.
Proof.
  intros Hnd Hall. rewrite uniqueExactStrings_keep_first.
  rewrite (nonblank_trimmed_fixed _ Hall). apply keep_first_id.
  - by rewrite list_fmap_id.
  - intros x _. apply not_elem_of_nil.
Qed.

Lemma uniqueExactStrings_idem l :
  uniqueExactStrings (uniqueExactStrings l) = uniqueExactStrings l.
Proof.
  apply uniqueExactStrings_fixed;
    [apply uniqueExactStrings_NoDup | apply uniqueExactStrings_Forall].
Qed.

(** ** Liveness filter *)

Lemma get_string_truthy v key s : Js.get v key = JString s -> Js.truthy v = true.
Proof. by destruct v. Qed.

Lemma item_videoId_Some item id :
  item_videoId item = Some id <-> Js.get item (str "id") = JString id.
Proof.
  unfold item_videoId. split.
  - destruct (Js.truthy item); [|done].
    destruct (Js.get item (str "id")); simpl; congruence.
  - intros E. rewrite (get_string_truthy _ _ _ E), E. done.
Qed.

Lemma isLiveBySnippet_true item :
  isLiveBySnippet item = true <->
  Js.get (Js.get item (str "snippet")) (str "liveBroadcastContent")
  = JString (str "live").
Proof.
  unfold isLiveBySnippet, item_liveBroadcastContent.
  rewrite bool_decide_eq_true. split.
  - destruct (Js.truthy item && Js.truthy (Js.get item (str "snippet")));
      [|done].
    destruct (Js.get (Js.get item (str "snippet")) (str "liveBroadcastContent"));
      simpl; congruence.
  - intros E. pose proof (get_string_truthy _ _ _ E) as Hs.
    assert (Hi : Js.truthy item = true).
    { destruct item; try done; by simpl in Hs. }
    by rewrite Hi, Hs, E.
Qed.

Lemma isLiveByDetails_true item :
  isLiveByDetails item = true <->
  let details := Js.get item (str "liveStreamingDetails") in
  (exists s, Js.get details (str "actualStartTime") = JString s /\ s <> []) /\
  (Js.get details (str "actualEndTime") = JUndefined \/
   Js.get details (str "actualEndTime") = JNull).
Proof.
  unfold isLiveByDetails, item_details. simpl. split.
  - destruct (Js.truthy item && Js.truthy (Js.get item (str "liveStreamingDetails")));
      [|done].
    rewrite !andb_true_iff. intros [[_ Hs] He]. split.
    + destruct (Js.get _ (str "actualStartTime")); try done.
      eexists; split; [done|].
      by apply negb_true_iff, bool_decide_eq_false in Hs.
    + destruct (Js.get _ (str "actualEndTime")); try done; auto.
  - intros [(s & Es & Hne) He].
    pose proof (get_string_truthy _ _ _ Es) as Hd.
    assert (Hi : Js.truthy item = true).
    { destruct item; try done; by simpl in Hd. }
    rewrite Hi, Hd. simpl. rewrite Hd, Es. simpl.
    rewrite bool_decide_eq_false_2 by done. simpl.
    by destruct He as [-> | ->].
Qed.

Lemma elem_of_liveIds_of_items items id :
  id ∈ liveIds_of_items items <->
  exists item, item ∈ items /\ Js.get item (str "id") = JString id /\ id <> [] /\
    (isLiveBySnippet item || isLiveByDetails item = true).
Proof.
  induction items as [|item items IH]; simpl.
  - split; [by intros ?%elem_of_nil | by intros (? & ?%elem_of_nil & _)].
  - assert (Hrest : id ∈ liveIds_of_items items ->
      exists item0, item0 ∈ item :: items /\
        Js.get item0 (str "id") = JString id /\ id <> [] /\
        (isLiveBySnippet item0 || isLiveByDetails item0 = true)).
    { intros (it & ? & ?)%IH. exists it. split; [by right | done]. }
    destruct (item_videoId item) as [vid|] eqn:Ev.
    + apply item_videoId_Some in Ev.
      destruct (bool_decide (vid = [])) eqn:Ee;
        [apply bool_decide_eq_true in Ee | apply bool_decide_eq_false in Ee].
      * split; [done|]. intros (it & [-> | Hin]%elem_of_cons & Hid & Hne & Hl).
        -- congruence.
        -- apply IH. eauto.
      * destruct (isLiveBySnippet item || isLiveByDetails item) eqn:El.
        -- rewrite elem_of_cons. split.
           ++ intros [-> | H]; [|auto]. exists item. split; [by left | done].
           ++ intros (it & [-> | Hin]%elem_of_cons & Hid & Hne & Hl).
              ** left. congruence.
              ** right. apply IH. eauto.
        -- split; [done|].
           intros (it & [-> | Hin]%elem_of_cons & Hid & Hne & Hl).
           ++ congruence.
           ++ apply IH. eauto.
    + split; [done|]. intros (it & [-> | Hin]%elem_of_cons & Hid & Hne & Hl).
      * apply item_videoId_Some in Hid. congruence.
      * apply IH. eauto.
Qed.

(** Reading a property of what a request answered. *)
Lemma member_ok {W : Type} (data : jsval) (key : jstring) (st : State W) :
  Js.nullish data = false -> member data key st = (Ok (Js.get data key), st).
Proof. intros E. unfold member. by rewrite E. Qed.

Lemma member_throw {W : Type} (data : jsval) (key : jstring) (st : State W) :
  Js.nullish data = true ->
  member data key st = (Throw (Js.cannot_read data key), st).
Proof. intros E. unfold member. by rewrite E. Qed.

Lemma member_state {W : Type} (data : jsval) (key : jstring) (st : State W) :
  (member data key st).2 = st.
Proof. unfold member. by destruct (Js.nullish data). Qed.

(** C6.  When the video-details lookup answers with a body other than
    [null], [filterCurrentlyLiveVideoIds] returns exactly the (trimmed) IDs
    of the answered items that carry one of the two liveness signals:
    [liveBroadcastContent] equal to ["live"], or an [actualStartTime] that
    is a non-empty string together with an [actualEndTime] that is
    [undefined] or [null].  A body [null] holds no item to classify:
    reading its [items] throws a [TypeError]. *)
Theorem filterCurrentlyLiveVideoIds_or_of_two_signals
  {W : Type} `{Remote W} (videoIds : list jstring) (st : State W) (data : jsval) (w' : W) :
  take 50 (uniqueExactStrings videoIds) <> [] ->
  remote_videos (take 50 (uniqueExactStrings videoIds)) (world st)
    = (Reply data, w') ->
  (Js.nullish data = false ->
   exists liveIds st',
     filterCurrentlyLiveVideoIds videoIds st = (Ok liveIds, st') /\
     forall v, v ∈ liveIds <->
       exists item id,
         item ∈ Js.array_or_empty (Js.get data (str "items")) /\
         Js.get item (str "id") = JString id /\ JS.trim id = v /\ v <> [] /\
         (Js.get (Js.get item (str "snippet")) (str "liveBroadcastContent")
            = JString (str "live")
          \/ ((exists s, Js.get (Js.get item (str "liveStreamingDetails"))
                           (str "actualStartTime") = JString s /\ s <> [])
              /\ (Js.get (Js.get item (str "liveStreamingDetails"))
                    (str "actualEndTime") = JUndefined
                  \/ Js.get (Js.get item (str "liveStreamingDetails"))
                       (str "actualEndTime") = JNull))))
  /\ (Js.nullish data = true ->
      exists st',
        filterCurrentlyLiveVideoIds videoIds st
        = (Throw (Js.cannot_read data (str "items")), st')).
Proof.
  intros Hids Hreply.
  assert (Erun : filterCurrentlyLiveVideoIds videoIds st
            = bind (member data (str "items"))
                (fun data_items =>
                   ret (uniqueExactStrings
                          (liveIds_of_items (Js.array_or_empty data_items))))
                {| files := files st; oauthState := oauthState st;
                   channelIdByInput := channelIdByInput st; world := w';
                   trace := trace st
                            ++ [Net (CallVideos (take 50 (uniqueExactStrings videoIds)))
                                  true] |}).
  { unfold filterCurrentlyLiveVideoIds. rewrite bool_decide_eq_false_2 by done.
    unfold bind at 1. unfold net. by rewrite Hreply. }
  rewrite Erun. split; intros Hnull.
  - unfold bind. rewrite (member_ok _ _ _ Hnull). unfold ret.
    do 2 eexists. split; [done|].
    intros v. rewrite elem_of_uniqueExactStrings. split.
    + intros (Hne & id & (item & Hin & Hid & _ & Hl)%elem_of_liveIds_of_items & Ht).
      exists item, id. repeat split; try done.
      apply orb_true_iff in Hl as [Hl | Hl].
      * left. by apply isLiveBySnippet_true.
      * right. by apply isLiveByDetails_true in Hl.
    + intros (item & id & Hin & Hid & Ht & Hne & Hl). split; [done|].
      exists id. split; [|done]. apply elem_of_liveIds_of_items.
      exists item. repeat split; try done.
      * intros ->. by rewrite <- Ht in Hne.
      * apply orb_true_iff. destruct Hl as [Hl | Hl].
        -- left. by apply isLiveBySnippet_true.
        -- right. by apply isLiveByDetails_true.
  - unfold bind. rewrite (member_throw _ _ _ Hnull). by eexists.
Qed.

Example filterCurrentlyLiveVideoIds_started_not_ended :
  fst (filterCurrentlyLiveVideoIds
         [str "aaaaaaaaaaa"; str "bbbbbbbbbbb"; str "ccccccccccc"]
         (initial_state ∅ example_videos_world))
  = Ok [str "aaaaaaaaaaa"; str "bbbbbbbbbbb"].
Proof. vm_compute. reflexivity. Qed.

(** The lookup answers with the body [null]. *)
Example filterCurrentlyLiveVideoIds_null_body :
  fst (filterCurrentlyLiveVideoIds [str "aaaaaaaaaaa"]
         (initial_state ∅ example_null_world))
  = Throw (str "Cannot read properties of null (reading 'items')").
Proof. vm_compute. reflexivity. Qed.

Lemma filterCurrentlyLiveVideoIds_or_of_two_signals_witness :
  exists liveIds st',
    filterCurrentlyLiveVideoIds
      [str "aaaaaaaaaaa"; str "bbbbbbbbbbb"; str "ccccccccccc"]
      (initial_state ∅ example_videos_world) = (Ok liveIds, st') /\
    forall v, v ∈ liveIds <->
      exists item id,
        item ∈ Js.array_or_empty (Js.get example_videos_answer (str "items")) /\
        Js.get item (str "id") = JString id /\ JS.trim id = v /\ v <> [] /\
        (Js.get (Js.get item (str "snippet")) (str "liveBroadcastContent")
           = JString (str "live")
         \/ ((exists s, Js.get (Js.get item (str "liveStreamingDetails"))
                          (str "actualStartTime") = JString s /\ s <> [])
             /\ (Js.get (Js.get item (str "liveStreamingDetails"))
                   (str "actualEndTime") = JUndefined
                 \/ Js.get (Js.get item (str "liveStreamingDetails"))
                      (str "actualEndTime") = JNull))).
Proof.
  refine (proj1 (filterCurrentlyLiveVideoIds_or_of_two_signals
                   [str "aaaaaaaaaaa"; str "bbbbbbbbbbb"; str "ccccccccccc"]
                   (initial_state ∅ example_videos_world)
                   example_videos_answer example_videos_world _ _) _).
  - vm_compute. discriminate.
  - reflexivity.
  - reflexivity.
Defined.

(** ** The URL parser on plain text *)

Lemma span_until_none p s :
  Forall (fun c => p c = false) s -> URL.span_until p s = (s, []).
Proof.
  induction 1 as [|c s Hc _ IH]; simpl; [done|]. by rewrite Hc, IH.
Qed.

Lemma span_until_app p a c r :
  Forall (fun x => p x = false) a -> p c = true ->
  URL.span_until p (a ++ c :: r) = (a, c :: r).
Proof.
  intros Ha Hc. induction Ha as [|x a Hx _ IH]; cbn [URL.span_until app].
  - by rewrite Hc.
  - by rewrite Hx, IH.
Qed.

Lemma split_at_none sep cur s :
  Forall (fun c => sep c = false) s -> URL.split_at sep cur s = [cur ++ s].
Proof.
  intros H. revert cur. induction H as [|c s Hc _ IH]; intros cur; simpl.
  - by rewrite app_nil_r.
  - rewrite Hc, IH. by rewrite <- app_assoc.
Qed.

Lemma percent_encode_id in_set s :
  Forall (fun c => in_set c = false) s -> URL.percent_encode in_set s = s.
Proof.
  unfold URL.percent_encode.
  induction 1 as [|c s Hc _ IH]; simpl; [done|]. by rewrite Hc, IH.
Qed.

Lemma percent_decode_id s :
  Forall (fun c => Ascii.eqb c "%" = false) s -> URL.percent_decode s = s.
Proof.
  induction 1 as [|c s Hc _ IH]; simpl; [done|]. by rewrite Hc, IH.
Qed.

Lemma form_decode_id s :
  Forall (fun c => Ascii.eqb c "%" = false /\ Ascii.eqb c "+" = false) s ->
  URL.form_decode s = s.
Proof.
  intros H. unfold URL.form_decode.
  assert (E : map (fun c => if Ascii.eqb c "+" then " "%char else c) s = s).
  { induction H as [|c s [_ Hc] _ IH]; simpl; [done|]. by rewrite Hc, IH. }
  rewrite E. apply percent_decode_id. eapply Forall_impl; [exact H|]. by intros c [? _].
Qed.

Lemma drop_while_none p s :
  Forall (fun c => p c = false) s -> URL.drop_while p s = s.
Proof. destruct 1 as [|c s Hc _]; simpl; [done|]. by rewrite Hc. Qed.

Lemma filter_all {A} (p : A -> bool) (l : list A) :
  Forall (fun c => p c = true) l -> List.filter p l = l.
Proof. induction 1 as [|c s Hc _ IH]; simpl; [done|]. by rewrite Hc, IH. Qed.

Lemma preprocess_id s :
  Forall (fun c => URL.is_c0_or_space c = false) s -> URL.preprocess s = s.
Proof.
  intros H. unfold URL.preprocess.
  rewrite (drop_while_none _ s H).
  rewrite (drop_while_none _ (rev s)) by by apply Forall_rev.
  rewrite rev_involutive. apply filter_all.
  eapply Forall_impl; [exact H|]. intros c Hc.
  unfold URL.is_c0_or_space, URL.is_tab_or_newline in *.
  apply N.leb_gt in Hc.
  destruct (URL.code c) as [|q]; [done|].
  do 4 (destruct q as [q|q|]; try done); lia.
Qed.

(** What a unit of a video ID is not. *)
Lemma video_id_unit_plain c :
  is_video_id_unit c = true ->
  JS.is_whitespace c = false /\ URL.is_c0_or_space c = false /\
  Ascii.eqb "#" c = false /\ Ascii.eqb "?" c = false /\
  Ascii.eqb "/" c = false /\ URL.is_slash true c = false /\
  Ascii.eqb "&" c = false /\ Ascii.eqb "=" c = false /\
  (Ascii.eqb c "%" = false /\ Ascii.eqb c "+" = false) /\
  URL.in_path_set c = false /\ URL.in_query_set true c = false /\
  Ascii.eqb c JS.LF = false /\ Ascii.eqb c JS.CR = false.
Proof.
  destruct c as [[] [] [] [] [] [] [] []]; intros H;
    first [discriminate H | by vm_compute].
Qed.

Lemma is_video_id_spec v :
  is_video_id v = true <->
  length v = 11%nat /\ Forall (fun c => is_video_id_unit c = true) v.
Proof.
  unfold is_video_id. rewrite andb_true_iff, Nat.eqb_eq, forallb_forall, Forall_forall.
  split; intros [Hl Hall]; (split; [done|]); intros c Hc; apply Hall;
    by apply list_elem_of_In.
Qed.

Lemma Forall_false_forallb {A} (p : A -> bool) (l : list A) :
  forallb (fun c => negb (p c)) l = true -> Forall (fun c => p c = false) l.
Proof.
  rewrite forallb_forall, Forall_forall. intros H c Hc.
  apply negb_true_iff, H. by apply list_elem_of_In.
Qed.

Lemma normalize_drive_not_file path segment :
  URL.normalize_drive false path segment = segment.
Proof. destruct path; [|done]. by destruct segment as [|a [|b [|? ?]]]. Qed.

(** Closes [Forall P s] when [s] is made of literals and of a video ID
    [v] with [is_video_id v = true] among the hypotheses, and [P] is one of
    the properties of [video_id_unit_plain]. *)
Ltac plain_text :=
  repeat (apply Forall_app; split);
  first
    [ apply Forall_false_forallb; vm_compute; reflexivity
    | match goal with
      | Hv : is_video_id ?v = true |- Forall _ ?v =>
          let Hall := fresh in
          let c := fresh "c" in
          let Hc := fresh in
          pose proof (proj1 (is_video_id_spec v) Hv) as [_ Hall];
          eapply Forall_impl; [exact Hall|];
          intros c Hc; apply video_id_unit_plain in Hc; tauto
      end ].

Section VideoId.
Variable v : jstring.
Hypothesis Hv : is_video_id v = true.

Lemma video_id_nonempty : v <> [].
Proof. apply is_video_id_spec in Hv as [Hl _]. by destruct v. Qed.

Lemma video_id_trim : JS.trim v = v.
Proof. apply trim_no_whitespace. plain_text. Qed.

Lemma segment_not_dots :
  URL.is_single_dot v = false /\ URL.is_double_dot v = false.
Proof.
  apply is_video_id_spec in Hv as [Hl _].
  unfold URL.is_single_dot, URL.is_double_dot.
  split; apply bool_decide_eq_false; intros Hin.
  all: repeat (apply elem_of_cons in Hin as [Hin | Hin];
               [apply (f_equal (@length ascii)) in Hin;
                rewrite length_map, Hl in Hin; by vm_compute in Hin|]).
  all: by apply elem_of_nil in Hin.
Qed.

Lemma parse_watch_url :
  URL.parse (watch_url v)
  = Some {| URL.scheme := str "https"; URL.hostname := str "www.youtube.com";
            URL.pathname := str "/watch"; URL.query := str "v=" ++ v |}.
Proof.
  unfold URL.parse, watch_url.
  rewrite preprocess_id by plain_text.
  change (URL.parse_scheme (str "https://www.youtube.com/watch?v=" ++ v))
    with (Some (str "https", str "//www.youtube.com/watch?v=" ++ v)).
  cbn [mbind option_bind].
  rewrite span_until_none by plain_text.
  change (URL.span_until (Ascii.eqb "?") (str "//www.youtube.com/watch?v=" ++ v))
    with (str "//www.youtube.com/watch", str "?v=" ++ v).
  change (URL.is_special (str "https")) with true.
  cbv beta iota zeta.
  change (tail (str "?v=" ++ v)) with (str "v=" ++ v).
  rewrite percent_encode_id by plain_text.
  reflexivity.
Qed.

Lemma parse_short_url :
  URL.parse (str "https://youtu.be/" ++ v)
  = Some {| URL.scheme := str "https"; URL.hostname := str "youtu.be";
            URL.pathname := "/"%char :: v; URL.query := [] |}.
Proof.
  unfold URL.parse.
  rewrite preprocess_id by plain_text.
  change (URL.parse_scheme (str "https://youtu.be/" ++ v))
    with (Some (str "https", str "//youtu.be/" ++ v)).
  cbn [mbind option_bind].
  rewrite span_until_none by plain_text.
  rewrite span_until_none by plain_text.
  change (URL.is_special (str "https")) with true.
  change (bool_decide (str "https" = str "file")) with false.
  cbv beta iota zeta.
  change (URL.drop_while (URL.is_slash true) (str "//youtu.be/" ++ v))
    with (str "youtu.be/" ++ v).
  change (URL.span_until (URL.is_slash true) (str "youtu.be/" ++ v))
    with (str "youtu.be", "/"%char :: v).
  cbv beta iota zeta.
  unfold URL.with_authority.
  change (URL.parse_authority true (str "youtu.be")) with (Some (str "youtu.be")).
  cbn [mbind option_bind].
  change (URL.path_start true false ("/"%char :: v))
    with (URL.parse_path true false v []).
  unfold URL.parse_path. rewrite split_at_none by plain_text.
  cbn [map app]. rewrite percent_encode_id by plain_text.
  cbn [URL.path_state]. destruct segment_not_dots as [-> ->].
  rewrite normalize_drive_not_file. cbn. by rewrite app_nil_r.
Qed.

Lemma parse_live_url :
  URL.parse (str "https://www.youtube.com/live/" ++ v)
  = Some {| URL.scheme := str "https"; URL.hostname := str "www.youtube.com";
            URL.pathname := str "/live/" ++ v; URL.query := [] |}.
Proof.
  unfold URL.parse.
  rewrite preprocess_id by plain_text.
  change (URL.parse_scheme (str "https://www.youtube.com/live/" ++ v))
    with (Some (str "https", str "//www.youtube.com/live/" ++ v)).
  cbn [mbind option_bind].
  rewrite span_until_none by plain_text.
  rewrite span_until_none by plain_text.
  change (URL.is_special (str "https")) with true.
  change (bool_decide (str "https" = str "file")) with false.
  cbv beta iota zeta.
  change (URL.drop_while (URL.is_slash true) (str "//www.youtube.com/live/" ++ v))
    with (str "www.youtube.com/live/" ++ v).
  change (URL.span_until (URL.is_slash true) (str "www.youtube.com/live/" ++ v))
    with (str "www.youtube.com", str "/live/" ++ v).
  cbv beta iota zeta.
  unfold URL.with_authority.
  change (URL.parse_authority true (str "www.youtube.com"))
    with (Some (str "www.youtube.com")).
  cbn [mbind option_bind].
  change (URL.path_start true false (str "/live/" ++ v))
    with (URL.parse_path true false (str "live/" ++ v) []).
  unfold URL.parse_path.
  change (URL.split_at (URL.is_slash true) [] (str "live/" ++ v))
    with (str "live" :: URL.split_at (URL.is_slash true) [] v).
  rewrite split_at_none by plain_text.
  cbn [map app]. rewrite (percent_encode_id _ v) by plain_text.
  change (URL.percent_encode URL.in_path_set (str "live")) with (str "live").
  change (URL.path_state false [str "live"; v] [])
    with (URL.path_state false [v] [str "live"]).
  cbn [URL.path_state]. destruct segment_not_dots as [-> ->].
  rewrite normalize_drive_not_file. cbn. by rewrite app_nil_r.
Qed.

End VideoId.

(** ** The extractor *)

Lemma is_video_id_length raw : length raw <> 11%nat -> is_video_id raw = false.
Proof.
  intros H. unfold is_video_id. apply andb_false_iff. left.
  by apply Nat.eqb_neq.
Qed.

Lemma extract_bare v : is_video_id v = true -> extractVideoIdFromUrlOrId v = Some v.
Proof.
  intros Hv. unfold extractVideoIdFromUrlOrId. rewrite (video_id_trim v Hv).
  rewrite bool_decide_eq_false_2 by by apply video_id_nonempty.
  by rewrite Hv.
Qed.

Lemma first_value_single name value :
  Forall (fun c => Ascii.eqb c "%" = false /\ Ascii.eqb c "+" = false) name ->
  Forall (fun c => Ascii.eqb c "%" = false /\ Ascii.eqb c "+" = false) value ->
  Forall (fun c => Ascii.eqb "=" c = false) name ->
  name <> [] ->
  URL.first_value name [name ++ "="%char :: value] = Some value.
Proof.
  intros Hn Hv He Hne. unfold URL.first_value.
  destruct (name ++ "="%char :: value) as [|c s] eqn:E.
  { by destruct name. }
  rewrite <- E. clear E.
  assert (Es : URL.span_until (Ascii.eqb "=") (name ++ "="%char :: value)
               = (name, "="%char :: value)).
  { by apply span_until_app. }
  rewrite Es. rewrite (form_decode_id name Hn).
  rewrite bool_decide_eq_true_2 by done. simpl. by rewrite form_decode_id.
Qed.

Lemma extract_watch_url v :
  is_video_id v = true -> extractVideoIdFromUrlOrId (watch_url v) = Some v.
Proof.
  intros Hv. unfold extractVideoIdFromUrlOrId.
  rewrite trim_no_whitespace by (unfold watch_url; plain_text).
  rewrite bool_decide_eq_false_2 by done.
  rewrite is_video_id_length.
  2:{ unfold watch_url. rewrite length_app.
      apply is_video_id_spec in Hv as [-> _]. by vm_compute. }
  rewrite (parse_watch_url v Hv).
  cbn [URL.hostname URL.pathname].
  change (JS.toLowerCase (str "www.youtube.com")) with (str "www.youtube.com").
  change (bool_decide (str "www.youtube.com" = str "youtu.be")) with false.
  change (bool_decide (str "www.youtube.com" = str "youtube.com")
          || JS.endsWith (str "www.youtube.com") (str ".youtube.com")) with true.
  change (bool_decide (str "/watch" = str "/watch")) with true.
  cbv iota. unfold URL.searchParams_get. cbn [URL.query].
  rewrite split_at_none by plain_text.
  change ([] ++ str "v=" ++ v) with (str "v" ++ "="%char :: v).
  apply first_value_single;
    [by repeat constructor | plain_text | plain_text | done].
Qed.

Lemma first_segment_plain v : is_video_id v = true -> first_segment v = v.
Proof. intros Hv. unfold first_segment. by rewrite span_until_none by plain_text. Qed.

Lemma extract_short_url v :
  is_video_id v = true ->
  extractVideoIdFromUrlOrId (str "https://youtu.be/" ++ v) = Some v.
Proof.
  intros Hv. unfold extractVideoIdFromUrlOrId.
  rewrite trim_no_whitespace by plain_text.
  rewrite bool_decide_eq_false_2 by done.
  rewrite is_video_id_length.
  2:{ rewrite length_app. apply is_video_id_spec in Hv as [-> _]. by vm_compute. }
  rewrite (parse_short_url v Hv).
  cbn [URL.hostname URL.pathname].
  change (JS.toLowerCase (str "youtu.be")) with (str "youtu.be").
  change (bool_decide (str "youtu.be" = str "youtu.be")) with true.
  cbv iota.
  change (URL.drop_while (Ascii.eqb "/") ("/"%char :: v))
    with (URL.drop_while (Ascii.eqb "/") v).
  rewrite drop_while_none by plain_text.
  rewrite (first_segment_plain v Hv). unfold nonempty_or_null.
  by rewrite bool_decide_eq_false_2 by by apply video_id_nonempty.
Qed.

Lemma extract_live_url v :
  is_video_id v = true ->
  extractVideoIdFromUrlOrId (str "https://www.youtube.com/live/" ++ v) = Some v.
Proof.
  intros Hv. unfold extractVideoIdFromUrlOrId.
  rewrite trim_no_whitespace by plain_text.
  rewrite bool_decide_eq_false_2 by done.
  rewrite is_video_id_length.
  2:{ rewrite length_app. apply is_video_id_spec in Hv as [-> _]. by vm_compute. }
  rewrite (parse_live_url v Hv).
  cbn [URL.hostname URL.pathname].
  change (JS.toLowerCase (str "www.youtube.com")) with (str "www.youtube.com").
  change (bool_decide (str "www.youtube.com" = str "youtu.be")) with false.
  change (bool_decide (str "www.youtube.com" = str "youtube.com")
          || JS.endsWith (str "www.youtube.com") (str ".youtube.com")) with true.
  cbv iota.
  rewrite bool_decide_eq_false_2.
  2:{ intros E. apply (f_equal (@length ascii)) in E. rewrite length_app in E.
      apply is_video_id_spec in Hv as [Hl _]. rewrite Hl in E. by vm_compute in E. }
  change (JS.startsWith (str "/live/" ++ v) (str "/live/")) with true.
  change (drop (length (str "/live/")) (str "/live/" ++ v)) with v.
  cbv iota.
  rewrite (first_segment_plain v Hv). unfold nonempty_or_null.
  by rewrite bool_decide_eq_false_2 by by apply video_id_nonempty.
Qed.

(** C2.  For a well-formed video ID [v] (eleven units, each a letter, a
    digit, [-] or [_]) the extractor returns [v] on the bare token, on the
    watch URL, on the short URL and on the live URL of [v]. *)
Theorem extractVideoIdFromUrlOrId_round_trip (v : jstring) :
  is_video_id v = true ->
  extractVideoIdFromUrlOrId v = Some v
  /\ extractVideoIdFromUrlOrId (str "https://www.youtube.com/watch?v=" ++ v) = Some v
  /\ extractVideoIdFromUrlOrId (str "https://youtu.be/" ++ v) = Some v
  /\ extractVideoIdFromUrlOrId (str "https://www.youtube.com/live/" ++ v) = Some v.
Proof.
  intros Hv. repeat split.
  - by apply extract_bare.
  - by apply extract_watch_url.
  - by apply extract_short_url.
  - by apply extract_live_url.
Qed.

Lemma extractVideoIdFromUrlOrId_round_trip_witness :
  is_video_id (str "dQw4w9WgXcQ") = true
  /\ extractVideoIdFromUrlOrId (str "dQw4w9WgXcQ") = Some (str "dQw4w9WgXcQ")
  /\ extractVideoIdFromUrlOrId
       (str "https://www.youtube.com/watch?v=" ++ str "dQw4w9WgXcQ")
     = Some (str "dQw4w9WgXcQ")
  /\ extractVideoIdFromUrlOrId (str "https://youtu.be/" ++ str "dQw4w9WgXcQ")
     = Some (str "dQw4w9WgXcQ")
  /\ extractVideoIdFromUrlOrId
       (str "https://www.youtube.com/live/" ++ str "dQw4w9WgXcQ")
     = Some (str "dQw4w9WgXcQ").
Proof.
  split; [reflexivity|].
  apply (extractVideoIdFromUrlOrId_round_trip (str "dQw4w9WgXcQ")). reflexivity.
Defined.

(** ** Lines and tokens *)

Lemma split_runs_plain sep insep cur s :
  Forall (fun c => sep c = false) s ->
  JS.split_runs sep insep cur s = [cur ++ s].
Proof.
  intros H. revert insep cur. induction H as [|c s Hc _ IH]; intros insep cur; simpl.
  - by rewrite app_nil_r.
  - rewrite Hc, IH. by rewrite <- app_assoc.
Qed.

(** The last piece of a split is the text behind the last separator. *)
Lemma split_runs_last sep q w u :
  Forall (fun c => sep c = false) u -> sep w = true ->
  forall insep cur, (insep = true -> cur = []) ->
    List.last (JS.split_runs sep insep cur (q ++ w :: u)) [] = u.
Proof.
  intros Hu Hw. induction q as [|c q IH]; intros insep cur Hinv; simpl.
  - rewrite Hw. destruct insep.
    + rewrite Hinv by done. by rewrite split_runs_plain.
    + rewrite split_runs_plain by done. simpl. by destruct cur.
  - destruct (sep c) eqn:Ec.
    + destruct insep.
      * by apply IH.
      * assert (E : forall l, l <> [] -> List.last (cur :: l) [] = List.last l []).
        { intros l Hl. by destruct l. }
        rewrite E; [by apply IH|].
        clear. generalize (@nil ascii). generalize true.
        induction (q ++ w :: u) as [|x l IHl]; intros b acc; simpl; [done|].
        destruct (sep x); [destruct b; [apply IHl | done] | apply IHl].
    + by apply IH.
Qed.

Lemma ends_with_whitespace_trimStart q :
  ends_with_whitespace q -> ends_with_whitespace (JS.trimStart q).
Proof.
  intros [-> | (before & w & -> & Hw)]; [by left|].
  induction before as [|c before IH]; simpl.
  - rewrite Hw. by left.
  - destruct (JS.is_whitespace c); [done|]. right. by exists (c :: before), w.
Qed.

(** The last token of a line that ends with a text [u] free of white
    space, with white space (or nothing) in front of it, is [u]. *)
Lemma last_token_of_line q u :
  ends_with_whitespace q -> u <> [] ->
  Forall (fun c => JS.is_whitespace c = false) u ->
  JS.trim (q ++ u) <> [] /\
  List.last (JS.split_whitespace (JS.trim (q ++ u))) [] = u.
Proof.
  intros Hq Hne Hu.
  destruct u as [|c u']; [done|]. set (u := c :: u') in *.
  assert (Hc : JS.is_whitespace c = false) by by inversion Hu.
  destruct (exists_last (l := u)) as (u0 & d & Eu); [done|].
  assert (Hd : JS.is_whitespace d = false).
  { rewrite Eu in Hu. apply Forall_app in Hu as [_ Hu]. by inversion Hu. }
  assert (Et : JS.trim (q ++ u) = JS.trimStart q ++ u).
  { unfold JS.trim. unfold u at 1. rewrite trimStart_app_not_ws by done.
    fold u. rewrite Eu, app_assoc. by apply trimEnd_snoc_not_ws. }
  rewrite Et. split; [by destruct (JS.trimStart q)|].
  destruct (ends_with_whitespace_trimStart q Hq) as [-> | (before & w & -> & Hw)].
  - simpl. unfold JS.split_whitespace. by rewrite split_runs_plain.
  - rewrite <- app_assoc. simpl. unfold JS.split_whitespace.
    by apply split_runs_last.
Qed.

Lemma line_video_id_watch_url q v :
  ends_with_whitespace q -> is_video_id v = true ->
  line_video_id (q ++ watch_url v) = Some v.
Proof.
  intros Hq Hv. unfold line_video_id.
  destruct (last_token_of_line q (watch_url v) Hq) as [Hne Hlast].
  { done. }
  { unfold watch_url. plain_text. }
  rewrite bool_decide_eq_false_2 by done. rewrite Hlast.
  rewrite (extract_watch_url v Hv).
  by rewrite bool_decide_eq_false_2 by by apply video_id_nonempty.
Qed.

Lemma line_video_id_nil : line_video_id [] = None.
Proof. reflexivity. Qed.

Lemma strip_cr_snoc s d : Ascii.eqb d JS.CR = false -> JS.strip_cr (s ++ [d]) = s ++ [d].
Proof. intros H. unfold JS.strip_cr. rewrite rev_app_distr. simpl. by rewrite H. Qed.

Lemma split_lines_from_plain cur u rest :
  Forall (fun c => Ascii.eqb c JS.LF = false) u ->
  JS.split_lines_from cur (u ++ JS.LF :: rest)
  = JS.strip_cr (cur ++ u) :: JS.split_lines_from [] rest.
Proof.
  intros H. revert cur. induction H as [|c u Hc _ IH]; intros cur.
  - simpl. by rewrite app_nil_r.
  - cbn [app JS.split_lines_from]. rewrite Hc, IH. by rewrite <- app_assoc.
Qed.

(** The lines in front of a line feed do not depend on what follows it. *)
Lemma split_lines_from_app_LF a cur :
  exists lines, forall b,
    JS.split_lines_from cur (a ++ JS.LF :: b) = lines ++ JS.split_lines_from [] b.
Proof.
  revert cur. induction a as [|c a IH]; intros cur.
  - exists [JS.strip_cr cur]. intros b. reflexivity.
  - cbn [app JS.split_lines_from]. destruct (Ascii.eqb c JS.LF).
    + destruct (IH []) as (lines & Hl). exists (JS.strip_cr cur :: lines).
      intros b. by rewrite Hl.
    + apply IH.
Qed.

(** A text [u] written behind white space (or at the start) and followed
    by a line feed is the end of a line. *)
Lemma split_lines_from_token q cur u rest :
  ends_with_whitespace (cur ++ q) -> u <> [] ->
  Forall (fun c => Ascii.eqb c JS.LF = false) u ->
  (forall u0 d, u = u0 ++ [d] -> Ascii.eqb d JS.CR = false) ->
  exists q', ends_with_whitespace q' /\
    (q' ++ u) ∈ JS.split_lines_from cur (q ++ u ++ JS.LF :: rest).
Proof.
  intros Hq Hne Hu Hcr. revert cur Hq. induction q as [|c q IH]; intros cur Hq.
  - rewrite app_nil_r in Hq. exists cur. split; [done|].
    cbn [app]. rewrite split_lines_from_plain by done.
    destruct (exists_last Hne) as (u0 & d & ->).
    rewrite app_assoc, strip_cr_snoc by by eapply Hcr. by left.
  - cbn [app JS.split_lines_from]. destruct (Ascii.eqb c JS.LF) eqn:Ec.
    + destruct (IH []) as (q' & Hq' & Hin).
      { destruct Hq as [E | (before & w & E & Hw)]; [by destruct cur|].
        destruct (decide (q = [])) as [-> | Hqne]; [by left|].
        destruct (exists_last Hqne) as (q0 & x & ->).
        right. exists q0, w. split; [|done].
        change (cur ++ c :: q0 ++ [x]) with (cur ++ (c :: q0) ++ [x]) in E.
        rewrite app_assoc in E. by apply app_inj_tail in E as [_ ->]. }
      exists q'. split; [done | by right].
    + apply IH. by rewrite <- app_assoc.
Qed.

(** ** The Ledger *)

Lemma elem_of_fold_Set_add (f : jstring -> option jstring) lines acc id :
  id ∈ fold_left (fun ids line => match f line with
                                   | Some x => JS.Set_add x ids
                                   | None => ids
                                   end) lines acc
  <-> id ∈ acc \/ exists line, line ∈ lines /\ f line = Some id.
Proof.
  revert acc. induction lines as [|l lines IH]; intros acc; simpl.
  - split; [by left | intros [? | (? & ?%elem_of_nil & _)]; done].
  - rewrite IH. split.
    + intros [Hacc | (line & Hin & Hf)].
      * destruct (f l) as [x|] eqn:E; [|by left].
        apply Set_add_elem in Hacc as [-> | ?]; [|by left].
        right. exists l. split; [by left | done].
      * right. exists line. split; [by right | done].
    + intros [Hacc | (line & [-> | Hin]%elem_of_cons & Hf)].
      * left. destruct (f l); [|done]. apply Set_add_elem. by right.
      * left. rewrite Hf. apply Set_add_elem. by left.
      * right. eauto.
Qed.

Lemma elem_of_video_ids_of_content content id :
  id ∈ video_ids_of_content content
  <-> exists line, line ∈ JS.split_lines content /\ line_video_id line = Some id.
Proof.
  unfold video_ids_of_content. rewrite elem_of_fold_Set_add.
  split; [intros [?%elem_of_nil | ?]; done | by right].
Qed.

Lemma readExistingVideoIds_content fs path :
  readExistingVideoIds fs path = video_ids_of_content (default [] (fs !! path)).
Proof. unfold readExistingVideoIds. by destruct (fs !! path). Qed.

Lemma appendNewLiveLinks_loop_spec wt ts ids existing buffer sids surls :
  appendNewLiveLinks_loop wt ts ids existing buffer sids surls
  = (buffer ++ concat (map (ledger_line wt ts) (keep_first id ids existing)),
     sids ++ keep_first id ids existing,
     surls ++ map watch_url (keep_first id ids existing)).
Proof.
  revert existing buffer sids surls.
  induction ids as [|v ids IH]; intros existing buffer sids surls; simpl.
  - by rewrite !app_nil_r.
  - change (id v) with v. destruct (JS.Set_has existing v); [apply IH|].
    rewrite IH. simpl. by rewrite <- !app_assoc.
Qed.


Lemma ledger_line_nonempty wt ts v : ledger_line wt ts v <> [].
Proof.
  unfold ledger_line, watch_url.
  destruct wt; [destruct ts|]; done.
Qed.

Lemma ledger_lines_nil wt ts l :
  concat (map (ledger_line wt ts) l) = [] <-> l = [].
Proof.
  split; [|by intros ->]. destruct l as [|v l]; [done|]. simpl.
  intros E. apply app_eq_nil in E as [E _]. by apply ledger_line_nonempty in E.
Qed.

(** What [appendNewLiveLinks] returns and writes, in closed form: the new
    IDs are the first occurrences of the IDs that the Ledger does not hold
    yet. *)
Lemma appendNewLiveLinks_spec fs path ids wt ts :
  let new := keep_first id ids (readExistingVideoIds fs path) in
  appendNewLiveLinks fs path ids wt ts
  = ({| savedVideoIds := new; savedUrls := map watch_url new |},
     if bool_decide (new = []) then fs
     else <[path := default [] (fs !! path)
                    ++ concat (map (ledger_line wt ts) new)]> fs).
Proof.
  intros new. unfold appendNewLiveLinks.
  destruct (bool_decide (ids = [])) eqn:E.
  - apply bool_decide_eq_true in E. subst ids. reflexivity.
  - rewrite appendNewLiveLinks_loop_spec. simpl. fold new. f_equal.
    destruct (decide (new = [])) as [Hn | Hn].
    + rewrite Hn. reflexivity.
    + rewrite (bool_decide_eq_false_2 (new = [])) by done.
      rewrite bool_decide_eq_false_2; [done|]. by rewrite ledger_lines_nil.
Qed.


Lemma keep_first_all_seen key l seen :
  (forall x, x ∈ l -> key x ∈ seen) -> keep_first key l seen = [].
Proof.
  induction l as [|x l IH]; intros H; simpl; [done|].
  rewrite (proj2 (Set_has_true seen (key x))) by (apply H; by left).
  apply IH. intros y Hy. apply H. by right.
Qed.

Lemma keep_first_nil_inv key l seen :
  keep_first key l seen = [] -> forall x, x ∈ l -> key x ∈ seen.
Proof.
  induction l as [|y l IH]; simpl; intros E x Hx; [by apply elem_of_nil in Hx|].
  destruct (JS.Set_has seen (key y)) eqn:Es; [|done].
  apply Set_has_true in Es.
  apply elem_of_cons in Hx as [-> | Hx]; [done | by apply IH].
Qed.


Lemma ledger_lines_end wt ts l :
  concat (map (ledger_line wt ts) l) = [] \/
  exists before, concat (map (ledger_line wt ts) l) = before ++ [JS.LF].
Proof.
  induction l as [|v l IH] using rev_ind; [by left|]. right.
  rewrite map_app, concat_app. simpl. rewrite app_nil_r.
  unfold ledger_line. destruct wt.
  - eexists. by rewrite !app_assoc.
  - eexists. by rewrite !app_assoc.
Qed.

(** Appending to a Ledger whose last line is complete keeps the IDs it
    held. *)
Lemma video_ids_of_content_app content appended id :
  content = [] \/ (exists before, content = before ++ [JS.LF]) ->
  id ∈ video_ids_of_content content ->
  id ∈ video_ids_of_content (content ++ appended).
Proof.
  intros [-> | (before & ->)].
  - intros (line & Hin & Hl)%elem_of_video_ids_of_content.
    apply list_elem_of_singleton in Hin. subst line. by rewrite line_video_id_nil in Hl.
  - rewrite !elem_of_video_ids_of_content. unfold JS.split_lines.
    destruct (split_lines_from_app_LF before []) as (lines & Hlines).
    rewrite <- app_assoc. cbn [app]. rewrite (Hlines []), (Hlines appended).
    intros (line & Hin & Hl). exists line. split; [|done].
    apply elem_of_app in Hin as [Hin | Hin]; [by apply elem_of_app; left|].
    apply list_elem_of_singleton in Hin. subst line. by rewrite line_video_id_nil in Hl.
Qed.

(** A video whose line was appended to a Ledger whose last line was
    complete is read back from it. *)
Lemma video_ids_of_content_appended content wt ts new v :
  content = [] \/ (exists before, content = before ++ [JS.LF]) ->
  is_video_id v = true -> v ∈ new ->
  v ∈ video_ids_of_content (content ++ concat (map (ledger_line wt ts) new)).
Proof.
  intros Hend Hv (n1 & n2 & ->)%list_elem_of_split.
  rewrite map_app, concat_app. cbn [map concat].
  set (P := concat (map (ledger_line wt ts) n1)).
  set (R := concat (map (ledger_line wt ts) n2)).
  apply elem_of_video_ids_of_content. unfold JS.split_lines.
  assert (Hq : exists q, ends_with_whitespace q /\
    content ++ P ++ ledger_line wt ts v ++ R
    = q ++ watch_url v ++ JS.LF :: R).
  { unfold ledger_line. destruct wt.
    - exists (content ++ P ++ ts ++ [JS.TAB]). split.
      + right. exists (content ++ P ++ ts), JS.TAB. split; [|done].
        by rewrite <- !app_assoc.
      + by rewrite <- !app_assoc.
    - exists (content ++ P). split.
      + destruct (ledger_lines_end false ts n1) as [E | (b & E)]; fold P in E; rewrite E.
        * rewrite app_nil_r. destruct Hend as [-> | (b & ->)]; [by left|].
          right. by exists b, JS.LF.
        * right. exists (content ++ b), JS.LF. split; [|done].
          by rewrite <- !app_assoc.
      + by rewrite <- !app_assoc. }
  destruct Hq as (q & Hq & ->).
  destruct (split_lines_from_token q [] (watch_url v) R) as (q' & Hq' & Hin).
  - done.
  - done.
  - unfold watch_url. plain_text.
  - intros u0 d E. unfold watch_url in E.
    assert (Hall : Forall (fun c => Ascii.eqb c JS.CR = false)
                     (str "https://www.youtube.com/watch?v=" ++ v)) by plain_text.
    rewrite E in Hall. apply Forall_app in Hall as [_ Hall]. by inversion Hall.
  - exists (q' ++ watch_url v). split; [done|]. by apply line_video_id_watch_url.
Qed.

(** C1, as amended.  On a Ledger whose last line is complete (the file is
    missing, empty, or ends with a line feed) and for a list of well-formed
    video IDs, a second [appendNewLiveLinks] with the same list appends
    nothing: it returns empty results and leaves the file as it is. *)
Theorem appendNewLiveLinks_idempotent
  (fs : filesystem) (path : jstring) (ids : list jstring) (wt : bool)
  (ts1 ts2 : jstring) :
  ends_with_newline fs path ->
  Forall (fun v => is_video_id v = true) ids ->
  second_append_appends_nothing fs path ids wt ts1 ts2.
Proof.
  intros Hend Hids. unfold second_append_appends_nothing.
  rewrite (appendNewLiveLinks_spec fs path ids wt ts1). cbn [snd].
  set (existing := readExistingVideoIds fs path).
  set (new := keep_first id ids existing).
  set (fs1 := if bool_decide (new = []) then fs else _).
  rewrite (appendNewLiveLinks_spec fs1 path ids wt ts2).
  assert (Hall : forall v, v ∈ ids -> v ∈ readExistingVideoIds fs1 path).
  { intros v Hin. unfold fs1. destruct (decide (new = [])) as [Hn | Hn].
    - rewrite bool_decide_eq_true_2 by done.
      by apply (keep_first_nil_inv id ids existing Hn).
    - rewrite bool_decide_eq_false_2 by done.
      rewrite readExistingVideoIds_content, lookup_insert_eq. cbn [default].
      assert (Hc : default [] (fs !! path) = [] \/
                   exists before, default [] (fs !! path) = before ++ [JS.LF]).
      { unfold ends_with_newline in Hend. destruct (fs !! path); [done | by left]. }
      destruct (keep_first_cover id ids existing v Hin) as [Hex | Hnew].
      + apply video_ids_of_content_app; [done|].
        unfold existing in Hex. by rewrite readExistingVideoIds_content in Hex.
      + rewrite list_fmap_id in Hnew.
        apply video_ids_of_content_appended; [done | | done].
        rewrite Forall_forall in Hids. by apply Hids. }
  rewrite (keep_first_all_seen id ids _ Hall). by cbn.
Qed.


Lemma appendNewLiveLinks_idempotent_witness :
  ends_with_newline example_ledger example_ledger_path
  /\ Forall (fun v => is_video_id v = true) [str "aaaaaaaaaaa"; str "bbbbbbbbbbb"]
  /\ second_append_appends_nothing example_ledger example_ledger_path
       [str "aaaaaaaaaaa"; str "bbbbbbbbbbb"] true
       example_timestamp (str "2024-01-01T01:00:00Z").
Proof.
  assert (H1 : ends_with_newline example_ledger example_ledger_path).
  { right. exists (str "https://youtu.be/aaaaaaaaaaa"). reflexivity. }
  assert (H2 : Forall (fun v => is_video_id v = true)
                 [str "aaaaaaaaaaa"; str "bbbbbbbbbbb"]).
  { repeat constructor. }
  split; [exact H1|]. split; [exact H2|].
  exact (appendNewLiveLinks_idempotent example_ledger example_ledger_path
           [str "aaaaaaaaaaa"; str "bbbbbbbbbbb"] true
           example_timestamp (str "2024-01-01T01:00:00Z") H1 H2).
Defined.

(** C1 as stated fails on a Ledger whose last line lacks its line feed: the
    first call glues the new URL to that line, the new ID is not read back,
    and the second call appends it again. *)
Lemma appendNewLiveLinks_not_idempotent_unterminated :
  ~ second_append_appends_nothing unterminated_ledger example_ledger_path
      [str "bbbbbbbbbbb"] false example_timestamp example_timestamp.
Proof.
  intros H. vm_compute in H. destruct H as [H _]. discriminate H.
Qed.

Example unterminated_ledger_second_append :
  let fs1 := (appendNewLiveLinks unterminated_ledger example_ledger_path
                [str "bbbbbbbbbbb"] false example_timestamp).2 in
  fs1 !! example_ledger_path
  = Some (str "https://www.youtube.com/watch?v=aaaaaaaaaaahttps://www.youtube.com/watch?v=bbbbbbbbbbb"
          ++ [JS.LF])
  /\ readExistingVideoIds fs1 example_ledger_path
     = [str "aaaaaaaaaaahttps://www.youtube.com/watch?v=bbbbbbbbbbb"]
  /\ savedVideoIds (appendNewLiveLinks fs1 example_ledger_path
                      [str "bbbbbbbbbbb"] false example_timestamp).1
     = [str "bbbbbbbbbbb"].
Proof. vm_compute. auto. Qed.

(** ** Access tokens *)

Section ExpiryGuardProofs.
Context {W : Type} `{Remote W}.

Lemma getYouTubeAccessToken_run (oauth : OauthConfig) (st : State W) :
  nonempty (oauth_accessToken oauth) = None ->
  getYouTubeAccessToken oauth st
  = let now := (clock_now (world st)).1 in
    let st1 := set_world (clock_now (world st)).2 st in
    match oauthState st ≫= (fun o => cached_token_if_fresh o now) with
    | Some cached => (Ok cached, st1)
    | None =>
        bind (refreshAccessToken oauth)
          (fun refreshed =>
             bind (cache_access_token refreshed.1 now refreshed.2)
               (fun _ => ret refreshed.1)) st1
    end.
Proof.
  intros Hext. unfold getYouTubeAccessToken. rewrite Hext.
  unfold bind at 1. unfold get_state. unfold bind at 1. unfold ask.
  destruct (clock_now (world st)) as [now w1]. cbn [fst snd].
  by destruct (oauthState st ≫= _).
Qed.

Lemma cached_token_if_fresh_Some (st : State W) (token : jstring) :
  oauthState st ≫= (fun o => cached_token_if_fresh o (clock_now (world st)).1)
  = Some token
  <-> cached_token_fresh st token.
Proof.
  unfold cached_token_fresh, cached_token_if_fresh. split.
  - destruct (oauthState st) as [o|]; [|done]. cbn [mbind option_bind].
    destruct (nonempty (cached_accessToken o)) as [t|] eqn:Et; [|done].
    destruct (60000 <? _)%Z eqn:El; [|done]. intros [= ->].
    exists o. repeat split; try done. by apply Z.ltb_lt.
  - intros (o & Ho & Ht & Hl). rewrite Ho. cbn [mbind option_bind].
    apply Z.ltb_lt in Hl. by rewrite Ht, Hl.
Qed.

(** What [refreshAccessToken] does: without the three credentials it
    throws before any call; with them it makes the one exchange. *)
Lemma refreshAccessToken_trace (oauth : OauthConfig) (st : State W) :
  match nonempty (oauth_clientId oauth), nonempty (oauth_clientSecret oauth),
        nonempty (oauth_refreshToken oauth) with
  | Some clientId, Some clientSecret, Some refreshToken =>
      exists ok,
        trace (refreshAccessToken oauth st).2
        = trace st ++ [Net (CallTokenRefresh clientId clientSecret refreshToken) ok]
        /\ oauthState (refreshAccessToken oauth st).2 = oauthState st
        /\ forall accessToken expiresIn,
             (refreshAccessToken oauth st).1 = Ok (accessToken, expiresIn) ->
             exists data w',
               remote_tokenRefresh clientId clientSecret refreshToken (world st)
               = (Reply data, w')
               /\ Js.get data (str "access_token") = JString accessToken
               /\ accessToken <> []
               /\ expiresIn = match Js.get data (str "expires_in") with
                              | JNumber n => Some n
                              | _ => None
                              end
  | _, _, _ =>
      (exists message, (refreshAccessToken oauth st).1 = Throw message)
      /\ (refreshAccessToken oauth st).2 = st
  end.
Proof.
  unfold refreshAccessToken.
  destruct (nonempty (oauth_clientId oauth)) as [clientId|];
    [|split; [eexists|]; reflexivity].
  destruct (nonempty (oauth_clientSecret oauth)) as [clientSecret|];
    [|split; [eexists|]; reflexivity].
  destruct (nonempty (oauth_refreshToken oauth)) as [refreshToken|];
    [|split; [eexists|]; reflexivity].
  unfold bind, net.
  destruct (remote_tokenRefresh clientId clientSecret refreshToken (world st))
    as [[data | message] w'] eqn:Er.
  - exists true.
    destruct (nonempty (Js.string_or_null (Js.get data (str "access_token"))))
      as [t|] eqn:Et; cbn; (split; [done|]); (split; [done|]).
    + intros accessToken expiresIn [= <- <-]. exists data, w'.
      destruct (Js.get data (str "access_token")) as [| | | |s| |]; try done.
      cbn in Et. destruct s; [done|]. injection Et as <-. done.
    + intros ? ? [=].
  - exists false. cbn. repeat split; done.
Qed.


End ExpiryGuardProofs.



Example getYouTubeAccessToken_without_client :
  getYouTubeAccessToken example_no_client_oauth example_stale_state
  = (Throw (str "Missing OAuth credentials. Set YOUTUBE_OAUTH_CLIENT_ID, YOUTUBE_OAUTH_CLIENT_SECRET, and YOUTUBE_OAUTH_REFRESH_TOKEN (or pass --oauth-... flags)."),
     example_stale_state).
Proof. reflexivity. Qed.

(** ** Frame properties of the playlist operations *)

Section Frames.
Context {W : Type} `{Remote W}.

Lemma quiet_refl path (st : State W) : quiet path st st.
Proof. split; [done|]. exists []. by rewrite app_nil_r. Qed.

Lemma quiet_trans path (st1 st2 st3 : State W) :
  quiet path st1 st2 -> quiet path st2 st3 -> quiet path st1 st3.
Proof.
  intros [Hf1 (e1 & Ht1 & Ha1)] [Hf2 (e2 & Ht2 & Ha2)]. split; [congruence|].
  exists (e1 ++ e2). split; [by rewrite Ht2, Ht1, app_assoc|].
  by apply Forall_app.
Qed.

Lemma quiet_net {A} path (c : call) (op : W -> reply A * W) (st : State W) :
  (forall t p v, c <> CallInsert t p v) -> quiet path st (net c op st).2.
Proof.
  intros Hc. unfold net. destruct (op (world st)) as [[a|m] w]; cbn.
  all: split; [done|]; eexists; split; [done|]; repeat constructor.
  all: destruct c; try done; by destruct (Hc accessToken playlistId videoId).
Qed.

Lemma quiet_member path data key (st : State W) :
  quiet path st (member data key st).2.
Proof. rewrite member_state. apply quiet_refl. Qed.

Lemma quiet_ask {A} path (op : W -> A * W) (st : State W) :
  quiet path st (ask op st).2.
Proof.
  unfold ask. destruct (op (world st)). cbn. split; [done|].
  exists []. by rewrite app_nil_r.
Qed.

Lemma quiet_cache_access_token path token now ttl (st : State W) :
  quiet path st (cache_access_token token now ttl st).2.
Proof.
  unfold cache_access_token. destruct (oauthState st); [|apply quiet_refl].
  cbn. split; [done|]. exists []. by rewrite app_nil_r.
Qed.

Lemma quiet_writeFileSync path other content (st : State W) :
  other <> path -> quiet path st (writeFileSync other content st).2.
Proof.
  intros Hne. unfold writeFileSync, quiet. cbn [snd files trace].
  split; [by rewrite lookup_insert_ne|].
  eexists. split; [done|]. repeat constructor. cbn [touches].
  by rewrite bool_decide_eq_false_2.
Qed.

Lemma quiet_bind {A B} path (m : M W A) (k : A -> M W B) (st : State W) :
  quiet path st (m st).2 ->
  (forall a st1, (m st).1 = Ok a -> (m st).2 = st1 -> quiet path st1 (k a st1).2) ->
  quiet path st (bind m k st).2.
Proof.
  intros Hm Hk. unfold bind. destruct (m st) as [[a|msg|] st1]; cbn in *; try done.
  eapply quiet_trans; [exact Hm|]. by apply Hk.
Qed.

Lemma quiet_refreshAccessToken path oauth (st : State W) :
  quiet path st (refreshAccessToken oauth st).2.
Proof.
  unfold refreshAccessToken.
  destruct (nonempty (oauth_clientId oauth)); [|apply quiet_refl].
  destruct (nonempty (oauth_clientSecret oauth)); [|apply quiet_refl].
  destruct (nonempty (oauth_refreshToken oauth)); [|apply quiet_refl].
  apply quiet_bind; [by apply quiet_net|]. intros data st1 _ _.
  destruct (nonempty _); apply quiet_refl.
Qed.

Lemma quiet_getYouTubeAccessToken path oauth (st : State W) :
  quiet path st (getYouTubeAccessToken oauth st).2.
Proof.
  unfold getYouTubeAccessToken.
  destruct (nonempty (oauth_accessToken oauth)); [apply quiet_refl|].
  apply quiet_bind; [apply quiet_refl|]. intros st0 st1 _ _.
  apply quiet_bind; [apply quiet_ask|]. intros now st2 _ _.
  destruct (oauthState st0 ≫= _); [apply quiet_refl|].
  apply quiet_bind; [apply quiet_refreshAccessToken|]. intros r st3 _ _.
  apply quiet_bind; [apply quiet_cache_access_token|]. intros; apply quiet_refl.
Qed.

(** Acquiring a token leaves every file but the token file alone. *)
Lemma quiet_getYouTubeAccessTokenAuto path oauth autoSetup (st : State W) :
  nonempty (oauth_tokenFilePath oauth) <> Some path ->
  quiet path st (getYouTubeAccessTokenAuto oauth autoSetup st).2.
Proof.
  intros Hpath. unfold getYouTubeAccessTokenAuto.
  destruct (nonempty (oauth_accessToken oauth)); [apply quiet_refl|].
  apply quiet_bind; [apply quiet_refl|]. intros st0 st1 _ _.
  apply quiet_bind; [apply quiet_ask|]. intros now st2 _ _.
  destruct (oauthState st0 ≫= _); [apply quiet_refl|].
  destruct (nonempty (oauth_refreshToken oauth));
    [apply quiet_getYouTubeAccessToken|].
  destruct (_ || _); [apply quiet_refl|].
  destruct (negb autoSetup); [apply quiet_refl|].
  apply quiet_bind; [by apply quiet_net|]. intros [[rt at_] ttl] st3 _ _.
  apply quiet_bind.
  - destruct (nonempty (oauth_tokenFilePath oauth)) as [tokenFilePath|];
      [|apply quiet_refl].
    unfold writeOauthRefreshTokenToFile.
    destruct (bool_decide (JS.trim rt = [])); [apply quiet_refl|].
    apply quiet_bind; [apply quiet_ask|]. intros ts st4 _ _.
    apply quiet_writeFileSync. congruence.
  - intros _ st4 _ _.
    apply quiet_bind; [apply quiet_cache_access_token|]. intros; apply quiet_refl.
Qed.

Lemma quiet_resolveTargetPlaylistId path accessToken (st : State W) :
  quiet path st (resolveTargetPlaylistId accessToken st).2.
Proof. by apply quiet_net. Qed.

End Frames.

(** ** Insertion into the playlist *)

Section Insertion.
Context {W : Type} `{Remote W}.

Lemma addVideoIdsToPlaylist_loop_cons accessToken playlistId v ids count failures
  (st : State W) :
  addVideoIdsToPlaylist_loop accessToken playlistId (v :: ids) count failures st
  = match remote_insert accessToken playlistId v (world st) with
    | (Reply _, w) =>
        addVideoIdsToPlaylist_loop accessToken playlistId ids (S count) failures
          {| files := files st; oauthState := oauthState st;
             channelIdByInput := channelIdByInput st; world := w;
             trace := trace st ++ [Net (CallInsert accessToken playlistId v) true] |}
    | (Fail message, w) =>
        addVideoIdsToPlaylist_loop accessToken playlistId ids count
          (failures ++ [(v, message)])
          {| files := files st; oauthState := oauthState st;
             channelIdByInput := channelIdByInput st; world := w;
             trace := trace st ++ [Net (CallInsert accessToken playlistId v) false] |}
    end.
Proof.
  cbn [addVideoIdsToPlaylist_loop]. unfold bind, try_catch, net, ret.
  by destruct (remote_insert accessToken playlistId v (world st)) as [[[]|m] w].
Qed.

(** The loop of [addVideoIdsToPlaylist] never throws and touches no file;
    it requests one insertion per ID, in order, and reports the failed
    ones.  [rs] pairs each ID with the message of its failure, if any. *)
Lemma addVideoIdsToPlaylist_loop_spec accessToken playlistId ids count failures
  (st : State W) :
  exists rs : list (jstring * option jstring),
    map fst rs = ids
    /\ (addVideoIdsToPlaylist_loop accessToken playlistId ids count failures st).1
       = Ok (count + length (List.filter (fun r => bool_decide (r.2 = None)) rs),
             failures ++ omap (fun r => (fun m => (r.1, m)) <$> r.2) rs)
    /\ files (addVideoIdsToPlaylist_loop accessToken playlistId ids count failures st).2
       = files st
    /\ trace (addVideoIdsToPlaylist_loop accessToken playlistId ids count failures st).2
       = trace st
         ++ map (fun r => Net (CallInsert accessToken playlistId r.1)
                            (bool_decide (r.2 = None))) rs.
Proof.
  revert count failures st.
  induction ids as [|v ids IH]; intros count failures st.
  - exists []. cbn. rewrite !app_nil_r, Nat.add_0_r. done.
  - rewrite addVideoIdsToPlaylist_loop_cons.
    destruct (remote_insert accessToken playlistId v (world st)) as [[[]|m] w].
    + match goal with |- context [addVideoIdsToPlaylist_loop _ _ _ _ _ ?s] =>
        destruct (IH (S count) failures s) as (rs & Hids & Hout & Hfiles & Htrace)
      end.
      exists ((v, None) :: rs).
      split; [cbn; by rewrite Hids|].
      split; [rewrite Hout; cbn; do 2 f_equal; lia|].
      split; [by rewrite Hfiles|].
      rewrite Htrace. cbn. by rewrite <- app_assoc.
    + match goal with |- context [addVideoIdsToPlaylist_loop _ _ _ _ _ ?s] =>
        destruct (IH count (failures ++ [(v, m)]) s)
          as (rs & Hids & Hout & Hfiles & Htrace)
      end.
      exists ((v, Some m) :: rs).
      split; [cbn; by rewrite Hids|].
      split; [rewrite Hout; cbn; by rewrite <- app_assoc|].
      split; [by rewrite Hfiles|].
      rewrite Htrace. cbn. by rewrite <- app_assoc.
Qed.

Lemma inserted_ok_app e1 e2 v :
  inserted_ok (e1 ++ e2) v = inserted_ok e1 v || inserted_ok e2 v.
Proof. unfold inserted_ok. apply existsb_app. Qed.

Lemma insert_requested_app e1 e2 v :
  insert_requested (e1 ++ e2) v = insert_requested e1 v || insert_requested e2 v.
Proof. unfold insert_requested. apply existsb_app. Qed.

Lemma insert_requested_quiet path events v :
  Forall (fun e => is_insert_event e = false /\ touches path e = false) events ->
  insert_requested events v = false.
Proof.
  unfold insert_requested.
  induction 1 as [|e events [He _] _ IH]; [done|]. cbn [existsb].
  rewrite IH, orb_false_r. destruct e as [[] ?| | |]; done.
Qed.

Lemma inserted_ok_requested events v :
  inserted_ok events v = true -> insert_requested events v = true.
Proof.
  unfold inserted_ok, insert_requested. rewrite !existsb_exists.
  intros (e & Hin & He). exists e. split; [done|].
  destruct e as [[] []| | |]; done.
Qed.

Lemma inserted_ok_quiet path events v :
  Forall (fun e => is_insert_event e = false /\ touches path e = false) events ->
  inserted_ok events v = false.
Proof.
  intros Hq. destruct (inserted_ok events v) eqn:E; [|done].
  apply inserted_ok_requested in E. by rewrite (insert_requested_quiet path) in E.
Qed.

Lemma elem_of_failed (rs : list (jstring * option jstring)) v :
  v ∈ map fst (omap (fun r => (fun m => (r.1, m)) <$> r.2) rs)
  <-> exists m, (v, Some m) ∈ rs.
Proof.
  change (map fst ?l) with (fst <$> l). rewrite list_elem_of_fmap. split.
  - intros ([x m] & -> & Hin). apply list_elem_of_omap in Hin as ([y [m'|]] & Hy & E);
      [|done].
    cbn in E. injection E as <- <-. by exists m'.
  - intros (m & Hin). exists (v, m). split; [done|].
    apply list_elem_of_omap. by exists (v, Some m).
Qed.

Lemma inserted_ok_results accessToken playlistId
  (rs : list (jstring * option jstring)) v :
  inserted_ok (map (fun r => Net (CallInsert accessToken playlistId r.1)
                               (bool_decide (r.2 = None))) rs) v = true
  <-> (v, None) ∈ rs.
Proof.
  unfold inserted_ok. rewrite existsb_exists. split.
  - intros (e & Hin & He). apply in_map_iff in Hin as ([y [m|]] & <- & Hy).
    + done.
    + cbn in He. apply bool_decide_eq_true in He. subst y.
      by apply list_elem_of_In.
  - intros Hin. eexists. split.
    + apply in_map_iff. exists (v, None). split; [done|]. by apply list_elem_of_In.
    + cbn. by apply bool_decide_eq_true.
Qed.

Lemma NoDup_fst_unique {A B} (l : list (A * B)) x y1 y2 :
  NoDup (map fst l) -> (x, y1) ∈ l -> (x, y2) ∈ l -> y1 = y2.
Proof.
  induction l as [|[a b] l IH]; intros Hnd H1 H2; [by apply elem_of_nil in H1|].
  cbn in Hnd. apply NoDup_cons in Hnd as [Ha Hnd].
  apply elem_of_cons in H1 as [E1 | H1]; apply elem_of_cons in H2 as [E2 | H2].
  - congruence.
  - injection E1 as -> ->. destruct Ha. change (map fst l) with (fst <$> l).
    apply list_elem_of_fmap. by exists (a, y2).
  - injection E2 as -> ->. destruct Ha. change (map fst l) with (fst <$> l).
    apply list_elem_of_fmap. by exists (a, y1).
  - by apply IH.
Qed.

(** For IDs that are pairwise different, the failed IDs of the report are
    the IDs without a successful insertion in the trace. *)
Lemma failed_iff_not_inserted accessToken playlistId
  (rs : list (jstring * option jstring)) v :
  NoDup (map fst rs) -> v ∈ map fst rs ->
  JS.Set_has (map fst (omap (fun r => (fun m => (r.1, m)) <$> r.2) rs)) v
  = negb (inserted_ok
            (map (fun r => Net (CallInsert accessToken playlistId r.1)
                             (bool_decide (r.2 = None))) rs) v).
Proof.
  intros Hnd Hin. change (map fst rs) with (fst <$> rs) in Hin.
  apply list_elem_of_fmap in Hin as ([x m] & -> & Hin). cbn.
  destruct m as [m|].
  - rewrite (proj2 (Set_has_true _ _)) by (apply elem_of_failed; eauto).
    symmetry. apply negb_true_iff, not_true_is_false.
    intros Hi%inserted_ok_results.
    by pose proof (NoDup_fst_unique _ _ _ _ Hnd Hin Hi).
  - rewrite (proj2 (inserted_ok_results accessToken playlistId rs x)) by done.
    cbn. apply Set_has_false. intros (m & Hm)%elem_of_failed.
    by pose proof (NoDup_fst_unique _ _ _ _ Hnd Hin Hm).
Qed.

End Insertion.

(** ** The Retry Queue after a flush *)

Section Flush.
Context {W : Type} `{Remote W}.

Lemma new_events_app (st st' : State W) events :
  trace st' = trace st ++ events -> new_events st st' = events.
Proof. intros E. unfold new_events. rewrite E. by rewrite drop_app_length. Qed.

Lemma writeVideoIdQueue_spec queuePath ids (st : State W) :
  (writeVideoIdQueue queuePath ids st).1 = Ok tt
  /\ queue_holds (files (writeVideoIdQueue queuePath ids st).2) queuePath
       (uniqueExactStrings ids)
  /\ (forall p, p <> queuePath ->
        files (writeVideoIdQueue queuePath ids st).2 !! p = files st !! p)
  /\ exists e,
       trace (writeVideoIdQueue queuePath ids st).2 = trace st ++ [e]
       /\ is_insert_event e = false /\ is_net_event e = false
       /\ (e = WroteFile queuePath (queue_text (uniqueExactStrings ids))
           \/ e = Unlinked queuePath).
Proof.
  unfold writeVideoIdQueue, queue_holds.
  destruct (bool_decide (uniqueExactStrings ids = [])) eqn:E.
  - unfold unlinkSync_ignore. cbn [fst snd files trace]. split; [done|].
    split; [by rewrite lookup_delete_eq|].
    split; [intros p Hp; by rewrite lookup_delete_ne|].
    eexists. split; [done|]. auto.
  - unfold writeFileSync. cbn [fst snd files trace]. split; [done|].
    split; [by rewrite lookup_insert_eq|].
    split; [intros p Hp; by rewrite lookup_insert_ne|].
    eexists. split; [done|]. auto.
Qed.

Lemma merged_queue_unique cfg newVideoIds (st : State W) :
  NoDup (merged_queue cfg newVideoIds st)
  /\ Forall (fun x => x <> [] /\ JS.trim x = x) (merged_queue cfg newVideoIds st)
  /\ uniqueExactStrings (merged_queue cfg newVideoIds st)
     = merged_queue cfg newVideoIds st.
Proof.
  unfold merged_queue. split; [apply uniqueExactStrings_NoDup|].
  split; [apply uniqueExactStrings_Forall | apply uniqueExactStrings_idem].
Qed.

Lemma filter_sublist {A} (p : A -> bool) (l : list A) :
  List.filter p l `sublist_of` l.
Proof.
  induction l as [|x l IH]; cbn; [done|].
  destruct (p x); [by apply sublist_skip | by apply sublist_cons].
Qed.

Lemma filter_unique_fixed (p : jstring -> bool) l :
  NoDup l -> Forall (fun x => x <> [] /\ JS.trim x = x) l ->
  uniqueExactStrings (List.filter p l) = List.filter p l.
Proof.
  intros Hnd Hall. apply uniqueExactStrings_fixed.
  - eapply sublist_NoDup; [done | apply filter_sublist].
  - apply Forall_forall. intros x Hx%list_elem_of_In%filter_In.
    rewrite Forall_forall in Hall. apply Hall, list_elem_of_In, Hx.
Qed.

(** None of the operations of a flush runs a loop of the model. *)
Lemma returns_bind {A B} (m : M W A) (k : A -> M W B) (st : State W) :
  (m st).1 <> Diverge ->
  (forall a st1, (k a st1).1 <> Diverge) ->
  (bind m k st).1 <> Diverge.
Proof.
  intros Hm Hk. unfold bind. destruct (m st) as [[a|msg|] st1]; cbn in *; done.
Qed.

Lemma returns_net {A} c (op : W -> reply A * W) (st : State W) :
  (net c op st).1 <> Diverge.
Proof. unfold net. by destruct (op (world st)) as [[a|m] w]. Qed.

Lemma returns_refreshAccessToken oauth (st : State W) :
  (refreshAccessToken oauth st).1 <> Diverge.
Proof.
  unfold refreshAccessToken.
  destruct (nonempty (oauth_clientId oauth)); [|done].
  destruct (nonempty (oauth_clientSecret oauth)); [|done].
  destruct (nonempty (oauth_refreshToken oauth)); [|done].
  apply returns_bind; [apply returns_net|]. intros data st1.
  by destruct (nonempty _).
Qed.

Lemma returns_cache_access_token token now ttl (st : State W) :
  (cache_access_token token now ttl st).1 <> Diverge.
Proof. unfold cache_access_token. by destruct (oauthState st). Qed.

Lemma returns_getYouTubeAccessToken oauth (st : State W) :
  (getYouTubeAccessToken oauth st).1 <> Diverge.
Proof.
  unfold getYouTubeAccessToken.
  destruct (nonempty (oauth_accessToken oauth)); [done|].
  apply returns_bind; [done|]. intros st0 st1.
  apply returns_bind; [unfold ask; by destruct (clock_now _)|]. intros now st2.
  destruct (oauthState st0 ≫= _); [done|].
  apply returns_bind; [apply returns_refreshAccessToken|]. intros r st3.
  apply returns_bind; [apply returns_cache_access_token | done].
Qed.

Lemma returns_getYouTubeAccessTokenAuto oauth autoSetup (st : State W) :
  (getYouTubeAccessTokenAuto oauth autoSetup st).1 <> Diverge.
Proof.
  unfold getYouTubeAccessTokenAuto.
  destruct (nonempty (oauth_accessToken oauth)); [done|].
  apply returns_bind; [done|]. intros st0 st1.
  apply returns_bind; [unfold ask; by destruct (clock_now _)|]. intros now st2.
  destruct (oauthState st0 ≫= _); [done|].
  destruct (nonempty (oauth_refreshToken oauth));
    [apply returns_getYouTubeAccessToken|].
  destruct (_ || _); [done|]. destruct (negb autoSetup); [done|].
  apply returns_bind; [apply returns_net|]. intros [[rt at_] ttl] st3.
  apply returns_bind.
  - destruct (nonempty (oauth_tokenFilePath oauth)); [|done].
    unfold writeOauthRefreshTokenToFile.
    destruct (bool_decide (JS.trim rt = [])); [done|].
    apply returns_bind; [unfold ask; by destruct (clock_timestamp _) | done].
  - intros _ st4. apply returns_bind; [apply returns_cache_access_token | done].
Qed.

(** The part of [flushPlaylistQueue] after the merged queue was written:
    token, playlist, insertions, rewrite. *)
Lemma flush_after_merge cfg merged (st1 : State W) :
  nonempty (oauth_tokenFilePath (cfg_oauth cfg)) <> Some (cfg_queuePath cfg) ->
  merged <> [] -> NoDup merged ->
  Forall (fun x => x <> [] /\ JS.trim x = x) merged ->
  files st1 !! cfg_queuePath cfg = Some (queue_text merged) ->
  let queuePath := cfg_queuePath cfg in
  let run :=
    try_catch
      (accessToken <- getYouTubeAccessTokenAuto (cfg_oauth cfg) (cfg_autoSetup cfg) ;;
       playlistId <- resolveTargetPlaylistId accessToken ;;
       result <- addVideoIdsToPlaylist accessToken playlistId merged ;;
       let remaining := failed_of result.2 merged in
       writeVideoIdQueue queuePath remaining ;;;
       ret {| res_queuePath := queuePath; res_playlistId := Some playlistId;
              res_addedCount := result.1; res_failures := result.2;
              res_remainingCount := length remaining; res_synced := None |})
      (fun message =>
         ret (playlist_failure cfg message (length merged) None)) st1 in
  (exists result, run.1 = Ok result)
  /\ (forall p, p <> queuePath ->
        nonempty (oauth_tokenFilePath (cfg_oauth cfg)) <> Some p ->
        files run.2 !! p = files st1 !! p)
  /\ exists events,
       trace run.2 = trace st1 ++ events
       /\ queue_holds (files run.2) queuePath
            (List.filter (fun id => negb (inserted_ok events id)) merged).
Proof.
  intros Hpath Hne Hnd Hall Hfile queuePath run. subst run.
  assert (Hkeep : forall events (st' : State W),
    quiet queuePath st1 st' -> trace st' = trace st1 ++ events ->
    queue_holds (files st') queuePath
      (List.filter (fun id => negb (inserted_ok events id)) merged)).
  { intros events st' [Hf (ev & Ht & Hq)] Ht'. rewrite Ht in Ht'.
    apply app_inv_head in Ht'. subst ev. unfold queue_holds.
    rewrite (filter_all _ merged).
    - rewrite bool_decide_eq_false_2 by done. by rewrite Hf.
    - apply Forall_forall. intros v _.
      by rewrite (inserted_ok_quiet queuePath). }
  unfold try_catch, bind.
  pose proof (quiet_getYouTubeAccessTokenAuto queuePath (cfg_oauth cfg)
                (cfg_autoSetup cfg) st1 Hpath) as Hq2.
  pose proof (fun p Hp => proj1 (quiet_getYouTubeAccessTokenAuto p (cfg_oauth cfg)
                (cfg_autoSetup cfg) st1 Hp)) as Hf2.
  pose proof (returns_getYouTubeAccessTokenAuto (cfg_oauth cfg)
                (cfg_autoSetup cfg) st1) as Hr2.
  destruct (getYouTubeAccessTokenAuto (cfg_oauth cfg) (cfg_autoSetup cfg) st1)
    as [[accessToken|message|] st2]; cbn [fst snd] in *; [| |done].
  2:{ split; [by eexists|]. split; [intros p _ Hp; by apply Hf2|].
      destruct Hq2 as [Hf (ev & Ht & Hq)]. exists ev. split; [done|].
      apply Hkeep; [|done]. split; [done|]. by exists ev. }
  pose proof (quiet_resolveTargetPlaylistId queuePath accessToken st2) as Hq3.
  pose proof (fun p => proj1 (quiet_resolveTargetPlaylistId p accessToken st2)) as Hf3.
  pose proof (returns_net (CallResolvePlaylist accessToken)
                (remote_resolvePlaylist accessToken) st2) as Hr3.
  fold (resolveTargetPlaylistId accessToken) in Hr3.
  destruct (resolveTargetPlaylistId accessToken st2)
    as [[playlistId|message|] st3]; cbn [fst snd] in *; [| |done].
  2:{ split; [by eexists|].
      split; [intros p _ Hp; rewrite Hf3; by apply Hf2|].
      pose proof (quiet_trans _ _ _ _ Hq2 Hq3) as Hq.
      destruct Hq as [Hf (ev & Ht & Hq)]. exists ev. split; [done|].
      apply Hkeep; [|done]. split; [done|]. by exists ev. }
  unfold addVideoIdsToPlaylist. rewrite (uniqueExactStrings_fixed merged Hnd Hall).
  destruct (addVideoIdsToPlaylist_loop_spec accessToken playlistId merged 0 [] st3)
    as (rs & Hrs & Hout & Hfiles4 & Htrace4).
  destruct (addVideoIdsToPlaylist_loop accessToken playlistId merged 0 [] st3)
    as [o4 st4]; cbn [fst snd] in *. subst o4. cbn [fst snd app].
  set (failures := omap (fun r => (fun m => (r.1, m)) <$> r.2) rs) in *.
  destruct (writeVideoIdQueue_spec queuePath (failed_of failures merged) st4)
    as (Hout5 & Hholds5 & Hother5 & e5 & Htrace5 & Hins5 & _ & _).
  destruct (writeVideoIdQueue queuePath (failed_of failures merged) st4)
    as [o5 st5]; cbn [fst snd] in *. subst o5. cbn [ret fst snd].
  split; [by eexists|].
  split.
  { intros p Hp Hp'. rewrite Hother5 by done. rewrite Hfiles4, Hf3. by apply Hf2. }
  destruct (quiet_trans _ _ _ _ Hq2 Hq3) as [_ (ev & Ht & Hq)].
  set (ins := map (fun r => Net (CallInsert accessToken playlistId r.1)
                               (bool_decide (r.2 = None))) rs) in *.
  exists (ev ++ ins ++ [e5]).
  split; [by rewrite Htrace5, Htrace4, Ht, <- !app_assoc|].
  unfold failed_of in Hholds5.
  rewrite filter_unique_fixed in Hholds5 by done.
  assert (Efilter :
    List.filter (fun id => negb (inserted_ok (ev ++ ins ++ [e5]) id)) merged
    = List.filter (fun id => JS.Set_has (map fst failures) id) merged).
  { apply filter_ext_in. intros v Hv.
    rewrite !inserted_ok_app, (inserted_ok_quiet queuePath ev) by done.
    assert (E5 : inserted_ok [e5] v = false).
    { cbn. destruct e5 as [[] []| | |]; done. }
    rewrite E5, orb_false_r, orb_false_l. symmetry.
    apply failed_iff_not_inserted; rewrite Hrs; [done | by apply list_elem_of_In]. }
  by rewrite Efilter.
Qed.

End Flush.

Section FlushTheorem.
Context {W : Type} `{Remote W}.

(** [flushPlaylistQueue], step by step: nothing to flush, or the merged
    queue is written and, when it is not empty, flushed. *)
Lemma flushPlaylistQueue_run cfg newVideoIds ensurePlaylist (st : State W) :
  flushPlaylistQueue cfg newVideoIds ensurePlaylist st
  = let queuePath := cfg_queuePath cfg in
    let existingQueue := readVideoIdQueue (files st) queuePath in
    if bool_decide (existingQueue = []) && bool_decide (newVideoIds = []) then
      if negb ensurePlaylist then (Ok (playlist_nothing cfg None 0 None), st)
      else
        try_catch
          (accessToken <- getYouTubeAccessTokenAuto (cfg_oauth cfg) (cfg_autoSetup cfg) ;;
           playlistId <- resolveTargetPlaylistId accessToken ;;
           ret (playlist_nothing cfg (Some playlistId) 0 None))
          (fun message => ret (playlist_failure cfg message 0 None)) st
    else
      let mergedQueue := merged_queue cfg newVideoIds st in
      let st1 := (writeVideoIdQueue queuePath mergedQueue st).2 in
      if bool_decide (mergedQueue = []) then
        (Ok (playlist_nothing cfg None 0 None), st1)
      else
        try_catch
          (accessToken <- getYouTubeAccessTokenAuto (cfg_oauth cfg) (cfg_autoSetup cfg) ;;
           playlistId <- resolveTargetPlaylistId accessToken ;;
           result <- addVideoIdsToPlaylist accessToken playlistId mergedQueue ;;
           let remaining := failed_of result.2 mergedQueue in
           writeVideoIdQueue queuePath remaining ;;;
           ret {| res_queuePath := queuePath; res_playlistId := Some playlistId;
                  res_addedCount := result.1; res_failures := result.2;
                  res_remainingCount := length remaining; res_synced := None |})
          (fun message =>
             ret (playlist_failure cfg message (length mergedQueue) None)) st1.
Proof.
  unfold flushPlaylistQueue. unfold bind at 1. unfold get_state. cbv zeta.
  destruct (bool_decide (readVideoIdQueue (files st) (cfg_queuePath cfg) = [])
            && bool_decide (newVideoIds = [])).
  - by destruct (negb ensurePlaylist).
  - unfold bind at 1. fold (merged_queue cfg newVideoIds st).
    destruct (writeVideoIdQueue_spec (cfg_queuePath cfg)
                (merged_queue cfg newVideoIds st) st) as (Hout & _).
    destruct (writeVideoIdQueue (cfg_queuePath cfg)
                (merged_queue cfg newVideoIds st) st) as [o st1].
    cbn [fst snd] in *. subst o.
    by destruct (bool_decide (merged_queue cfg newVideoIds st = [])).
Qed.

(** C3, as amended.  Provided the token file is not the queue file:
    [flushPlaylistQueue] returns; when the queue on disk holds no ID and
    there is no new ID it leaves the queue file as it is and requests no
    insertion; in every other case the queue file afterwards holds
    precisely the entries of the merged queue whose insertion did not
    succeed (all of them when no token or playlist could be obtained), and
    is deleted when there is none. *)
Theorem flushPlaylistQueue_queue_after
  (cfg : Config) (newVideoIds : list jstring) (ensurePlaylist : bool)
  (st : State W) :
  nonempty (oauth_tokenFilePath (cfg_oauth cfg)) <> Some (cfg_queuePath cfg) ->
  let queuePath := cfg_queuePath cfg in
  let st' := (flushPlaylistQueue cfg newVideoIds ensurePlaylist st).2 in
  (exists result,
     (flushPlaylistQueue cfg newVideoIds ensurePlaylist st).1 = Ok result)
  /\ (readVideoIdQueue (files st) queuePath = [] /\ newVideoIds = [] ->
      files st' !! queuePath = files st !! queuePath
      /\ forall videoId, insert_requested (new_events st st') videoId = false)
  /\ (~ (readVideoIdQueue (files st) queuePath = [] /\ newVideoIds = []) ->
      queue_after_flush_as_stated cfg newVideoIds ensurePlaylist st).
Proof.
  intros Hpath queuePath st'. subst st'. unfold queue_after_flush_as_stated.
  rewrite flushPlaylistQueue_run. cbv zeta. fold queuePath.
  destruct (bool_decide (readVideoIdQueue (files st) queuePath = [])
            && bool_decide (newVideoIds = [])) eqn:Eempty.
  - (* nothing to flush *)
    apply andb_true_iff in Eempty as [E1%bool_decide_eq_true E2%bool_decide_eq_true].
    assert (Hq : quiet queuePath st
      (if negb ensurePlaylist then (Ok (playlist_nothing cfg None 0 None), st)
       else try_catch
              (accessToken <- getYouTubeAccessTokenAuto (cfg_oauth cfg) (cfg_autoSetup cfg) ;;
               playlistId <- resolveTargetPlaylistId accessToken ;;
               ret (playlist_nothing cfg (Some playlistId) 0 None))
              (fun message => ret (playlist_failure cfg message 0 None)) st).2
      /\ exists result,
          (if negb ensurePlaylist then (Ok (playlist_nothing cfg None 0 None), st)
           else try_catch
              (accessToken <- getYouTubeAccessTokenAuto (cfg_oauth cfg) (cfg_autoSetup cfg) ;;
               playlistId <- resolveTargetPlaylistId accessToken ;;
               ret (playlist_nothing cfg (Some playlistId) 0 None))
              (fun message => ret (playlist_failure cfg message 0 None)) st).1
          = Ok result).
    { destruct (negb ensurePlaylist); [split; [apply quiet_refl | by eexists]|].
      unfold try_catch, bind.
      pose proof (quiet_getYouTubeAccessTokenAuto queuePath (cfg_oauth cfg)
                    (cfg_autoSetup cfg) st Hpath) as Hq2.
      pose proof (returns_getYouTubeAccessTokenAuto (cfg_oauth cfg)
                    (cfg_autoSetup cfg) st) as Hr2.
      destruct (getYouTubeAccessTokenAuto (cfg_oauth cfg) (cfg_autoSetup cfg) st)
        as [[accessToken|message|] st2]; cbn [fst snd] in *; [| |done].
      2:{ split; [done | by eexists]. }
      pose proof (quiet_resolveTargetPlaylistId queuePath accessToken st2) as Hq3.
      pose proof (returns_net (CallResolvePlaylist accessToken)
                    (remote_resolvePlaylist accessToken) st2) as Hr3.
      fold (resolveTargetPlaylistId accessToken) in Hr3.
      destruct (resolveTargetPlaylistId accessToken st2)
        as [[playlistId|message|] st3]; cbn [fst snd] in *; [| |done].
      - split; [by eapply quiet_trans | by eexists].
      - split; [by eapply quiet_trans | by eexists]. }
    destruct Hq as [[Hf (ev & Ht & Hq)] Hres].
    split; [done|]. split; [|by intros []].
    intros _. split; [done|]. intros v.
    rewrite (new_events_app _ _ _ Ht). by apply (insert_requested_quiet queuePath).
  - (* the merged queue is written first *)
    apply andb_false_iff in Eempty.
    destruct (merged_queue_unique cfg newVideoIds st) as (Hnd & Hall & Hfix).
    destruct (writeVideoIdQueue_spec queuePath (merged_queue cfg newVideoIds st) st)
      as (_ & Hholds1 & Hother1 & e1 & Htrace1 & Hins1 & _ & _).
    rewrite Hfix in Hholds1.
    set (st1 := (writeVideoIdQueue queuePath (merged_queue cfg newVideoIds st) st).2) in *.
    destruct (decide (merged_queue cfg newVideoIds st = [])) as [Em | Em].
    + rewrite bool_decide_eq_true_2 by done. cbn [fst snd].
      split; [by eexists|]. split.
      { intros [E1 E2]. destruct Eempty as [E | E];
          apply bool_decide_eq_false in E; done. }
      intros _. rewrite Em in *. done.
    + rewrite bool_decide_eq_false_2 by done.
      unfold queue_holds in Hholds1. rewrite bool_decide_eq_false_2 in Hholds1 by done.
      destruct (flush_after_merge cfg (merged_queue cfg newVideoIds st) st1
                  Hpath Em Hnd Hall Hholds1)
        as (Hres & _ & events & Htrace & Hholds).
      split; [done|]. split.
      { intros [E1 E2]. destruct Eempty as [E | E];
          apply bool_decide_eq_false in E; done. }
      intros _.
      erewrite new_events_app;
        [|etransitivity; [exact Htrace|]; rewrite Htrace1, <- app_assoc; done].
      assert (Efilter :
        List.filter (fun id => negb (inserted_ok ([e1] ++ events) id))
          (merged_queue cfg newVideoIds st)
        = List.filter (fun id => negb (inserted_ok events id))
            (merged_queue cfg newVideoIds st)).
      { apply filter_ext. intros v. rewrite inserted_ok_app.
        assert (E1 : inserted_ok [e1] v = false).
        { cbn. destruct e1 as [[] []| | |]; done. }
        by rewrite E1. }
      rewrite Efilter. exact Hholds.
Qed.

End FlushTheorem.

(** The example of the specification: of a queue with two entries, the one
    whose insertion fails is what the queue holds afterwards. *)
Example flushPlaylistQueue_keeps_failed :
  files (flushPlaylistQueue example_config [] false
           (initial_state example_queue example_playlist_world)).2
    !! example_queue_path
  = Some (queue_text [str "video000001"])
  /\ files (flushPlaylistQueue example_config [str "v1"; str "v2"] false
              (initial_state ∅ example_playlist_world)).2
       !! example_queue_path
     = Some (queue_text [str "v1"]).
Proof. split; vm_compute; reflexivity. Qed.

Lemma flushPlaylistQueue_queue_after_witness :
  nonempty (oauth_tokenFilePath (cfg_oauth example_config))
    <> Some (cfg_queuePath example_config)
  /\ queue_after_flush_as_stated example_config [] false
       (initial_state example_queue example_playlist_world).
Proof.
  assert (Hpath : nonempty (oauth_tokenFilePath (cfg_oauth example_config))
                  <> Some (cfg_queuePath example_config)) by discriminate.
  split; [exact Hpath|].
  destruct (flushPlaylistQueue_queue_after example_config [] false
              (initial_state example_queue example_playlist_world) Hpath)
    as (_ & _ & Hflush).
  apply Hflush. intros [Hempty _]. vm_compute in Hempty. discriminate Hempty.
Defined.

(** C3 as stated fails on a queue file without any ID in it when there is
    nothing new: [flushPlaylistQueue] returns at once, and the file is not
    deleted although no entry remains. *)
Lemma flushPlaylistQueue_leaves_blank_queue_file :
  ~ queue_after_flush_as_stated example_config [] false
      (initial_state blank_queue example_playlist_world).
Proof.
  unfold queue_after_flush_as_stated, queue_holds. intros Hholds.
  vm_compute in Hholds. discriminate Hholds.
Qed.

(** ** Full backfill *)

Section Backfill.
Context {W : Type} `{Remote W}.

Lemma quiet_fetchPlaylistVideoIdSet_loop path fuel accessToken playlistId
  pageToken ids (st : State W) :
  quiet path st
    (fetchPlaylistVideoIdSet_loop fuel accessToken playlistId pageToken ids st).2.
Proof.
  revert pageToken ids st. induction fuel as [|fuel IH]; intros pageToken ids st.
  - apply quiet_refl.
  - cbn [fetchPlaylistVideoIdSet_loop].
    apply quiet_bind; [by apply quiet_net|]. intros data st1 _ _.
    apply quiet_bind; [apply quiet_member|]. intros data_items st2 _ _.
    apply quiet_bind; [apply quiet_member|]. intros data_nextPageToken st3 _ _.
    destruct (nonempty _); [apply IH | apply quiet_refl].
Qed.

(** A path that is not the token file. *)
Lemma other_than_token_file oauth :
  exists path, nonempty (oauth_tokenFilePath oauth) <> Some path.
Proof.
  destruct (nonempty (oauth_tokenFilePath oauth)) as [t|]; [|by exists []].
  exists ("x"%char :: t). intros [= E]. apply (f_equal (@length ascii)) in E.
  cbn in E. lia.
Qed.

Lemma insert_requested_results accessToken playlistId
  (rs : list (jstring * option jstring)) v :
  insert_requested (map (fun r => Net (CallInsert accessToken playlistId r.1)
                                    (bool_decide (r.2 = None))) rs) v = true
  <-> v ∈ map fst rs.
Proof.
  unfold insert_requested. rewrite existsb_exists. split.
  - intros (e & Hin & He). apply in_map_iff in Hin as ([y m] & <- & Hy).
    cbn in He. apply bool_decide_eq_true in He. subst y.
    change (map fst rs) with (fst <$> rs). apply list_elem_of_fmap.
    exists (v, m). split; [done | by apply list_elem_of_In].
  - change (map fst rs) with (fst <$> rs).
    intros ([y m] & -> & Hin)%list_elem_of_fmap. eexists. split.
    + apply in_map_iff. exists (y, m). split; [done | by apply list_elem_of_In].
    + cbn. by apply bool_decide_eq_true.
Qed.

Lemma insert_requested_single e v :
  is_insert_event e = false -> insert_requested [e] v = false.
Proof. intros He. cbn. by destruct e as [[] ?| | |]. Qed.

(** C4.  Every insertion that [syncOutputFileToPlaylist] requests is for an
    ID of the desired set (the Retry Queue together with the IDs of the
    Ledger) that the playlist listing fetched in this run does not
    contain. *)
Theorem syncOutputFileToPlaylist_inserts_only_missing
  (cfg : Config) (fuel : nat) (st : State W) (videoId : jstring) :
  let desiredIds :=
    uniqueExactStrings
      (readVideoIdQueue (files st) (cfg_queuePath cfg)
       ++ readExistingVideoIds (files st) (cfg_outputPath cfg)) in
  let st' := (syncOutputFileToPlaylist cfg fuel st).2 in
  insert_requested (new_events st st') videoId = true ->
  videoId ∈ desiredIds
  /\ exists accessToken playlistId st1 st2 alreadyInPlaylist st3,
       getYouTubeAccessTokenAuto (cfg_oauth cfg) (cfg_autoSetup cfg) st
         = (Ok accessToken, st1)
       /\ resolveTargetPlaylistId accessToken st1 = (Ok playlistId, st2)
       /\ fetchPlaylistVideoIdSet fuel accessToken playlistId st2
          = (Ok alreadyInPlaylist, st3)
       /\ videoId ∉ alreadyInPlaylist.
Proof.
  intros desiredIds st'. subst st'. unfold syncOutputFileToPlaylist.
  unfold bind at 1. unfold get_state. cbv zeta. fold desiredIds.
  destruct (bool_decide (desiredIds = [])) eqn:Ed.
  { cbn [ret snd]. unfold new_events. rewrite drop_all. done. }
  destruct (other_than_token_file (cfg_oauth cfg)) as (path & Hpath).
  unfold try_catch, bind.
  pose proof (quiet_getYouTubeAccessTokenAuto path (cfg_oauth cfg)
                (cfg_autoSetup cfg) st Hpath) as Hq1.
  destruct (getYouTubeAccessTokenAuto (cfg_oauth cfg) (cfg_autoSetup cfg) st)
    as [[accessToken|message|] st1] eqn:E1; cbn [fst snd] in *.
  2,3: destruct Hq1 as [_ (ev & Ht & Hq)]; unfold ret; cbn [snd];
       rewrite (new_events_app _ _ _ Ht), (insert_requested_quiet path) by done;
       done.
  pose proof (quiet_resolveTargetPlaylistId path accessToken st1) as Hq2.
  destruct (resolveTargetPlaylistId accessToken st1)
    as [[playlistId|message|] st2] eqn:E2; cbn [fst snd] in *.
  2,3: destruct (quiet_trans _ _ _ _ Hq1 Hq2) as [_ (ev & Ht & Hq)];
       unfold ret; cbn [snd];
       rewrite (new_events_app _ _ _ Ht), (insert_requested_quiet path) by done;
       done.
  pose proof (quiet_fetchPlaylistVideoIdSet_loop path fuel accessToken playlistId
                None [] st2) as Hq3.
  fold (fetchPlaylistVideoIdSet fuel accessToken playlistId) in Hq3.
  destruct (fetchPlaylistVideoIdSet fuel accessToken playlistId st2)
    as [[alreadyInPlaylist|message|] st3] eqn:E3; cbn [fst snd] in *.
  2,3: destruct (quiet_trans _ _ _ _ (quiet_trans _ _ _ _ Hq1 Hq2) Hq3)
         as [_ (ev & Ht & Hq)];
       unfold ret; cbn [snd];
       rewrite (new_events_app _ _ _ Ht), (insert_requested_quiet path) by done;
       done.
  destruct (quiet_trans _ _ _ _ (quiet_trans _ _ _ _ Hq1 Hq2) Hq3)
    as [_ (ev & Ht & Hq)].
  set (pending := missing_from alreadyInPlaylist desiredIds).
  destruct (bool_decide (pending = [])) eqn:Ep.
  - (* nothing is missing *)
    assert (Hlast : exists tail,
      trace ((if bool_decide (readVideoIdQueue (files st) (cfg_queuePath cfg) = [])
              then ret tt else writeVideoIdQueue (cfg_queuePath cfg) []) st3).2
      = trace st3 ++ tail
      /\ Forall (fun e => is_insert_event e = false) tail
      /\ ((if bool_decide (readVideoIdQueue (files st) (cfg_queuePath cfg) = [])
           then ret tt else writeVideoIdQueue (cfg_queuePath cfg) []) st3).1
         = Ok tt).
    { destruct (bool_decide (readVideoIdQueue _ _ = [])).
      - exists []. cbn. by rewrite app_nil_r.
      - destruct (writeVideoIdQueue_spec (cfg_queuePath cfg) [] st3)
          as (Ho & _ & _ & e & Hte & Hie & _).
        exists [e]. repeat split; try done. by repeat constructor. }
    destruct Hlast as (tail & Htt & Hti & Hto).
    destruct ((if bool_decide (readVideoIdQueue (files st) (cfg_queuePath cfg) = [])
               then ret tt else writeVideoIdQueue (cfg_queuePath cfg) []) st3)
      as [o4 st4]; cbn [fst snd] in *. subst o4. cbn [ret snd].
    erewrite new_events_app by (rewrite Htt, Ht, <- app_assoc; done).
    rewrite insert_requested_app, (insert_requested_quiet path) by done.
    cbn [orb]. intros Hreq. exfalso.
    unfold insert_requested in Hreq. apply existsb_exists in Hreq as (e & Hin & He).
    rewrite Forall_forall in Hti. apply list_elem_of_In, Hti in Hin.
    by destruct e as [[] ?| | |].
  - (* the missing ones are inserted *)
    unfold addVideoIdsToPlaylist.
    destruct (addVideoIdsToPlaylist_loop_spec accessToken playlistId
                (uniqueExactStrings pending) 0 [] st3)
      as (rs & Hrs & Hout & _ & Htrace4).
    destruct (addVideoIdsToPlaylist_loop accessToken playlistId
                (uniqueExactStrings pending) 0 [] st3) as [o4 st4];
      cbn [fst snd] in *. subst o4. cbn [fst snd app].
    set (failures := omap (fun r => (fun m => (r.1, m)) <$> r.2) rs) in *.
    destruct (writeVideoIdQueue_spec (cfg_queuePath cfg) (failed_of failures pending) st4)
      as (Hout5 & _ & _ & e5 & Htrace5 & Hins5 & _ & _).
    destruct (writeVideoIdQueue (cfg_queuePath cfg) (failed_of failures pending) st4)
      as [o5 st5]; cbn [fst snd] in *. subst o5. cbn [ret snd].
    erewrite new_events_app
      by (rewrite Htrace5, Htrace4, Ht, <- !app_assoc; done).
    rewrite !insert_requested_app, (insert_requested_quiet path ev) by done.
    rewrite (insert_requested_single e5) by done.
    rewrite orb_false_l, orb_false_r.
    intros Hreq%insert_requested_results. rewrite Hrs in Hreq.
    apply elem_of_uniqueExactStrings in Hreq as (Hne & x & Hx & Htrim).
    unfold pending, missing_from in Hx.
    apply list_elem_of_In, filter_In in Hx as [Hxd Hxn].
    apply list_elem_of_In in Hxd.
    assert (Hfix : JS.trim x = x).
    { unfold desiredIds in Hxd.
      pose proof (uniqueExactStrings_Forall
                    (readVideoIdQueue (files st) (cfg_queuePath cfg)
                     ++ readExistingVideoIds (files st) (cfg_outputPath cfg))) as Hall.
      rewrite Forall_forall in Hall. by apply Hall. }
    rewrite Hfix in Htrim. subst x. split; [done|].
    exists accessToken, playlistId, st1, st2, alreadyInPlaylist, st3.
    repeat split; try done.
    apply negb_true_iff in Hxn. by apply Set_has_false.
Qed.

End Backfill.

Lemma syncOutputFileToPlaylist_inserts_only_missing_witness :
  let st := initial_state example_queue example_playlist_world in
  insert_requested
    (new_events st (syncOutputFileToPlaylist example_config 1 st).2)
    (str "video000001") = true
  /\ str "video000001"
     ∈ uniqueExactStrings
         (readVideoIdQueue (files st) (cfg_queuePath example_config)
          ++ readExistingVideoIds (files st) (cfg_outputPath example_config)).
Proof.
  assert (Hreq : insert_requested
            (new_events (initial_state example_queue example_playlist_world)
               (syncOutputFileToPlaylist example_config 1
                  (initial_state example_queue example_playlist_world)).2)
            (str "video000001") = true) by (vm_compute; reflexivity).
  split; [exact Hreq|].
  exact (proj1 (syncOutputFileToPlaylist_inserts_only_missing example_config 1
                  (initial_state example_queue example_playlist_world)
                  (str "video000001") Hreq)).
Defined.

(** Of the two queued videos the listed one, [video000002], is left alone;
    the other is sent to the playlist, and stays queued because its
    insertion is refused. *)
Example syncOutputFileToPlaylist_skips_listed :
  let st := initial_state example_queue example_playlist_world in
  let st' := (syncOutputFileToPlaylist example_config 1 st).2 in
  insert_requested (new_events st st') (str "video000002") = false
  /\ files st' !! example_queue_path = Some (queue_text [str "video000001"]).
Proof. split; vm_compute; reflexivity. Qed.

(** ** Channel failures *)

Lemma Set_add_NoDup x s : NoDup s -> NoDup (JS.Set_add x s).
Proof.
  intros Hnd. unfold JS.Set_add. destruct (JS.Set_has s x) eqn:E; [done|].
  apply Set_has_false in E. apply NoDup_app. split; [done|].
  split; [|apply NoDup_singleton]. intros y Hy ->%list_elem_of_singleton. done.
Qed.

Lemma add_all_NoDup l s : NoDup s -> NoDup (add_all l s).
Proof.
  revert s. induction l as [|x l IH]; intros s Hnd; [done|].
  apply IH. by apply Set_add_NoDup.
Qed.

Lemma elem_of_add_all l s x : x ∈ add_all l s <-> x ∈ s \/ x ∈ l.
Proof.
  revert s. induction l as [|y l IH]; intros s.
  - cbn. split; [auto | intros [? | ?%elem_of_nil]; done].
  - cbn [add_all fold_left]. fold (add_all l (JS.Set_add y s)).
    rewrite IH, Set_add_elem, elem_of_cons. tauto.
Qed.

Lemma add_all_app l1 l2 s : add_all (l1 ++ l2) s = add_all l2 (add_all l1 s).
Proof. unfold add_all. by rewrite fold_left_app. Qed.

(** What the loop over the channels merges and records: the merged set
    holds, once each, the videos of the attempts that succeeded, and there
    is one error line for each attempt that failed. *)
Lemma live_union_from (attempts : list (jstring * outcome (list jstring))) all :
  let merged :=
    fold_left (fun all a =>
                 match a.2 with
                 | Ok liveVideoIds => add_all liveVideoIds all
                 | _ => all
                 end) attempts all in
  (NoDup all -> NoDup merged)
  /\ forall v, v ∈ merged <->
        v ∈ all \/ exists channelInput liveVideoIds,
                     (channelInput, Ok liveVideoIds) ∈ attempts /\ v ∈ liveVideoIds.
Proof.
  revert all. induction attempts as [|[c o] attempts IH]; intros all merged.
  - split; [done|]. intros v. split; [by left|].
    intros [? | (? & ? & ?%elem_of_nil & _)]; done.
  - subst merged. cbn [fold_left snd].
    destruct o as [liveVideoIds|message|].
    + destruct (IH (add_all liveVideoIds all)) as [Hnd Hmem]. split.
      * intros Hall. by apply Hnd, add_all_NoDup.
      * intros v. rewrite Hmem, elem_of_add_all. split.
        -- intros [[Hv | Hv] | (c' & ids & Hin & Hv)].
           ++ by left.
           ++ right. exists c, liveVideoIds. split; [by left | done].
           ++ right. exists c', ids. split; [by right | done].
        -- intros [Hv | (c' & ids & [[= -> ->] | Hin]%elem_of_cons & Hv)].
           ++ left. by left.
           ++ left. by right.
           ++ right. by exists c', ids.
    + destruct (IH all) as [Hnd Hmem]. split; [done|].
      intros v. rewrite Hmem. split.
      * intros [Hv | (c' & ids & Hin & Hv)]; [by left|].
        right. exists c', ids. split; [by right | done].
      * intros [Hv | (c' & ids & [[=] | Hin]%elem_of_cons & Hv)]; [by left|].
        right. by exists c', ids.
    + destruct (IH all) as [Hnd Hmem]. split; [done|].
      intros v. rewrite Hmem. split.
      * intros [Hv | (c' & ids & Hin & Hv)]; [by left|].
        right. exists c', ids. split; [by right | done].
      * intros [Hv | (c' & ids & [[=] | Hin]%elem_of_cons & Hv)]; [by left|].
        right. by exists c', ids.
Qed.

Lemma live_union_holds (attempts : list (jstring * outcome (list jstring))) :
  NoDup (live_union attempts)
  /\ forall v, v ∈ live_union attempts <->
        exists channelInput liveVideoIds,
          (channelInput, Ok liveVideoIds) ∈ attempts /\ v ∈ liveVideoIds.
Proof.
  destruct (live_union_from attempts []) as [Hnd Hmem]. split.
  - apply Hnd. constructor.
  - intros v. rewrite (Hmem v). split; [|by right].
    by intros [?%elem_of_nil | ?].
Qed.

Lemma recorded_errors_hold (attempts : list (jstring * outcome (list jstring))) e :
  e ∈ recorded_errors attempts <->
  exists channelInput message,
    (channelInput, Throw message) ∈ attempts
    /\ e = str "[" ++ channelInput ++ str "] " ++ message.
Proof.
  unfold recorded_errors. rewrite list_elem_of_omap. split.
  - intros ([c o] & Hin & He). destruct o as [?|message|]; [done| |done].
    injection He as <-. by exists c, message.
  - intros (c & message & Hin & ->). by exists (c, Throw message).
Qed.

Section ChannelProofs.
Context {W : Type} `{Remote W}.

Lemma returns_discover_channel channelInput (st : State W) :
  (discover_channel channelInput st).1 <> Diverge.
Proof.
  unfold discover_channel. apply returns_bind; [done|]. intros st0 st1.
  apply returns_bind.
  - destruct (nonempty _); [done|].
    apply returns_bind; [apply returns_net|]. intros channelId st2.
    by apply returns_bind.
  - intros channelId st2. apply returns_net.
Qed.

Lemma returns_saver_discover_channel channelInput (st : State W) :
  (Saver.discover_channel channelInput st).1 <> Diverge.
Proof.
  unfold Saver.discover_channel. apply returns_bind; [apply returns_net|].
  intros channelId st1. apply returns_net.
Qed.

(** One turn of the loop. *)
Lemma channel_loop_cons attempt count channelInput rest all errors (st : State W) :
  channel_loop attempt count (channelInput :: rest) all errors st
  = match attempt channelInput st with
    | (Ok liveVideoIds, st1) =>
        channel_loop attempt count rest (add_all liveVideoIds all) errors st1
    | (Throw message, st1) =>
        if bool_decide (count = 1) then (Throw message, st1)
        else channel_loop attempt count rest all
               (errors ++ [channel_error channelInput message]) st1
    | (Diverge, st1) => (Diverge, st1)
    end.
Proof.
  cbn [channel_loop]. unfold bind, try_catch.
  destruct (attempt channelInput st) as [[liveVideoIds|message|] st1]; try done.
  by destruct (bool_decide (count = 1)).
Qed.

(** With more than one channel (or none) no failure ends the loop: every
    channel is attempted, the live videos of those that succeed are
    collected and the others leave an error each. *)
Lemma channel_loop_all attempt count channelInputs all errors (st : State W) :
  count <> 1 ->
  (forall channelInput st0, (attempt channelInput st0).1 <> Diverge) ->
  channel_loop attempt count channelInputs all errors st
  = (Ok (fold_left (fun all a =>
                      match a.2 with
                      | Ok liveVideoIds => add_all liveVideoIds all
                      | _ => all
                      end) (attempt_each attempt channelInputs st).1 all,
         errors ++ recorded_errors (attempt_each attempt channelInputs st).1),
     (attempt_each attempt channelInputs st).2).
Proof.
  intros Hcount Hreturns. revert all errors st.
  induction channelInputs as [|channelInput rest IH]; intros all errors st.
  - cbn. by rewrite app_nil_r.
  - rewrite channel_loop_cons. cbn [attempt_each].
    pose proof (Hreturns channelInput st) as Hr.
    destruct (attempt channelInput st) as [[liveVideoIds|message|] st1];
      cbn [fst] in Hr; [| |done].
    + rewrite IH. by destruct (attempt_each attempt rest st1).
    + rewrite bool_decide_eq_false_2 by done. rewrite IH.
      destruct (attempt_each attempt rest st1) as [os st2].
      cbn [fst snd fold_left recorded_errors omap list_omap].
      unfold recorded_errors. by rewrite <- app_assoc.
Qed.

Lemma attempt_each_channels attempt channelInputs (st : State W) :
  map fst (attempt_each attempt channelInputs st).1 = channelInputs.
Proof.
  revert st. induction channelInputs as [|channelInput rest IH]; intros st; [done|].
  cbn [attempt_each]. destruct (attempt channelInput st) as [o st1].
  specialize (IH st1). destruct (attempt_each attempt rest st1) as [os st2].
  cbn in *. by rewrite IH.
Qed.

(** C9.  With more than one configured channel, [runOnce] (in both
    variants of the script) attempts every channel whatever the others do:
    the loop over the channels ends normally with the union of the live
    videos of the channels that succeeded and one recorded error per
    channel that failed, and the run goes on from there.  The merged set
    holds a video exactly when a channel whose attempt succeeded has it
    among its live videos, and holds it once; the recorded errors are the
    lines [[channel] message] of the channels whose attempt threw.  With
    exactly one configured channel, the error of that channel leaves
    [runOnce] as it is. *)
Theorem runOnce_isolates_channel_failures
  (cfg : Config) (fuel : nat) (st : State W) :
  nonempty (cfg_apiKey cfg) <> None ->
  (0 < cfg_scanLatest cfg <= 50)%Z ->
  let channelInputs := cfg_channelInputs cfg in
  (1 < length channelInputs ->
   let attempts := attempt_each discover_channel channelInputs st in
   let attempts0 := attempt_each Saver.discover_channel channelInputs st in
   map fst attempts.1 = channelInputs
   /\ channel_loop discover_channel (length channelInputs) channelInputs [] [] st
      = (Ok (live_union attempts.1, recorded_errors attempts.1), attempts.2)
   /\ runOnce cfg fuel st
      = after_discovery cfg fuel (live_union attempts.1)
          (recorded_errors attempts.1) attempts.2
   /\ NoDup (live_union attempts.1)
   /\ (forall v, v ∈ live_union attempts.1 <->
         exists channelInput liveVideoIds,
           (channelInput, Ok liveVideoIds) ∈ attempts.1 /\ v ∈ liveVideoIds)
   /\ (forall e, e ∈ recorded_errors attempts.1 <->
         exists channelInput message,
           (channelInput, Throw message) ∈ attempts.1
           /\ e = str "[" ++ channelInput ++ str "] " ++ message)
   /\ map fst attempts0.1 = channelInputs
   /\ Saver.runOnce cfg st
      = Saver.after_discovery cfg (live_union attempts0.1)
          (recorded_errors attempts0.1) attempts0.2
   /\ NoDup (live_union attempts0.1)
   /\ (forall v, v ∈ live_union attempts0.1 <->
         exists channelInput liveVideoIds,
           (channelInput, Ok liveVideoIds) ∈ attempts0.1 /\ v ∈ liveVideoIds)
   /\ (forall e, e ∈ recorded_errors attempts0.1 <->
         exists channelInput message,
           (channelInput, Throw message) ∈ attempts0.1
           /\ e = str "[" ++ channelInput ++ str "] " ++ message))
  /\ (forall channelInput message st',
        channelInputs = [channelInput] ->
        (discover_channel channelInput st = (Throw message, st') ->
         runOnce cfg fuel st = (Throw message, st'))
        /\ (Saver.discover_channel channelInput st = (Throw message, st') ->
            Saver.runOnce cfg st = (Throw message, st'))).
Proof.
  intros Hkey Hscan channelInputs.
  assert (Hscan' : (cfg_scanLatest cfg <=? 0)%Z || (50 <? cfg_scanLatest cfg)%Z = false).
  { apply orb_false_intro; [apply Z.leb_gt | apply Z.ltb_ge]; lia. }
  split.
  - intros Hmany attempts attempts0.
    assert (Hne : cfg_channelInputs cfg <> []).
    { intros E. unfold channelInputs in Hmany. rewrite E in Hmany. cbn in Hmany. lia. }
    assert (Hcount : length channelInputs <> 1) by lia.
    pose proof (channel_loop_all discover_channel _ channelInputs [] [] st Hcount
                  returns_discover_channel) as Hloop.
    pose proof (channel_loop_all Saver.discover_channel _ channelInputs [] [] st Hcount
                  returns_saver_discover_channel) as Hloop0.
    fold attempts in Hloop. fold attempts0 in Hloop0.
    split; [apply attempt_each_channels|]. split; [exact Hloop|]. split.
    { unfold runOnce. rewrite !bool_decide_eq_false_2 by done. rewrite Hscan'.
      unfold bind. fold channelInputs. by rewrite Hloop. }
    split; [apply live_union_holds|]. split; [apply live_union_holds|].
    split; [apply recorded_errors_hold|].
    split; [apply attempt_each_channels|]. split.
    { unfold Saver.runOnce. rewrite !bool_decide_eq_false_2 by done.
      unfold bind. fold channelInputs. by rewrite Hloop0. }
    split; [apply live_union_holds|]. split; [apply live_union_holds|].
    apply recorded_errors_hold.
  - intros channelInput message st' Hone.
    assert (Hne : cfg_channelInputs cfg <> []).
    { fold channelInputs. by rewrite Hone. }
    split; intros Hthrow.
    + unfold runOnce. rewrite !bool_decide_eq_false_2 by done. rewrite Hscan'.
      unfold bind. fold channelInputs. rewrite Hone.
      rewrite channel_loop_cons, Hthrow. done.
    + unfold Saver.runOnce. rewrite !bool_decide_eq_false_2 by done.
      unfold bind. fold channelInputs. rewrite Hone.
      rewrite channel_loop_cons, Hthrow. done.
Qed.

End ChannelProofs.

Lemma runOnce_isolates_channel_failures_witness :
  let st := initial_state (∅ : filesystem) example_channels_world in
  let attempts :=
    attempt_each discover_channel (cfg_channelInputs example_channels_config) st in
  nonempty (cfg_apiKey example_channels_config) <> None
  /\ (0 < cfg_scanLatest example_channels_config <= 50)%Z
  /\ runOnce example_channels_config 0 st
     = after_discovery example_channels_config 0 (live_union attempts.1)
         (recorded_errors attempts.1) attempts.2
  /\ (forall v, v ∈ live_union attempts.1 <->
        exists channelInput liveVideoIds,
          (channelInput, Ok liveVideoIds) ∈ attempts.1 /\ v ∈ liveVideoIds)
  /\ live_union attempts.1 = [str "video000001"; str "video000003"].
Proof.
  assert (Hkey : nonempty (cfg_apiKey example_channels_config) <> None)
    by discriminate.
  assert (Hscan : (0 < cfg_scanLatest example_channels_config <= 50)%Z)
    by (cbn; lia).
  split; [exact Hkey|]. split; [exact Hscan|].
  destruct (runOnce_isolates_channel_failures example_channels_config 0
              (initial_state ∅ example_channels_world) Hkey Hscan)
    as [Hmany _].
  split; [apply Hmany; cbn; lia|].
  split; [apply Hmany; cbn; lia|]. reflexivity.
Defined.

(** Three channels of which the second cannot be resolved: the videos of
    the first and of the third are saved, the failure is reported by the
    exit code.  The failing channel alone: the error leaves [runOnce]. *)
Example runOnce_three_channels :
  let st := initial_state (∅ : filesystem) example_channels_world in
  (runOnce example_channels_config 0 st).1 = Ok 1%Z
  /\ readExistingVideoIds (files (runOnce example_channels_config 0 st).2)
       example_ledger_path
     = [str "video000001"; str "video000003"]
  /\ recorded_errors
       (attempt_each discover_channel
          (cfg_channelInputs example_channels_config) st).1
     = [str "[@second] HTTP 404: channelNotFound"]
  /\ (runOnce example_single_channel_config 0 st).1
     = Throw (str "HTTP 404: channelNotFound")
  /\ files (runOnce example_single_channel_config 0 st).2 = ∅.
Proof. repeat split; vm_compute; reflexivity. Qed.
Section GracefulProofs.
Context {W : Type} `{Remote W}.

Lemma queue_holds_queued (fs : filesystem) queuePath (keep : jstring -> bool) ids v :
  queue_holds fs queuePath (List.filter keep ids) ->
  v ∈ ids -> keep v = true -> queued fs queuePath v.
Proof.
  intros Hholds Hin Hkeep.
  assert (Hv : v ∈ List.filter keep ids).
  { apply list_elem_of_In, filter_In. split; [by apply list_elem_of_In | done]. }
  unfold queue_holds in Hholds. rewrite bool_decide_eq_false_2 in Hholds.
  - by exists (List.filter keep ids).
  - intros E. rewrite E in Hv. by apply elem_of_nil in Hv.
Qed.

(** Insertion of a list of IDs followed by the rewrite of the queue:
    insertions are requested for these IDs only, and the queue then holds
    those whose insertion did not succeed. *)
Lemma requeue_failed accessToken playlistId queuePath ids (st : State W) :
  NoDup ids -> Forall (fun x => x <> [] /\ JS.trim x = x) ids ->
  exists result events,
    (addVideoIdsToPlaylist accessToken playlistId ids st).1 = Ok result
    /\ let st5 := (writeVideoIdQueue queuePath (failed_of result.2 ids)
                     (addVideoIdsToPlaylist accessToken playlistId ids st).2).2 in
       trace st5 = trace st ++ events
       /\ (forall p, p <> queuePath -> files st5 !! p = files st !! p)
       /\ (forall v, insert_requested events v = true -> v ∈ ids)
       /\ queue_holds (files st5) queuePath
            (List.filter (fun id => negb (inserted_ok events id)) ids).
Proof.
  intros Hnd Hall. unfold addVideoIdsToPlaylist.
  rewrite (uniqueExactStrings_fixed ids Hnd Hall).
  destruct (addVideoIdsToPlaylist_loop_spec accessToken playlistId ids 0 [] st)
    as (rs & Hrs & Hout & Hfiles4 & Htrace4).
  destruct (addVideoIdsToPlaylist_loop accessToken playlistId ids 0 [] st)
    as [o4 st4]; cbn [fst snd] in *. subst o4.
  set (failures := omap (fun r => (fun m => (r.1, m)) <$> r.2) rs) in *.
  set (ins := map (fun r => Net (CallInsert accessToken playlistId r.1)
                               (bool_decide (r.2 = None))) rs) in *.
  destruct (writeVideoIdQueue_spec queuePath (failed_of failures ids) st4)
    as (_ & Hholds5 & Hother5 & e5 & Htrace5 & Hins5 & _ & _).
  eexists _, (ins ++ [e5]). split; [reflexivity|]. cbn [fst snd app].
  fold failures.
  split; [by rewrite Htrace5, Htrace4, <- app_assoc|].
  split; [intros p Hp; by rewrite Hother5, Hfiles4|].
  split.
  - intros v. rewrite insert_requested_app, (insert_requested_single e5) by done.
    rewrite orb_false_r. intros Hreq%insert_requested_results.
    by rewrite Hrs in Hreq.
  - unfold failed_of in Hholds5.
    rewrite filter_unique_fixed in Hholds5 by done.
    assert (Efilter :
      List.filter (fun id => negb (inserted_ok (ins ++ [e5]) id)) ids
      = List.filter (fun id => JS.Set_has (map fst failures) id) ids).
    { apply filter_ext_in. intros v Hv. rewrite inserted_ok_app.
      assert (E5 : inserted_ok [e5] v = false).
      { cbn. destruct e5 as [[] []| | |]; done. }
      rewrite E5, orb_false_r. symmetry.
      apply failed_iff_not_inserted; rewrite Hrs; [done | by apply list_elem_of_In]. }
    by rewrite Efilter.
Qed.


Lemma filter_keeps_unique (p : jstring -> bool) l :
  NoDup l -> Forall (fun x => x <> [] /\ JS.trim x = x) l ->
  NoDup (List.filter p l)
  /\ Forall (fun x => x <> [] /\ JS.trim x = x) (List.filter p l).
Proof.
  intros Hnd Hall. split.
  - rewrite <- (filter_unique_fixed p l Hnd Hall). apply uniqueExactStrings_NoDup.
  - rewrite <- (filter_unique_fixed p l Hnd Hall). apply uniqueExactStrings_Forall.
Qed.

Lemma no_request_in_quiet path (st st' : State W) events :
  quiet path st st' -> trace st' = trace st ++ events ->
  forall v, insert_requested events v = false.
Proof.
  intros [_ (ev & Ht & Hq)] Ht' v. rewrite Ht in Ht'.
  apply app_inv_head in Ht'. subst ev. by apply (insert_requested_quiet path).
Qed.

(** The [try] block of [flushPlaylistQueue] requests insertions for
    entries of the merged queue only. *)
Lemma flush_try_requests cfg merged (st1 : State W) :
  nonempty (oauth_tokenFilePath (cfg_oauth cfg)) <> Some (cfg_queuePath cfg) ->
  NoDup merged ->
  Forall (fun x => x <> [] /\ JS.trim x = x) merged ->
  let queuePath := cfg_queuePath cfg in
  let run :=
    try_catch
      (accessToken <- getYouTubeAccessTokenAuto (cfg_oauth cfg) (cfg_autoSetup cfg) ;;
       playlistId <- resolveTargetPlaylistId accessToken ;;
       result <- addVideoIdsToPlaylist accessToken playlistId merged ;;
       let remaining := failed_of result.2 merged in
       writeVideoIdQueue queuePath remaining ;;;
       ret {| res_queuePath := queuePath; res_playlistId := Some playlistId;
              res_addedCount := result.1; res_failures := result.2;
              res_remainingCount := length remaining; res_synced := None |})
      (fun message =>
         ret (playlist_failure cfg message (length merged) None)) st1 in
  forall events, trace run.2 = trace st1 ++ events ->
  forall v, insert_requested events v = true -> v ∈ merged.
Proof.
  intros Hpath Hnd Hall queuePath run. subst run. unfold try_catch, bind.
  pose proof (quiet_getYouTubeAccessTokenAuto queuePath (cfg_oauth cfg)
                (cfg_autoSetup cfg) st1 Hpath) as Hq2.
  destruct (getYouTubeAccessTokenAuto (cfg_oauth cfg) (cfg_autoSetup cfg) st1)
    as [[accessToken|message|] st2]; cbn [fst snd] in *.
  2,3: intros events Ht v Hv;
       by rewrite (no_request_in_quiet _ _ _ _ Hq2 Ht v) in Hv.
  pose proof (quiet_trans _ _ _ _ Hq2
                (quiet_resolveTargetPlaylistId queuePath accessToken st2)) as Hq3.
  destruct (resolveTargetPlaylistId accessToken st2)
    as [[playlistId|message|] st3]; cbn [fst snd] in *.
  2,3: intros events Ht v Hv;
       by rewrite (no_request_in_quiet _ _ _ _ Hq3 Ht v) in Hv.
  destruct (requeue_failed accessToken playlistId queuePath merged st3 Hnd Hall)
    as (result & ev3 & Hres & Htr & _ & Hreq & _).
  destruct (addVideoIdsToPlaylist accessToken playlistId merged st3)
    as [o4 st4]; cbn [fst snd] in *. subst o4.
  destruct (writeVideoIdQueue_spec queuePath (failed_of result.2 merged) st4)
    as (Hout5 & _).
  destruct (writeVideoIdQueue queuePath (failed_of result.2 merged) st4)
    as [o5 st5]; cbn [fst snd] in *. subst o5. cbn [ret snd].
  intros events Ht v Hv. destruct Hq3 as [_ (ev & Ht3 & Hq)].
  rewrite Htr, Ht3, <- app_assoc in Ht. apply app_inv_head in Ht. subst events.
  rewrite insert_requested_app, (insert_requested_quiet queuePath ev) in Hv by done.
  by apply Hreq.
Qed.


(** [flushPlaylistQueue] with nothing to flush but a playlist to ensure. *)
Lemma quiet_ensure_playlist cfg path (st : State W) :
  nonempty (oauth_tokenFilePath (cfg_oauth cfg)) <> Some path ->
  let run :=
    try_catch
      (accessToken <- getYouTubeAccessTokenAuto (cfg_oauth cfg) (cfg_autoSetup cfg) ;;
       playlistId <- resolveTargetPlaylistId accessToken ;;
       ret (playlist_nothing cfg (Some playlistId) 0 None))
      (fun message => ret (playlist_failure cfg message 0 None)) st in
  quiet path st run.2 /\ exists result, run.1 = Ok result.
Proof.
  intros Hpath run. subst run. unfold try_catch, bind.
  pose proof (quiet_getYouTubeAccessTokenAuto path (cfg_oauth cfg)
                (cfg_autoSetup cfg) st Hpath) as Hq2.
  pose proof (returns_getYouTubeAccessTokenAuto (cfg_oauth cfg)
                (cfg_autoSetup cfg) st) as Hr2.
  destruct (getYouTubeAccessTokenAuto (cfg_oauth cfg) (cfg_autoSetup cfg) st)
    as [[accessToken|message|] st2]; cbn [fst snd] in *; [| |done].
  2:{ split; [done | by eexists]. }
  pose proof (quiet_resolveTargetPlaylistId path accessToken st2) as Hq3.
  pose proof (returns_net (CallResolvePlaylist accessToken)
                (remote_resolvePlaylist accessToken) st2) as Hr3.
  fold (resolveTargetPlaylistId accessToken) in Hr3.
  destruct (resolveTargetPlaylistId accessToken st2)
    as [[playlistId|message|] st3]; cbn [fst snd] in *; [| |done].
  - split; [by eapply quiet_trans | by eexists].
  - split; [by eapply quiet_trans | by eexists].
Qed.

Lemma inserted_ok_cons_other e events v :
  is_insert_event e = false -> inserted_ok (e :: events) v = inserted_ok events v.
Proof. intros He. cbn. by destruct e as [[] []| | |]. Qed.

(** What a flush does to the files and which insertions it requests. *)
Lemma flushPlaylistQueue_effects cfg newVideoIds ensurePlaylist (st : State W) :
  nonempty (oauth_tokenFilePath (cfg_oauth cfg)) <> Some (cfg_queuePath cfg) ->
  let queuePath := cfg_queuePath cfg in
  let merged := merged_queue cfg newVideoIds st in
  let run := flushPlaylistQueue cfg newVideoIds ensurePlaylist st in
  (exists result, run.1 = Ok result)
  /\ (forall p, p <> queuePath ->
        nonempty (oauth_tokenFilePath (cfg_oauth cfg)) <> Some p ->
        files run.2 !! p = files st !! p)
  /\ exists events,
       trace run.2 = trace st ++ events
       /\ (forall v, insert_requested events v = true -> v ∈ merged)
       /\ (merged <> [] ->
           (exists rest, events = WroteFile queuePath (queue_text merged) :: rest)
           /\ queue_holds (files run.2) queuePath
                (List.filter (fun id => negb (inserted_ok events id)) merged)).
Proof.
  intros Hpath queuePath merged run. subst run.
  rewrite flushPlaylistQueue_run. cbv zeta. fold queuePath. fold merged.
  destruct (bool_decide (readVideoIdQueue (files st) queuePath = [])
            && bool_decide (newVideoIds = [])) eqn:Eempty.
  - apply andb_true_iff in Eempty as [E1%bool_decide_eq_true E2%bool_decide_eq_true].
    assert (Em : merged = []).
    { unfold merged, merged_queue. fold queuePath. by rewrite E1, E2. }
    destruct ensurePlaylist; cbn [negb].
    + destruct (quiet_ensure_playlist cfg queuePath st Hpath) as [Hq Hres].
      split; [done|]. split.
      { intros p _ Hp. by destruct (quiet_ensure_playlist cfg p st Hp) as [[Hf _] _]. }
      destruct Hq as [_ (ev & Ht & Hq)]. exists ev. split; [done|]. split; [|done].
      intros v Hv. by rewrite (insert_requested_quiet queuePath) in Hv.
    + split; [by eexists|]. split; [done|]. exists []. cbn [fst snd].
      split; [by rewrite app_nil_r|]. split; [|done]. by intros v Hv.
  - destruct (merged_queue_unique cfg newVideoIds st) as (Hnd & Hall & Hfix).
    fold merged in Hnd, Hall, Hfix.
    destruct (decide (merged = [])) as [Em | Em].
    + rewrite bool_decide_eq_true_2 by done. cbn [fst snd].
      destruct (writeVideoIdQueue_spec queuePath merged st)
        as (_ & _ & Hother1 & e1 & Htrace1 & Hins1 & _ & _).
      split; [by eexists|]. split; [intros p Hp _; by apply Hother1|].
      exists [e1]. split; [done|]. split; [|done].
      intros v Hv. by rewrite (insert_requested_single e1) in Hv.
    + rewrite bool_decide_eq_false_2 by done.
      assert (Hwrite : writeVideoIdQueue queuePath merged st
                       = writeFileSync queuePath (queue_text merged) st).
      { unfold writeVideoIdQueue. rewrite Hfix. by rewrite bool_decide_eq_false_2. }
      rewrite Hwrite.
      set (st1 := (writeFileSync queuePath (queue_text merged) st).2).
      assert (Hfile1 : files st1 !! queuePath = Some (queue_text merged)).
      { cbn. apply lookup_insert_eq. }
      assert (Hother1 : forall p, p <> queuePath -> files st1 !! p = files st !! p).
      { intros p Hp. cbn. by apply lookup_insert_ne. }
      assert (Htrace1 : trace st1
                        = trace st ++ [WroteFile queuePath (queue_text merged)])
        by done.
      destruct (flush_after_merge cfg merged st1 Hpath Em Hnd Hall Hfile1)
        as (Hres & Hfiles & events & Htrace & Hholds).
      pose proof (flush_try_requests cfg merged st1 Hpath Hnd Hall events Htrace)
        as Hreq.
      split; [done|]. split.
      { intros p Hp Hp'. etransitivity; [by apply Hfiles | by apply Hother1]. }
      exists (WroteFile queuePath (queue_text merged) :: events).
      split.
      { etransitivity; [exact Htrace|]. rewrite Htrace1, <- app_assoc. done. }
      split; [intros v Hv; by apply Hreq|].
      intros _. split; [by eexists|].
      assert (Efilter :
        List.filter (fun id => negb (inserted_ok
                       (WroteFile queuePath (queue_text merged) :: events) id)) merged
        = List.filter (fun id => negb (inserted_ok events id)) merged).
      { apply filter_ext. intros v. by rewrite inserted_ok_cons_other. }
      rewrite Efilter. exact Hholds.
Qed.


Lemma bind_get_state {A} (k : State W -> M W A) (st : State W) :
  (st0 <- get_state ;; k st0) st = k st st.
Proof. reflexivity. Qed.

(** What a backfill does to the files and which insertions it requests:
    it never throws; when it reports that it did not sync, nothing was
    written and no insertion was requested; and an ID whose insertion was
    requested without success is in the queue afterwards. *)
Lemma syncOutputFileToPlaylist_effects cfg fuel (st : State W) :
  nonempty (oauth_tokenFilePath (cfg_oauth cfg)) <> Some (cfg_queuePath cfg) ->
  let queuePath := cfg_queuePath cfg in
  let run := syncOutputFileToPlaylist cfg fuel st in
  (forall message, run.1 <> Throw message)
  /\ (forall p, p <> queuePath ->
        nonempty (oauth_tokenFilePath (cfg_oauth cfg)) <> Some p ->
        files run.2 !! p = files st !! p)
  /\ exists events,
       trace run.2 = trace st ++ events
       /\ (forall v, insert_requested events v = true ->
                     inserted_ok events v = false ->
                     queued (files run.2) queuePath v)
       /\ (forall result, run.1 = Ok result -> synced result = false ->
             files run.2 !! queuePath = files st !! queuePath
             /\ forall v, insert_requested events v = false).
Proof.
  intros Hpath queuePath run. subst run. unfold syncOutputFileToPlaylist.
  rewrite bind_get_state. cbv beta zeta. fold queuePath.
  set (desiredIds :=
         uniqueExactStrings
           (readVideoIdQueue (files st) queuePath
            ++ readExistingVideoIds (files st) (cfg_outputPath cfg))).
  assert (Hquiet : forall outcome (st' : State W),
    (forall message, outcome <> Throw message) ->
    (forall result, outcome = Ok result -> synced result = false) ->
    quiet queuePath st st' ->
    (forall p, nonempty (oauth_tokenFilePath (cfg_oauth cfg)) <> Some p ->
               files st' !! p = files st !! p) ->
    (forall message, (outcome, st').1 <> Throw message)
    /\ (forall p, p <> queuePath ->
          nonempty (oauth_tokenFilePath (cfg_oauth cfg)) <> Some p ->
          files (outcome, st').2 !! p = files st !! p)
    /\ exists events,
         trace (outcome, st').2 = trace st ++ events
         /\ (forall v, insert_requested events v = true ->
                       inserted_ok events v = false ->
                       queued (files (outcome, st').2) queuePath v)
         /\ (forall result, (outcome, st').1 = Ok result -> synced result = false ->
               files (outcome, st').2 !! queuePath = files st !! queuePath
               /\ forall v, insert_requested events v = false)).
  { intros outcome st' Hthrow _ [Hf (ev & Ht & Hq)] Hfiles. cbn [fst snd].
    split; [done|]. split; [intros p _ Hp; by apply Hfiles|].
    exists ev. split; [done|]. split.
    - intros v Hv. by rewrite (insert_requested_quiet queuePath) in Hv.
    - intros result _ _. split; [done|]. intros v.
      by apply (insert_requested_quiet queuePath). }
  destruct (bool_decide (desiredIds = [])) eqn:Ed.
  { cbn [ret fst snd]. split; [done|]. split; [done|]. exists [].
    split; [by rewrite app_nil_r|]. split; [by intros v Hv|].
    intros result [= <-] Hs. discriminate Hs. }
  unfold try_catch, bind.
  pose proof (quiet_getYouTubeAccessTokenAuto queuePath (cfg_oauth cfg)
                (cfg_autoSetup cfg) st Hpath) as Hq1.
  pose proof (fun p Hp => proj1 (quiet_getYouTubeAccessTokenAuto p (cfg_oauth cfg)
                (cfg_autoSetup cfg) st Hp)) as Hf1.
  pose proof (returns_getYouTubeAccessTokenAuto (cfg_oauth cfg)
                (cfg_autoSetup cfg) st) as Hr1.
  destruct (getYouTubeAccessTokenAuto (cfg_oauth cfg) (cfg_autoSetup cfg) st)
    as [[accessToken|message|] st1]; cbn [fst snd] in *; [| |done].
  2:{ apply Hquiet; try done. by intros result [= <-]. }
  pose proof (quiet_trans _ _ _ _ Hq1
                (quiet_resolveTargetPlaylistId queuePath accessToken st1)) as Hq2.
  pose proof (fun p => proj1 (quiet_resolveTargetPlaylistId p accessToken st1)) as Hf2.
  pose proof (returns_net (CallResolvePlaylist accessToken)
                (remote_resolvePlaylist accessToken) st1) as Hr2.
  fold (resolveTargetPlaylistId accessToken) in Hr2.
  destruct (resolveTargetPlaylistId accessToken st1)
    as [[playlistId|message|] st2]; cbn [fst snd] in *; [| |done].
  2:{ apply Hquiet; try done.
      - by intros result [= <-].
      - intros p Hp. rewrite Hf2. by apply Hf1. }
  pose proof (quiet_trans _ _ _ _ Hq2
                (quiet_fetchPlaylistVideoIdSet_loop queuePath fuel accessToken
                   playlistId None [] st2)) as Hq3.
  pose proof (fun p => proj1 (quiet_fetchPlaylistVideoIdSet_loop p fuel accessToken
                   playlistId None [] st2)) as Hf3.
  fold (fetchPlaylistVideoIdSet fuel accessToken playlistId) in Hq3, Hf3.
  destruct (fetchPlaylistVideoIdSet fuel accessToken playlistId st2)
    as [[alreadyInPlaylist|message|] st3]; cbn [fst snd] in *.
  2:{ apply Hquiet; try done.
      - by intros result [= <-].
      - intros p Hp. rewrite Hf3, Hf2. by apply Hf1. }
  2:{ apply Hquiet; try done. intros p Hp. rewrite Hf3, Hf2. by apply Hf1. }
  assert (Hfiles3 : forall p,
            nonempty (oauth_tokenFilePath (cfg_oauth cfg)) <> Some p ->
            files st3 !! p = files st !! p).
  { intros p Hp. rewrite Hf3, Hf2. by apply Hf1. }
  destruct Hq3 as [_ (ev & Ht & Hq)].
  set (pending := missing_from alreadyInPlaylist desiredIds).
  destruct (bool_decide (pending = [])) eqn:Ep.
  - assert (Hlast : exists tail,
      trace ((if bool_decide (readVideoIdQueue (files st) queuePath = [])
              then ret tt else writeVideoIdQueue queuePath []) st3).2
      = trace st3 ++ tail
      /\ Forall (fun e => is_insert_event e = false) tail
      /\ (forall p, p <> queuePath ->
            files ((if bool_decide (readVideoIdQueue (files st) queuePath = [])
                    then ret tt else writeVideoIdQueue queuePath []) st3).2 !! p
            = files st3 !! p)
      /\ ((if bool_decide (readVideoIdQueue (files st) queuePath = [])
           then ret tt else writeVideoIdQueue queuePath []) st3).1
         = Ok tt).
    { destruct (bool_decide (readVideoIdQueue _ _ = [])).
      - exists []. cbn. by rewrite app_nil_r.
      - destruct (writeVideoIdQueue_spec queuePath [] st3)
          as (Ho & _ & Hother & e & Hte & Hie & _).
        exists [e]. repeat split; try done. by repeat constructor. }
    destruct Hlast as (tail & Htt & Hti & Hother & Hto).
    destruct ((if bool_decide (readVideoIdQueue (files st) queuePath = [])
               then ret tt else writeVideoIdQueue queuePath []) st3)
      as [o4 st4]; cbn [fst snd] in *. subst o4. cbn [ret fst snd].
    assert (Hnone : forall v, insert_requested (ev ++ tail) v = false).
    { intros v. rewrite insert_requested_app, (insert_requested_quiet queuePath ev)
        by done. cbn [orb]. unfold insert_requested.
      destruct (existsb _ tail) eqn:Eex; [|done].
      apply existsb_exists in Eex as (e & Hin & He).
      rewrite Forall_forall in Hti. apply list_elem_of_In, Hti in Hin.
      by destruct e as [[] ?| | |]. }
    split; [done|]. split.
    { intros p Hp Hp'. rewrite Hother by done. by apply Hfiles3. }
    exists (ev ++ tail). split; [by rewrite Htt, Ht, <- app_assoc|].
    split; [intros v Hv; by rewrite Hnone in Hv|].
    intros result [= <-] Hs. discriminate Hs.
  - destruct (filter_keeps_unique (fun id => negb (JS.Set_has alreadyInPlaylist id))
                desiredIds (uniqueExactStrings_NoDup _) (uniqueExactStrings_Forall _))
      as [Hnd Hall].
    fold (missing_from alreadyInPlaylist desiredIds) in Hnd, Hall.
    fold pending in Hnd, Hall.
    destruct (requeue_failed accessToken playlistId queuePath pending st3 Hnd Hall)
      as (result & ev3 & Hres & Htr & Hother & Hreq & Hholds).
    destruct (addVideoIdsToPlaylist accessToken playlistId pending st3)
      as [o4 st4]; cbn [fst snd] in *. subst o4.
    destruct (writeVideoIdQueue_spec queuePath (failed_of result.2 pending) st4)
      as (Hout5 & _).
    destruct (writeVideoIdQueue queuePath (failed_of result.2 pending) st4)
      as [o5 st5]; cbn [fst snd] in *. subst o5. cbn [ret fst snd].
    split; [done|]. split.
    { intros p Hp Hp'. rewrite Hother by done. by apply Hfiles3. }
    exists (ev ++ ev3). split; [by rewrite Htr, Ht, <- app_assoc|]. split.
    + intros v. rewrite insert_requested_app, inserted_ok_app.
      rewrite (insert_requested_quiet queuePath ev),
        (inserted_ok_quiet queuePath ev) by done.
      cbn [orb]. intros Hv Hno.
      apply (queue_holds_queued _ _ _ _ _ Hholds); [by apply Hreq|].
      by rewrite Hno.
    + intros result' [= <-] Hs. discriminate Hs.
Qed.



(** The step of [playlist_phase] that may write the Sync State. *)
Lemma sync_state_step cfg (enabled : bool) playlistId (st : State W) :
  let run := (if enabled then writePlaylistSyncState cfg playlistId else ret tt) st in
  run.1 = Ok tt
  /\ (forall p, p <> cfg_statePath cfg -> files run.2 !! p = files st !! p)
  /\ (enabled = false -> files run.2 = files st)
  /\ exists tail,
       trace run.2 = trace st ++ tail
       /\ Forall (fun e => is_insert_event e = false) tail.
Proof.
  intros run. subst run. destruct enabled.
  - unfold writePlaylistSyncState, bind, ask.
    destruct (sync_state_text playlistId (world st)) as [text w].
    cbn [fst snd writeFileSync files trace set_world].
    split; [done|]. split; [intros p Hp; by apply lookup_insert_ne|].
    split; [done|]. eexists. split; [reflexivity|]. by repeat constructor.
  - cbn. repeat split. exists []. by rewrite app_nil_r.
Qed.

Lemma insert_requested_tail events tail v :
  Forall (fun e => is_insert_event e = false) tail ->
  insert_requested (events ++ tail) v = insert_requested events v.
Proof.
  intros Htail. rewrite insert_requested_app.
  assert (E : insert_requested tail v = false).
  { unfold insert_requested. destruct (existsb _ tail) eqn:Eex; [|done].
    apply existsb_exists in Eex as (e & Hin & He).
    rewrite Forall_forall in Htail. apply list_elem_of_In, Htail in Hin.
    by destruct e as [[] ?| | |]. }
  by rewrite E, orb_false_r.
Qed.

Lemma inserted_ok_tail events tail v :
  Forall (fun e => is_insert_event e = false) tail ->
  inserted_ok (events ++ tail) v = inserted_ok events v.
Proof.
  intros Htail. rewrite inserted_ok_app.
  assert (E : inserted_ok tail v = false).
  { unfold inserted_ok. destruct (existsb _ tail) eqn:Eex; [|done].
    apply existsb_exists in Eex as (e & Hin & He).
    rewrite Forall_forall in Htail. apply list_elem_of_In, Htail in Hin.
    by destruct e as [[] []| | |]. }
  by rewrite E, orb_false_r.
Qed.

Lemma queued_other_file (fs fs' : filesystem) queuePath v :
  fs' !! queuePath = fs !! queuePath -> queued fs queuePath v -> queued fs' queuePath v.
Proof. intros E (ids & Hfile & Hin). exists ids. by rewrite E. Qed.

(** What the playlist side of a run does, in its two modes. *)
Lemma playlist_phase_effects cfg fuel newVideoIds ensurePlaylist (st1 : State W) :
  paths_distinct cfg ->
  let queuePath := cfg_queuePath cfg in
  let run := playlist_phase cfg fuel newVideoIds ensurePlaylist st1 in
  let events := new_events st1 run.2 in
  (forall message, run.1 <> Throw message)
  /\ trace run.2 = trace st1 ++ events
  /\ files run.2 !! cfg_outputPath cfg = files st1 !! cfg_outputPath cfg
  /\ (forall v, insert_requested events v = true -> inserted_ok events v = false ->
                queued (files run.2) queuePath v)
  /\ (needsPlaylistBackfill cfg = false ->
      let merged := merged_queue cfg newVideoIds st1 in
      (exists failures, run.1 = Ok failures)
      /\ (merged <> [] ->
          (exists rest, events = WroteFile queuePath (queue_text merged) :: rest)
          /\ queue_holds (files run.2) queuePath
               (List.filter (fun id => negb (inserted_ok events id)) merged)))
  /\ (needsPlaylistBackfill cfg = true ->
      forall result,
        (syncOutputFileToPlaylist cfg fuel st1).1 = Ok result ->
        synced result = false ->
        (exists failures, run.1 = Ok failures)
        /\ files run.2 !! queuePath = files st1 !! queuePath
        /\ files run.2 !! cfg_statePath cfg = files st1 !! cfg_statePath cfg
        /\ forall v, insert_requested events v = false).
Proof.
  intros (Hqo & Hso & Hsq & Hto & Htq & Hts) queuePath run events.
  subst run events. unfold playlist_phase, bind.
  destruct (needsPlaylistBackfill cfg) eqn:Emode.
  - (* full backfill *)
    destruct (syncOutputFileToPlaylist_effects cfg fuel st1 Htq)
      as (Hthrow & Hfiles & ev & Htrace & Hqueued & Hfailed).
    fold queuePath in Hfiles, Hqueued, Hfailed.
    destruct (syncOutputFileToPlaylist cfg fuel st1) as [[result|message|] st2];
      cbn [fst snd] in *.
    2:{ by specialize (Hthrow message). }
    2:{ rewrite (new_events_app _ _ _ Htrace).
        split; [done|]. split; [done|]. split; [by apply Hfiles|]. split; [done|].
        split; [done|]. intros _ result [=]. }
    rewrite orb_false_l.
    destruct (sync_state_step cfg (cfg_playlistSyncOutputEnabled cfg && synced result)
                (res_playlistId result) st2)
      as (Hout & Hother & Hoff & tail & Htail & Hnone).
    destruct ((if cfg_playlistSyncOutputEnabled cfg && synced result
               then writePlaylistSyncState cfg (res_playlistId result)
               else ret tt) st2) as [o3 st3]; cbn [fst snd] in *. subst o3.
    cbn [ret fst snd].
    rewrite (new_events_app st1 st3 (ev ++ tail))
      by (by rewrite Htail, Htrace, <- app_assoc).
    split; [done|]. split; [by rewrite Htail, Htrace, <- app_assoc|]. split.
    { rewrite Hother by done. by apply Hfiles. }
    split.
    { intros v. rewrite insert_requested_tail, inserted_ok_tail by done.
      intros Hv Hno. apply (queued_other_file (files st2)); [by apply Hother|].
      by apply Hqueued. }
    split; [done|]. intros _ result' [= <-] Hs.
    destruct (Hfailed result eq_refl Hs) as [Hfq Hno].
    rewrite Hs, andb_false_r in Hoff. rewrite Hoff by done.
    split; [by eexists|]. split; [done|]. split; [by apply Hfiles|].
    intros v. rewrite insert_requested_tail by done. apply Hno.
  - (* incremental flush *)
    destruct (flushPlaylistQueue_effects cfg newVideoIds ensurePlaylist st1 Htq)
      as ((result & Hres) & Hfiles & ev & Htrace & Hreq & Hmerged).
    fold queuePath in Hfiles, Hmerged.
    destruct (flushPlaylistQueue cfg newVideoIds ensurePlaylist st1) as [o2 st2];
      cbn [fst snd] in *. subst o2.
    cbn [negb orb]. rewrite andb_true_r.
    destruct (sync_state_step cfg (cfg_playlistSyncOutputEnabled cfg)
                (res_playlistId result) st2)
      as (Hout & Hother & _ & tail & Htail & Hnone).
    destruct ((if cfg_playlistSyncOutputEnabled cfg
               then writePlaylistSyncState cfg (res_playlistId result)
               else ret tt) st2) as [o3 st3]; cbn [fst snd] in *. subst o3.
    cbn [ret fst snd].
    rewrite (new_events_app st1 st3 (ev ++ tail))
      by (by rewrite Htail, Htrace, <- app_assoc).
    assert (Efilter :
      List.filter (fun id => negb (inserted_ok (ev ++ tail) id))
        (merged_queue cfg newVideoIds st1)
      = List.filter (fun id => negb (inserted_ok ev id))
          (merged_queue cfg newVideoIds st1)).
    { apply filter_ext. intros v. by rewrite inserted_ok_tail. }
    assert (Hholds : merged_queue cfg newVideoIds st1 <> [] ->
      queue_holds (files st3) queuePath
        (List.filter (fun id => negb (inserted_ok ev id))
           (merged_queue cfg newVideoIds st1))).
    { intros Hne. destruct (Hmerged Hne) as [_ Hh]. unfold queue_holds in *.
      by rewrite Hother. }
    split; [done|]. split; [by rewrite Htail, Htrace, <- app_assoc|]. split.
    { rewrite Hother by done. by apply Hfiles. }
    split.
    { intros v. rewrite insert_requested_tail, inserted_ok_tail by done.
      intros Hv%Hreq Hno.
      apply (queue_holds_queued _ _ (fun id => negb (inserted_ok ev id))
               (merged_queue cfg newVideoIds st1)); [|done|by rewrite Hno].
      apply Hholds. intros E. rewrite E in Hv. by apply elem_of_nil in Hv. }
    split; [|done]. intros _. split; [by eexists|]. intros Hne. split.
    + destruct (Hmerged Hne) as [(rest & ->) _]. by eexists.
    + rewrite Efilter. by apply Hholds.
Qed.



End GracefulProofs.


(** The same world in the incremental path: the token cannot be refreshed
    either, but the new video was queued before the attempt. *)
Example runOnce_incremental_failure :
  let st := initial_state example_ledger example_revoked_world in
  let st' := (runOnce example_config 1 st).2 in
  (runOnce example_config 1 st).1 = Ok 1%Z
  /\ readExistingVideoIds (files st') example_ledger_path
     = [str "aaaaaaaaaaa"; str "video000003"]
  /\ files st' !! example_queue_path = Some (queue_text [str "video000003"])
  /\ readVideoIdQueue (files st') example_queue_path = [str "video000003"].
Proof. repeat split; vm_compute; reflexivity. Qed.
(** ** Playlist failures *)


Example runOnce_backfill_failure :
  let st := initial_state example_ledger example_revoked_world in
  let st' := (runOnce example_backfill_config 1 st).2 in
  (runOnce example_backfill_config 1 st).1 = Ok 1%Z
  /\ readExistingVideoIds (files st') example_ledger_path
     = [str "aaaaaaaaaaa"; str "video000003"]
  /\ files st' !! example_queue_path = None
  /\ files st' !! example_state_path = None.
Proof. repeat split; vm_compute; reflexivity. Qed.

(** ** Running a computation step by step *)

Section Steps.
Context {W : Type} `{Remote W}.

Lemma bind_ok {A B} (m : M W A) (k : A -> M W B) (st st' : State W) a :
  m st = (Ok a, st') -> bind m k st = k a st'.
Proof. intros E. unfold bind. by rewrite E. Qed.

Lemma bind_throw {A B} (m : M W A) (k : A -> M W B) (st st' : State W) message :
  m st = (Throw message, st') -> bind m k st = (Throw message, st').
Proof. intros E. unfold bind. by rewrite E. Qed.

Lemma bind_diverge {A B} (m : M W A) (k : A -> M W B) (st st' : State W) :
  m st = (Diverge, st') -> bind m k st = (Diverge, st').
Proof. intros E. unfold bind. by rewrite E. Qed.

Lemma net_reply {A} c (op : W -> reply A * W) (st : State W) a w :
  op (world st) = (Reply a, w) -> net c op st = (Ok a, recorded (Net c true) w st).
Proof. intros E. unfold net. by rewrite E. Qed.

Lemma net_fail {A} c (op : W -> reply A * W) (st : State W) message w :
  op (world st) = (Fail message, w) ->
  net c op st = (Throw message, recorded (Net c false) w st).
Proof. intros E. unfold net. by rewrite E. Qed.

Lemma ask_run {A} (op : W -> A * W) (st : State W) :
  ask op st = (Ok (op (world st)).1, set_world (op (world st)).2 st).
Proof. unfold ask. by destruct (op (world st)). Qed.

Lemma try_catch_ok {A} (m : M W A) handler (st st' : State W) a :
  m st = (Ok a, st') -> try_catch m handler st = (Ok a, st').
Proof. intros E. unfold try_catch. by rewrite E. Qed.

Lemma try_catch_throw {A} (m : M W A) handler (st st' : State W) message :
  m st = (Throw message, st') -> try_catch m handler st = handler message st'.
Proof. intros E. unfold try_catch. by rewrite E. Qed.

End Steps.

Lemma nonempty_Some o t : nonempty o = Some t -> o = Some t /\ t <> [].
Proof. destruct o as [[|c s]|]; intros [= <-]; done. Qed.

(** ** More on deduplication *)

Lemma filter_is_sublist {A} (p : A -> bool) (l : list A) :
  List.filter p l `sublist_of` l.
Proof.
  induction l as [|x l IH]; simpl; [done|].
  destruct (p x); [by apply sublist_skip | by apply sublist_cons].
Qed.

Lemma keep_first_app key l1 l2 seen :
  exists seen', keep_first key (l1 ++ l2) seen
                = keep_first key l1 seen ++ keep_first key l2 seen'.
Proof.
  revert seen. induction l1 as [|x l1 IH]; intros seen; simpl; [by exists seen|].
  destruct (JS.Set_has seen (key x)).
  - apply IH.
  - destruct (IH (JS.Set_add (key x) seen)) as [seen' E]. exists seen'.
    by rewrite E.
Qed.

Lemma nonblank_trimmed_app l1 l2 :
  nonblank_trimmed (l1 ++ l2) = nonblank_trimmed l1 ++ nonblank_trimmed l2.
Proof. unfold nonblank_trimmed. by rewrite map_app, List.filter_app. Qed.

(** X1.  [uniqueExactStrings] returns the trimmed, non-blank values, each
    once, in the order of their first occurrence: the result has no
    duplicate, holds exactly the non-empty trimmed forms of the values, is
    a sub-list of the trimmed values, stays a prefix of the result when
    more values are added behind, and is left as it is by a second
    pass. *)
Theorem uniqueExactStrings_dedup_exact (values : list jstring) :
  let out := uniqueExactStrings values in
  NoDup out
  /\ (forall x, x ∈ out <-> x <> [] /\ exists v, v ∈ values /\ JS.trim v = x)
  /\ out `sublist_of` (JS.trim <$> values)
  /\ (forall more, exists rest, uniqueExactStrings (values ++ more) = out ++ rest)
  /\ uniqueExactStrings out = out.
Proof.
  intros out. split; [apply uniqueExactStrings_NoDup|].
  split; [apply elem_of_uniqueExactStrings|].
  split.
  { unfold out. rewrite uniqueExactStrings_keep_first.
    etransitivity; [apply keep_first_sublist|].
    unfold nonblank_trimmed. apply filter_is_sublist. }
  split; [|apply uniqueExactStrings_idem].
  intros more. unfold out. rewrite !uniqueExactStrings_keep_first.
  rewrite nonblank_trimmed_app.
  destruct (keep_first_app id (nonblank_trimmed values) (nonblank_trimmed more) [])
    as [seen' E].
  rewrite E. by eexists.
Qed.

(** ** The Retry Queue file read back *)

Lemma line_video_id_bare v : is_video_id v = true -> line_video_id v = Some v.
Proof.
  intros Hv. unfold line_video_id. rewrite (video_id_trim v Hv).
  rewrite bool_decide_eq_false_2 by by apply video_id_nonempty.
  unfold JS.split_whitespace. rewrite split_runs_plain by plain_text.
  cbn [app List.last]. rewrite (extract_bare v Hv).
  by rewrite bool_decide_eq_false_2 by by apply video_id_nonempty.
Qed.

Lemma strip_cr_video_id v : is_video_id v = true -> JS.strip_cr v = v.
Proof.
  intros Hv. destruct (decide (v = [])) as [-> | Hne]; [done|].
  destruct (exists_last Hne) as (u & d & ->). apply strip_cr_snoc.
  apply is_video_id_spec in Hv as [_ Hall].
  apply Forall_app in Hall as [_ Hd]. inversion Hd as [|? ? Hd' _]; subst.
  apply video_id_unit_plain in Hd'. tauto.
Qed.

Lemma split_lines_from_queue_text ids :
  Forall (fun v => is_video_id v = true) ids -> ids <> [] ->
  JS.split_lines_from [] (queue_text ids) = ids ++ [[]].
Proof.
  unfold queue_text. induction 1 as [|v ids Hv Hall IH]; intros Hne; [done|].
  destruct ids as [|w ids].
  - cbn [JS.join]. rewrite split_lines_from_plain by plain_text.
    cbn [app]. by rewrite (strip_cr_video_id v Hv).
  - change (JS.join [JS.LF] (v :: w :: ids))
      with (v ++ [JS.LF] ++ JS.join [JS.LF] (w :: ids)).
    rewrite <- !app_assoc. cbn [app].
    rewrite split_lines_from_plain by plain_text.
    cbn [app]. rewrite (strip_cr_video_id v Hv). f_equal. by apply IH.
Qed.

Lemma omap_line_video_id_bare ids :
  Forall (fun v => is_video_id v = true) ids ->
  omap line_video_id (ids ++ [[]]) = ids.
Proof.
  induction 1 as [|v ids Hv _ IH]; [done|].
  cbn [app omap list_omap]. rewrite (line_video_id_bare v Hv).
  fold (omap line_video_id (ids ++ [[]])). by rewrite IH.
Qed.

Lemma uniqueExactStrings_video_ids ids :
  Forall (fun v => is_video_id v = true) ids ->
  Forall (fun v => is_video_id v = true) (uniqueExactStrings ids).
Proof.
  intros Hall. apply Forall_forall.
  intros x (Hne & v & Hv & <-)%elem_of_uniqueExactStrings.
  rewrite Forall_forall in Hall. rewrite (video_id_trim v) by by apply Hall.
  by apply Hall.
Qed.

Section QueueFile.
Context {W : Type} `{Remote W}.

(** X2.  What [writeVideoIdQueue] writes, [readVideoIdQueue] reads back:
    for well-formed video IDs the queue read from the file afterwards is
    the list of the IDs without duplicates, in order; an empty list
    removes the file, which reads as the empty queue; no other file is
    touched. *)
Theorem writeVideoIdQueue_read_back
  (queuePath : jstring) (videoIds : list jstring) (st : State W) :
  Forall (fun v => is_video_id v = true) videoIds ->
  let st' := (writeVideoIdQueue queuePath videoIds st).2 in
  readVideoIdQueue (files st') queuePath = uniqueExactStrings videoIds
  /\ (files st' !! queuePath = None <-> videoIds = [])
  /\ (forall p, p <> queuePath -> files st' !! p = files st !! p).
Proof.
  intros Hall st'. subst st'.
  pose proof (uniqueExactStrings_video_ids videoIds Hall) as Hids.
  unfold writeVideoIdQueue.
  destruct (bool_decide (uniqueExactStrings videoIds = [])) eqn:E.
  - apply bool_decide_eq_true in E.
    cbn [unlinkSync_ignore snd files]. unfold readVideoIdQueue.
    rewrite lookup_delete_eq, E. split; [done|]. split.
    + split; [intros _|done]. destruct videoIds as [|v l]; [done|]. exfalso.
      assert (Hv : v ∈ uniqueExactStrings (v :: l)).
      { apply elem_of_uniqueExactStrings. inversion Hall as [|? ? Hv _]; subst.
        split; [by apply video_id_nonempty|]. exists v.
        split; [set_solver | by apply video_id_trim]. }
      rewrite E in Hv. by apply elem_of_nil in Hv.
    + intros p Hp. by apply lookup_delete_ne.
  - apply bool_decide_eq_false in E.
    cbn [writeFileSync snd files]. unfold readVideoIdQueue.
    rewrite lookup_insert_eq. unfold JS.split_lines.
    rewrite split_lines_from_queue_text, omap_line_video_id_bare by done.
    rewrite uniqueExactStrings_idem. split; [done|]. split.
    + split; [done|]. intros ->. done.
    + intros p Hp. by apply lookup_insert_ne.
Qed.

End QueueFile.

Lemma writeVideoIdQueue_read_back_witness :
  Forall (fun v => is_video_id v = true)
    [str "video000001"; str "video000002"; str "video000001"]
  /\ readVideoIdQueue
       (files (writeVideoIdQueue example_queue_path
                 [str "video000001"; str "video000002"; str "video000001"]
                 (initial_state ∅ silent_world)).2) example_queue_path
     = [str "video000001"; str "video000002"].
Proof.
  assert (Hall : Forall (fun v => is_video_id v = true)
                   [str "video000001"; str "video000002"; str "video000001"])
    by (repeat constructor).
  split; [exact Hall|].
  exact (eq_trans
           (proj1 (writeVideoIdQueue_read_back example_queue_path _
                     (initial_state ∅ silent_world) Hall))
           eq_refl).
Defined.

(** ** The Ledger read back *)

(** X3.  On a Ledger whose last line is complete, [appendNewLiveLinks]
    only adds to the file and keeps it readable: the old content is a
    prefix of the new one, the last line is complete again, every ID that
    was read from the Ledger before is still read from it, every
    well-formed ID of the call is read from it afterwards, and no other
    file changes. *)
Theorem appendNewLiveLinks_keeps_ledger_readable
  (fs : filesystem) (path : jstring) (ids : list jstring) (wt : bool)
  (ts : jstring) :
  ends_with_newline fs path ->
  let fs' := (appendNewLiveLinks fs path ids wt ts).2 in
  (exists appended,
     default [] (fs' !! path) = default [] (fs !! path) ++ appended)
  /\ ends_with_newline fs' path
  /\ (forall id, id ∈ readExistingVideoIds fs path ->
                 id ∈ readExistingVideoIds fs' path)
  /\ (forall v, v ∈ ids -> is_video_id v = true ->
                v ∈ readExistingVideoIds fs' path)
  /\ (forall p, p <> path -> fs' !! p = fs !! p).
Proof.
  intros Hend fs'. subst fs'. rewrite appendNewLiveLinks_spec. cbv zeta.
  set (new := keep_first id ids (readExistingVideoIds fs path)).
  assert (Hcontent : default [] (fs !! path) = []
                     \/ exists before, default [] (fs !! path) = before ++ [JS.LF]).
  { unfold ends_with_newline in Hend. destruct (fs !! path); [done | by left]. }
  assert (Hcover : forall v, v ∈ ids ->
            v ∈ readExistingVideoIds fs path \/ v ∈ new).
  { intros v Hv.
    destruct (keep_first_cover id ids (readExistingVideoIds fs path) v Hv) as [Hc|Hc].
    - by left.
    - right. by rewrite list_fmap_id in Hc. }
  cbn [snd]. destruct (bool_decide (new = [])) eqn:E.
  - apply bool_decide_eq_true in E.
    split; [exists []; by rewrite app_nil_r|]. split; [done|]. split; [done|].
    split; [|done]. intros v Hv _. destruct (Hcover v Hv) as [Hc|Hc]; [done|].
    rewrite E in Hc. by apply elem_of_nil in Hc.
  - rewrite !readExistingVideoIds_content. rewrite lookup_insert_eq. cbn [default].
    split; [by eexists|]. split.
    { unfold ends_with_newline. rewrite lookup_insert_eq. right.
      destruct (ledger_lines_end wt ts new) as [Hnil | (before & Hb)].
      - apply ledger_lines_nil in Hnil. apply bool_decide_eq_false in E. done.
      - exists (default [] (fs !! path) ++ before). by rewrite Hb, app_assoc. }
    split; [intros v Hv; by apply video_ids_of_content_app|].
    split; [|intros p Hp; by apply lookup_insert_ne].
    intros v Hv Hvalid. destruct (Hcover v Hv) as [Hc|Hc].
    + rewrite readExistingVideoIds_content in Hc.
      by apply video_ids_of_content_app.
    + by apply video_ids_of_content_appended.
Qed.

Lemma appendNewLiveLinks_keeps_ledger_readable_witness :
  ends_with_newline example_ledger example_ledger_path
  /\ str "bbbbbbbbbbb"
     ∈ readExistingVideoIds
         (appendNewLiveLinks example_ledger example_ledger_path
            [str "bbbbbbbbbbb"] true example_timestamp).2 example_ledger_path.
Proof.
  assert (Hend : ends_with_newline example_ledger example_ledger_path).
  { unfold ends_with_newline, example_ledger. rewrite lookup_singleton_eq.
    right. by eexists. }
  split; [exact Hend|].
  destruct (appendNewLiveLinks_keeps_ledger_readable example_ledger
              example_ledger_path [str "bbbbbbbbbbb"] true example_timestamp Hend)
    as (_ & _ & _ & Hread & _).
  apply Hread; [set_solver | reflexivity].
Defined.

(** ** Access tokens across calls *)

Section TokenCalls.
Context {W : Type} `{Remote W}.

(** What a successful call leaves in the [oauth] record of the run state:
    the token it returned, cached. *)
Lemma getYouTubeAccessToken_caches (oauth : OauthConfig) (st : State W) o accessToken :
  nonempty (oauth_accessToken oauth) = None ->
  oauthState st = Some o ->
  (getYouTubeAccessToken oauth st).1 = Ok accessToken ->
  exists o1, oauthState (getYouTubeAccessToken oauth st).2 = Some o1
    /\ cached_accessToken o1 = Some accessToken /\ accessToken <> [].
Proof.
  intros Hext Ho. rewrite (getYouTubeAccessToken_run oauth st Hext). cbv zeta.
  rewrite Ho. cbn [mbind option_bind].
  unfold cached_token_if_fresh.
  destruct (nonempty (cached_accessToken o)) as [t|] eqn:Et.
  - destruct (60000 <? _)%Z.
    + cbn. intros [= <-]. apply nonempty_Some in Et as [Et Hne]. by exists o.
    + unfold bind.
      pose proof (refreshAccessToken_trace oauth
                    (set_world (clock_now (world st)).2 st)) as Href.
      destruct (refreshAccessToken oauth _) as [[[t' e]|?|] st2] eqn:Er;
        cbn [fst snd]; try done.
      destruct (nonempty (oauth_clientId oauth)); [|by destruct Href as [[? ?] _]].
      destruct (nonempty (oauth_clientSecret oauth)); [|by destruct Href as [[? ?] _]].
      destruct (nonempty (oauth_refreshToken oauth)); [|by destruct Href as [[? ?] _]].
      destruct Href as (ok & _ & Hoauth & Hreply). cbn [fst snd] in *.
      destruct (Hreply t' e eq_refl) as (_ & _ & _ & _ & Hne & _).
      unfold cache_access_token. rewrite Hoauth. cbn [set_world oauthState].
      rewrite Ho. cbn. intros [= <-]. by eexists.
  - unfold bind.
    pose proof (refreshAccessToken_trace oauth
                  (set_world (clock_now (world st)).2 st)) as Href.
    destruct (refreshAccessToken oauth _) as [[[t' e]|?|] st2] eqn:Er;
      cbn [fst snd]; try done.
    destruct (nonempty (oauth_clientId oauth)); [|by destruct Href as [[? ?] _]].
    destruct (nonempty (oauth_clientSecret oauth)); [|by destruct Href as [[? ?] _]].
    destruct (nonempty (oauth_refreshToken oauth)); [|by destruct Href as [[? ?] _]].
    destruct Href as (ok & _ & Hoauth & Hreply). cbn [fst snd] in *.
    destruct (Hreply t' e eq_refl) as (_ & _ & _ & _ & Hne & _).
    unfold cache_access_token. rewrite Hoauth. cbn [set_world oauthState].
    rewrite Ho. cbn. intros [= <-]. by eexists.
Qed.

(** X4.  A token that [getYouTubeAccessToken] returned is reused by the
    next call: when the run state has an [oauth] record and no access
    token is supplied from outside, then after a successful call the
    record holds the returned token, and a second call at a time when
    strictly more than 60 seconds remain before the recorded expiry returns
    the same token without any remote call and leaves the record as it
    is. *)
Theorem getYouTubeAccessToken_reuses_own_token
  (oauth : OauthConfig) (st : State W) (o : OauthState) (accessToken : jstring) :
  nonempty (oauth_accessToken oauth) = None ->
  oauthState st = Some o ->
  (getYouTubeAccessToken oauth st).1 = Ok accessToken ->
  let st1 := (getYouTubeAccessToken oauth st).2 in
  let now2 := (clock_now (world st1)).1 in
  exists o1,
    oauthState st1 = Some o1
    /\ cached_accessToken o1 = Some accessToken
    /\ ((60000 < cached_expiresAtMs o1 - now2)%Z ->
        (getYouTubeAccessToken oauth st1).1 = Ok accessToken
        /\ trace (getYouTubeAccessToken oauth st1).2 = trace st1
        /\ files (getYouTubeAccessToken oauth st1).2 = files st1
        /\ oauthState (getYouTubeAccessToken oauth st1).2 = Some o1).
Proof.
  intros Hext Ho Hok st1 now2.
  destruct (getYouTubeAccessToken_caches oauth st o accessToken Hext Ho Hok)
    as (o1 & Ho1 & Ht1 & Hne).
  fold st1 in Ho1. exists o1. split; [done|]. split; [done|].
  intros Hfresh. rewrite (getYouTubeAccessToken_run oauth st1 Hext). cbv zeta.
  fold now2. rewrite Ho1. cbn [mbind option_bind]. unfold cached_token_if_fresh.
  rewrite Ht1.
  assert (En : nonempty (Some accessToken) = Some accessToken)
    by (by destruct accessToken).
  rewrite En. apply Z.ltb_lt in Hfresh. rewrite Hfresh. done.
Qed.

End TokenCalls.

Lemma getYouTubeAccessToken_reuses_own_token_witness :
  let st1 := (getYouTubeAccessToken example_refresh_oauth example_stale_state).2 in
  nonempty (oauth_accessToken example_refresh_oauth) = None
  /\ (getYouTubeAccessToken example_refresh_oauth example_stale_state).1
     = Ok (str "new-token")
  /\ (getYouTubeAccessToken example_refresh_oauth st1).1 = Ok (str "new-token")
  /\ trace (getYouTubeAccessToken example_refresh_oauth st1).2 = trace st1.
Proof.
  intros st1.
  assert (Hok : (getYouTubeAccessToken example_refresh_oauth example_stale_state).1
                = Ok (str "new-token")) by reflexivity.
  split; [reflexivity|]. split; [exact Hok|].
  destruct (getYouTubeAccessToken_reuses_own_token example_refresh_oauth
              example_stale_state _ (str "new-token") eq_refl eq_refl Hok)
    as (o1 & Ho1 & _ & Hreuse).
  assert (Eo : o1 = {| cached_accessToken := Some (str "new-token");
                       cached_expiresAtMs := 3700000 |}).
  { assert (E : oauthState
                  (getYouTubeAccessToken example_refresh_oauth example_stale_state).2
                = Some {| cached_accessToken := Some (str "new-token");
                          cached_expiresAtMs := 3700000 |}) by reflexivity.
    rewrite E in Ho1. by injection Ho1 as <-. }
  subst o1.
  destruct Hreuse as (H1 & H2 & _); [by vm_compute|]. by split.
Defined.

(** ** Acquiring a token without a refresh token *)

Section TokenAuto.
Context {W : Type} `{Remote W}.

Lemma getYouTubeAccessTokenAuto_run oauth autoSetup (st : State W) :
  nonempty (oauth_accessToken oauth) = None ->
  (forall token, ~ cached_token_fresh st token) ->
  nonempty (oauth_refreshToken oauth) = None ->
  getYouTubeAccessTokenAuto oauth autoSetup st
  = let now := (clock_now (world st)).1 in
    let st1 := set_world (clock_now (world st)).2 st in
    if bool_decide (nonempty (oauth_clientId oauth) = None)
       || bool_decide (nonempty (oauth_clientSecret oauth) = None)
    then (Throw (str "Missing OAuth client. Set YOUTUBE_OAUTH_CLIENT_ID and YOUTUBE_OAUTH_CLIENT_SECRET, then run --oauth-setup (or run once interactively with playlist saving enabled)."), st1)
    else if negb autoSetup
    then (Throw (str "Missing OAuth refresh token. Run --oauth-setup once (interactive), or set YOUTUBE_OAUTH_REFRESH_TOKEN."), st1)
    else
      (obtained <- net CallTokenInteractive (remote_tokenInteractive oauth) ;;
       let '(refreshToken, accessToken, expiresInSeconds) := obtained in
       match nonempty (oauth_tokenFilePath oauth) with
       | Some tokenFilePath =>
           writeOauthRefreshTokenToFile tokenFilePath refreshToken
       | None => ret tt
       end ;;;
       cache_access_token accessToken now expiresInSeconds ;;;
       ret accessToken) st1.
Proof.
  intros Hext Hstale Hrefresh. unfold getYouTubeAccessTokenAuto.
  rewrite Hext, Hrefresh. rewrite bind_get_state. unfold bind at 1. unfold ask.
  destruct (clock_now (world st)) as [now w1] eqn:Eclock. cbn [fst snd].
  destruct (oauthState st ≫= _) as [cached|] eqn:Ec.
  { exfalso. apply (Hstale cached). apply cached_token_if_fresh_Some.
    by rewrite Eclock. }
  destruct (bool_decide _ || bool_decide _); [done|].
  by destruct autoSetup.
Qed.

(** X5.  Without an access token from outside, a fresh cached token and a
    refresh token, [getYouTubeAccessTokenAuto] refuses to go on when the
    client ID or the client secret is missing or when interactive setup is
    not allowed: it throws, and it has made no remote call, written no
    file and left the cached token alone. *)
Theorem getYouTubeAccessTokenAuto_refuses_without_credentials
  (oauth : OauthConfig) (autoSetup : bool) (st : State W) :
  nonempty (oauth_accessToken oauth) = None ->
  (forall token, ~ cached_token_fresh st token) ->
  nonempty (oauth_refreshToken oauth) = None ->
  nonempty (oauth_clientId oauth) = None
  \/ nonempty (oauth_clientSecret oauth) = None
  \/ autoSetup = false ->
  let run := getYouTubeAccessTokenAuto oauth autoSetup st in
  (exists message, run.1 = Throw message)
  /\ trace run.2 = trace st
  /\ files run.2 = files st
  /\ oauthState run.2 = oauthState st.
Proof.
  intros Hext Hstale Hrefresh Hmiss run. subst run.
  rewrite getYouTubeAccessTokenAuto_run by done. cbv zeta.
  destruct (bool_decide (nonempty (oauth_clientId oauth) = None)) eqn:E1;
    [cbn [orb fst snd]; split; [by eexists | done]|].
  destruct (bool_decide (nonempty (oauth_clientSecret oauth) = None)) eqn:E2;
    [cbn [orb fst snd]; split; [by eexists | done]|].
  apply bool_decide_eq_false in E1, E2. cbn [orb].
  destruct Hmiss as [? | [? | ->]]; [done | done |].
  cbn [negb fst snd]. split; [by eexists | done].
Qed.

(** X6.  The one-time interactive setup persists what it obtained before
    the token is used: when [getYouTubeAccessTokenAuto] returns a token
    after the interactive exchange, it was that exchange's access token,
    the token file holds the trimmed refresh token (which is not blank),
    and a run state with an [oauth] record caches the access token with
    expiry [now + max(60000, ttl * 1000)]; the interactive exchange is the
    only remote call. *)
Theorem getYouTubeAccessTokenAuto_setup_persists
  (oauth : OauthConfig) (st : State W) (accessToken : jstring) :
  nonempty (oauth_accessToken oauth) = None ->
  (forall token, ~ cached_token_fresh st token) ->
  nonempty (oauth_refreshToken oauth) = None ->
  let run := getYouTubeAccessTokenAuto oauth true st in
  let now := (clock_now (world st)).1 in
  run.1 = Ok accessToken ->
  exists refreshToken expiresInSeconds w',
    remote_tokenInteractive oauth (clock_now (world st)).2
    = (Reply (refreshToken, accessToken, expiresInSeconds), w')
    /\ (exists tail,
          trace run.2 = trace st ++ Net CallTokenInteractive true :: tail
          /\ Forall (fun e => is_net_event e = false) tail)
    /\ (forall tokenFilePath,
          nonempty (oauth_tokenFilePath oauth) = Some tokenFilePath ->
          JS.trim refreshToken <> []
          /\ exists updated_at,
               files run.2 !! tokenFilePath
               = Some (token_file_text (JS.trim refreshToken) updated_at))
    /\ (forall o, oauthState st = Some o ->
          oauthState run.2
          = Some {| cached_accessToken := Some accessToken;
                    cached_expiresAtMs := now + ttl_ms expiresInSeconds |}).
Proof.
  intros Hext Hstale Hrefresh run now. subst run.
  rewrite getYouTubeAccessTokenAuto_run by done. cbv zeta. fold now.
  destruct (bool_decide _ || bool_decide _); [done|]. cbn [negb].
  set (st1 := set_world (clock_now (world st)).2 st).
  assert (Hw : world st1 = (clock_now (world st)).2) by done.
  destruct (remote_tokenInteractive oauth (clock_now (world st)).2)
    as [[[[refreshToken accessToken'] expiresIn]|message] w'] eqn:Er.
  2:{ rewrite <- Hw in Er. by rewrite (bind_throw _ _ _ _ _ (net_fail _ _ _ _ _ Er)). }
  rewrite <- Hw in Er. rewrite (bind_ok _ _ _ _ _ (net_reply _ _ _ _ _ Er)).
  rewrite Hw in Er.
  set (st2 := recorded (Net CallTokenInteractive true) w' st1).
  assert (Hcache : forall st3 : State W,
    oauthState st3 = oauthState st ->
    (cache_access_token accessToken' now expiresIn ;;; ret accessToken') st3
    = (Ok accessToken',
       match oauthState st with
       | Some _ =>
           set_oauthState
             (Some {| cached_accessToken := Some accessToken';
                      cached_expiresAtMs := now + ttl_ms expiresIn |}) st3
       | None => st3
       end)).
  { intros st3 Ho. unfold bind, cache_access_token, ret. rewrite Ho.
    by destruct (oauthState st). }
  destruct (nonempty (oauth_tokenFilePath oauth)) as [tokenFilePath|] eqn:Ef.
  - unfold writeOauthRefreshTokenToFile.
    destruct (bool_decide (JS.trim refreshToken = [])) eqn:Et; [done|].
    apply bool_decide_eq_false in Et.
    rewrite (bind_ok _ _ st2 _ tt
               (bind_ok _ _ st2 _ _ (ask_run clock_timestamp st2))).
    rewrite Hcache by done. cbn [fst snd]. intros [= <-].
    exists refreshToken, expiresIn, w'. split; [done|]. split.
    { exists [WroteFile tokenFilePath
                (token_file_text (JS.trim refreshToken) (clock_timestamp w').1)].
      split; [|by repeat constructor].
      destruct (oauthState st); cbn; by rewrite <- app_assoc. }
    split.
    { intros p [= <-]. split; [done|]. eexists.
      destruct (oauthState st); cbn; apply lookup_insert_eq. }
    intros o Ho. by rewrite Ho.
  - rewrite (bind_ok _ _ st2 st2 tt) by done.
    rewrite Hcache by done. cbn [fst snd]. intros [= <-].
    exists refreshToken, expiresIn, w'. split; [done|]. split.
    { exists []. split; [|done]. by destruct (oauthState st). }
    split; [done|]. intros o Ho. by rewrite Ho.
Qed.

End TokenAuto.

Lemma initial_state_not_fresh {W : Type} `{Remote W} fs (w : W) token :
  ~ cached_token_fresh (initial_state fs w) token.
Proof. by intros (o & [= <-] & Ht & _). Qed.

Lemma getYouTubeAccessTokenAuto_refuses_without_credentials_witness :
  let st := initial_state (∅ : filesystem) example_setup_world in
  nonempty (oauth_accessToken example_setup_oauth) = None
  /\ nonempty (oauth_refreshToken example_setup_oauth) = None
  /\ trace (getYouTubeAccessTokenAuto example_setup_oauth false st).2 = trace st.
Proof.
  intros st. split; [reflexivity|]. split; [reflexivity|].
  exact (proj1 (proj2
           (getYouTubeAccessTokenAuto_refuses_without_credentials
              example_setup_oauth false st eq_refl
              (initial_state_not_fresh ∅ example_setup_world) eq_refl
              (or_intror (or_intror eq_refl))))).
Defined.

Lemma getYouTubeAccessTokenAuto_setup_persists_witness :
  let st := initial_state (∅ : filesystem) example_setup_world in
  let run := getYouTubeAccessTokenAuto example_setup_oauth true st in
  nonempty (oauth_accessToken example_setup_oauth) = None
  /\ nonempty (oauth_refreshToken example_setup_oauth) = None
  /\ run.1 = Ok (str "access-1")
  /\ exists updated_at,
       files run.2 !! str ".youtube_oauth_tokens.json"
       = Some (token_file_text (str "refresh-1") updated_at).
Proof.
  intros st run.
  assert (Hok : run.1 = Ok (str "access-1")) by reflexivity.
  split; [reflexivity|]. split; [reflexivity|]. split; [exact Hok|].
  destruct (getYouTubeAccessTokenAuto_setup_persists example_setup_oauth st
              (str "access-1") eq_refl
              (initial_state_not_fresh ∅ example_setup_world) eq_refl Hok)
    as (refreshToken & expiresIn & w' & Hreply & _ & Hfile & _).
  injection Hreply as <- <- <-.
  destruct (Hfile (str ".youtube_oauth_tokens.json") eq_refl) as [_ Hf].
  exact Hf.
Defined.

(** ** Batches *)

Section Batches.
Context {W : Type} `{Remote W}.

Lemma results_count (rs : list (jstring * option jstring)) :
  length (List.filter (fun r => bool_decide (r.2 = None)) rs)
  + length (omap (fun r => (fun m => (r.1, m)) <$> r.2) rs)
  = length rs.
Proof.
  induction rs as [|[v [m|]] rs IH]; [done| |]; cbn in *; lia.
Qed.

Lemma requested_insertions_results accessToken playlistId
  (rs : list (jstring * option jstring)) :
  requested_insertions
    (map (fun r => Net (CallInsert accessToken playlistId r.1)
                     (bool_decide (r.2 = None))) rs)
  = map fst rs.
Proof. induction rs as [|r rs IH]; [done|]. cbn. by f_equal. Qed.

(** X7.  [addVideoIdsToPlaylist] accounts for every ID: it never throws,
    requests exactly one insertion per distinct non-blank ID, in order and
    whatever the outcome of the ones before; [addedCount] and the number of
    failures add up to the number of these IDs; the failures are the IDs
    whose insertion did not succeed; and no file is touched. *)
Theorem addVideoIdsToPlaylist_accounts_for_every_id
  (accessToken playlistId : jstring) (videoIds : list jstring) (st : State W) :
  let ids := uniqueExactStrings videoIds in
  let run := addVideoIdsToPlaylist accessToken playlistId videoIds st in
  let events := new_events st run.2 in
  exists addedCount failures,
    run.1 = Ok (addedCount, failures)
    /\ trace run.2 = trace st ++ events
    /\ requested_insertions events = ids
    /\ length events = length ids
    /\ addedCount + length failures = length ids
    /\ addedCount = length (List.filter (inserted_ok events) ids)
    /\ (forall id, id ∈ map fst failures <->
                   id ∈ ids /\ inserted_ok events id = false)
    /\ files run.2 = files st.
Proof.
  intros ids run events. subst run events. unfold addVideoIdsToPlaylist.
  fold ids.
  destruct (addVideoIdsToPlaylist_loop_spec accessToken playlistId ids 0 [] st)
    as (rs & Hrs & Hout & Hfiles & Htrace).
  destruct (addVideoIdsToPlaylist_loop accessToken playlistId ids 0 [] st)
    as [o st']; cbn [fst snd] in *. subst o.
  rewrite (new_events_app _ _ _ Htrace).
  set (ins := map (fun r => Net (CallInsert accessToken playlistId r.1)
                               (bool_decide (r.2 = None))) rs).
  assert (Hnd : NoDup (map fst rs)) by (rewrite Hrs; apply uniqueExactStrings_NoDup).
  assert (Hfail : forall id, id ∈ ids ->
            JS.Set_has (map fst (omap (fun r => (fun m => (r.1, m)) <$> r.2) rs)) id
            = negb (inserted_ok ins id)).
  { intros id Hid. apply failed_iff_not_inserted; [done | by rewrite Hrs]. }
  eexists _, _. split; [reflexivity|]. split; [done|].
  split; [unfold ins; by rewrite requested_insertions_results|].
  split; [unfold ins; by rewrite length_map, <- Hrs, length_map|].
  cbn [app]. split; [rewrite <- Hrs, length_map; apply results_count|].
  split.
  - cbn [Nat.add]. rewrite <- Hrs. clear Hfail. revert Hnd.
    unfold ins. clear. induction rs as [|[v m] rs IH]; [done|].
    intros Hnd. cbn [map fst] in Hnd. apply NoDup_cons in Hnd as [Hv Hnd].
    cbn [List.filter map fst snd].
    assert (Ehead : inserted_ok
              (Net (CallInsert accessToken playlistId v) (bool_decide (m = None))
               :: map (fun r => Net (CallInsert accessToken playlistId r.1)
                                  (bool_decide (r.2 = None))) rs) v
            = bool_decide (m = None)).
    { cbn [inserted_ok existsb].
      destruct (bool_decide (m = None)) eqn:Em.
      - by rewrite bool_decide_eq_true_2.
      - cbn [orb]. apply not_true_is_false. intros Hin.
        apply inserted_ok_results in Hin.
        apply Hv. change (map fst rs) with (fst <$> rs).
        apply list_elem_of_fmap. by exists (v, None). }
    rewrite Ehead.
    assert (Etail : List.filter
              (inserted_ok
                 (Net (CallInsert accessToken playlistId v) (bool_decide (m = None))
                  :: map (fun r => Net (CallInsert accessToken playlistId r.1)
                                     (bool_decide (r.2 = None))) rs)) (map fst rs)
            = List.filter
                (inserted_ok
                   (map (fun r => Net (CallInsert accessToken playlistId r.1)
                                    (bool_decide (r.2 = None))) rs)) (map fst rs)).
    { apply filter_ext_in. intros x Hx. cbn [inserted_ok existsb].
      destruct (bool_decide (m = None)); [|done].
      rewrite bool_decide_eq_false_2; [done|]. intros ->.
      by apply Hv, list_elem_of_In. }
    rewrite Etail. destruct (bool_decide (m = None)); cbn [length]; by rewrite IH.
  - split; [|done]. intros id. split.
    + intros Hin.
      assert (Hid : id ∈ ids).
      { rewrite <- Hrs. apply elem_of_failed in Hin as [m Hm].
        change (map fst rs) with (fst <$> rs). apply list_elem_of_fmap.
        by exists (id, Some m). }
      split; [done|]. apply Set_has_true in Hin. rewrite (Hfail id Hid) in Hin.
      by apply negb_true_iff in Hin.
    + intros [Hid Hno]. apply Set_has_true. rewrite (Hfail id Hid).
      by rewrite Hno.
Qed.

Lemma take_NoDup {A} (n : nat) (l : list A) : NoDup l -> NoDup (take n l).
Proof. intros Hnd. eapply sublist_NoDup; [done | apply sublist_take]. Qed.

(** X8.  [filterCurrentlyLiveVideoIds] asks about one batch at most: with
    no non-blank ID it returns the empty list without any remote call;
    otherwise it makes exactly one call, for the first 50 distinct IDs at
    most; when that call fails, its error is thrown; and what it returns
    holds no duplicate and no blank ID.  It touches no file. *)
Theorem filterCurrentlyLiveVideoIds_one_batch
  (videoIds : list jstring) (st : State W) :
  let ids := take 50 (uniqueExactStrings videoIds) in
  let run := filterCurrentlyLiveVideoIds videoIds st in
  length ids <= 50 /\ NoDup ids
  /\ (forall id, id ∈ ids -> id ∈ uniqueExactStrings videoIds)
  /\ (uniqueExactStrings videoIds = [] -> run = (Ok [], st))
  /\ (uniqueExactStrings videoIds <> [] ->
      exists ok, trace run.2 = trace st ++ [Net (CallVideos ids) ok]
        /\ (ok = false <->
            exists message w,
              remote_videos ids (world st) = (Fail message, w)
              /\ run.1 = Throw message))
  /\ (forall liveIds, run.1 = Ok liveIds ->
        NoDup liveIds /\ forall id, id ∈ liveIds -> id <> [])
  /\ files run.2 = files st.
Proof.
  intros ids run. subst run.
  split; [unfold ids; rewrite length_take; lia|].
  split; [apply take_NoDup, uniqueExactStrings_NoDup|].
  split; [intros id Hid; eapply elem_of_sublist; [exact Hid | apply sublist_take]|].
  unfold filterCurrentlyLiveVideoIds. fold ids.
  destruct (decide (uniqueExactStrings videoIds = [])) as [E | E].
  - assert (Eids : ids = []) by (unfold ids; by rewrite E).
    rewrite Eids. cbn [bool_decide]. rewrite bool_decide_eq_true_2 by done.
    split; [done|]. split; [done|]. split; [|done].
    intros liveIds [= <-]. split; [constructor | by intros id Hid%elem_of_nil].
  - assert (Eids : ids <> []).
    { unfold ids. destruct (uniqueExactStrings videoIds); done. }
    rewrite bool_decide_eq_false_2 by done.
    split; [done|].
    destruct (remote_videos ids (world st)) as [[data|message] w] eqn:Er.
    + rewrite (bind_ok _ _ _ _ _ (net_reply _ _ _ _ _ Er)).
      destruct (Js.nullish data) eqn:Enull.
      * rewrite (bind_throw _ _ _ _ _ (member_throw _ _ _ Enull)). cbn [fst snd].
        split.
        { intros _. exists true. split; [done|]. split; [done|].
          by intros (m & w0 & [=] & _). }
        split; [done | done].
      * rewrite (bind_ok _ _ _ _ _ (member_ok _ _ _ Enull)). cbn [ret fst snd].
        split.
        { intros _. exists true. split; [done|]. split; [done|].
          by intros (m & w0 & [=] & _). }
        split; [|done]. intros liveIds [= <-].
        split; [apply uniqueExactStrings_NoDup|].
        by intros id (Hne & _)%elem_of_uniqueExactStrings.
    + rewrite (bind_throw _ _ _ _ _ (net_fail _ _ _ _ _ Er)). cbn [fst snd].
      split.
      { intros _. exists false. split; [done|]. split; [|done].
        intros _. by exists message, w. }
      split; [done | done].
Qed.

End Batches.

(** ** The playlist listing *)

Lemma fold_page_items items ids :
  fold_left (fun ids item =>
               match item_contentVideoId item with
               | Some videoId => JS.Set_add videoId ids
               | None => ids
               end) items ids
  = add_all (omap item_contentVideoId items) ids.
Proof.
  revert ids. induction items as [|item items IH]; intros ids; [done|].
  cbn [fold_left omap list_omap]. rewrite IH.
  by destruct (item_contentVideoId item).
Qed.

Section Listing.
Context {W : Type} `{Remote W}.

Lemma fetchPlaylistVideoIdSet_loop_listing accessToken playlistId pageToken
  (w : W) pages w' :
  listing accessToken playlistId pageToken w pages w' ->
  forall fuel ids (st : State W),
    world st = w -> length pages <= fuel ->
    exists st',
      fetchPlaylistVideoIdSet_loop fuel accessToken playlistId pageToken ids st
      = (Ok (add_all (concat (map page_video_ids pages)) ids), st')
      /\ world st' = w'
      /\ trace st' = trace st ++ listing_calls accessToken playlistId pageToken pages
      /\ files st' = files st /\ oauthState st' = oauthState st.
Proof.
  induction 1 as [pageToken w data w' Hreply Hnull Hlast
                 |pageToken w data w1 nextToken rest w' Hreply Hnull Hnext Hrest IH];
    intros fuel ids st Hw Hfuel.
  - destruct fuel as [|fuel]; [cbn in Hfuel; lia|].
    cbn [fetchPlaylistVideoIdSet_loop]. rewrite <- Hw in Hreply.
    rewrite (bind_ok _ _ _ _ _ (net_reply _ _ _ _ _ Hreply)).
    rewrite (bind_ok _ _ _ _ _ (member_ok _ _ _ Hnull)).
    rewrite (bind_ok _ _ _ _ _ (member_ok _ _ _ Hnull)).
    fold (next_page_token data). rewrite Hlast. eexists. split.
    { cbn [map concat]. rewrite app_nil_r. by rewrite fold_page_items. }
    done.
  - destruct fuel as [|fuel]; [cbn in Hfuel; lia|].
    cbn [fetchPlaylistVideoIdSet_loop]. rewrite <- Hw in Hreply.
    rewrite (bind_ok _ _ _ _ _ (net_reply _ _ _ _ _ Hreply)).
    rewrite (bind_ok _ _ _ _ _ (member_ok _ _ _ Hnull)).
    rewrite (bind_ok _ _ _ _ _ (member_ok _ _ _ Hnull)).
    fold (next_page_token data). rewrite Hnext.
    destruct (IH fuel
                (fold_left (fun ids item =>
                              match item_contentVideoId item with
                              | Some videoId => JS.Set_add videoId ids
                              | None => ids
                              end)
                   (Js.array_or_empty (Js.get data (str "items"))) ids)
                (recorded
                   (Net (CallPlaylistItems accessToken playlistId pageToken) true)
                   w1 st) eq_refl)
      as (st' & Hrun & Hw' & Htrace & Hfiles & Hoauth);
      [cbn in Hfuel; lia|].
    exists st'. rewrite Hrun. split.
    { cbn [map concat]. by rewrite add_all_app, fold_page_items. }
    split; [done|]. split; [|done].
    rewrite Htrace. cbn [recorded trace listing_calls]. rewrite Hnext.
    by rewrite <- app_assoc.
Qed.

Lemma fetchPlaylistVideoIdSet_loop_pages fuel accessToken playlistId pageToken
  ids (st st' : State W) out :
  fetchPlaylistVideoIdSet_loop fuel accessToken playlistId pageToken ids st
  = (Ok out, st') ->
  exists pages,
    listing accessToken playlistId pageToken (world st) pages (world st')
    /\ length pages <= fuel.
Proof.
  revert pageToken ids st. induction fuel as [|fuel IH]; intros pageToken ids st;
    [done|].
  cbn [fetchPlaylistVideoIdSet_loop].
  destruct (remote_playlistItems accessToken playlistId pageToken (world st))
    as [[data|message] w1] eqn:Hreply.
  2:{ by rewrite (bind_throw _ _ _ _ _ (net_fail _ _ _ _ _ Hreply)). }
  rewrite (bind_ok _ _ _ _ _ (net_reply _ _ _ _ _ Hreply)).
  destruct (Js.nullish data) eqn:Hnull.
  { by rewrite (bind_throw _ _ _ _ _ (member_throw _ _ _ Hnull)). }
  rewrite (bind_ok _ _ _ _ _ (member_ok _ _ _ Hnull)).
  rewrite (bind_ok _ _ _ _ _ (member_ok _ _ _ Hnull)).
  fold (next_page_token data).
  destruct (next_page_token data) as [nextToken|] eqn:Hnext.
  - intros Hrun. destruct (IH _ _ _ Hrun) as (pages & Hl & Hlen).
    exists (data :: pages). split; [|cbn; lia].
    by eapply listing_next.
  - intros [= <- <-]. exists [data]. split; [|cbn; lia].
    by apply listing_last.
Qed.

(** X9.  [fetchPlaylistVideoIdSet] follows a listing to its end: when the
    service answers a sequence of pages, none of them [null] and each but
    the last naming the next one, the function asks for exactly these
    pages (the first one without a page token, each further one with the
    token the page before named) and returns the video IDs of all of them,
    each once, in the order of their first appearance; items without a
    non-empty string [videoId] are skipped.  No file is touched, and the
    result is the same for every fuel of the page loop with which the
    function returns. *)
Theorem fetchPlaylistVideoIdSet_collects_all_pages
  (fuel : nat) (accessToken playlistId : jstring) (st : State W)
  (pages : list jsval) (w' : W) :
  listing accessToken playlistId None (world st) pages w' ->
  length pages <= fuel ->
  let run := fetchPlaylistVideoIdSet fuel accessToken playlistId st in
  let ids := add_all (concat (map page_video_ids pages)) [] in
  run.1 = Ok ids
  /\ NoDup ids
  /\ (forall id, id ∈ ids <->
                 exists page, page ∈ pages /\ id ∈ page_video_ids page)
  /\ (forall id, id ∈ ids -> id <> [])
  /\ trace run.2 = trace st ++ listing_calls accessToken playlistId None pages
  /\ world run.2 = w'
  /\ files run.2 = files st
  /\ (forall fuel' out st'',
        fetchPlaylistVideoIdSet fuel' accessToken playlistId st = (Ok out, st'') ->
        out = ids).
Proof.
  intros Hlisting Hfuel run ids. subst run. unfold fetchPlaylistVideoIdSet.
  destruct (fetchPlaylistVideoIdSet_loop_listing accessToken playlistId None
              (world st) pages w' Hlisting fuel [] st eq_refl Hfuel)
    as (st' & Hrun & Hw & Htrace & Hfiles & _).
  rewrite Hrun. cbn [fst snd].
  assert (Hmem : forall id, id ∈ ids <->
            exists page, page ∈ pages /\ id ∈ page_video_ids page).
  { intros id. unfold ids. rewrite elem_of_add_all.
    split.
    - intros [Hn%elem_of_nil | Hc]; [done|].
      apply list_elem_of_In, in_concat in Hc as (l & Hl & Hid).
      apply in_map_iff in Hl as (page & <- & Hp).
      exists page. by rewrite !list_elem_of_In.
    - intros (page & Hp & Hid). right. apply list_elem_of_In, in_concat.
      exists (page_video_ids page).
      split; [apply in_map; by apply list_elem_of_In | by apply list_elem_of_In]. }
  split; [done|]. split; [apply add_all_NoDup; constructor|]. split; [done|].
  split.
  { intros id (page & _ & Hid)%Hmem. unfold page_video_ids in Hid.
    apply list_elem_of_omap in Hid as (item & _ & Hitem).
    unfold item_contentVideoId in Hitem.
    destruct (Js.truthy item && _); [|done].
    by apply nonempty_Some in Hitem as [_ ?]. }
  split; [done|]. split; [done|]. split; [done|].
  intros fuel' out st'' Hrun'. unfold fetchPlaylistVideoIdSet in Hrun'.
  destruct (fetchPlaylistVideoIdSet_loop_pages _ _ _ _ _ _ _ _ Hrun')
    as (pages' & Hlisting' & Hlen').
  destruct (fetchPlaylistVideoIdSet_loop_listing accessToken playlistId None
              (world st) pages' (world st'') Hlisting' fuel' [] st eq_refl Hlen')
    as (st3 & Hrun3 & _).
  rewrite Hrun' in Hrun3. injection Hrun3 as -> _.
  (* the two listings start in the same world, so they are the same *)
  assert (Hsame : forall tok w p1 w1,
            listing accessToken playlistId tok w p1 w1 ->
            forall p2 w2, listing accessToken playlistId tok w p2 w2 -> p1 = p2).
  { clear. induction 1 as [tok w data w1 Hr _ Hl | tok w data w1 t rest w2 Hr _ Hn Hrest IH];
      intros p2 w3 H2; inversion H2 as [? ? ? ? Hr' _ Hl' | ? ? ? ? ? ? ? Hr' _ Hn' Hrest'];
      subst; rewrite Hr in Hr'; injection Hr' as <- <-.
    - done.
    - congruence.
    - congruence.
    - f_equal. rewrite Hn in Hn'. injection Hn' as <-. by eapply IH. }
  by rewrite (Hsame _ _ _ _ Hlisting' _ _ Hlisting).
Qed.

End Listing.

Lemma fetchPlaylistVideoIdSet_collects_all_pages_witness :
  let st := initial_state (∅ : filesystem) example_paged_world in
  let run := fetchPlaylistVideoIdSet 5 (str "token") (str "PL1") st in
  (exists w', listing (str "token") (str "PL1") None (world st)
                [example_page_one; example_page_two] w')
  /\ length [example_page_one; example_page_two] <= 5
  /\ run.1 = Ok [str "video000001"; str "video000002"; str "video000003"]
  /\ trace run.2
     = [Net (CallPlaylistItems (str "token") (str "PL1") None) true;
        Net (CallPlaylistItems (str "token") (str "PL1") (Some (str "page-2"))) true].
Proof.
  intros st run.
  assert (Hlisting : listing (str "token") (str "PL1") None (world st)
                       [example_page_one; example_page_two]
                       (script_next_page (script_next_page example_paged_world).2).2).
  { eapply listing_next; [reflexivity | reflexivity | reflexivity |].
    apply listing_last; reflexivity. }
  assert (Hlen : length [example_page_one; example_page_two] <= 5) by (cbn; lia).
  split; [by eexists|]. split; [exact Hlen|].
  destruct (fetchPlaylistVideoIdSet_collects_all_pages 5 (str "token") (str "PL1")
              st _ _ Hlisting Hlen) as (Hout & _ & _ & _ & Htrace & _).
  split; [exact Hout | exact Htrace].
Defined.

(** The listing answers with the body [null]. *)
Example fetchPlaylistVideoIdSet_null_page :
  (fetchPlaylistVideoIdSet 5 (str "token") (str "PL1")
     (initial_state ∅ example_null_world)).1
  = Throw (str "Cannot read properties of null (reading 'items')").
Proof. vm_compute. reflexivity. Qed.

(** ** Whole runs *)

Section Runs.
Context {W : Type} `{Remote W}.

(** What the attempt on one channel does: remote calls of the discovery
    side only, at least one, and no change to the files or to the cached
    token. *)
Lemma discover_channel_effects channelInput (st : State W) :
  let run := discover_channel channelInput st in
  files run.2 = files st /\ oauthState run.2 = oauthState st
  /\ exists events,
       trace run.2 = trace st ++ events
       /\ events <> []
       /\ Forall (fun e => is_discovery_event e = true) events.
Proof.
  intros run. subst run. unfold discover_channel. rewrite bind_get_state.
  destruct (nonempty (channelIdByInput st !! channelInput)) as [channelId|].
  - rewrite (bind_ok _ _ st st channelId) by done.
    destruct (remote_liveVideoIds channelId (world st)) as [[ids|m] w] eqn:E.
    + rewrite (net_reply _ _ _ _ _ E). cbn. split; [done|]. split; [done|].
      eexists. split; [done|]. split; [done|]. by repeat constructor.
    + rewrite (net_fail _ _ _ _ _ E). cbn. split; [done|]. split; [done|].
      eexists. split; [done|]. split; [done|]. by repeat constructor.
  - destruct (remote_resolveChannelId channelInput (world st))
      as [[channelId|m] w] eqn:E.
    + rewrite (bind_ok _ _ st
                 (set_channelIdByInput
                    (<[channelInput := channelId]> (channelIdByInput st))
                    (recorded (Net (CallResolveChannel channelInput) true) w st))
                 channelId).
      2:{ rewrite (bind_ok _ _ _ _ _ (net_reply _ _ _ _ _ E)). done. }
      set (st1 := set_channelIdByInput _ _).
      destruct (remote_liveVideoIds channelId (world st1)) as [[ids|m] w1] eqn:E1.
      * rewrite (net_reply _ _ _ _ _ E1). cbn. split; [done|]. split; [done|].
        eexists. rewrite <- app_assoc. split; [done|]. split; [done|].
        by repeat constructor.
      * rewrite (net_fail _ _ _ _ _ E1). cbn. split; [done|]. split; [done|].
        eexists. rewrite <- app_assoc. split; [done|]. split; [done|].
        by repeat constructor.
    + rewrite (bind_throw _ _ st
                 (recorded (Net (CallResolveChannel channelInput) false) w st) m).
      2:{ by rewrite (bind_throw _ _ _ _ _ (net_fail _ _ _ _ _ E)). }
      cbn. split; [done|]. split; [done|].
      eexists. split; [done|]. split; [done|]. by repeat constructor.
Qed.

Lemma channel_loop_effects count channelInputs all errors (st : State W) :
  let run := channel_loop discover_channel count channelInputs all errors st in
  files run.2 = files st /\ oauthState run.2 = oauthState st
  /\ run.1 <> Diverge
  /\ exists events,
       trace run.2 = trace st ++ events
       /\ Forall (fun e => is_discovery_event e = true) events.
Proof.
  revert all errors st.
  induction channelInputs as [|channelInput rest IH]; intros all errors st.
  - cbn. split; [done|]. split; [done|]. split; [done|]. exists [].
    by rewrite app_nil_r.
  - cbv zeta. rewrite channel_loop_cons.
    destruct (discover_channel_effects channelInput st)
      as (Hf & Ho & events & Ht & _ & Hall).
    pose proof (returns_discover_channel channelInput st) as Hr.
    destruct (discover_channel channelInput st) as [[ids|message|] st1];
      cbn [fst snd] in *; [| |done].
    + destruct (IH (add_all ids all) errors st1) as (Hf' & Ho' & Hr' & ev' & Ht' & Hall').
      split; [congruence|]. split; [congruence|]. split; [done|].
      exists (events ++ ev'). split; [by rewrite Ht', Ht, app_assoc|].
      by apply Forall_app.
    + destruct (bool_decide (count = 1)).
      * cbn. split; [done|]. split; [done|]. split; [done|]. by exists events.
      * destruct (IH all (errors ++ [channel_error channelInput message]) st1)
          as (Hf' & Ho' & Hr' & ev' & Ht' & Hall').
        split; [congruence|]. split; [congruence|]. split; [done|].
        exists (events ++ ev'). split; [by rewrite Ht', Ht, app_assoc|].
        by apply Forall_app.
Qed.

(** The loop ends with an empty list of errors only when every channel
    was attempted with success. *)
Lemma channel_loop_no_errors count channelInputs all errors (st st' : State W) live :
  channel_loop discover_channel count channelInputs all errors st
  = (Ok (live, []), st') ->
  errors = []
  /\ Forall (fun a => exists ids, a.2 = Ok ids)
       (attempt_each discover_channel channelInputs st).1.
Proof.
  revert all errors st.
  induction channelInputs as [|channelInput rest IH]; intros all errors st.
  - cbn. intros [= _ -> _]. by split.
  - rewrite channel_loop_cons. cbn [attempt_each].
    destruct (discover_channel channelInput st) as [[ids|message|] st1]; [| |done].
    + intros Hrun. destruct (IH _ _ _ Hrun) as [-> Hall]. split; [done|].
      destruct (attempt_each discover_channel rest st1) as [os st2].
      cbn [fst] in *. constructor; [by eexists | done].
    + destruct (bool_decide (count = 1)); [done|].
      intros Hrun. destruct (IH _ _ _ Hrun) as [E _].
      by destruct errors.
Qed.

Lemma exit_code_cases errors failures :
  (exit_code errors failures = 0%Z /\ errors = [] /\ failures = [])
  \/ (exit_code errors failures = 1%Z /\ (errors <> [] \/ failures <> [])).
Proof.
  unfold exit_code. destruct errors; destruct failures; cbn; auto.
Qed.

Lemma after_discovery_code cfg fuel live errors (st : State W) code :
  (after_discovery cfg fuel live errors st).1 = Ok code ->
  exists failures, code = exit_code errors failures.
Proof.
  unfold after_discovery, bind.
  destruct (bool_decide (live = [])).
  - destruct (cfg_saveToPlaylist cfg).
    + destruct (playlist_phase cfg fuel [] (cfg_debug cfg) st) as [[f|?|] st1];
        cbn; [|done|done].
      intros [= <-]. by eexists.
    + cbn. intros [= <-]. by eexists.
  - destruct (saveNewLiveLinks _ _ _ st) as [[saved|?|] st1]; cbn; [|done|done].
    destruct (cfg_saveToPlaylist cfg).
    + destruct (playlist_phase cfg fuel _ false st1) as [[f|?|] st2];
        cbn; [|done|done].
      intros [= <-]. by eexists.
    + cbn. intros [= <-]. by eexists.
Qed.

(** X10.  The exit code of [runOnce] tells what happened: it is 2 exactly
    for a configuration that cannot run (no API key, no channel, or
    [scanLatest] outside 1..50), and then nothing at all was done; any
    other run that returns, returns 0 or 1, and 0 only when every
    configured channel was attempted with success. *)
Theorem runOnce_exit_code (cfg : Config) (fuel : nat) (st : State W) :
  let run := runOnce cfg fuel st in
  let unusable :=
    nonempty (cfg_apiKey cfg) = None \/ cfg_channelInputs cfg = []
    \/ ~ (0 < cfg_scanLatest cfg <= 50)%Z in
  (unusable -> run = (Ok 2%Z, st))
  /\ (~ unusable ->
      forall code, run.1 = Ok code ->
        (code = 0%Z \/ code = 1%Z)
        /\ (code = 0%Z ->
            Forall (fun a => exists ids, a.2 = Ok ids)
              (attempt_each discover_channel (cfg_channelInputs cfg) st).1)).
Proof.
  intros run unusable. subst run unusable. unfold runOnce. split.
  - intros [Hk | [Hc | Hs]].
    + by rewrite bool_decide_eq_true_2.
    + destruct (bool_decide (nonempty (cfg_apiKey cfg) = None)); [done|].
      by rewrite bool_decide_eq_true_2.
    + destruct (bool_decide (nonempty (cfg_apiKey cfg) = None)); [done|].
      destruct (bool_decide (cfg_channelInputs cfg = [])); [done|].
      assert (E : (cfg_scanLatest cfg <=? 0)%Z || (50 <? cfg_scanLatest cfg)%Z = true).
      { apply orb_true_iff.
        destruct (Z.leb_spec (cfg_scanLatest cfg) 0); [by left|].
        destruct (Z.ltb_spec 50 (cfg_scanLatest cfg)); [by right|]. lia. }
      by rewrite E.
  - intros Hok code.
    rewrite bool_decide_eq_false_2 by tauto.
    rewrite bool_decide_eq_false_2 by tauto.
    assert (E : (cfg_scanLatest cfg <=? 0)%Z || (50 <? cfg_scanLatest cfg)%Z = false).
    { apply orb_false_intro; [apply Z.leb_gt | apply Z.ltb_ge]; lia. }
    rewrite E. unfold bind.
    destruct (channel_loop discover_channel _ _ [] [] st)
      as [[[live errors]|?|] st1] eqn:Eloop; cbn [fst snd]; [|done|done].
    intros Hcode. apply after_discovery_code in Hcode as [failures ->].
    destruct (exit_code_cases errors failures) as [(-> & -> & ->) | [-> Hsome]].
    + split; [by left|]. intros _.
      by destruct (channel_loop_no_errors _ _ _ _ _ _ _ Eloop).
    + split; [by right | done].
Qed.

End Runs.

Section RunFiles.
Context {W : Type} `{Remote W}.

(** [appendNewLiveLinks] as a step of a run returns, and either leaves
    everything as it is or appends a text that is not empty to the Ledger,
    once. *)
Lemma saveNewLiveLinks_effects outputPath videoIds withTimestamp (st : State W) :
  let run := saveNewLiveLinks outputPath videoIds withTimestamp st in
  (exists saved, run.1 = Ok saved)
  /\ oauthState run.2 = oauthState st
  /\ ((files run.2 = files st /\ trace run.2 = trace st)
      \/ exists text, text <> []
           /\ files run.2 = appendFileSync (files st) outputPath text
           /\ trace run.2 = trace st ++ [AppendedFile outputPath text]).
Proof.
  intros run. subst run. unfold saveNewLiveLinks.
  destruct (bool_decide (videoIds = [])).
  { cbn. split; [by eexists|]. split; [done|]. by left. }
  rewrite bind_get_state. cbv beta zeta. unfold bind, ask.
  destruct (clock_timestamp (world st)) as [timestamp w]. cbn [fst snd set_world files].
  destruct (appendNewLiveLinks_loop withTimestamp timestamp videoIds
              (readExistingVideoIds (files st) outputPath) [] [] [])
    as [[buffer ids] urls].
  destruct (bool_decide (buffer = [])) eqn:E;
    cbn [ret fst snd appendFile files trace oauthState].
  - split; [by eexists|]. split; [done|]. by left.
  - split; [by eexists|]. split; [done|]. right. exists buffer.
    apply bool_decide_eq_false in E. by repeat split.
Qed.

Lemma runOnce_usable cfg fuel (st : State W) :
  runOnce cfg fuel st = (Ok 2%Z, st)
  \/ runOnce cfg fuel st
     = bind (channel_loop discover_channel (length (cfg_channelInputs cfg))
               (cfg_channelInputs cfg) [] [])
         (fun found => after_discovery cfg fuel found.1 found.2) st.
Proof.
  unfold runOnce.
  destruct (bool_decide _); [by left|].
  destruct (bool_decide _); [by left|].
  destruct (_ || _); [by left | by right].
Qed.

(** X11.  With playlist saving switched off, a run is the discovery calls
    followed by at most one append to the Ledger: it asks for no token,
    lists and inserts nothing, writes no other file, leaves the cached
    token alone, and comes to an end whatever the fuel. *)
Theorem runOnce_without_playlist_saving (cfg : Config) (fuel : nat) (st : State W) :
  cfg_saveToPlaylist cfg = false ->
  let run := runOnce cfg fuel st in
  run.1 <> Diverge
  /\ oauthState run.2 = oauthState st
  /\ (forall path, path <> cfg_outputPath cfg ->
        files run.2 !! path = files st !! path)
  /\ exists calls appends,
       trace run.2 = trace st ++ calls ++ appends
       /\ Forall (fun e => is_discovery_event e = true) calls
       /\ (appends = []
           \/ exists text,
                text <> [] /\ appends = [AppendedFile (cfg_outputPath cfg) text]).
Proof.
  intros Hoff run. subst run.
  destruct (runOnce_usable cfg fuel st) as [-> | ->].
  { cbn. split; [done|]. split; [done|]. split; [done|].
    exists [], []. rewrite app_nil_r. split; [done|]. split; [done|]. by left. }
  unfold bind.
  destruct (channel_loop_effects (length (cfg_channelInputs cfg))
              (cfg_channelInputs cfg) [] [] st)
    as (Hf & Ho & Hr & calls & Ht & Hcalls).
  destruct (channel_loop discover_channel _ _ [] [] st)
    as [[[live errors]|message|] st1]; cbn [fst snd] in *; [| |done].
  2:{ split; [done|]. split; [done|]. split; [by rewrite Hf|].
      exists calls, []. rewrite app_nil_r. split; [done|]. split; [done|]. by left. }
  unfold after_discovery, bind. rewrite Hoff.
  destruct (bool_decide (live = [])).
  { cbn. split; [done|]. split; [done|]. split; [by rewrite Hf|].
    exists calls, []. rewrite app_nil_r. split; [done|]. split; [done|]. by left. }
  destruct (saveNewLiveLinks_effects (cfg_outputPath cfg) live
              (cfg_withTimestamp cfg) st1) as ([saved Hsaved] & Ho' & Hfiles).
  destruct (saveNewLiveLinks _ _ _ st1) as [o st2]; cbn [fst snd] in *.
  subst o. cbn [ret fst snd].
  split; [done|]. split; [congruence|].
  destruct Hfiles as [[Hf2 Ht2] | (text & Htext & Hf2 & Ht2)].
  - split; [by rewrite Hf2, Hf|].
    exists calls, []. rewrite app_nil_r. split; [congruence|]. split; [done|]. by left.
  - split.
    { intros path Hpath. rewrite Hf2, Hf. unfold appendFileSync.
      by apply lookup_insert_ne. }
    exists calls, [AppendedFile (cfg_outputPath cfg) text].
    split; [by rewrite Ht2, Ht, app_assoc|]. split; [done|]. right. by exists text.
Qed.

(** X12.  A run only ever appends to the Ledger: whatever the mode and the
    outcome, what the Ledger held before is a prefix of what it holds
    after, and a Ledger that was missing is created only together with its
    first line. *)
Theorem runOnce_ledger_append_only (cfg : Config) (fuel : nat) (st : State W) :
  (cfg_saveToPlaylist cfg = true -> paths_distinct cfg) ->
  let run := runOnce cfg fuel st in
  let outputPath := cfg_outputPath cfg in
  files run.2 !! outputPath = files st !! outputPath
  \/ exists text,
       text <> []
       /\ files run.2 !! outputPath
          = Some (default [] (files st !! outputPath) ++ text).
Proof.
  intros Hpaths run outputPath. subst run outputPath.
  destruct (runOnce_usable cfg fuel st) as [-> | ->]; [by left|].
  unfold bind.
  destruct (channel_loop_effects (length (cfg_channelInputs cfg))
              (cfg_channelInputs cfg) [] [] st)
    as (Hf & Ho & Hr & calls & Ht & Hcalls).
  destruct (channel_loop discover_channel _ _ [] [] st)
    as [[[live errors]|message|] st1]; cbn [fst snd] in *; [| |done].
  2:{ left. by rewrite Hf. }
  assert (Hphase : forall newVideoIds ensurePlaylist (st2 : State W),
    files ((playlistFailures <-
              (if cfg_saveToPlaylist cfg
               then playlist_phase cfg fuel newVideoIds ensurePlaylist
               else ret []) ;;
            ret (exit_code errors playlistFailures)) st2).2 !! cfg_outputPath cfg
    = files st2 !! cfg_outputPath cfg).
  { intros newVideoIds ensurePlaylist st2. unfold bind.
    destruct (cfg_saveToPlaylist cfg); [|done].
    destruct (playlist_phase_effects cfg fuel newVideoIds ensurePlaylist st2
                (Hpaths eq_refl)) as (_ & _ & Hout & _).
    by destruct (playlist_phase cfg fuel newVideoIds ensurePlaylist st2)
      as [[?|?|] ?]. }
  unfold after_discovery.
  destruct (bool_decide (live = [])).
  { left. by rewrite Hphase, Hf. }
  assert (Hfinal :
    files ((savedResult <-
              saveNewLiveLinks (cfg_outputPath cfg) live (cfg_withTimestamp cfg) ;;
            playlistFailures <-
              (if cfg_saveToPlaylist cfg
               then playlist_phase cfg fuel (savedVideoIds savedResult) false
               else ret []) ;;
            ret (exit_code errors playlistFailures)) st1).2 !! cfg_outputPath cfg
    = files (saveNewLiveLinks (cfg_outputPath cfg) live (cfg_withTimestamp cfg)
               st1).2 !! cfg_outputPath cfg).
  { unfold bind at 1.
    destruct (saveNewLiveLinks _ _ _ st1) as [[saved|?|] st2]; [|done|done].
    apply Hphase. }
  rewrite Hfinal.
  destruct (saveNewLiveLinks_effects (cfg_outputPath cfg) live
              (cfg_withTimestamp cfg) st1)
    as (_ & _ & [[Hf2 Ht2] | (text & Htext & Hf2 & Ht2)]).
  - left. by rewrite Hf2, Hf.
  - right. exists text. split; [done|]. rewrite Hf2, Hf. unfold appendFileSync.
    by rewrite lookup_insert_eq.
Qed.

End RunFiles.

(** ** A full backfill that reaches the playlist *)

Section Backfill.
Context {W : Type} `{Remote W}.

Lemma requested_insertions_app e1 e2 :
  requested_insertions (e1 ++ e2) = requested_insertions e1 ++ requested_insertions e2.
Proof. unfold requested_insertions. apply omap_app. Qed.

Lemma requested_insertions_other e :
  is_insert_event e = false -> requested_insertions [e] = [].
Proof. by destruct e as [[] ?| | |]. Qed.

(** [requeue_failed] with the order of the requests. *)
Lemma requeue_failed_in_order accessToken playlistId queuePath ids (st : State W) :
  NoDup ids -> Forall (fun x => x <> [] /\ JS.trim x = x) ids ->
  exists result events,
    (addVideoIdsToPlaylist accessToken playlistId ids st).1 = Ok result
    /\ let st5 := (writeVideoIdQueue queuePath (failed_of result.2 ids)
                     (addVideoIdsToPlaylist accessToken playlistId ids st).2).2 in
       (writeVideoIdQueue queuePath (failed_of result.2 ids)
          (addVideoIdsToPlaylist accessToken playlistId ids st).2).1 = Ok tt
       /\ trace st5 = trace st ++ events
       /\ (forall p, p <> queuePath -> files st5 !! p = files st !! p)
       /\ requested_insertions events = ids
       /\ failed_of result.2 ids
          = List.filter (fun id => negb (inserted_ok events id)) ids
       /\ queue_holds (files st5) queuePath
            (List.filter (fun id => negb (inserted_ok events id)) ids).
Proof.
  intros Hnd Hall. unfold addVideoIdsToPlaylist.
  rewrite (uniqueExactStrings_fixed ids Hnd Hall).
  destruct (addVideoIdsToPlaylist_loop_spec accessToken playlistId ids 0 [] st)
    as (rs & Hrs & Hout & Hfiles4 & Htrace4).
  destruct (addVideoIdsToPlaylist_loop accessToken playlistId ids 0 [] st)
    as [o4 st4]; cbn [fst snd] in *. subst o4.
  set (failures := omap (fun r => (fun m => (r.1, m)) <$> r.2) rs) in *.
  set (ins := map (fun r => Net (CallInsert accessToken playlistId r.1)
                               (bool_decide (r.2 = None))) rs) in *.
  destruct (writeVideoIdQueue_spec queuePath (failed_of failures ids) st4)
    as (Hok5 & Hholds5 & Hother5 & e5 & Htrace5 & Hins5 & _ & _).
  eexists _, (ins ++ [e5]). split; [reflexivity|]. cbn [fst snd app].
  fold failures.
  assert (Efilter :
    List.filter (fun id => JS.Set_has (map fst failures) id) ids
    = List.filter (fun id => negb (inserted_ok (ins ++ [e5]) id)) ids).
  { apply filter_ext_in. intros v Hv. rewrite inserted_ok_app.
    assert (E5 : inserted_ok [e5] v = false).
    { cbn. destruct e5 as [[] []| | |]; done. }
    rewrite E5, orb_false_r.
    apply failed_iff_not_inserted; rewrite Hrs; [done | by apply list_elem_of_In]. }
  split; [done|].
  split; [by rewrite Htrace5, Htrace4, <- app_assoc|].
  split; [intros p Hp; by rewrite Hother5, Hfiles4|].
  split.
  { rewrite requested_insertions_app, (requested_insertions_other e5) by done.
    subst ins. by rewrite requested_insertions_results, app_nil_r. }
  split; [done|].
  unfold failed_of in Hholds5.
  rewrite filter_unique_fixed in Hholds5 by done.
  by rewrite <- Efilter.
Qed.

(** X13.  A full backfill that obtains the token, the playlist and its
    listing brings the playlist up to date: it requests one insertion for
    each ID of the desired set (Retry Queue, then Ledger) that the listing
    lacks, in that order, and none else; it reports [synced]; and it
    leaves in the Retry Queue exactly the IDs whose insertion did not
    succeed, removing the file when there is none.  Only when nothing is
    missing and the queue that was read is empty is the queue file left as
    it is.  No other file is written after the listing. *)
Theorem syncOutputFileToPlaylist_backfills_missing
  (cfg : Config) (fuel : nat) (st st1 st2 st3 : State W)
  (accessToken playlistId : jstring) (alreadyInPlaylist : list jstring) :
  let queuePath := cfg_queuePath cfg in
  let existingQueue := readVideoIdQueue (files st) queuePath in
  let desiredIds :=
    uniqueExactStrings
      (existingQueue ++ readExistingVideoIds (files st) (cfg_outputPath cfg)) in
  desiredIds <> [] ->
  getYouTubeAccessTokenAuto (cfg_oauth cfg) (cfg_autoSetup cfg) st
    = (Ok accessToken, st1) ->
  resolveTargetPlaylistId accessToken st1 = (Ok playlistId, st2) ->
  fetchPlaylistVideoIdSet fuel accessToken playlistId st2
    = (Ok alreadyInPlaylist, st3) ->
  let pending := missing_from alreadyInPlaylist desiredIds in
  let run := syncOutputFileToPlaylist cfg fuel st in
  let events := new_events st3 run.2 in
  let remaining := List.filter (fun id => negb (inserted_ok events id)) pending in
  exists result,
    run.1 = Ok result
    /\ res_synced result = Some true
    /\ res_playlistId result = Some playlistId
    /\ res_remainingCount result = length remaining
    /\ trace run.2 = trace st3 ++ events
    /\ requested_insertions events = pending
    /\ (forall p, p <> queuePath -> files run.2 !! p = files st3 !! p)
    /\ (pending = [] /\ existingQueue = [] ->
        files run.2 !! queuePath = files st3 !! queuePath)
    /\ (~ (pending = [] /\ existingQueue = []) ->
        queue_holds (files run.2) queuePath remaining).
Proof.
  intros queuePath existingQueue desiredIds Hdesired Htoken Hplaylist Hlisting
    pending run events remaining.
  subst run events remaining. unfold syncOutputFileToPlaylist.
  rewrite bind_get_state. cbv beta zeta.
  fold queuePath existingQueue desiredIds.
  rewrite bool_decide_eq_false_2 by done.
  unfold try_catch.
  rewrite (bind_ok _ _ _ _ _ Htoken), (bind_ok _ _ _ _ _ Hplaylist),
    (bind_ok _ _ _ _ _ Hlisting).
  fold pending.
  destruct (bool_decide (pending = [])) eqn:Epending.
  - apply bool_decide_eq_true in Epending. rewrite Epending.
    destruct (bool_decide (existingQueue = [])) eqn:Equeue.
    + cbn [bind ret fst snd]. unfold bind, ret. cbn [fst snd].
      eexists. split; [reflexivity|]. cbn.
      unfold new_events. rewrite drop_all. cbn. rewrite app_nil_r.
      apply bool_decide_eq_true in Equeue.
      repeat split; try done. intros Hnot. by destruct Hnot.
    + apply bool_decide_eq_false in Equeue.
      destruct (writeVideoIdQueue_spec queuePath [] st3)
        as (Hok & Hholds & Hother & e & Htrace & Hins & _).
      unfold bind.
      destruct (writeVideoIdQueue queuePath [] st3) as [o st4]; cbn [fst snd] in *.
      subst o. cbn [ret fst snd].
      eexists. split; [reflexivity|]. cbn [res_synced res_playlistId
        res_remainingCount playlist_nothing].
      rewrite (new_events_app _ _ _ Htrace).
      split; [done|]. split; [done|]. split; [done|]. split; [done|].
      split; [by apply requested_insertions_other|].
      split; [done|]. split; [tauto|]. intros _. by cbn.
  - apply bool_decide_eq_false in Epending.
    assert (Hunique : NoDup pending
                      /\ Forall (fun x => x <> [] /\ JS.trim x = x) pending).
    { apply filter_keeps_unique;
        [apply uniqueExactStrings_NoDup | apply uniqueExactStrings_Forall]. }
    destruct Hunique as [Hnd Hall].
    destruct (requeue_failed_in_order accessToken playlistId queuePath pending st3
                Hnd Hall)
      as (result & ev & Hres & Hok & Htrace & Hother & Hreq & Hfailed & Hholds).
    unfold bind.
    destruct (addVideoIdsToPlaylist accessToken playlistId pending st3)
      as [o st4]; cbn [fst snd] in *. subst o.
    destruct (writeVideoIdQueue queuePath (failed_of result.2 pending) st4)
      as [o st5]; cbn [fst snd] in *. subst o. cbn [ret fst snd].
    eexists. split; [reflexivity|]. cbn [res_synced res_playlistId
      res_remainingCount].
    rewrite (new_events_app _ _ _ Htrace).
    split; [done|]. split; [done|]. split; [by rewrite Hfailed|].
    split; [done|]. split; [done|]. split; [done|]. split; [tauto|]. done.
Qed.

End Backfill.

(** ** The memory of channel IDs *)

Section ChannelMemory.
Context {W : Type} `{Remote W}.

Lemma no_discovery_refl (st : State W) : no_discovery st st.
Proof. split; [done|]. exists []. by rewrite app_nil_r. Qed.

Lemma no_discovery_trans (st1 st2 st3 : State W) :
  no_discovery st1 st2 -> no_discovery st2 st3 -> no_discovery st1 st3.
Proof.
  intros [Hf1 (e1 & Ht1 & Ha1)] [Hf2 (e2 & Ht2 & Ha2)]. split; [congruence|].
  exists (e1 ++ e2). split; [by rewrite Ht2, Ht1, app_assoc|].
  by apply Forall_app.
Qed.

Lemma no_discovery_event (st st' : State W) e :
  channelIdByInput st' = channelIdByInput st ->
  trace st' = trace st ++ [e] -> is_discovery_event e = false ->
  no_discovery st st'.
Proof. intros Hm Ht He. split; [done|]. exists [e]. by repeat constructor. Qed.

Lemma keeps_ret {A} (a : A) : keeps_channels (W := W) (ret a).
Proof. intros st. apply no_discovery_refl. Qed.

Lemma keeps_throw {A} message : keeps_channels (W := W) (A := A) (throw message).
Proof. intros st. apply no_discovery_refl. Qed.

Lemma keeps_diverge {A} : keeps_channels (W := W) (A := A) diverge.
Proof. intros st. apply no_discovery_refl. Qed.

Lemma keeps_get_state : keeps_channels (W := W) get_state.
Proof. intros st. apply no_discovery_refl. Qed.

Lemma keeps_member data key : keeps_channels (W := W) (member data key).
Proof. intros st. rewrite member_state. apply no_discovery_refl. Qed.

Lemma keeps_bind {A B} (m : M W A) (k : A -> M W B) :
  keeps_channels m -> (forall a, keeps_channels (k a)) -> keeps_channels (bind m k).
Proof.
  intros Hm Hk st. unfold bind. specialize (Hm st).
  destruct (m st) as [[a|message|] st1]; cbn [snd] in *; [|done|done].
  eapply no_discovery_trans; [exact Hm | apply Hk].
Qed.

Lemma keeps_try_catch {A} (m : M W A) handler :
  keeps_channels m -> (forall message, keeps_channels (handler message)) ->
  keeps_channels (try_catch m handler).
Proof.
  intros Hm Hh st. unfold try_catch. specialize (Hm st).
  destruct (m st) as [[a|message|] st1]; cbn [snd] in *; [done| |done].
  eapply no_discovery_trans; [exact Hm | apply Hh].
Qed.

Lemma keeps_net {A} (c : call) (op : W -> reply A * W) :
  is_discovery_event (Net c true) = false -> keeps_channels (net c op).
Proof.
  intros Hc st. unfold net.
  destruct (op (world st)) as [[a|message] w]; cbn [snd].
  all: eapply no_discovery_event; [done | done |]; by destruct c.
Qed.

Lemma keeps_ask {A} (op : W -> A * W) : keeps_channels (ask op).
Proof.
  intros st. unfold ask. destruct (op (world st)). cbn. split; [done|].
  exists []. by rewrite app_nil_r.
Qed.

Lemma keeps_cache_access_token token now ttl :
  keeps_channels (W := W) (cache_access_token token now ttl).
Proof.
  intros st. unfold cache_access_token.
  destruct (oauthState st); [|apply no_discovery_refl].
  cbn. split; [done|]. exists []. by rewrite app_nil_r.
Qed.

Lemma keeps_writeFileSync path content :
  keeps_channels (W := W) (writeFileSync path content).
Proof. intros st. by eapply no_discovery_event. Qed.

Lemma keeps_unlinkSync_ignore path :
  keeps_channels (W := W) (unlinkSync_ignore path).
Proof. intros st. by eapply no_discovery_event. Qed.

Lemma keeps_appendFile path data : keeps_channels (W := W) (appendFile path data).
Proof. intros st. by eapply no_discovery_event. Qed.

Ltac keeps_step :=
  first
    [ apply keeps_ret | apply keeps_throw | apply keeps_diverge
    | apply keeps_get_state | apply keeps_member | apply keeps_ask
    | apply keeps_cache_access_token
    | apply keeps_writeFileSync | apply keeps_unlinkSync_ignore
    | apply keeps_appendFile
    | apply keeps_net; reflexivity
    | apply keeps_bind; [|intros ?]
    | apply keeps_try_catch; [|intros ?] ].

Lemma keeps_refreshAccessToken oauth :
  keeps_channels (W := W) (refreshAccessToken oauth).
Proof.
  unfold refreshAccessToken.
  destruct (nonempty (oauth_clientId oauth)); [|keeps_step].
  destruct (nonempty (oauth_clientSecret oauth)); [|keeps_step].
  destruct (nonempty (oauth_refreshToken oauth)); [|keeps_step].
  repeat keeps_step. destruct (nonempty _); keeps_step.
Qed.

Lemma keeps_getYouTubeAccessToken oauth :
  keeps_channels (W := W) (getYouTubeAccessToken oauth).
Proof.
  unfold getYouTubeAccessToken.
  destruct (nonempty (oauth_accessToken oauth)); [keeps_step|].
  repeat keeps_step.
  destruct (oauthState _ ≫= _); [keeps_step|].
  apply keeps_bind; [apply keeps_refreshAccessToken|]. intros r.
  repeat keeps_step.
Qed.

Lemma keeps_getYouTubeAccessTokenAuto oauth autoSetup :
  keeps_channels (W := W) (getYouTubeAccessTokenAuto oauth autoSetup).
Proof.
  unfold getYouTubeAccessTokenAuto.
  destruct (nonempty (oauth_accessToken oauth)); [keeps_step|].
  repeat keeps_step.
  destruct (oauthState _ ≫= _); [keeps_step|].
  destruct (nonempty (oauth_refreshToken oauth));
    [apply keeps_getYouTubeAccessToken|].
  destruct (_ || _); [keeps_step|].
  destruct (negb autoSetup); [keeps_step|].
  apply keeps_bind; [by apply keeps_net|]. intros [[rt at_] ttl].
  apply keeps_bind; [|intros ?; repeat keeps_step].
  destruct (nonempty (oauth_tokenFilePath oauth)); [|keeps_step].
  unfold writeOauthRefreshTokenToFile.
  destruct (bool_decide _); repeat keeps_step.
Qed.

Lemma keeps_fetchPlaylistVideoIdSet_loop fuel accessToken playlistId pageToken ids :
  keeps_channels (W := W)
    (fetchPlaylistVideoIdSet_loop fuel accessToken playlistId pageToken ids).
Proof.
  revert pageToken ids. induction fuel as [|fuel IH]; intros pageToken ids.
  - keeps_step.
  - cbn [fetchPlaylistVideoIdSet_loop]. repeat keeps_step.
    destruct (nonempty _); [apply IH | keeps_step].
Qed.

Lemma keeps_addVideoIdsToPlaylist_loop accessToken playlistId ids count failures :
  keeps_channels (W := W)
    (addVideoIdsToPlaylist_loop accessToken playlistId ids count failures).
Proof.
  revert count failures. induction ids as [|v ids IH]; intros count failures.
  - keeps_step.
  - cbn [addVideoIdsToPlaylist_loop]. repeat keeps_step.
    match goal with
    | |- keeps_channels (match ?failed with _ => _ end) => destruct failed
    end; apply IH.
Qed.

Lemma keeps_writeVideoIdQueue queuePath ids :
  keeps_channels (W := W) (writeVideoIdQueue queuePath ids).
Proof. unfold writeVideoIdQueue. destruct (bool_decide _); keeps_step. Qed.

Lemma keeps_flushPlaylistQueue cfg newVideoIds ensurePlaylist :
  keeps_channels (W := W) (flushPlaylistQueue cfg newVideoIds ensurePlaylist).
Proof.
  unfold flushPlaylistQueue. cbv zeta. repeat keeps_step.
  destruct (_ && _).
  - destruct (negb ensurePlaylist); [keeps_step|].
    apply keeps_try_catch; [|intros ?; keeps_step].
    apply keeps_bind; [apply keeps_getYouTubeAccessTokenAuto|]. intros ?.
    unfold resolveTargetPlaylistId. repeat keeps_step.
  - apply keeps_bind; [apply keeps_writeVideoIdQueue|]. intros _.
    destruct (bool_decide _); [keeps_step|].
    apply keeps_try_catch; [|intros ?; keeps_step].
    apply keeps_bind; [apply keeps_getYouTubeAccessTokenAuto|]. intros ?.
    unfold resolveTargetPlaylistId.
    apply keeps_bind; [by apply keeps_net|]. intros ?.
    apply keeps_bind; [apply keeps_addVideoIdsToPlaylist_loop|]. intros ?.
    apply keeps_bind; [apply keeps_writeVideoIdQueue|]. intros _. keeps_step.
Qed.

Lemma keeps_syncOutputFileToPlaylist cfg fuel :
  keeps_channels (W := W) (syncOutputFileToPlaylist cfg fuel).
Proof.
  unfold syncOutputFileToPlaylist. cbv zeta. repeat keeps_step.
  destruct (bool_decide _); [keeps_step|].
  apply keeps_try_catch; [|intros ?; keeps_step].
  apply keeps_bind; [apply keeps_getYouTubeAccessTokenAuto|]. intros ?.
  unfold resolveTargetPlaylistId.
  apply keeps_bind; [by apply keeps_net|]. intros ?.
  apply keeps_bind; [apply keeps_fetchPlaylistVideoIdSet_loop|]. intros ?.
  destruct (bool_decide _).
  - apply keeps_bind; [|intros _; keeps_step].
    destruct (bool_decide _); [keeps_step | apply keeps_writeVideoIdQueue].
  - apply keeps_bind; [apply keeps_addVideoIdsToPlaylist_loop|]. intros ?.
    apply keeps_bind; [apply keeps_writeVideoIdQueue|]. intros _. keeps_step.
Qed.

Lemma keeps_playlist_phase cfg fuel newVideoIds ensurePlaylist :
  keeps_channels (W := W) (playlist_phase cfg fuel newVideoIds ensurePlaylist).
Proof.
  unfold playlist_phase. apply keeps_bind.
  - destruct (needsPlaylistBackfill cfg);
      [apply keeps_syncOutputFileToPlaylist | apply keeps_flushPlaylistQueue].
  - intros result. apply keeps_bind; [|intros _; keeps_step].
    destruct (_ && _); [|keeps_step].
    unfold writePlaylistSyncState. repeat keeps_step.
Qed.

Lemma keeps_saveNewLiveLinks outputPath videoIds withTimestamp :
  keeps_channels (W := W) (saveNewLiveLinks outputPath videoIds withTimestamp).
Proof.
  unfold saveNewLiveLinks. destruct (bool_decide _); [keeps_step|].
  repeat keeps_step.
  destruct (appendNewLiveLinks_loop _ _ _ _ _ _ _) as [[buffer ids] urls].
  apply keeps_bind; [|intros _; keeps_step].
  destruct (bool_decide _); keeps_step.
Qed.

Lemma keeps_after_discovery cfg fuel live errors :
  keeps_channels (W := W) (after_discovery cfg fuel live errors).
Proof.
  unfold after_discovery. destruct (bool_decide _).
  - apply keeps_bind; [|intros ?; keeps_step].
    destruct (cfg_saveToPlaylist cfg); [apply keeps_playlist_phase | keeps_step].
  - apply keeps_bind; [apply keeps_saveNewLiveLinks|]. intros saved.
    apply keeps_bind; [|intros ?; keeps_step].
    destruct (cfg_saveToPlaylist cfg); [apply keeps_playlist_phase | keeps_step].
Qed.

End ChannelMemory.

Section ChannelsOnce.
Context {W : Type} `{Remote W}.

Lemma resolves_unknown_quiet inputs (st st' : State W) :
  no_discovery st st' -> resolves_unknown inputs st st'.
Proof.
  intros [Hm (events & Ht & Hall)]. exists events. split; [done|].
  rewrite Forall_forall in Hall.
  split; [|split].
  - intros input channelId _. split; [by rewrite Hm|].
    intros ok Hin. by apply Hall in Hin.
  - intros input Hne. by rewrite Hm in Hne.
  - intros input ok Hin. by apply Hall in Hin.
Qed.

Lemma resolves_unknown_event inputs (st st' : State W) e :
  channelIdByInput st' = channelIdByInput st ->
  trace st' = trace st ++ [e] ->
  (forall input ok, e <> Net (CallResolveChannel input) ok) ->
  resolves_unknown inputs st st'.
Proof.
  intros Hm Ht He. exists [e]. split; [done|]. split; [|split].
  - intros input channelId _. split; [by rewrite Hm|].
    intros ok Hin%list_elem_of_singleton. by apply (He input ok).
  - intros input Hne. by rewrite Hm in Hne.
  - intros input ok Hin%list_elem_of_singleton. by destruct (He input ok).
Qed.

Lemma fetch_live_memory inputs channelId (st : State W) :
  resolves_unknown inputs st
    (net (CallLiveVideoIds channelId) (remote_liveVideoIds channelId) st).2.
Proof.
  unfold net.
  destruct (remote_liveVideoIds channelId (world st)) as [[ids|m] w]; cbn [snd].
  all: by eapply resolves_unknown_event.
Qed.

Lemma resolves_unknown_trans inputs (st1 st2 st3 : State W) :
  resolves_unknown inputs st1 st2 -> resolves_unknown inputs st2 st3 ->
  resolves_unknown inputs st1 st3.
Proof.
  intros (e1 & Ht1 & Hk1 & Hc1 & Hi1) (e2 & Ht2 & Hk2 & Hc2 & Hi2).
  exists (e1 ++ e2). split; [by rewrite Ht2, Ht1, app_assoc|].
  split; [|split].
  - intros input channelId Hknown.
    destruct (Hk1 input channelId Hknown) as [Hm1 Hn1].
    assert (Hknown2 : nonempty (channelIdByInput st2 !! input) = Some channelId)
      by by rewrite Hm1.
    destruct (Hk2 input channelId Hknown2) as [Hm2 Hn2].
    split; [congruence|]. intros ok [Hin | Hin]%elem_of_app.
    + by apply (Hn1 ok). 
    + by apply (Hn2 ok).
  - intros input Hne. apply elem_of_app.
    destruct (decide (channelIdByInput st2 !! input = channelIdByInput st1 !! input))
      as [E | Hne1].
    + right. apply Hc2. by rewrite E.
    + left. by apply Hc1.
  - intros input ok [Hin | Hin]%elem_of_app; [by eapply Hi1 | by eapply Hi2].
Qed.

(** One attempt: a remembered ID is used as it is; an unknown channel is
    resolved, and remembered when that succeeds. *)
Lemma discover_channel_memory channelInput (st : State W) :
  resolves_unknown [channelInput] st (discover_channel channelInput st).2.
Proof.
  unfold discover_channel. rewrite bind_get_state.
  destruct (nonempty (channelIdByInput st !! channelInput)) as [channelId|] eqn:Eknown.
  - rewrite (bind_ok _ _ st st channelId) by done. apply fetch_live_memory.
  - assert (Hunknown : forall input channelId,
      nonempty (channelIdByInput st !! input) = Some channelId ->
      input <> channelInput).
    { intros input channelId Hknown ->. congruence. }
    destruct (remote_resolveChannelId channelInput (world st))
      as [[channelId|m] w] eqn:E.
    + rewrite (bind_ok _ _ st
                 (set_channelIdByInput
                    (<[channelInput := channelId]> (channelIdByInput st))
                    (recorded (Net (CallResolveChannel channelInput) true) w st))
                 channelId).
      2:{ rewrite (bind_ok _ _ _ _ _ (net_reply _ _ _ _ _ E)). done. }
      set (st1 := set_channelIdByInput _ _).
      eapply resolves_unknown_trans; [|apply fetch_live_memory].
      exists [Net (CallResolveChannel channelInput) true].
      split; [done|]. split; [|split].
      * intros input id Hknown. pose proof (Hunknown _ _ Hknown) as Hne.
        split; [cbn; by rewrite lookup_insert_ne|].
        intros ok Hin. apply list_elem_of_singleton in Hin. congruence.
      * intros input Hne. destruct (decide (input = channelInput)) as [-> | Hother].
        -- apply list_elem_of_singleton. done.
        -- cbn in Hne. by rewrite lookup_insert_ne in Hne.
      * intros input ok Hin. apply list_elem_of_singleton in Hin.
        injection Hin as -> _. apply list_elem_of_singleton. done.
    + rewrite (bind_throw _ _ st
                 (recorded (Net (CallResolveChannel channelInput) false) w st) m).
      2:{ by rewrite (bind_throw _ _ _ _ _ (net_fail _ _ _ _ _ E)). }
      exists [Net (CallResolveChannel channelInput) false].
      split; [done|]. split; [|split].
      * intros input id Hknown. pose proof (Hunknown _ _ Hknown) as Hne.
        split; [done|].
        intros ok Hin. apply list_elem_of_singleton in Hin. congruence.
      * intros input Hne. done.
      * intros input ok Hin. apply list_elem_of_singleton in Hin.
        injection Hin as -> _. apply list_elem_of_singleton. done.
Qed.

Lemma resolves_unknown_weaken inputs inputs' (st st' : State W) :
  (forall input, input ∈ inputs -> input ∈ inputs') ->
  resolves_unknown inputs st st' -> resolves_unknown inputs' st st'.
Proof.
  intros Hsub (e & Ht & Hk & Hc & Hi). exists e. repeat split; try done.
  - by apply (Hk input channelId).
  - by apply (Hk input channelId).
  - intros i ok Hin. apply Hsub. by eapply Hi.
Qed.

Lemma channel_loop_memory count channelInputs all errors (st : State W) :
  resolves_unknown channelInputs st
    (channel_loop discover_channel count channelInputs all errors st).2.
Proof.
  revert all errors st.
  induction channelInputs as [|channelInput rest IH]; intros all errors st.
  - apply resolves_unknown_quiet, no_discovery_refl.
  - rewrite channel_loop_cons.
    pose proof (discover_channel_memory channelInput st) as Hone.
    apply (resolves_unknown_weaken _ (channelInput :: rest)) in Hone.
    2:{ intros input ->%list_elem_of_singleton. left. }
    assert (Hrest : forall all' errors' (st1 : State W),
      resolves_unknown (channelInput :: rest) st1
        (channel_loop discover_channel count rest all' errors' st1).2).
    { intros all' errors' st1.
      eapply resolves_unknown_weaken; [|apply IH]. intros input Hin. by right. }
    destruct (discover_channel channelInput st) as [[ids|message|] st1];
      cbn [fst snd] in *.
    + eapply resolves_unknown_trans; [exact Hone | apply Hrest].
    + destruct (bool_decide (count = 1)); [exact Hone|].
      eapply resolves_unknown_trans; [exact Hone | apply Hrest].
    + exact Hone.
Qed.

(** X14.  A channel whose ID is remembered is never resolved again: over a
    whole run, in every mode, the remembered ID stays as it is and no
    resolution is requested for that channel; a resolution is requested
    for configured channels only, and the memory changes only through a
    resolution that succeeded. *)
Theorem runOnce_resolves_unknown_channels_only
  (cfg : Config) (fuel : nat) (st : State W) :
  let st' := (runOnce cfg fuel st).2 in
  let events := new_events st st' in
  trace st' = trace st ++ events
  /\ (forall input channelId,
        nonempty (channelIdByInput st !! input) = Some channelId ->
        channelIdByInput st' !! input = Some channelId
        /\ forall ok, Net (CallResolveChannel input) ok ∉ events)
  /\ (forall input,
        channelIdByInput st' !! input <> channelIdByInput st !! input ->
        Net (CallResolveChannel input) true ∈ events)
  /\ (forall input ok,
        Net (CallResolveChannel input) ok ∈ events ->
        input ∈ cfg_channelInputs cfg).
Proof.
  intros st' events. subst st' events.
  assert (Hrun : resolves_unknown (cfg_channelInputs cfg) st (runOnce cfg fuel st).2).
  { destruct (runOnce_usable cfg fuel st) as [-> | ->].
    - apply resolves_unknown_quiet, no_discovery_refl.
    - unfold bind.
      pose proof (channel_loop_memory (length (cfg_channelInputs cfg))
                    (cfg_channelInputs cfg) [] [] st) as Hloop.
      destruct (channel_loop discover_channel _ _ [] [] st)
        as [[[live errors]|message|] st1]; cbn [fst snd] in *; [|done|done].
      eapply resolves_unknown_trans; [exact Hloop|].
      apply resolves_unknown_quiet, keeps_after_discovery. }
  destruct Hrun as (events & Ht & Hk & Hc & Hi).
  rewrite (new_events_app _ _ _ Ht). split; [done|]. split; [|by split].
  intros input channelId Hknown. destruct (Hk input channelId Hknown) as [Hm Hn].
  split; [|done]. rewrite Hm.
  by destruct (nonempty_Some _ _ Hknown).
Qed.

End ChannelsOnce.

(** ** [--playlist-sync] *)

Section PlaylistSync.
Context {W : Type} `{Remote W}.

(** How a playlist sync can end: before any insertion, with an error; with
    the Sync State written after insertions that all succeeded; or with
    exit code 1 after an insertion that failed. *)
Lemma runPlaylistSync_shape cfg fuel (st : State W) :
  let run := runPlaylistSync cfg fuel st in
  let inserts accessToken playlistId (rs : list (jstring * option jstring)) :=
    map (fun r => Net (CallInsert accessToken playlistId r.1)
                    (bool_decide (r.2 = None))) rs in
  ((forall code, run.1 <> Ok code)
   /\ forall p, nonempty (oauth_tokenFilePath (cfg_oauth cfg)) <> Some p ->
                quiet p st run.2)
  \/ exists (st1 : State W) accessToken playlistId rs,
       (forall p, nonempty (oauth_tokenFilePath (cfg_oauth cfg)) <> Some p ->
                  quiet p st st1)
       /\ NoDup (map fst rs)
       /\ (forall v, v ∈ map fst rs ->
             exists st0 : State W,
               (forall p, nonempty (oauth_tokenFilePath (cfg_oauth cfg)) <> Some p ->
                          files st0 !! p = files st !! p)
               /\ exists x,
                    x ∈ readExistingVideoIds (files st0) (cfg_outputPath cfg)
                    /\ JS.trim x = v)
       /\ ((run.1 = Ok 0%Z
            /\ Forall (fun r => r.2 = None) rs
            /\ exists text,
                 trace run.2
                 = trace st1 ++ inserts accessToken playlistId rs
                     ++ [WroteFile (cfg_statePath cfg) text]
                 /\ files run.2 = <[cfg_statePath cfg := text]> (files st1))
           \/ (run.1 = Ok 1%Z
               /\ Exists (fun r => r.2 <> None) rs
               /\ trace run.2 = trace st1 ++ inserts accessToken playlistId rs
               /\ files run.2 = files st1)).
Proof.
  intros run inserts.
  assert (Erun : run = runPlaylistSync cfg fuel st) by done. clearbody run.
  unfold runPlaylistSync in Erun.
  set (allowed p := nonempty (oauth_tokenFilePath (cfg_oauth cfg)) <> Some p).
  pose proof (fun p Hp => quiet_getYouTubeAccessTokenAuto p (cfg_oauth cfg)
                (cfg_autoSetup cfg) st Hp) as Hq1.
  destruct (getYouTubeAccessTokenAuto (cfg_oauth cfg) (cfg_autoSetup cfg) st)
    as [[accessToken|message|] st1] eqn:E1; cbn [fst snd] in *.
  2:{ rewrite (bind_throw _ _ _ _ _ E1) in Erun. subst run.
      left. split; [done | exact Hq1]. }
  2:{ rewrite (bind_diverge _ _ _ _ E1) in Erun. subst run.
      left. split; [done | exact Hq1]. }
  rewrite (bind_ok _ _ _ _ _ E1) in Erun.
  pose proof (fun p => quiet_resolveTargetPlaylistId p accessToken st1) as Hq2.
  destruct (resolveTargetPlaylistId accessToken st1)
    as [[playlistId|message|] st2] eqn:E2; cbn [fst snd] in *.
  2:{ rewrite (bind_throw _ _ _ _ _ E2) in Erun. subst run.
      left. split; [done|]. intros p Hp.
      eapply quiet_trans; [by apply Hq1 | apply Hq2]. }
  2:{ rewrite (bind_diverge _ _ _ _ E2) in Erun. subst run.
      left. split; [done|]. intros p Hp.
      eapply quiet_trans; [by apply Hq1 | apply Hq2]. }
  rewrite (bind_ok _ _ _ _ _ E2) in Erun.
  assert (Hq : forall p, allowed p -> quiet p st st2).
  { intros p Hp. eapply quiet_trans; [by apply Hq1 | apply Hq2]. }
  clear Hq1 Hq2 E1 E2. rewrite bind_get_state in Erun. cbv beta zeta in Erun.
  assert (Hwrite : forall (st3 : State W),
    exists text,
      (bind (writePlaylistSyncState cfg (Some playlistId)) (fun _ => ret 0%Z) st3)
      = (Ok 0%Z, {| files := <[cfg_statePath cfg := text]> (files st3);
                    oauthState := oauthState st3;
                    channelIdByInput := channelIdByInput st3;
                    world := (sync_state_text (Some playlistId) (world st3)).2;
                    trace := trace st3 ++ [WroteFile (cfg_statePath cfg) text] |})).
  { intros st3. unfold writePlaylistSyncState, bind, ask.
    destruct (sync_state_text (Some playlistId) (world st3)) as [text w].
    by exists text. }
  destruct (bool_decide (readExistingVideoIds (files st2) (cfg_outputPath cfg) = [])).
  { right. exists st2, accessToken, playlistId, [].
    split; [done|]. split; [constructor|]. split; [by intros v Hv%elem_of_nil|].
    left. destruct (Hwrite st2) as [text Hw]. rewrite Hw in Erun. subst run.
    cbn [fst snd files trace].
    split; [done|]. split; [done|]. by exists text. }
  pose proof (fun p => quiet_fetchPlaylistVideoIdSet_loop p fuel accessToken
                playlistId None [] st2) as Hq3.
  fold (fetchPlaylistVideoIdSet fuel accessToken playlistId) in Hq3.
  destruct (fetchPlaylistVideoIdSet fuel accessToken playlistId st2)
    as [[alreadyInPlaylist|message|] st3] eqn:E3; cbn [fst snd] in *.
  2:{ rewrite (bind_throw _ _ _ _ _ E3) in Erun. subst run.
      left. split; [done|]. intros p Hp.
      eapply quiet_trans; [by apply Hq | apply Hq3]. }
  2:{ rewrite (bind_diverge _ _ _ _ E3) in Erun. subst run.
      left. split; [done|]. intros p Hp.
      eapply quiet_trans; [by apply Hq | apply Hq3]. }
  rewrite (bind_ok _ _ _ _ _ E3) in Erun.
  assert (Hq' : forall p, allowed p -> quiet p st st3).
  { intros p Hp. eapply quiet_trans; [by apply Hq | apply Hq3]. }
  set (videoIds := missing_from alreadyInPlaylist
                     (readExistingVideoIds (files st2) (cfg_outputPath cfg))) in *.
  destruct (bool_decide (videoIds = [])).
  { right. exists st3, accessToken, playlistId, [].
    split; [done|]. split; [constructor|]. split; [by intros v Hv%elem_of_nil|].
    left. destruct (Hwrite st3) as [text Hw]. rewrite Hw in Erun. subst run.
    cbn [fst snd files trace].
    split; [done|]. split; [done|]. by exists text. }
  unfold addVideoIdsToPlaylist in Erun.
  destruct (addVideoIdsToPlaylist_loop_spec accessToken playlistId
              (uniqueExactStrings videoIds) 0 [] st3)
    as (rs & Hrs & Hout & Hfiles4 & Htrace4).
  destruct (addVideoIdsToPlaylist_loop accessToken playlistId
              (uniqueExactStrings videoIds) 0 [] st3) as [o st4] eqn:E4.
  cbn [fst snd] in *. subst o. rewrite (bind_ok _ _ _ _ _ E4) in Erun.
  cbn [snd app] in Erun.
  right. exists st3, accessToken, playlistId, rs.
  split; [done|]. split; [rewrite Hrs; apply uniqueExactStrings_NoDup|].
  split.
  { intros v Hv. rewrite Hrs in Hv.
    apply elem_of_uniqueExactStrings in Hv as (_ & x & Hx & <-).
    apply list_elem_of_In, filter_In in Hx as [Hx%list_elem_of_In _].
    exists st2. split; [intros p Hp; by destruct (Hq p Hp)|]. by exists x. }
  destruct (bool_decide
              (omap (fun r => (fun m => (r.1, m)) <$> r.2) rs = [])) eqn:Efail.
  - apply bool_decide_eq_true in Efail. left.
    destruct (Hwrite st4) as [text Hw]. rewrite Hw in Erun. subst run.
    cbn [fst snd files trace].
    split; [done|]. split.
    { clear -Efail. induction rs as [|[v [m|]] rs IH]; [done|done|].
      constructor; [done|]. by apply IH. }
    exists text. by rewrite Htrace4, Hfiles4, <- app_assoc.
  - apply bool_decide_eq_false in Efail. right. subst run. cbn [ret fst snd].
    split; [done|]. split; [|done].
    clear -Efail. induction rs as [|[v [m|]] rs IH]; [done| |].
    + by left.
    + right. by apply IH.
Qed.

Lemma quiet_no_write path (st st' : State W) events text :
  quiet path st st' -> trace st' = trace st ++ events ->
  WroteFile path text ∉ events.
Proof.
  intros [_ (ev & Ht & Hq)] Ht' Hin. rewrite Ht in Ht'.
  apply app_inv_head in Ht'. subst ev.
  rewrite Forall_forall in Hq. destruct (Hq _ Hin) as [_ Htouch].
  cbn in Htouch. by rewrite bool_decide_eq_true_2 in Htouch.
Qed.

Lemma inserts_no_write accessToken playlistId
  (rs : list (jstring * option jstring)) path text :
  WroteFile path text
  ∉ map (fun r => Net (CallInsert accessToken playlistId r.1)
                    (bool_decide (r.2 = None))) rs.
Proof. intros Hin%list_elem_of_In%in_map_iff. by destruct Hin as (r & Hr & _). Qed.

(** X15.  [--playlist-sync] marks the Ledger as synced only when it is:
    provided the token file is neither the Ledger nor the Sync State,
    [runPlaylistSync] writes the Sync State exactly when it returns 0, and
    then every insertion it requested succeeded; it returns 1 exactly when
    an insertion failed; every insertion it requests is for an ID of the
    Ledger (trimmed); and it writes no file but the Sync State and the
    token file, so the Ledger and the Retry Queue are as before. *)
Theorem runPlaylistSync_marks_synced_when_complete
  (cfg : Config) (fuel : nat) (st : State W) :
  nonempty (oauth_tokenFilePath (cfg_oauth cfg)) <> Some (cfg_outputPath cfg) ->
  nonempty (oauth_tokenFilePath (cfg_oauth cfg)) <> Some (cfg_statePath cfg) ->
  let run := runPlaylistSync cfg fuel st in
  let events := new_events st run.2 in
  trace run.2 = trace st ++ events
  /\ (forall p, p <> cfg_statePath cfg ->
        nonempty (oauth_tokenFilePath (cfg_oauth cfg)) <> Some p ->
        files run.2 !! p = files st !! p)
  /\ (run.1 = Ok 0%Z <-> exists text, WroteFile (cfg_statePath cfg) text ∈ events)
  /\ (run.1 = Ok 0%Z ->
      forall v, insert_requested events v = true -> inserted_ok events v = true)
  /\ (forall code, run.1 = Ok code -> code = 0%Z \/ code = 1%Z)
  /\ (run.1 = Ok 1%Z <->
      exists v, insert_requested events v = true /\ inserted_ok events v = false)
  /\ (forall v, insert_requested events v = true ->
        exists x, x ∈ readExistingVideoIds (files st) (cfg_outputPath cfg)
                  /\ JS.trim x = v).
Proof.
  intros Hout Hstate run events. subst events.
  destruct (runPlaylistSync_shape cfg fuel st) as [[Hcode Hq] | Hshape];
    fold run in Hcode, Hq || fold run in Hshape.
  - destruct (Hq _ Hstate) as [_ (events & Ht & Hall)].
    rewrite (new_events_app _ _ _ Ht).
    assert (Hnone : forall v, insert_requested events v = false)
      by (intros v; by apply (insert_requested_quiet (cfg_statePath cfg))).
    split; [done|]. split; [intros p _ Hp; by destruct (Hq p Hp)|].
    split.
    { split; [intros E; by destruct (Hcode 0%Z)|]. intros [text Hin].
      by destruct (quiet_no_write _ _ _ _ text (Hq _ Hstate) Ht). }
    split; [intros E; by destruct (Hcode 0%Z)|].
    split; [intros code E; by destruct (Hcode code)|].
    split.
    { split; [intros E; by destruct (Hcode 1%Z)|].
      intros (v & Hv & _). by rewrite Hnone in Hv. }
    intros v Hv. by rewrite Hnone in Hv.
  - destruct Hshape as (st1 & accessToken & playlistId & rs & Hq & Hnd & Hledger & Hend).
    set (ins := map (fun r => Net (CallInsert accessToken playlistId r.1)
                                (bool_decide (r.2 = None))) rs) in *.
    destruct (Hq _ Hstate) as [_ (ev1 & Ht1 & Hall1)].
    assert (Hnone : forall v, insert_requested ev1 v = false)
      by (intros v; by apply (insert_requested_quiet (cfg_statePath cfg))).
    assert (Hnone' : forall v, inserted_ok ev1 v = false).
    { intros v. destruct (inserted_ok ev1 v) eqn:E; [|done].
      apply existsb_exists in E as (e & Hin & He).
      rewrite Forall_forall in Hall1. apply list_elem_of_In in Hin.
      destruct (Hall1 e Hin) as [Hins _]. by destruct e as [[] []| | |]. }
    assert (Hfrom : forall v, v ∈ map fst rs ->
      exists x, x ∈ readExistingVideoIds (files st) (cfg_outputPath cfg)
                /\ JS.trim x = v).
    { intros v Hv. destruct (Hledger v Hv) as (st0 & Hfiles & x & Hx & Etrim).
      exists x. split; [|done]. unfold readExistingVideoIds in *.
      by rewrite <- (Hfiles _ Hout). }
    destruct Hend as [(Hcode & Hok & text & Ht & Hf) | (Hcode & Hfail & Ht & Hf)].
    + rewrite Ht1, <- app_assoc in Ht. rewrite (new_events_app _ _ _ Ht).
      split; [done|]. split.
      { intros p Hp Hallowed. rewrite Hf, lookup_insert_ne by done.
        by destruct (Hq p Hallowed). }
      assert (Hreq : forall v,
        insert_requested (ev1 ++ ins ++ [WroteFile (cfg_statePath cfg) text]) v = true ->
        v ∈ map fst rs).
      { intros v. rewrite !insert_requested_app, Hnone. cbn.
        rewrite orb_false_r. by intros Hv%insert_requested_results. }
      split.
      { split; [intros _|done]. exists text. set_solver. }
      split.
      { intros _ v Hv%Hreq. rewrite !inserted_ok_app.
        apply orb_true_iff. right. apply orb_true_iff. left.
        apply inserted_ok_results.
        change (map fst rs) with (fst <$> rs) in Hv.
        apply list_elem_of_fmap in Hv as ([x m] & -> & Hin).
        rewrite Forall_forall in Hok. pose proof (Hok _ Hin) as E. cbn in E.
        by subst m. }
      split; [intros code; rewrite Hcode; intros [= <-]; by left|].
      split.
      { split; [by rewrite Hcode|]. intros (v & Hv%Hreq & Hno).
        rewrite !inserted_ok_app in Hno.
        apply orb_false_iff in Hno as [_ Hno]. apply orb_false_iff in Hno as [Hno _].
        change (map fst rs) with (fst <$> rs) in Hv.
        apply list_elem_of_fmap in Hv as ([x m] & -> & Hin).
        rewrite Forall_forall in Hok. pose proof (Hok _ Hin) as E. cbn in E.
        subst m. apply (proj2 (inserted_ok_results accessToken playlistId rs x)) in Hin.
        fold ins in Hin. cbn in Hno. congruence. }
      intros v Hv%Hreq. by apply Hfrom.
    + rewrite Ht1, <- app_assoc in Ht. rewrite (new_events_app _ _ _ Ht).
      split; [done|]. split.
      { intros p Hp Hallowed. rewrite Hf. by destruct (Hq p Hallowed). }
      assert (Hreq : forall v,
        insert_requested (ev1 ++ ins) v = true -> v ∈ map fst rs).
      { intros v. rewrite insert_requested_app, Hnone. cbn.
        by intros Hv%insert_requested_results. }
      split.
      { split; [by rewrite Hcode|]. intros [text [Hin | Hin]%elem_of_app].
        - by destruct (quiet_no_write _ _ _ _ text (Hq _ Hstate) Ht1).
        - by destruct (inserts_no_write accessToken playlistId rs
                         (cfg_statePath cfg) text). }
      split; [by rewrite Hcode|].
      split; [intros code; rewrite Hcode; intros [= <-]; by right|].
      split.
      { split; [intros _|done].
        apply Exists_exists in Hfail as ([x m] & Hin & Hm). cbn in Hm.
        destruct m as [m|]; [|done]. exists x. split.
        - rewrite insert_requested_app. apply orb_true_iff. right.
          apply insert_requested_results.
          change (map fst rs) with (fst <$> rs). apply list_elem_of_fmap.
          by exists (x, Some m).
        - rewrite inserted_ok_app, Hnone'. cbn.
          destruct (inserted_ok ins x) eqn:E; [|done].
          apply inserted_ok_results in E.
          by pose proof (NoDup_fst_unique _ _ _ _ Hnd Hin E). }
      intros v Hv%Hreq. by apply Hfrom.
Qed.

End PlaylistSync.

(** ** [--oauth-setup] *)

Section OauthSetup.
Context {W : Type} `{Remote W}.

(** X16.  [runOauthSetup] never throws and its exit code tells what
    happened: 2, with nothing done, exactly when the client ID or the
    client secret is missing; otherwise 0 when the consent flow returned
    tokens and, if a token file is configured, the refresh token is not
    blank and the file now holds it (trimmed); otherwise 1, with no file
    written.  The access token is not cached. *)
Theorem runOauthSetup_exit_code (oauth : OauthConfig) (st : State W) :
  let run := runOauthSetup oauth st in
  let no_client :=
    nonempty (oauth_clientId oauth) = None
    \/ nonempty (oauth_clientSecret oauth) = None in
  (exists code, run.1 = Ok code /\ (code = 0 \/ code = 1 \/ code = 2)%Z)
  /\ oauthState run.2 = oauthState st
  /\ (run.1 = Ok 2%Z <-> no_client)
  /\ (no_client -> run.2 = st)
  /\ (run.1 = Ok 1%Z -> files run.2 = files st)
  /\ (run.1 = Ok 0%Z <->
      ~ no_client
      /\ exists refreshToken accessToken expiresIn w,
           remote_tokenInteractive oauth (world st)
           = (Reply (refreshToken, accessToken, expiresIn), w)
           /\ (nonempty (oauth_tokenFilePath oauth) <> None ->
               JS.trim refreshToken <> []))
  /\ (run.1 = Ok 0%Z ->
      forall refreshToken accessToken expiresIn w,
        remote_tokenInteractive oauth (world st)
        = (Reply (refreshToken, accessToken, expiresIn), w) ->
        match nonempty (oauth_tokenFilePath oauth) with
        | Some tokenFilePath =>
            files run.2
            = <[tokenFilePath :=
                  token_file_text (JS.trim refreshToken) (clock_timestamp w).1]>
                (files st)
        | None => files run.2 = files st
        end).
Proof.
  intros run no_client. subst no_client.
  assert (Erun : run = runOauthSetup oauth st) by done. clearbody run.
  unfold runOauthSetup in Erun.
  destruct (bool_decide (nonempty (oauth_clientId oauth) = None)) eqn:Eid;
    [apply bool_decide_eq_true in Eid | apply bool_decide_eq_false in Eid].
  { subst run. cbn. split; [exists 2%Z; split; [done | lia]|]. split; [done|].
    split; [split; [by left | done]|]. split; [done|]. split; [done|].
    split; [|done]. split; [done|]. intros [Hno _]. destruct Hno. by left. }
  destruct (bool_decide (nonempty (oauth_clientSecret oauth) = None)) eqn:Esecret;
    [apply bool_decide_eq_true in Esecret | apply bool_decide_eq_false in Esecret].
  { subst run. cbn. split; [exists 2%Z; split; [done | lia]|]. split; [done|].
    split; [split; [by right | done]|]. split; [done|]. split; [done|].
    split; [|done]. split; [done|]. intros [Hno _]. destruct Hno. by right. }
  cbn [orb] in Erun.
  assert (Hclient : ~ (nonempty (oauth_clientId oauth) = None
                       \/ nonempty (oauth_clientSecret oauth) = None)) by tauto.
  destruct (remote_tokenInteractive oauth (world st))
    as [[[[refreshToken accessToken] expiresIn]|message] w] eqn:E.
  2:{ rewrite (bind_ok _ _ st
                 (recorded (Net CallTokenInteractive false) w st) None) in Erun.
      2:{ rewrite (try_catch_throw _ _ st
                     (recorded (Net CallTokenInteractive false) w st) message);
            [done|].
          apply bind_throw. by apply net_fail. }
      subst run. cbn.
      split; [exists 1%Z; split; [done | lia]|]. split; [done|].
      split; [split; [done | tauto]|]. split; [tauto|]. split; [done|].
      split; [|done]. split; [done|]. by intros (_ & ? & ? & ? & ? & ? & _). }
  rewrite (bind_ok _ _ st (recorded (Net CallTokenInteractive true) w st)
             (Some (refreshToken, accessToken, expiresIn))) in Erun.
  2:{ apply try_catch_ok. by rewrite (bind_ok _ _ _ _ _ (net_reply _ _ _ _ _ E)). }
  destruct (nonempty (oauth_tokenFilePath oauth)) as [tokenFilePath|].
  2:{ subst run. cbn.
      split; [exists 0%Z; split; [done | lia]|]. split; [done|].
      split; [split; [done | tauto]|]. split; [tauto|]. split; [done|].
      split.
      - split; [intros _|done]. split; [done|].
        exists refreshToken, accessToken, expiresIn, w. by split.
      - intros _ ? ? ? ? [= <- _ _ _]. done. }
  unfold writeOauthRefreshTokenToFile in Erun.
  destruct (bool_decide (JS.trim refreshToken = [])) eqn:Eblank;
    [apply bool_decide_eq_true in Eblank | apply bool_decide_eq_false in Eblank].
  { subst run. cbn.
    split; [exists 1%Z; split; [done | lia]|]. split; [done|].
    split; [split; [done | tauto]|]. split; [tauto|]. split; [done|].
    split; [|done]. split; [done|].
    intros (_ & r & a & e & w' & [= <- _ _ _] & Hne). by destruct Hne. }
  unfold try_catch, bind, ask in Erun. cbn [world recorded] in Erun.
  destruct (clock_timestamp w) as [ts w2] eqn:Ets. subst run. cbn.
  split; [exists 0%Z; split; [done | lia]|]. split; [done|].
  split; [split; [done | tauto]|]. split; [tauto|]. split; [done|].
  split.
  - split; [intros _|done]. split; [done|].
    exists refreshToken, accessToken, expiresIn, w. by split.
  - intros _ ? ? ? ? [= <- _ _ <-]. by rewrite Ets.
Qed.

End OauthSetup.

Lemma runOnce_without_playlist_saving_witness :
  let cfg := example_channels_config in
  let st := initial_state (∅ : filesystem) example_channels_world in
  cfg_saveToPlaylist cfg = false
  /\ (runOnce cfg 0 st).1 <> Diverge
  /\ oauthState (runOnce cfg 0 st).2 = oauthState st.
Proof.
  intros cfg st.
  assert (Hoff : cfg_saveToPlaylist cfg = false) by reflexivity.
  split; [exact Hoff|].
  destruct (runOnce_without_playlist_saving cfg 0 st Hoff) as (Hend & Htoken & _).
  split; [exact Hend | exact Htoken].
Defined.

Lemma runOnce_ledger_append_only_witness :
  let cfg := example_config in
  let st := initial_state example_ledger example_playlist_world in
  (cfg_saveToPlaylist cfg = true -> paths_distinct cfg)
  /\ (files (runOnce cfg 5 st).2 !! cfg_outputPath cfg
      = files st !! cfg_outputPath cfg
      \/ exists text,
           text <> []
           /\ files (runOnce cfg 5 st).2 !! cfg_outputPath cfg
              = Some (default [] (files st !! cfg_outputPath cfg) ++ text)).
Proof.
  intros cfg st.
  assert (Hpaths : cfg_saveToPlaylist cfg = true -> paths_distinct cfg).
  { intros _. repeat split; intros E; vm_compute in E; discriminate E. }
  split; [exact Hpaths|].
  exact (runOnce_ledger_append_only cfg 5 st Hpaths).
Defined.

Lemma syncOutputFileToPlaylist_backfills_missing_witness :
  let cfg := example_backfill_config in
  let st := initial_state example_ledger example_playlist_world in
  let st1 := (getYouTubeAccessTokenAuto (cfg_oauth cfg) (cfg_autoSetup cfg) st).2 in
  let st2 := (resolveTargetPlaylistId (str "new-token") st1).2 in
  let st3 := (fetchPlaylistVideoIdSet 5 (str "new-token") (str "PL1") st2).2 in
  uniqueExactStrings
    (readVideoIdQueue (files st) (cfg_queuePath cfg)
     ++ readExistingVideoIds (files st) (cfg_outputPath cfg)) <> []
  /\ getYouTubeAccessTokenAuto (cfg_oauth cfg) (cfg_autoSetup cfg) st
     = (Ok (str "new-token"), st1)
  /\ resolveTargetPlaylistId (str "new-token") st1 = (Ok (str "PL1"), st2)
  /\ fetchPlaylistVideoIdSet 5 (str "new-token") (str "PL1") st2
     = (Ok [str "video000002"], st3)
  /\ exists result,
       (syncOutputFileToPlaylist cfg 5 st).1 = Ok result
       /\ res_synced result = Some true.
Proof.
  intros cfg st st1 st2 st3.
  assert (Hdesired :
    uniqueExactStrings
      (readVideoIdQueue (files st) (cfg_queuePath cfg)
       ++ readExistingVideoIds (files st) (cfg_outputPath cfg)) <> [])
    by (vm_compute; discriminate).
  assert (Htoken :
    getYouTubeAccessTokenAuto (cfg_oauth cfg) (cfg_autoSetup cfg) st
    = (Ok (str "new-token"), st1)) by (vm_compute; reflexivity).
  assert (Hplaylist :
    resolveTargetPlaylistId (str "new-token") st1 = (Ok (str "PL1"), st2))
    by (vm_compute; reflexivity).
  assert (Hlisting :
    fetchPlaylistVideoIdSet 5 (str "new-token") (str "PL1") st2
    = (Ok [str "video000002"], st3)) by (vm_compute; reflexivity).
  split; [exact Hdesired|]. split; [exact Htoken|]. split; [exact Hplaylist|].
  split; [exact Hlisting|].
  destruct (syncOutputFileToPlaylist_backfills_missing cfg 5 st st1 st2 st3
              (str "new-token") (str "PL1") [str "video000002"]
              Hdesired Htoken Hplaylist Hlisting)
    as (result & Hresult & Hsynced & _).
  exists result. split; [exact Hresult | exact Hsynced].
Defined.

Lemma runPlaylistSync_marks_synced_when_complete_witness :
  let cfg := example_config in
  let st := initial_state example_ledger example_playlist_world in
  nonempty (oauth_tokenFilePath (cfg_oauth cfg)) <> Some (cfg_outputPath cfg)
  /\ nonempty (oauth_tokenFilePath (cfg_oauth cfg)) <> Some (cfg_statePath cfg)
  /\ ((runPlaylistSync cfg 5 st).1 = Ok 0%Z <->
      exists text,
        WroteFile (cfg_statePath cfg) text
        ∈ new_events st (runPlaylistSync cfg 5 st).2).
Proof.
  intros cfg st.
  assert (Hout : nonempty (oauth_tokenFilePath (cfg_oauth cfg))
                 <> Some (cfg_outputPath cfg)) by discriminate.
  assert (Hstate : nonempty (oauth_tokenFilePath (cfg_oauth cfg))
                   <> Some (cfg_statePath cfg)) by discriminate.
  split; [exact Hout|]. split; [exact Hstate|].
  exact (proj1 (proj2 (proj2
           (runPlaylistSync_marks_synced_when_complete cfg 5 st Hout Hstate)))).
Defined.

(** The Ledger of the example holds one video that the playlist lacks: the
    sync inserts it, marks the Ledger as synced and leaves the Retry Queue
    alone. *)
Example runPlaylistSync_example :
  let st := initial_state (example_ledger ∪ example_queue) example_playlist_world in
  let run := runPlaylistSync example_config 5 st in
  run.1 = Ok 0%Z
  /\ requested_insertions (new_events st run.2) = [str "aaaaaaaaaaa"]
  /\ files run.2 !! example_queue_path = files st !! example_queue_path
  /\ files run.2 !! example_state_path = Some (str "{}" ++ [JS.LF]).
Proof. repeat split; vm_compute; reflexivity. Qed.

Lemma runOnce_exit_code_witness :
  let cfg := example_channels_config in
  let st := initial_state (∅ : filesystem) example_playlist_world in
  ~ (nonempty (cfg_apiKey cfg) = None \/ cfg_channelInputs cfg = []
     \/ ~ (0 < cfg_scanLatest cfg <= 50)%Z)
  /\ (runOnce cfg 0 st).1 = Ok 0%Z
  /\ Forall (fun a => exists ids, a.2 = Ok ids)
       (attempt_each discover_channel (cfg_channelInputs cfg) st).1.
Proof.
  intros cfg st.
  assert (Husable :
    ~ (nonempty (cfg_apiKey cfg) = None \/ cfg_channelInputs cfg = []
       \/ ~ (0 < cfg_scanLatest cfg <= 50)%Z)).
  { intros [E | [E | E]]; [discriminate E | discriminate E |].
    apply E. cbn. lia. }
  assert (Hcode : (runOnce cfg 0 st).1 = Ok 0%Z) by (vm_compute; reflexivity).
  split; [exact Husable|]. split; [exact Hcode|].
  exact (proj2 (proj2 (runOnce_exit_code cfg 0 st) Husable 0%Z Hcode) eq_refl).
Defined.

Lemma runOnce_resolves_unknown_channels_only_witness :
  let cfg := example_channels_config in
  let st := example_later_state in
  nonempty (channelIdByInput st !! str "@first") = Some (str "UC@first")
  /\ channelIdByInput (runOnce cfg 0 st).2 !! str "@first" = Some (str "UC@first")
  /\ forall ok,
       Net (CallResolveChannel (str "@first")) ok
       ∉ new_events st (runOnce cfg 0 st).2.
Proof.
  intros cfg st.
  assert (Hknown :
    nonempty (channelIdByInput st !! str "@first") = Some (str "UC@first"))
    by (vm_compute; reflexivity).
  split; [exact Hknown|].
  exact (proj1 (proj2 (runOnce_resolves_unknown_channels_only cfg 0 st))
           (str "@first") (str "UC@first") Hknown).
Defined.

(** In that run the two other channels are looked up, the second without
    success; the first is only asked for its live videos. *)
Example runOnce_later_run :
  new_events example_later_state
    (runOnce example_channels_config 0 example_later_state).2
  = [Net (CallLiveVideoIds (str "UC@first")) true;
     Net (CallResolveChannel (str "@second")) false;
     Net (CallResolveChannel (str "@third")) true;
     Net (CallLiveVideoIds (str "UC@third")) true;
     AppendedFile example_ledger_path
       (str "https://www.youtube.com/watch?v=video000001" ++ [JS.LF]
        ++ str "https://www.youtube.com/watch?v=video000003" ++ [JS.LF])].
Proof. vm_compute. reflexivity. Qed.

(** ** The environment file *)

Section EnvFileProofs.
Variable inherited : jstring -> bool.

Lemma env_defined_insert env k v key :
  env_defined inherited (<[k := v]> env) key
  = bool_decide (key = k) || env_defined inherited env key.
Proof.
  unfold env_defined. destruct (decide (key = k)) as [-> | Hne].
  - rewrite lookup_insert_eq, (bool_decide_eq_true_2 (k = k)) by done.
    cbn [orb]. apply orb_true_iff. right. apply bool_decide_eq_true. by eexists.
  - rewrite lookup_insert_ne by done. by rewrite (bool_decide_eq_false_2 (key = k)).
Qed.

(** The environment after the lines of a file. *)
Lemma loadEnvFile_lines lines env key :
  fold_left (loadEnvFile_line inherited) lines env !! key
  = if env_defined inherited env key then env !! key
    else first_binding key (omap env_binding lines).
Proof.
  revert env. induction lines as [|line lines IH]; intros env.
  - cbn. unfold env_defined. destruct (inherited key); cbn.
    + done.
    + destruct (env !! key) as [v|] eqn:E; [|done].
      by rewrite (bool_decide_eq_true_2 (is_Some (Some v))) by by eexists.
  - cbn [fold_left]. rewrite IH. unfold loadEnvFile_line. cbn [omap list_omap].
    destruct (env_binding line) as [[k v]|]; [|done].
    fold (omap env_binding lines).
    destruct (env_defined inherited env k) eqn:Ek.
    + destruct (env_defined inherited env key) eqn:Ekey; [done|].
      cbn [first_binding]. rewrite bool_decide_eq_false_2; [done|].
      intros ->. congruence.
    + rewrite env_defined_insert.
      destruct (decide (key = k)) as [-> | Hne].
      * rewrite bool_decide_eq_true_2, Ek by done. cbn.
        by rewrite lookup_insert_eq, bool_decide_eq_true_2.
      * rewrite (bool_decide_eq_false_2 (key = k)) by done. cbn.
        rewrite lookup_insert_ne by done.
        destruct (env_defined inherited env key); [done|].
        by rewrite bool_decide_eq_false_2.
Qed.

Lemma loadEnvFile_line_defined env line key :
  env_defined inherited env key = true ->
  env_defined inherited (loadEnvFile_line inherited env line) key = true.
Proof.
  intros Hkey. unfold loadEnvFile_line.
  destruct (env_binding line) as [[k v]|]; [|done].
  destruct (env_defined inherited env k); [done|].
  rewrite env_defined_insert, Hkey. by rewrite orb_true_r.
Qed.

Lemma loadEnvFile_lines_defined lines env key :
  env_defined inherited env key = true ->
  env_defined inherited (fold_left (loadEnvFile_line inherited) lines env) key = true.
Proof.
  revert env. induction lines as [|line lines IH]; intros env Hkey; [done|].
  cbn [fold_left]. by apply IH, loadEnvFile_line_defined.
Qed.

(** After the lines of a file every key that they bind is defined. *)
Lemma loadEnvFile_lines_bound lines env k v :
  (k, v) ∈ omap env_binding lines ->
  env_defined inherited (fold_left (loadEnvFile_line inherited) lines env) k = true.
Proof.
  revert env. induction lines as [|line lines IH]; intros env Hin.
  - by apply elem_of_nil in Hin.
  - cbn [fold_left]. cbn [omap list_omap] in Hin.
    destruct (env_binding line) as [[k' v']|] eqn:Eline.
    + fold (omap env_binding lines) in Hin.
      apply elem_of_cons in Hin as [[= <- <-] | Hin]; [|by apply IH].
      apply loadEnvFile_lines_defined. unfold loadEnvFile_line. rewrite Eline.
      destruct (env_defined inherited env k) eqn:Ek; [done|].
      rewrite env_defined_insert. by rewrite bool_decide_eq_true_2.
    + by apply IH.
Qed.

Lemma loadEnvFile_lines_again lines env :
  (forall k v, (k, v) ∈ omap env_binding lines ->
               env_defined inherited env k = true) ->
  fold_left (loadEnvFile_line inherited) lines env = env.
Proof.
  induction lines as [|line lines IH]; intros Hall; [done|].
  cbn [fold_left]. cbn [omap list_omap] in Hall.
  unfold loadEnvFile_line at 2.
  destruct (env_binding line) as [[k v]|] eqn:Eline.
  - fold (omap env_binding lines) in Hall.
    rewrite (Hall k v) by left. apply IH. intros k' v' Hin. apply (Hall k' v').
    by right.
  - by apply IH.
Qed.

(** X17.  [loadEnvFile] never overrides the environment: a variable that
    is set (or a name that [process.env] answers for otherwise) stays as it
    is; any other key gets the value of the first line of the file that
    binds it, and stays unset when no line does; and loading the same file
    once more changes nothing.  A missing file is an error. *)
Theorem loadEnvFile_sets_missing_variables_only
  (fs : filesystem) (filePath : jstring) (env : environment) :
  match loadEnvFile inherited fs filePath env with
  | None => fs !! filePath = None
  | Some env' =>
      exists content,
        fs !! filePath = Some content
        /\ env ⊆ env'
        /\ (forall key,
              env' !! key
              = if env_defined inherited env key then env !! key
                else first_binding key
                       (omap env_binding (JS.split_lines content)))
        /\ loadEnvFile inherited fs filePath env' = Some env'
  end.
Proof.
  unfold loadEnvFile. destruct (fs !! filePath) as [content|]; [|done]. cbn.
  exists content. split; [done|].
  set (lines := JS.split_lines content).
  split; [|split].
  - apply map_subseteq_spec. intros key value Hkey.
    rewrite loadEnvFile_lines. unfold env_defined. rewrite Hkey.
    rewrite (bool_decide_eq_true_2 (is_Some (Some value))) by by eexists.
    by rewrite orb_true_r.
  - intros key. apply loadEnvFile_lines.
  - f_equal. apply loadEnvFile_lines_again. intros k v Hin.
    by eapply loadEnvFile_lines_bound.
Qed.

End EnvFileProofs.

(** The example file loaded into an environment that sets the channels
    already: the API key comes from the first of its two lines, without
    the quotes; the channels stay as they were. *)
Example loadEnvFile_example :
  let env : environment := {[ str "YOUTUBE_CHANNELS" := str "@mine" ]} in
  loadEnvFile (fun _ => false) example_env_file (str ".env") env
  = Some ({[ str "YOUTUBE_CHANNELS" := str "@mine";
             str "YOUTUBE_API_KEY" := str "abc" ]} : environment).
Proof. vm_compute. reflexivity. Qed.

(** ** Channel references *)

Lemma startsWith_app s prefix :
  JS.startsWith s prefix = true -> exists rest, s = prefix ++ rest.
Proof.
  revert s. induction prefix as [|p prefix IH]; intros s Hs; [by exists s|].
  destruct s as [|c s]; [done|]. cbn in Hs.
  apply andb_true_iff in Hs as [Hc Hs]. apply Ascii.eqb_eq in Hc as ->.
  destruct (IH s Hs) as [rest ->]. by exists rest.
Qed.

(** A string does not include a text one of whose units it lacks. *)
Lemma includes_lacking s needle c :
  c ∈ needle -> c ∉ s -> includes s needle = false.
Proof.
  intros Hin. induction s as [|x s IH]; intros Hc.
  - cbn. destruct needle; [by apply elem_of_nil in Hin | done].
  - cbn [includes]. rewrite IH, orb_false_r by set_solver.
    destruct (JS.startsWith (x :: s) needle) eqn:E; [|done].
    apply startsWith_app in E as [rest E]. exfalso. apply Hc. rewrite E.
    set_solver.
Qed.

Section ChannelName.
Variable name : jstring.
Hypothesis Hname : Forall (fun c => is_video_id_unit c = true) name.
Hypothesis Hsome : name <> [].

Ltac plain_name :=
  repeat (apply Forall_app; split);
  first
    [ apply Forall_false_forallb; vm_compute; reflexivity
    | eapply Forall_impl; [exact Hname|];
      let c := fresh "c" in
      let Hc := fresh in
      intros c Hc; apply video_id_unit_plain in Hc; tauto ].

Lemma name_trim : JS.trim name = name.
Proof. apply trim_no_whitespace. plain_name. Qed.

Lemma name_unit_no_dot c :
  is_video_id_unit c = true ->
  URL.ascii_lower c <> "."%char /\ URL.ascii_lower c <> "%"%char
  /\ c <> "@"%char /\ c <> ":"%char.
Proof.
  destruct c as [[] [] [] [] [] [] [] []]; intros H;
    first [discriminate H | by vm_compute].
Qed.

Lemma name_not_dots :
  URL.is_single_dot name = false /\ URL.is_double_dot name = false.
Proof.
  destruct name as [|c rest]; [done|].
  inversion Hname as [|? ? Hc _]; subst.
  destruct (name_unit_no_dot c Hc) as (Hdot & Hpercent & _).
  unfold URL.is_single_dot, URL.is_double_dot.
  split; apply bool_decide_eq_false; intros Hin.
  all: repeat (apply elem_of_cons in Hin as [Hin | Hin];
               [apply (f_equal head) in Hin; cbn in Hin;
                injection Hin as Hin; by vm_compute in Hin|]).
  all: by apply elem_of_nil in Hin.
Qed.

Lemma at_name_not_dots :
  URL.is_single_dot ("@"%char :: name) = false
  /\ URL.is_double_dot ("@"%char :: name) = false.
Proof.
  unfold URL.is_single_dot, URL.is_double_dot.
  split; apply bool_decide_eq_false; intros Hin.
  all: repeat (apply elem_of_cons in Hin as [Hin | Hin];
               [apply (f_equal head) in Hin; by vm_compute in Hin|]).
  all: by apply elem_of_nil in Hin.
Qed.

Lemma parse_channel_url :
  URL.parse (str "https://www.youtube.com/channel/" ++ name)
  = Some {| URL.scheme := str "https"; URL.hostname := str "www.youtube.com";
            URL.pathname := str "/channel/" ++ name; URL.query := [] |}.
Proof.
  unfold URL.parse.
  rewrite preprocess_id by plain_name.
  change (URL.parse_scheme (str "https://www.youtube.com/channel/" ++ name))
    with (Some (str "https", str "//www.youtube.com/channel/" ++ name)).
  cbn [mbind option_bind].
  rewrite span_until_none by plain_name.
  rewrite span_until_none by plain_name.
  change (URL.is_special (str "https")) with true.
  change (bool_decide (str "https" = str "file")) with false.
  cbv beta iota zeta.
  change (URL.drop_while (URL.is_slash true)
            (str "//www.youtube.com/channel/" ++ name))
    with (str "www.youtube.com/channel/" ++ name).
  change (URL.span_until (URL.is_slash true)
            (str "www.youtube.com/channel/" ++ name))
    with (str "www.youtube.com", str "/channel/" ++ name).
  cbv beta iota zeta.
  unfold URL.with_authority.
  change (URL.parse_authority true (str "www.youtube.com"))
    with (Some (str "www.youtube.com")).
  cbn [mbind option_bind].
  change (URL.path_start true false (str "/channel/" ++ name))
    with (URL.parse_path true false (str "channel/" ++ name) []).
  unfold URL.parse_path.
  change (URL.split_at (URL.is_slash true) [] (str "channel/" ++ name))
    with (str "channel" :: URL.split_at (URL.is_slash true) [] name).
  rewrite split_at_none by plain_name.
  cbn [map app]. rewrite (percent_encode_id _ name) by plain_name.
  change (URL.percent_encode URL.in_path_set (str "channel")) with (str "channel").
  change (URL.path_state false [str "channel"; name] [])
    with (URL.path_state false [name] [str "channel"]).
  cbn [URL.path_state]. destruct name_not_dots as [-> ->].
  rewrite normalize_drive_not_file. cbn. by rewrite app_nil_r.
Qed.

Lemma parse_handle_url :
  URL.parse (str "https://www.youtube.com/@" ++ name)
  = Some {| URL.scheme := str "https"; URL.hostname := str "www.youtube.com";
            URL.pathname := str "/@" ++ name; URL.query := [] |}.
Proof.
  unfold URL.parse.
  rewrite preprocess_id by plain_name.
  change (URL.parse_scheme (str "https://www.youtube.com/@" ++ name))
    with (Some (str "https", str "//www.youtube.com/@" ++ name)).
  cbn [mbind option_bind].
  rewrite span_until_none by plain_name.
  rewrite span_until_none by plain_name.
  change (URL.is_special (str "https")) with true.
  change (bool_decide (str "https" = str "file")) with false.
  cbv beta iota zeta.
  change (URL.drop_while (URL.is_slash true) (str "//www.youtube.com/@" ++ name))
    with (str "www.youtube.com/@" ++ name).
  change (URL.span_until (URL.is_slash true) (str "www.youtube.com/@" ++ name))
    with (str "www.youtube.com", str "/@" ++ name).
  cbv beta iota zeta.
  unfold URL.with_authority.
  change (URL.parse_authority true (str "www.youtube.com"))
    with (Some (str "www.youtube.com")).
  cbn [mbind option_bind].
  change (URL.path_start true false (str "/@" ++ name))
    with (URL.parse_path true false ("@"%char :: name) []).
  unfold URL.parse_path.
  rewrite split_at_none.
  2:{ constructor; [done|]. plain_name. }
  cbn [map app]. rewrite percent_encode_id.
  2:{ constructor; [done|]. plain_name. }
  cbn [URL.path_state]. destruct at_name_not_dots as [-> ->].
  rewrite normalize_drive_not_file. cbn. by rewrite app_nil_r.
Qed.

Lemma name_lacks c : is_video_id_unit c = false -> c ∉ name.
Proof.
  intros Hc Hin. rewrite Forall_forall in Hname. specialize (Hname c Hin).
  congruence.
Qed.

Lemma extract_at_name :
  extractChannelIdOrHandle ("@"%char :: name) = Some (handle, name).
Proof.
  unfold extractChannelIdOrHandle.
  rewrite (trim_no_whitespace ("@"%char :: name))
    by (constructor; [done|]; plain_name).
  done.
Qed.

Lemma extract_handle_url :
  extractChannelIdOrHandle (str "https://www.youtube.com/@" ++ name)
  = Some (handle, name).
Proof.
  unfold extractChannelIdOrHandle.
  rewrite trim_no_whitespace by plain_name.
  change (bool_decide (str "https://www.youtube.com/@" ++ name = []))
    with false.
  change (JS.startsWith (str "https://www.youtube.com/@" ++ name) (str "UC"))
    with false.
  change (JS.startsWith (str "https://www.youtube.com/@" ++ name) (str "@"))
    with false.
  change (includes (str "https://www.youtube.com/@" ++ name) (str "://"))
    with true.
  cbv beta iota. rewrite parse_handle_url. cbn [URL.pathname].
  change (URL.split_at (Ascii.eqb "/") [] (str "/@" ++ name))
    with ([] :: URL.split_at (Ascii.eqb "/") [] ("@"%char :: name)).
  rewrite split_at_none.
  2:{ constructor; [done|]. plain_name. }
  cbn [map app].
  rewrite (trim_no_whitespace ("@"%char :: name))
    by (constructor; [done|]; plain_name).
  change (JS.trim []) with (@nil ascii). cbn [List.filter].
  rewrite (bool_decide_eq_true_2 (@nil ascii = [])) by done.
  rewrite (bool_decide_eq_false_2 ("@"%char :: name = [])) by done.
  done.
Qed.

Lemma extract_channel_url :
  extractChannelIdOrHandle (str "https://www.youtube.com/channel/" ++ name)
  = Some (channel_id, name).
Proof.
  unfold extractChannelIdOrHandle.
  rewrite trim_no_whitespace by plain_name.
  change (bool_decide (str "https://www.youtube.com/channel/" ++ name = []))
    with false.
  change (JS.startsWith (str "https://www.youtube.com/channel/" ++ name)
            (str "UC")) with false.
  change (JS.startsWith (str "https://www.youtube.com/channel/" ++ name)
            (str "@")) with false.
  change (includes (str "https://www.youtube.com/channel/" ++ name) (str "://"))
    with true.
  cbv beta iota. rewrite parse_channel_url. cbn [URL.pathname].
  change (URL.split_at (Ascii.eqb "/") [] (str "/channel/" ++ name))
    with ([] :: str "channel" :: URL.split_at (Ascii.eqb "/") [] name).
  rewrite split_at_none by plain_name.
  cbn [map app]. rewrite name_trim.
  change (JS.trim (str "channel")) with (str "channel").
  change (JS.trim []) with (@nil ascii).
  assert (Hparts :
    List.filter (fun p => negb (bool_decide (p = [])))
      [[]; str "channel"; name] = [str "channel"; name]).
  { cbn [List.filter].
    rewrite (bool_decide_eq_true_2 (@nil ascii = [])) by done.
    rewrite (bool_decide_eq_false_2 (str "channel" = [])) by done.
    by rewrite (bool_decide_eq_false_2 (name = [])) by done. }
  rewrite Hparts.
  rewrite (bool_decide_eq_true_2 ([name] <> [])) by done.
  by rewrite bool_decide_eq_true_2.
Qed.

Lemma extract_bare_name :
  extractChannelIdOrHandle name
  = Some (if JS.startsWith name (str "UC") && (16 <=? length name)%nat
          then channel_id else handle, name).
Proof.
  unfold extractChannelIdOrHandle. rewrite name_trim.
  rewrite bool_decide_eq_false_2 by done.
  destruct (JS.startsWith name (str "UC") && (16 <=? length name)%nat); [done|].
  assert (Hno : JS.startsWith name (str "@") = false).
  { destruct (JS.startsWith name (str "@")) eqn:E; [|done].
    apply startsWith_app in E as [rest E].
    destruct (name_lacks "@"%char eq_refl). rewrite E. left. }
  rewrite Hno.
  by rewrite (includes_lacking name (str "://") ":"%char)
    by (first [by left | by apply name_lacks]).
Qed.

Lemma extract_blank value :
  extractChannelIdOrHandle value = None <-> JS.trim value = [].
Proof.
  unfold extractChannelIdOrHandle.
  destruct (bool_decide (JS.trim value = [])) eqn:E.
  - by apply bool_decide_eq_true in E.
  - apply bool_decide_eq_false in E. split; [|done].
    destruct (_ && _); [done|]. destruct (JS.startsWith _ _); [done|].
    destruct (if includes _ _ then _ else _) as [parsed|]; [|done].
    destruct (List.filter _ _) as [|p0 rest]; [done|].
    destruct (_ && _); [done|]. by destruct (JS.startsWith _ _).
Qed.

(** X18.  The forms in which a channel can be given name the same channel:
    for a name made of letters, digits, [_] and [-], the handle [@name]
    and the URL [https://www.youtube.com/@name] both give the handle
    [name]; the URL [https://www.youtube.com/channel/name] gives the
    channel ID [name]; and the bare name is a channel ID when it starts
    with [UC] and has 16 units or more, a handle otherwise.  Surrounding
    white space is ignored, and only a blank input is an error. *)
Theorem extractChannelIdOrHandle_forms :
  extractChannelIdOrHandle ("@"%char :: name) = Some (handle, name)
  /\ extractChannelIdOrHandle (str "https://www.youtube.com/@" ++ name)
     = Some (handle, name)
  /\ extractChannelIdOrHandle (str "https://www.youtube.com/channel/" ++ name)
     = Some (channel_id, name)
  /\ extractChannelIdOrHandle name
     = Some (if JS.startsWith name (str "UC") && (16 <=? length name)%nat
             then channel_id else handle, name)
  /\ (forall value,
        extractChannelIdOrHandle (JS.trim value) = extractChannelIdOrHandle value)
  /\ (forall value, extractChannelIdOrHandle value = None <-> JS.trim value = []).
Proof.
  split; [apply extract_at_name|]. split; [apply extract_handle_url|].
  split; [apply extract_channel_url|]. split; [apply extract_bare_name|].
  split; [|apply extract_blank].
  intros value. unfold extractChannelIdOrHandle. by rewrite trim_idem.
Qed.

End ChannelName.

Lemma extractChannelIdOrHandle_forms_witness :
  Forall (fun c => is_video_id_unit c = true) (str "UCabcdefghijklmnopqrstuv")
  /\ str "UCabcdefghijklmnopqrstuv" <> []
  /\ extractChannelIdOrHandle
       (str "https://www.youtube.com/channel/UCabcdefghijklmnopqrstuv")
     = extractChannelIdOrHandle (str "UCabcdefghijklmnopqrstuv").
Proof.
  assert (Hname : Forall (fun c => is_video_id_unit c = true)
                    (str "UCabcdefghijklmnopqrstuv")).
  { apply Forall_forall. intros c Hc. apply list_elem_of_In in Hc.
    revert c Hc. apply forallb_forall. vm_compute. reflexivity. }
  assert (Hsome : str "UCabcdefghijklmnopqrstuv" <> []) by discriminate.
  split; [exact Hname|]. split; [exact Hsome|].
  destruct (extractChannelIdOrHandle_forms _ Hname Hsome)
    as (_ & _ & Hurl & Hbare & _).
  exact (eq_trans Hurl (eq_sym Hbare)).
Defined.

(** Inputs that are taken as they are: a URL of another site with a
    [channel] path is a channel ID all the same; a URL without such a path
    becomes a handle whole. *)
Example extractChannelIdOrHandle_examples :
  extractChannelIdOrHandle (str " https://example.org/channel/x/y ")
  = Some (channel_id, str "x")
  /\ extractChannelIdOrHandle (str "https://www.youtube.com/c/name")
     = Some (handle, str "https://www.youtube.com/c/name")
  /\ extractChannelIdOrHandle (str "https://www.youtube.com/@name/streams")
     = Some (handle, str "name")
  /\ extractChannelIdOrHandle (str "  ") = None.
Proof. repeat split; vm_compute; reflexivity. Qed.

(** ** The requests behind the remote operations *)

Section ApiSteps.
Import Api.
Context {W : Type} `{Remote W} `{Service W}.

Lemma api_run r (st : State (Session W)) :
  api r st
  = match service r (remote (world st)) with
    | (Reply data, w) =>
        (Ok data,
         set_world (logged (Requested r true) (set_remote w (world st))) st)
    | (Fail message, w) =>
        (Throw message,
         set_world (logged (Requested r false) (set_remote w (world st))) st)
    end.
Proof.
  unfold api, request_through.
  by destruct (service r (remote (world st))) as [[data|message] w].
Qed.

Lemma new_entries_app (st st' : State (Session W)) new :
  log (world st') = log (world st) ++ new -> new_entries st st' = new.
Proof. intros E. unfold new_entries. by rewrite E, drop_app_length. Qed.

Lemma within_refl P n (st : State (Session W)) : within P n st st.
Proof.
  split; [done|]. exists []. rewrite app_nil_r. split; [done|].
  split; [cbn; lia | done].
Qed.

Lemma within_weaken (P Q : entry -> Prop) n m (st st' : State (Session W)) :
  (forall e, P e -> Q e) -> n <= m -> within P n st st' -> within Q m st st'.
Proof.
  intros HPQ Hnm (Hf & new & Hl & Hn & Hall). split; [done|]. exists new.
  split; [done|]. split; [lia|]. by eapply Forall_impl.
Qed.

Lemma within_trans P n m (st1 st2 st3 : State (Session W)) :
  within P n st1 st2 -> within P m st2 st3 -> within P (n + m) st1 st3.
Proof.
  intros (Hf1 & new1 & Hl1 & Hn1 & Hall1) (Hf2 & new2 & Hl2 & Hn2 & Hall2).
  split; [congruence|]. exists (new1 ++ new2).
  split; [by rewrite Hl2, Hl1, app_assoc|].
  split; [rewrite length_app; lia | by apply Forall_app].
Qed.

(** The video lookup over a session: no request without an ID to ask
    about, one request otherwise; the maps of the session stay as they
    are. *)
Lemma filterCurrentlyLiveVideoIds_session videoIds (st : State (Session W)) :
  let run := filterCurrentlyLiveVideoIds videoIds st in
  let ids := take 50 (uniqueExactStrings videoIds) in
  files run.2 = files st
  /\ uploadsPlaylistIdByChannelId (world run.2)
     = uploadsPlaylistIdByChannelId (world st)
  /\ knownLiveVideoIdsByChannelId (world run.2)
     = knownLiveVideoIdsByChannelId (world st)
  /\ playlistId (world run.2) = playlistId (world st)
  /\ (if bool_decide (ids = []) then run = (Ok [], st)
      else exists ok,
             log (world run.2) = log (world st) ++ [Requested (GetVideos ids) ok]
             /\ (ok = false -> exists message, run.1 = Throw message)
             /\ run.1 <> Diverge).
Proof.
  intros run ids. subst run. unfold filterCurrentlyLiveVideoIds. fold ids.
  destruct (bool_decide (ids = [])); [done|].
  unfold bind, net, member. cbn [remote_videos Session_Remote].
  unfold request_through.
  destruct (remote_videos ids (remote (world st))) as [[data|message] w]; cbn.
  - destruct (Js.nullish data); cbn.
    all: repeat split; exists true; split; [done|]; by split.
  - repeat split. exists false. split; [done|]. split; [by eexists | done].
Qed.

(** One request each, whose answer is read. *)
Lemma fetchRecentVideoIdsFromUploadsPlaylist_run uploadsPlaylistId scanLatest
  (st : State (Session W)) :
  let r := GetRecentUploads uploadsPlaylistId scanLatest in
  fetchRecentVideoIdsFromUploadsPlaylist uploadsPlaylistId scanLatest st
  = match service r (remote (world st)) with
    | (Reply data, w) =>
        let st1 := set_world (logged (Requested r true) (set_remote w (world st))) st in
        if Js.nullish data then (Throw (Js.cannot_read data (str "items")), st1)
        else
          (Ok (uniqueExactStrings
                 (omap (item_nested_videoId (str "contentDetails"))
                    (Js.array_or_empty (Js.get data (str "items"))))), st1)
    | (Fail message, w) =>
        (Throw message,
         set_world (logged (Requested r false) (set_remote w (world st))) st)
    end.
Proof.
  cbv zeta. unfold fetchRecentVideoIdsFromUploadsPlaylist, bind.
  rewrite api_run.
  destruct (service _ (remote (world st))) as [[data|message] w]; [|done].
  unfold member. by destruct (Js.nullish data).
Qed.

Lemma listMyPlaylistsPage_run accessToken pageToken (st : State (Session W)) :
  let r := GetMyPlaylists accessToken (nonempty pageToken) in
  listMyPlaylistsPage accessToken pageToken st
  = match service r (remote (world st)) with
    | (Reply data, w) =>
        let st1 := set_world (logged (Requested r true) (set_remote w (world st))) st in
        if Js.nullish data then (Throw (Js.cannot_read data (str "items")), st1)
        else
          (Ok (Js.array_or_empty (Js.get data (str "items")),
               Js.string_or_null (Js.get data (str "nextPageToken"))), st1)
    | (Fail message, w) =>
        (Throw message,
         set_world (logged (Requested r false) (set_remote w (world st))) st)
    end.
Proof.
  cbv zeta. unfold listMyPlaylistsPage, bind. rewrite api_run.
  destruct (service _ (remote (world st))) as [[data|message] w]; [|done].
  unfold member. by destruct (Js.nullish data).
Qed.

Lemma fetchUploadsPlaylistId_run channelId (st : State (Session W)) :
  let r := GetUploadsPlaylist channelId in
  (exists ok,
     log (world (fetchUploadsPlaylistId channelId st).2) = log (world st) ++ [Requested r ok]
     /\ (forall u, (fetchUploadsPlaylistId channelId st).1 = Ok u -> ok = true))
  /\ files (fetchUploadsPlaylistId channelId st).2 = files st
  /\ playlistId (world (fetchUploadsPlaylistId channelId st).2) = playlistId (world st)
  /\ uploadsPlaylistIdByChannelId (world (fetchUploadsPlaylistId channelId st).2)
     = uploadsPlaylistIdByChannelId (world st)
  /\ knownLiveVideoIdsByChannelId (world (fetchUploadsPlaylistId channelId st).2)
     = knownLiveVideoIdsByChannelId (world st)
  /\ (fetchUploadsPlaylistId channelId st).1 <> Diverge
  /\ (forall u, (fetchUploadsPlaylistId channelId st).1 = Ok u -> u <> []).
Proof.
  cbv zeta. unfold fetchUploadsPlaylistId, bind. rewrite api_run.
  destruct (service _ (remote (world st))) as [[data|message] w].
  2:{ cbn. split; [by exists false|]. done. }
  unfold member. destruct (Js.nullish data).
  { cbn. split; [by exists true|]. done. }
  cbn [ret fst snd].
  destruct (nonempty (Js.string_or_null _)) as [u|] eqn:Eu.
  - cbn. split; [by exists true|]. repeat split; try done.
    intros u' [= <-]. by destruct (nonempty_Some _ _ Eu).
  - cbn. split; [by exists true|]. done.
Qed.

End ApiSteps.

Section ResolveChannel.
Import Api.
Context {W : Type} `{Remote W} `{Service W}.
Variable name : jstring.
Hypothesis Hname : Forall (fun c => is_video_id_unit c = true) name.
Hypothesis Hsome : name <> [].

(** X19.  A channel given by its ID costs no request: for a name made of
    letters, digits, [_] and [-], [resolveChannelId] returns the name
    itself, with the state untouched, for the bare name when it starts
    with [UC] and has 16 units or more and for the URL
    [https://www.youtube.com/channel/name]; for [@name] and for the URL
    [https://www.youtube.com/@name] it behaves in one and the same way,
    making exactly one request, the lookup of the handle [name]; a blank
    input is refused without a request. *)
Theorem resolveChannelId_requests (st : State (Session W)) :
  (JS.startsWith name (str "UC") && (16 <=? length name)%nat = true ->
   resolveChannelId name st = (Ok name, st))
  /\ resolveChannelId (str "https://www.youtube.com/channel/" ++ name) st
     = (Ok name, st)
  /\ resolveChannelId (str "https://www.youtube.com/@" ++ name) st
     = resolveChannelId ("@"%char :: name) st
  /\ (let run := resolveChannelId ("@"%char :: name) st in
      files run.2 = files st /\ trace run.2 = trace st
      /\ exists ok,
           new_entries st run.2 = [Requested (GetChannelByHandle name) ok]
           /\ log (world run.2) = log (world st) ++ new_entries st run.2
           /\ (forall channelId, run.1 = Ok channelId -> ok = true))
  /\ (forall value,
        JS.trim value = [] ->
        resolveChannelId value st = (Throw (str "Channel is empty"), st)).
Proof.
  split; [|split; [|split; [|split]]].
  - intros Hid. unfold resolveChannelId.
    rewrite (extract_bare_name name Hname Hsome), Hid. done.
  - unfold resolveChannelId. by rewrite (extract_channel_url name Hname Hsome).
  - unfold resolveChannelId.
    by rewrite (extract_handle_url name Hname), (extract_at_name name Hname).
  - cbv zeta. unfold resolveChannelId. rewrite (extract_at_name name Hname).
    unfold try_catch, bind. rewrite api_run.
    destruct (service (GetChannelByHandle name) (remote (world st)))
      as [[data|message] w]; cbn [fst snd].
    + set (st1 := set_world _ st).
      assert (Hlog : log (world st1)
                     = log (world st) ++ [Requested (GetChannelByHandle name) true])
        by done.
      assert (Hend : forall (o : outcome jstring * State (Session W)),
        o.2 = st1 ->
        files o.2 = files st /\ trace o.2 = trace st
        /\ exists ok,
             new_entries st o.2 = [Requested (GetChannelByHandle name) ok]
             /\ log (world o.2) = log (world st) ++ new_entries st o.2
             /\ (forall channelId, o.1 = Ok channelId -> ok = true)).
      { intros o ->. split; [done|]. split; [done|]. exists true.
        rewrite (new_entries_app _ _ _ Hlog). by repeat split. }
      unfold member. destruct (Js.nullish data).
      { cbn. destruct (includes _ _); by apply Hend. }
      cbn [ret].
      destruct (Js.array_or_empty (Js.get data (str "items"))) as [|item items].
      * cbn. destruct (includes _ _); by apply Hend.
      * destruct (if Js.truthy item then _ else _) as [id|].
        -- by apply Hend.
        -- cbn. destruct (includes _ _); by apply Hend.
    + set (st1 := set_world _ st).
      assert (Hlog : log (world st1)
                     = log (world st) ++ [Requested (GetChannelByHandle name) false])
        by done.
      assert (Hend : forall (o : outcome jstring * State (Session W)),
        o.2 = st1 -> (forall channelId, o.1 <> Ok channelId) ->
        files o.2 = files st /\ trace o.2 = trace st
        /\ exists ok,
             new_entries st o.2 = [Requested (GetChannelByHandle name) ok]
             /\ log (world o.2) = log (world st) ++ new_entries st o.2
             /\ (forall channelId, o.1 = Ok channelId -> ok = true)).
      { intros o -> Hno. split; [done|]. split; [done|]. exists false.
        rewrite (new_entries_app _ _ _ Hlog). repeat split; try done.
        intros channelId E. by destruct (Hno channelId). }
      destruct (includes message (str "forHandle")); by apply Hend.
  - intros value Hblank. unfold resolveChannelId.
    by rewrite (proj2 (extract_blank value) Hblank).
Qed.

End ResolveChannel.

Section Uploads.
Import Api.
Context {W : Type} `{Remote W} `{Service W}.

Lemma bind_session {A} (k : Session W -> M (Session W) A) (st : State (Session W)) :
  bind session k st = k (world st) st.
Proof. done. Qed.

Lemma filterCurrentlyLiveVideoIds_NoDup {V : Type} `{Remote V} videoIds
  (st : State V) liveIds :
  (filterCurrentlyLiveVideoIds videoIds st).1 = Ok liveIds -> NoDup liveIds.
Proof.
  unfold filterCurrentlyLiveVideoIds.
  destruct (bool_decide _); [intros [= <-]; constructor|].
  unfold bind. destruct (net _ _ st) as [[data|message|] st1]; [|done|done].
  destruct (member _ _ st1) as [[data_items|message|] st2]; [|done|done].
  intros [= <-]. apply uniqueExactStrings_NoDup.
Qed.

(** The first part: at most one request, the video lookup for the known
    IDs; what is still live is returned and remembered, and when nothing
    is, the memory of the channel is emptied. *)
Lemma check_known_live_spec channelId maxResults (st : State (Session W)) :
  let run := check_known_live channelId maxResults st in
  let s := world st in
  let s' := world run.2 in
  let knownIds := default [] (knownLiveVideoIdsByChannelId s !! channelId) in
  let ids := take 50 (uniqueExactStrings knownIds) in
  files run.2 = files st
  /\ uploadsPlaylistIdByChannelId s' = uploadsPlaylistIdByChannelId s
  /\ playlistId s' = playlistId s
  /\ (forall other, other <> channelId ->
        knownLiveVideoIdsByChannelId s' !! other
        = knownLiveVideoIdsByChannelId s !! other)
  /\ match run.1 with
     | Ok (Some result) =>
         exists stillLive,
           stillLive <> [] /\ NoDup stillLive
           /\ result = take maxResults stillLive
           /\ knownLiveVideoIdsByChannelId s' !! channelId = Some stillLive
           /\ knownIds <> []
           /\ log s' = log s ++ [Requested (GetVideos ids) true]
     | Ok None =>
         (knownIds = [] /\ run.2 = st)
         \/ (knownLiveVideoIdsByChannelId s' !! channelId = Some []
             /\ (log s' = log s
                 \/ log s' = log s ++ [Requested (GetVideos ids) true]))
     | Throw _ =>
         knownLiveVideoIdsByChannelId s' = knownLiveVideoIdsByChannelId s
         /\ exists ok, log s' = log s ++ [Requested (GetVideos ids) ok]
     | Diverge => False
     end.
Proof.
  intros run s s' knownIds ids. subst s'.
  assert (Erun : run = check_known_live channelId maxResults st) by done.
  clearbody run. unfold check_known_live in Erun.
  rewrite bind_session in Erun. fold s knownIds in Erun.
  destruct (bool_decide (knownIds = [])) eqn:Eknown.
  { apply bool_decide_eq_true in Eknown. subst run. cbn.
    repeat split; try done. by left. }
  apply bool_decide_eq_false in Eknown.
  destruct (filterCurrentlyLiveVideoIds_session knownIds st)
    as (Hf & Hu & Hk & Hp & Hlog).
  pose proof (filterCurrentlyLiveVideoIds_NoDup knownIds st) as Hnd.
  fold ids in Hlog.
  destruct (filterCurrentlyLiveVideoIds knownIds st) as [o st1] eqn:Ef.
  cbn [fst snd] in *.
  destruct o as [stillLive|message|].
  - rewrite (bind_ok _ _ _ _ _ Ef) in Erun.
    assert (Hlog1 : stillLive <> [] ->
                    log (world st1) = log s ++ [Requested (GetVideos ids) true]).
    { intros Hlive. destruct (bool_decide (ids = [])).
      - injection Hlog as -> _. done.
      - destruct Hlog as ([|] & Hl & Hno & _); [done|].
        by destruct (Hno eq_refl). }
    assert (Hlog0 : log (world st1) = log s
                    \/ log (world st1) = log s ++ [Requested (GetVideos ids) true]).
    { destruct (bool_decide (ids = [])).
      - injection Hlog as _ ->. by left.
      - destruct Hlog as ([|] & Hl & Hno & _); [by right|].
        by destruct (Hno eq_refl). }
    destruct (bool_decide (stillLive = [])) eqn:Elive;
      [apply bool_decide_eq_true in Elive | apply bool_decide_eq_false in Elive].
    + subst run. cbn.
      split; [done|]. split; [done|]. split; [done|].
      split; [intros other Hother; by rewrite lookup_insert_ne, Hk|].
      right. by rewrite lookup_insert_eq.
    + subst run. cbn.
      split; [done|]. split; [done|]. split; [done|].
      split; [intros other Hother; by rewrite lookup_insert_ne, Hk|].
      exists stillLive. rewrite lookup_insert_eq.
      split; [done|]. split; [by apply Hnd|]. split; [done|]. split; [done|].
      split; [done | by apply Hlog1].
  - rewrite (bind_throw _ _ _ _ _ Ef) in Erun. subst run. cbn.
    split; [done|]. split; [done|]. split; [done|].
    split; [intros other _; by rewrite Hk|]. split; [done|].
    destruct (bool_decide (ids = [])); [done|].
    destruct Hlog as (ok & Hl & _). by exists ok.
  - exfalso. destruct (bool_decide (ids = [])); [done|].
    by destruct Hlog as (ok & _ & _ & Hd).
Qed.

(** An entry that is a request, and not the one for the uploads playlist
    of [channelId]. *)
Lemma scan_tail_spec channelId uploadsPlaylistId scanLatest maxResults
  (st : State (Session W)) :
  let run :=
    (recentVideoIds <-
       fetchRecentVideoIdsFromUploadsPlaylist uploadsPlaylistId scanLatest ;;
     liveIds <- filterCurrentlyLiveVideoIds recentVideoIds ;;
     set_known channelId liveIds ;;;
     ret (take maxResults liveIds)) st in
  let s := world st in
  let s' := world run.2 in
  files run.2 = files st
  /\ playlistId s' = playlistId s
  /\ uploadsPlaylistIdByChannelId s' = uploadsPlaylistIdByChannelId s
  /\ (forall other, other <> channelId ->
        knownLiveVideoIdsByChannelId s' !! other
        = knownLiveVideoIdsByChannelId s !! other)
  /\ run.1 <> Diverge
  /\ (forall ids, run.1 = Ok ids ->
        exists liveIds,
          knownLiveVideoIdsByChannelId s' !! channelId = Some liveIds
          /\ ids = take maxResults liveIds /\ NoDup liveIds)
  /\ ((forall ids, run.1 <> Ok ids) ->
        knownLiveVideoIdsByChannelId s' = knownLiveVideoIdsByChannelId s)
  /\ exists new,
       log s' = log s ++ new /\ length new <= 2
       /\ Forall (fun e => is_request e
                           /\ forall c ok, e <> Requested (GetUploadsPlaylist c) ok)
            new.
Proof.
  intros run s s'. subst s'.
  assert (Erun : run
    = (recentVideoIds <-
         fetchRecentVideoIdsFromUploadsPlaylist uploadsPlaylistId scanLatest ;;
       liveIds <- filterCurrentlyLiveVideoIds recentVideoIds ;;
       set_known channelId liveIds ;;;
       ret (take maxResults liveIds)) st) by done.
  clearbody run. unfold bind at 1 in Erun.
  rewrite fetchRecentVideoIdsFromUploadsPlaylist_run in Erun.
  destruct (service (GetRecentUploads uploadsPlaylistId scanLatest)
              (remote (world st))) as [[data|message] w].
  2:{ subst run. cbn. repeat split; try done. eexists. split; [done|].
      split; [cbn; lia|]. by repeat constructor. }
  cbv zeta in Erun. destruct (Js.nullish data).
  { subst run. cbn. repeat split; try done. eexists. split; [done|].
    split; [cbn; lia|]. by repeat constructor. }
  set (st1 := set_world _ st) in Erun.
  set (recent := uniqueExactStrings _) in Erun.
  assert (Hlog1 : log (world st1)
    = log s ++ [Requested (GetRecentUploads uploadsPlaylistId scanLatest) true])
    by done.
  destruct (filterCurrentlyLiveVideoIds_session recent st1)
    as (Hf & Hu & Hk & Hp & Hlog).
  pose proof (filterCurrentlyLiveVideoIds_NoDup recent st1) as Hnd.
  destruct (filterCurrentlyLiveVideoIds recent st1) as [o st2] eqn:Ef.
  cbn [fst snd] in *.
  assert (Hnew : exists new,
    log (world st2) = log s ++ new /\ length new <= 2
    /\ Forall (fun e => is_request e
                        /\ forall c ok, e <> Requested (GetUploadsPlaylist c) ok)
         new).
  { destruct (bool_decide (take 50 (uniqueExactStrings recent) = [])).
    - injection Hlog as _ ->. eexists. split; [exact Hlog1|].
      split; [cbn; lia|]. by repeat constructor.
    - destruct Hlog as (ok & Hl & _). eexists.
      split; [by rewrite Hl, Hlog1, <- app_assoc|].
      split; [cbn; lia|]. by repeat constructor. }
  destruct o as [liveIds|message|].
  - rewrite (bind_ok _ _ _ _ _ Ef) in Erun. subst run. cbn.
    split; [done|]. split; [done|]. split; [done|].
    split; [intros other Hother; by rewrite lookup_insert_ne, Hk|].
    split; [done|]. split.
    { intros ids [= <-]. exists liveIds. rewrite lookup_insert_eq.
      split; [done|]. split; [done|]. by apply Hnd. }
    split; [intros Hno; by destruct (Hno (take maxResults liveIds))|].
    exact Hnew.
  - rewrite (bind_throw _ _ _ _ _ Ef) in Erun. subst run. cbn.
    split; [done|]. split; [done|]. split; [done|].
    split; [intros other _; by rewrite Hk|].
    split; [done|]. split; [done|]. split; [done|]. exact Hnew.
  - exfalso. destruct (bool_decide (take 50 (uniqueExactStrings recent) = []));
      [done|].
    by destruct Hlog as (ok & _ & _ & Hd).
Qed.

(** The second part: the ID of the uploads playlist is requested only when
    the session does not hold it; then the latest uploads are requested and
    looked up. *)
Lemma scan_uploads_spec channelId scanLatest maxResults (st : State (Session W)) :
  let run := scan_uploads channelId scanLatest maxResults st in
  let s := world st in
  let s' := world run.2 in
  files run.2 = files st
  /\ playlistId s' = playlistId s
  /\ (forall other, other <> channelId ->
        knownLiveVideoIdsByChannelId s' !! other
        = knownLiveVideoIdsByChannelId s !! other
        /\ uploadsPlaylistIdByChannelId s' !! other
           = uploadsPlaylistIdByChannelId s !! other)
  /\ run.1 <> Diverge
  /\ (forall ids, run.1 = Ok ids ->
        exists liveIds,
          knownLiveVideoIdsByChannelId s' !! channelId = Some liveIds
          /\ ids = take maxResults liveIds /\ NoDup liveIds
          /\ nonempty (uploadsPlaylistIdByChannelId s' !! channelId) <> None)
  /\ ((forall ids, run.1 <> Ok ids) ->
        knownLiveVideoIdsByChannelId s' = knownLiveVideoIdsByChannelId s)
  /\ exists new,
       log s' = log s ++ new /\ length new <= 3 /\ Forall is_request new
       /\ (forall u,
             nonempty (uploadsPlaylistIdByChannelId s !! channelId) = Some u ->
             uploadsPlaylistIdByChannelId s' = uploadsPlaylistIdByChannelId s
             /\ length new <= 2
             /\ Forall (fun e => forall c ok, e <> Requested (GetUploadsPlaylist c) ok)
                  new).
Proof.
  intros run s s'. subst s'.
  assert (Erun : run = scan_uploads channelId scanLatest maxResults st) by done.
  clearbody run. unfold scan_uploads in Erun. rewrite bind_session in Erun.
  fold s in Erun.
  destruct (nonempty (uploadsPlaylistIdByChannelId s !! channelId))
    as [u|] eqn:Ecached.
  - rewrite (bind_ok _ _ st st u) in Erun by done.
    destruct (scan_tail_spec channelId u scanLatest maxResults st)
      as (Hf & Hp & Hu & Hk & Hd & Hok & Hfail & new & Hlog & Hlen & Hall).
    rewrite <- Erun in Hf, Hp, Hu, Hk, Hd, Hok, Hfail, Hlog.
    split; [done|]. split; [done|].
    split; [intros other Hother; split; [by apply Hk | by rewrite Hu]|].
    split; [done|]. split.
    { intros ids Hids. destruct (Hok ids Hids) as (liveIds & ? & ? & ?).
      exists liveIds. rewrite Hu. fold s. by rewrite Ecached. }
    split; [done|]. exists new. split; [done|]. split; [lia|].
    split; [eapply Forall_impl; [exact Hall|]; by intros e [? _]|].
    intros u' _. split; [done|]. split; [done|].
    eapply Forall_impl; [exact Hall|]. by intros e [_ ?].
  - destruct (fetchUploadsPlaylistId_run channelId st)
      as ((ok & Hlog0 & Hok0) & Hf0 & Hp0 & Hu0 & Hk0 & Hd0 & Hne0).
    destruct (fetchUploadsPlaylistId channelId st) as [[u|message|] st1] eqn:Efu;
      cbn [fst snd] in *; [| |done].
    2:{ assert (Einner : bind (fetchUploadsPlaylistId channelId)
                           (fun u => set_uploads channelId u ;;; ret u) st
                         = (Throw message, st1))
          by by rewrite (bind_throw _ _ _ _ _ Efu).
        rewrite (bind_throw _ _ _ _ _ Einner) in Erun. subst run. cbn [fst snd].
        fold s in Hlog0, Hp0, Hu0, Hk0.
        split; [done|]. split; [done|].
        split; [intros other _; by rewrite Hk0, Hu0|].
        split; [done|]. split; [done|]. split; [done|].
        eexists. split; [exact Hlog0|]. split; [cbn; lia|].
        split; [by repeat constructor|]. intros u Hu. by rewrite Hu in Ecached. }
    rewrite (Hok0 u eq_refl) in Hlog0. clear ok Hok0.
    set (st2 := (set_uploads channelId u st1).2).
    assert (Einner : bind (fetchUploadsPlaylistId channelId)
                       (fun u => set_uploads channelId u ;;; ret u) st
                     = (Ok u, st2))
      by by rewrite (bind_ok _ _ _ _ _ Efu).
    rewrite (bind_ok _ _ _ _ _ Einner) in Erun.
    destruct (scan_tail_spec channelId u scanLatest maxResults st2)
      as (Hf & Hp & Hu & Hk & Hd & Hok & Hfail & new & Hlog & Hlen & Hall).
    rewrite <- Erun in Hf, Hp, Hu, Hk, Hd, Hok, Hfail, Hlog.
    fold s in Hlog0, Hp0, Hu0, Hk0.
    assert (Hu2 : uploadsPlaylistIdByChannelId (world st2)
                  = <[channelId := u]> (uploadsPlaylistIdByChannelId s))
      by (cbn; by rewrite Hu0).
    assert (Hk2 : knownLiveVideoIdsByChannelId (world st2)
                  = knownLiveVideoIdsByChannelId s) by (cbn; by rewrite Hk0).
    assert (Hlog2 : log (world st2)
                    = log s ++ [Requested (GetUploadsPlaylist channelId) true])
      by (cbn; by rewrite Hlog0).
    split; [rewrite Hf; cbn; exact Hf0|].
    split; [rewrite Hp; cbn; exact Hp0|].
    split.
    { intros other Hother. split; [rewrite (Hk other Hother); by rewrite Hk2|].
      rewrite Hu, Hu2. by rewrite lookup_insert_ne. }
    split; [done|]. split.
    { intros ids Hids. destruct (Hok ids Hids) as (liveIds & ? & ? & ?).
      exists liveIds. rewrite Hu, Hu2, lookup_insert_eq.
      repeat split; try done. pose proof (Hne0 u eq_refl). by destruct u. }
    split; [intros Hno; rewrite (Hfail Hno); exact Hk2|].
    exists (Requested (GetUploadsPlaylist channelId) true :: new).
    split; [rewrite Hlog, Hlog2; by rewrite <- app_assoc|].
    split; [cbn; lia|]. split.
    { constructor; [done|]. eapply Forall_impl; [exact Hall|]. by intros e [? _]. }
    intros u' Hu'. by rewrite Hu' in Ecached.
Qed.

(** X20.  What a look at a channel through its uploads costs:
    [fetchLiveVideoIdsViaUploads] makes four requests at most, three when
    the session holds the ID of the uploads playlist of the channel (which
    is then not requested again), and touches no file.  While a video
    known to be live is still live it makes one request only, the lookup of
    the known videos, and returns the videos that are still live.
    Whenever it returns, the session remembers the live videos of the
    channel, without duplicates, and the result is the first [maxResults]
    of them; the entries of other channels are left alone. *)
Theorem fetchLiveVideoIdsViaUploads_requests
  (channelId : jstring) (scanLatest : Z) (maxResults : nat)
  (st : State (Session W)) :
  let run := fetchLiveVideoIdsViaUploads channelId scanLatest maxResults st in
  let s := world st in
  let s' := world run.2 in
  let new := new_entries st run.2 in
  let knownIds := default [] (knownLiveVideoIdsByChannelId s !! channelId) in
  files run.2 = files st
  /\ playlistId s' = playlistId s
  /\ log s' = log s ++ new
  /\ length new <= 4
  /\ Forall is_request new
  /\ run.1 <> Diverge
  /\ (forall other, other <> channelId ->
        knownLiveVideoIdsByChannelId s' !! other
        = knownLiveVideoIdsByChannelId s !! other
        /\ uploadsPlaylistIdByChannelId s' !! other
           = uploadsPlaylistIdByChannelId s !! other)
  /\ (forall ids, run.1 = Ok ids ->
        exists liveIds,
          knownLiveVideoIdsByChannelId s' !! channelId = Some liveIds
          /\ ids = take maxResults liveIds /\ NoDup liveIds)
  /\ (forall u,
        nonempty (uploadsPlaylistIdByChannelId s !! channelId) = Some u ->
        uploadsPlaylistIdByChannelId s' = uploadsPlaylistIdByChannelId s
        /\ length new <= 3
        /\ forall c ok, Requested (GetUploadsPlaylist c) ok ∉ new)
  /\ (forall stillLive st1,
        knownIds <> [] ->
        filterCurrentlyLiveVideoIds knownIds st = (Ok stillLive, st1) ->
        stillLive <> [] ->
        run.1 = Ok (take maxResults stillLive)
        /\ new = [Requested (GetVideos (take 50 (uniqueExactStrings knownIds))) true]
        /\ uploadsPlaylistIdByChannelId s' = uploadsPlaylistIdByChannelId s).
Proof.
  intros run s s' new knownIds. subst s' new.
  assert (Erun : run = fetchLiveVideoIdsViaUploads channelId scanLatest maxResults st)
    by done.
  clearbody run. unfold fetchLiveVideoIdsViaUploads in Erun.
  destruct (check_known_live_spec channelId maxResults st)
    as (Hf & Hu & Hp & Hk & Hcase).
  fold s knownIds in Hu, Hp, Hk, Hcase.
  assert (Hsteady : forall stillLive st1,
    knownIds <> [] ->
    filterCurrentlyLiveVideoIds knownIds st = (Ok stillLive, st1) ->
    stillLive <> [] ->
    (check_known_live channelId maxResults st).1
    = Ok (Some (take maxResults stillLive))).
  { intros stillLive st1 Hknown Ef Hlive. unfold check_known_live.
    rewrite bind_session. fold s knownIds.
    rewrite bool_decide_eq_false_2 by done.
    rewrite (bind_ok _ _ _ _ _ Ef).
    by rewrite bool_decide_eq_false_2 by done. }
  destruct (check_known_live channelId maxResults st) as [o st1] eqn:EA.
  cbn [fst snd] in *.
  destruct o as [[result|]|message|]; [| | |done].
  - (* a known video is still live *)
    rewrite (bind_ok _ _ _ _ _ EA) in Erun. subst run. cbn [ret fst snd].
    destruct Hcase as (stillLive & Hlive & Hnd & -> & Hknown' & Hknown & Hlog).
    rewrite (new_entries_app _ _ _ Hlog).
    split; [done|]. split; [done|]. split; [done|]. split; [cbn; lia|].
    split; [by repeat constructor|]. split; [done|].
    split; [intros other Hother; split; [by apply Hk | by rewrite Hu]|].
    split; [intros ids [= <-]; by exists stillLive|].
    split.
    { intros u _. split; [done|]. split; [cbn; lia|].
      intros c ok Hin%list_elem_of_singleton. done. }
    intros stillLive' st1' Hk' Ef Hl'.
    pose proof (Hsteady stillLive' st1' Hk' Ef Hl') as [= E].
    by rewrite E.
  - (* nothing known is live: the uploads are scanned *)
    rewrite (bind_ok _ _ _ _ _ EA) in Erun.
    destruct (scan_uploads_spec channelId scanLatest maxResults st1)
      as (Hf2 & Hp2 & Hk2 & Hd2 & Hok2 & _ & new2 & Hlog2 & Hlen2 & Hall2 & Hcached2).
    rewrite <- Erun in Hf2, Hp2, Hk2, Hd2, Hok2, Hlog2, Hcached2.
    assert (Hnew : exists new1,
      log (world st1) = log s ++ new1 /\ length new1 <= 1
      /\ Forall (fun e => is_request e
                          /\ forall c ok, e <> Requested (GetUploadsPlaylist c) ok)
           new1).
    { destruct Hcase as [[_ ->] | [_ [Hl | Hl]]].
      - exists []. rewrite app_nil_r. split; [done|]. split; [cbn; lia | done].
      - exists []. rewrite app_nil_r. split; [done|]. split; [cbn; lia | done].
      - eexists. split; [exact Hl|]. split; [done|]. by repeat constructor. }
    destruct Hnew as (new1 & Hlog1 & Hlen1 & Hall1).
    assert (Hlog : log (world run.2) = log s ++ (new1 ++ new2))
      by by rewrite Hlog2, Hlog1, app_assoc.
    rewrite (new_entries_app _ _ _ Hlog).
    split; [congruence|]. split; [congruence|]. split; [done|].
    split; [rewrite length_app; lia|].
    split.
    { apply Forall_app. split; [|done].
      eapply Forall_impl; [exact Hall1|]. by intros e [? _]. }
    split; [done|]. split.
    { intros other Hother. destruct (Hk2 other Hother) as [-> ->].
      split; [by apply Hk | by rewrite Hu]. }
    split.
    { intros ids Hids. destruct (Hok2 ids Hids) as (liveIds & ? & ? & ? & _).
      by exists liveIds. }
    split.
    { intros u Hcached. rewrite <- Hu in Hcached.
      destruct (Hcached2 u Hcached) as (Hu2 & Hlen2' & Hno2).
      split; [congruence|]. split; [rewrite length_app; lia|].
      intros c ok [Hin | Hin]%elem_of_app.
      - rewrite Forall_forall in Hall1. destruct (Hall1 _ Hin) as [_ Hne].
        by destruct (Hne c ok).
      - rewrite Forall_forall in Hno2. by destruct (Hno2 _ Hin c ok). }
    intros stillLive' st1' Hk' Ef Hl'.
    by pose proof (Hsteady stillLive' st1' Hk' Ef Hl').
  - (* the lookup of the known videos failed *)
    rewrite (bind_throw _ _ _ _ _ EA) in Erun. subst run. cbn [fst snd].
    destruct Hcase as [Hknown' [ok0 Hlog]].
    rewrite (new_entries_app _ _ _ Hlog).
    split; [done|]. split; [done|]. split; [done|]. split; [cbn; lia|].
    split; [by repeat constructor|]. split; [done|].
    split; [intros other Hother; split; [by apply Hk | by rewrite Hu]|].
    split; [done|].
    split.
    { intros u _. split; [done|]. split; [cbn; lia|].
      intros c ok Hin%list_elem_of_singleton. done. }
    intros stillLive' st1' Hk' Ef Hl'.
    by pose proof (Hsteady stillLive' st1' Hk' Ef Hl').
Qed.

End Uploads.

(** ** Waiting for a new playlist *)

Section Waiting.
Import Api.
Context {W : Type} `{Remote W} `{Service W}.

Lemma slept_app e1 e2 : slept (e1 ++ e2) = (slept e1 + slept e2)%Z.
Proof.
  induction e1 as [|[r ok|ms] e1 IH]; cbn; [done| |]; rewrite ?IH; try done.
  fold (slept e1) (slept (e1 ++ e2)) in *. unfold slept in *. lia.
Qed.

Lemma waitForPlaylistToBeReady_loop_spec attempts delayMs accessToken playlistId
  (st : State (Session W)) :
  let run := waitForPlaylistToBeReady_loop attempts delayMs accessToken playlistId st in
  let probe := GetPlaylistProbe accessToken playlistId in
  0 < attempts ->
  files run.2 = files st /\ trace run.2 = trace st
  /\ uploadsPlaylistIdByChannelId (world run.2)
     = uploadsPlaylistIdByChannelId (world st)
  /\ knownLiveVideoIdsByChannelId (world run.2)
     = knownLiveVideoIdsByChannelId (world st)
  /\ Api.playlistId (world run.2) = Api.playlistId (world st)
  /\ exists k ok,
       k < attempts
       /\ log (world run.2)
          = log (world st)
            ++ waiting probe (take k (backoff (attempts - 1) delayMs))
            ++ [Requested probe ok]
       /\ (ok = true -> run.1 = Ok tt)
       /\ (ok = false ->
           exists message,
             run.1 = Throw message
             /\ (isPlaylistNotFoundError message = false \/ k = attempts - 1)).
Proof.
  revert delayMs st. induction attempts as [|attempts IH]; intros delayMs st;
    cbv zeta; [lia|]. intros _.
  cbn [waitForPlaylistToBeReady_loop].
  set (run := bind _ _ st).
  assert (Erun : run = bind
    (try_catch (api (GetPlaylistProbe accessToken playlistId) ;;; ret None)
       (fun message => ret (Some message)))
    (fun failed =>
       match failed with
       | None => ret tt
       | Some message =>
           if negb (isPlaylistNotFoundError message) || bool_decide (attempts = 0)
           then throw message
           else
             sleep delayMs ;;;
             waitForPlaylistToBeReady_loop attempts (Z.min 4000 (delayMs * 2))
               accessToken playlistId
       end) st) by done.
  clearbody run.
  unfold bind at 1 in Erun. unfold try_catch, bind in Erun.
  rewrite api_run in Erun.
  destruct (service (GetPlaylistProbe accessToken playlistId) (remote (world st)))
    as [[data|message] w].
  - subst run. cbn. repeat split; try done.
    exists 0, true. split; [lia|]. split; [done|]. by split.
  - cbn [ret fst snd] in Erun.
    set (st1 := set_world _ st) in Erun.
    destruct (negb (isPlaylistNotFoundError message)) eqn:Enf.
    { subst run. cbn. repeat split; try done.
      exists 0, false. split; [lia|]. split; [done|]. split; [done|].
      intros _. exists message. split; [done|]. left.
      by apply negb_true_iff in Enf. }
    destruct (bool_decide (attempts = 0)) eqn:Elast.
    { apply bool_decide_eq_true in Elast. subst run attempts. cbn.
      repeat split; try done.
      exists 0, false. split; [lia|]. split; [done|]. split; [done|].
      intros _. exists message. split; [done|]. by right. }
    apply bool_decide_eq_false in Elast. cbn [orb sleep fst snd] in Erun.
    set (st2 := set_world _ st1) in Erun.
    destruct (IH (Z.min 4000 (delayMs * 2)) st2 ltac:(lia))
      as (Hf & Ht & Hu & Hk & Hp & k & ok & Hlt & Hlog & Hok & Hfail).
    rewrite <- Erun in Hf, Ht, Hu, Hk, Hp, Hlog, Hok, Hfail.
    split; [done|]. split; [done|]. split; [done|]. split; [done|].
    split; [done|].
    exists (S k), ok. split; [lia|]. split.
    { rewrite Hlog. cbn [st2 st1 set_world world logged log set_remote].
      destruct attempts as [|m]; [done|].
      replace (S (S m) - 1) with (S m) by lia.
      replace (S m - 1) with m by lia.
      cbn [backoff take waiting flat_map app].
      rewrite <- !app_assoc. done. }
    split; [done|]. intros Hno. destruct (Hfail Hno) as (m & Hm & Hwhy).
    exists m. split; [done|]. destruct Hwhy as [? | ->]; [by left|]. right. lia.
Qed.

(** X21.  [waitForPlaylistToBeReady] gives up in bounded time: it probes
    the playlist six times at most and sleeps between two probes only,
    500, 1000, 2000, 4000 and 4000 ms, so 11.5 seconds at most; every
    probe before the last one failed; it returns
    exactly when the last probe succeeded, and otherwise throws an error
    that is not [playlistNotFound] or is that of the sixth probe.  The run
    state and the files are left alone. *)
Theorem waitForPlaylistToBeReady_bounded
  (accessToken playlistId : jstring) (st : State (Session W)) :
  let run := waitForPlaylistToBeReady accessToken playlistId st in
  let probe := GetPlaylistProbe accessToken playlistId in
  let new := new_entries st run.2 in
  files run.2 = files st
  /\ uploadsPlaylistIdByChannelId (world run.2)
     = uploadsPlaylistIdByChannelId (world st)
  /\ knownLiveVideoIdsByChannelId (world run.2)
     = knownLiveVideoIdsByChannelId (world st)
  /\ Api.playlistId (world run.2) = Api.playlistId (world st)
  /\ log (world run.2) = log (world st) ++ new
  /\ (slept new <= 11500)%Z
  /\ exists k ok,
       k <= 5
       /\ new = waiting probe (take k [500; 1000; 2000; 4000; 4000]%Z)
                ++ [Requested probe ok]
       /\ (run.1 = Ok tt <-> ok = true)
       /\ (ok = false ->
           exists message,
             run.1 = Throw message
             /\ (isPlaylistNotFoundError message = false \/ k = 5)).
Proof.
  intros run probe new. subst run new. unfold waitForPlaylistToBeReady.
  destruct (waitForPlaylistToBeReady_loop_spec 6 500 accessToken playlistId st
              ltac:(lia))
    as (Hf & Ht & Hu & Hk & Hp & k & ok & Hlt & Hlog & Hok & Hfail).
  change (backoff (6 - 1) 500) with [500; 1000; 2000; 4000; 4000]%Z in Hlog.
  fold probe in Hlog. rewrite (new_entries_app _ _ _ Hlog).
  split; [done|]. split; [done|]. split; [done|]. split; [done|].
  split; [done|]. split.
  { rewrite slept_app. cbn [slept foldr].
    do 6 (destruct k as [|k]; [vm_compute; discriminate|]). lia. }
  exists k, ok. split; [lia|]. split; [done|]. split.
  - split; [|done]. intros Hrun. destruct ok; [done|].
    destruct (Hfail eq_refl) as (m & Hm & _). congruence.
  - intros Hno. destruct (Hfail Hno) as (m & Hm & Hwhy). exists m.
    split; [done|]. destruct Hwhy as [? | ->]; [by left | by right].
Qed.

End Waiting.

(** ** The target playlist *)

Section TargetPlaylist.
Import Api.
Context {W : Type} `{Remote W} `{Service W}.

Lemma playlist_id_and_title_nonempty item id itemTitle :
  playlist_id_and_title item = Some (id, itemTitle) -> id <> [].
Proof.
  unfold playlist_id_and_title.
  destruct (nonempty (if Js.truthy item then _ else _)) as [i|] eqn:Ei; [|done].
  destruct (nonempty (if _ && _ then _ else _)); [|done].
  intros [= <- _]. by destruct (nonempty_Some _ _ Ei).
Qed.

Lemma find_title_nonempty targetLower items id :
  find_title targetLower items = Some id -> id <> [].
Proof.
  induction items as [|item items IH]; [done|]. cbn.
  destruct (playlist_id_and_title item) as [[i t]|] eqn:Ei; [|done].
  destruct (bool_decide _); [|done].
  intros [= <-]. by eapply playlist_id_and_title_nonempty.
Qed.

Lemma findPlaylistIdByTitle_loop_spec fuel accessToken targetLower pageToken
  (st : State (Session W)) :
  let run := findPlaylistIdByTitle_loop fuel accessToken targetLower pageToken st in
  within no_creation fuel st run.2
  /\ Api.playlistId (world run.2) = Api.playlistId (world st)
  /\ forall id, run.1 = Ok (Some id) -> id <> [].
Proof.
  revert pageToken st. induction fuel as [|fuel IH]; intros pageToken st.
  { cbn. split; [apply within_refl | done]. }
  intros run.
  assert (Erun : run
    = findPlaylistIdByTitle_loop (S fuel) accessToken targetLower pageToken st)
    by done.
  clearbody run. cbn [findPlaylistIdByTitle_loop] in Erun.
  unfold bind at 1 in Erun. rewrite listMyPlaylistsPage_run in Erun.
  destruct (service (GetMyPlaylists accessToken (nonempty pageToken))
              (remote (world st))) as [[data|message] w]; cbv zeta in Erun.
  2:{ subst run. cbn [fst snd]. split; [|done]. split; [done|]. eexists.
      split; [done|]. split; [cbn; lia|]. by repeat constructor. }
  set (st1 := set_world _ st) in Erun.
  assert (Hone : within no_creation 1 st st1).
  { split; [done|]. eexists. split; [done|]. split; [done|].
    by repeat constructor. }
  destruct (Js.nullish data).
  { subst run. cbn [fst snd].
    split; [eapply within_weaken; [done | | exact Hone]; lia | done]. }
  cbn [fst snd] in Erun.
  destruct (find_title targetLower _) as [id|] eqn:Efind.
  { subst run. cbn [fst snd].
    split; [eapply within_weaken; [done | | exact Hone]; lia|].
    split; [done|]. intros id' [= <-]. by eapply find_title_nonempty. }
  destruct (nonempty (Js.string_or_null _)) as [next|].
  2:{ subst run. cbn [fst snd].
      split; [eapply within_weaken; [done | | exact Hone]; lia | done]. }
  destruct (IH (Some next) st1) as (Hw & Hp & Hid). rewrite <- Erun in Hw, Hp, Hid.
  split; [exact (within_trans _ 1 fuel _ _ _ Hone Hw)|]. by split.
Qed.

(** X22.  The target playlist is looked up once: with a playlist ID in the
    settings [resolveTargetPlaylistId] returns it (trimmed) without a
    request, whatever the session holds; without one it returns the ID
    that the session remembers, again without a request; and an ID that
    it found or created is remembered, so that every later call returns
    it without a request.  A playlist is created once at most, and only
    after the lookup by title returned none.  No file is touched. *)
Theorem resolveTargetPlaylistId_looks_up_once
  (target : PlaylistTarget) (fuel : nat) (oauthAccessToken : jstring)
  (st : State (Session W)) :
  let run := resolveTargetPlaylistId target fuel oauthAccessToken st in
  let explicit :=
    or_else (JS.trim (args_playlistId target)) (JS.trim (env_playlistId target)) in
  let title :=
    JS.trim (or_else (args_playlistTitle target)
               (or_else (env_playlistTitle target) (str "Saved Streams"))) in
  let new := new_entries st run.2 in
  (explicit <> [] -> run = (Ok explicit, st))
  /\ (explicit = [] ->
      forall remembered,
        nonempty (Api.playlistId (world st)) = Some remembered ->
        run = (Ok remembered, st))
  /\ (explicit = [] ->
      forall id,
        run.1 = Ok id ->
        Api.playlistId (world run.2) = Some id
        /\ forall fuel' accessToken',
             resolveTargetPlaylistId target fuel' accessToken' run.2
             = (Ok id, run.2))
  /\ files run.2 = files st
  /\ log (world run.2) = log (world st) ++ new
  /\ (forall accessToken title' privacyStatus ok,
        Requested (PostPlaylist accessToken title' privacyStatus) ok ∈ new ->
        (findPlaylistIdByTitle fuel oauthAccessToken title st).1 = Ok None
        /\ accessToken = oauthAccessToken /\ title' = title
        /\ length (List.filter
                     (fun e => match e with
                               | Requested (PostPlaylist _ _ _) _ => true
                               | _ => false
                               end) new) = 1).
Proof.
  intros run explicit title new. subst new.
  assert (Erun : run = resolveTargetPlaylistId target fuel oauthAccessToken st)
    by done.
  clearbody run. unfold resolveTargetPlaylistId in Erun.
  fold explicit title in Erun.
  assert (Hquiet : forall (o : outcome jstring) ,
    run = (o, st) ->
    files run.2 = files st
    /\ log (world run.2) = log (world st) ++ new_entries st run.2
    /\ (forall accessToken title' privacyStatus ok,
          Requested (PostPlaylist accessToken title' privacyStatus) ok
          ∈ new_entries st run.2 ->
          (findPlaylistIdByTitle fuel oauthAccessToken title st).1 = Ok None
          /\ accessToken = oauthAccessToken /\ title' = title
          /\ length (List.filter
                       (fun e => match e with
                                 | Requested (PostPlaylist _ _ _) _ => true
                                 | _ => false
                                 end) (new_entries st run.2)) = 1)).
  { intros o ->. cbn [snd]. unfold new_entries. rewrite drop_all, app_nil_r.
    split; [done|]. split; [done|]. by intros ? ? ? ? Hin%elem_of_nil. }
  assert (Hagain : forall id (st' : State (Session W)),
    explicit = [] -> id <> [] -> Api.playlistId (world st') = Some id ->
    forall fuel' accessToken',
      resolveTargetPlaylistId target fuel' accessToken' st' = (Ok id, st')).
  { intros id st' He Hid Hp fuel' accessToken'. unfold resolveTargetPlaylistId.
    fold explicit. rewrite He. cbn [bool_decide negb].
    rewrite (bool_decide_eq_true_2 (@nil ascii = [])) by done. cbn [negb].
    rewrite bind_session, Hp. by destruct id. }
  destruct (bool_decide (explicit = [])) eqn:Eexplicit;
    [apply bool_decide_eq_true in Eexplicit
    | apply bool_decide_eq_false in Eexplicit].
  2:{ cbn [negb] in Erun. split; [done|]. split; [done|]. split; [done|].
      by apply (Hquiet (Ok explicit)). }
  cbn [negb] in Erun. rewrite bind_session in Erun.
  split; [done|].
  destruct (nonempty (Api.playlistId (world st))) as [remembered|] eqn:Ememo.
  { split; [by intros _ r [= <-]|]. split.
    - intros _ id Hid. rewrite Erun in Hid. injection Hid as <-.
      destruct (nonempty_Some _ _ Ememo) as [Hp Hne].
      rewrite Erun. cbn [snd]. split; [done|]. by apply Hagain.
    - by apply (Hquiet (Ok remembered)). }
  split; [done|].
  destruct (bool_decide (title = [])) eqn:Eblank.
  { split; [intros _ id Hid; by rewrite Erun in Hid|]. by eapply Hquiet. }
  apply bool_decide_eq_false in Eblank.
  unfold normalizePlaylistPrivacy in Erun.
  set (raw := JS.toLowerCase (JS.trim _)) in Erun.
  set (privacy := fun normalized : option jstring => default (str "private") normalized)
    in Erun.
  assert (Enorm :
    (exists normalized,
       run = (found <- findPlaylistIdByTitle fuel oauthAccessToken title ;;
              id <-
                match nonempty found with
                | Some id => ret id
                | None =>
                    id <- createPlaylist oauthAccessToken title
                            (privacy normalized) ;;
                    waitForPlaylistToBeReady oauthAccessToken id ;;;
                    ret id
                end ;;
              set_playlistId id ;;;
              ret id) st)
    \/ exists message, run = (Throw message, st)).
  { destruct (bool_decide (raw = [])); [left; exists None; exact Erun|].
    destruct (_ || _); [left; exists (Some raw); exact Erun|].
    right. eexists. exact Erun. }
  clear Erun. destruct Enorm as [[normalized Erun] | [message Erun]].
  2:{ split; [intros _ id Hid; by rewrite Erun in Hid|]. by eapply Hquiet. }
  assert (Efind : findPlaylistIdByTitle fuel oauthAccessToken title st
    = findPlaylistIdByTitle_loop fuel oauthAccessToken (JS.toLowerCase title)
        None st).
  { unfold findPlaylistIdByTitle.
    assert (Et : JS.trim title = title) by (subst title; apply trim_idem).
    rewrite Et. by rewrite bool_decide_eq_false_2. }
  destruct (findPlaylistIdByTitle_loop_spec fuel oauthAccessToken
              (JS.toLowerCase title) None st) as (Hw & Hp & Hid).
  rewrite <- Efind in Hw, Hp, Hid.
  destruct (findPlaylistIdByTitle fuel oauthAccessToken title st)
    as [o st1] eqn:Ef. cbn [fst snd] in *.
  destruct Hw as (Hf1 & new1 & Hlog1 & _ & Hall1).
  assert (Hno1 : forall accessToken title' privacyStatus ok,
    Requested (PostPlaylist accessToken title' privacyStatus) ok ∉ new1).
  { intros a t p ok Hin. rewrite Forall_forall in Hall1.
    by destruct (Hall1 _ Hin a t p ok). }
  assert (Hcount1 : forall tail,
    List.filter (fun e => match e with
                          | Requested (PostPlaylist _ _ _) _ => true
                          | _ => false
                          end) (new1 ++ tail)
    = List.filter (fun e => match e with
                            | Requested (PostPlaylist _ _ _) _ => true
                            | _ => false
                            end) tail).
  { intros tail. rewrite List.filter_app.
    assert (E : List.filter (fun e => match e with
                          | Requested (PostPlaylist _ _ _) _ => true
                          | _ => false
                          end) new1 = []).
    { clear -Hall1. induction Hall1 as [|e new1 He _ IH]; [done|]. cbn.
      destruct e as [[] ok|]; try done. by destruct (He accessToken title privacyStatus ok). }
    by rewrite E. }
  destruct o as [[found|]|message|].
  - (* found by title *)
    rewrite (bind_ok _ _ _ _ _ Ef) in Erun.
    assert (Hfound : found <> []) by by apply Hid.
    assert (En : nonempty (Some found) = Some found) by by destruct found.
    rewrite En in Erun. subst run. cbn.
    split.
    { intros _ id [= <-]. split; [done|]. by apply Hagain. }
    rewrite (new_entries_app st _ new1) by done.
    split; [done|]. split; [done|].
    intros a t p ok Hin. by destruct (Hno1 a t p ok).
  - (* not found: created *)
    rewrite (bind_ok _ _ _ _ _ Ef) in Erun. cbn [nonempty] in Erun.
    unfold createPlaylist in Erun. unfold bind at 1 2 3 in Erun.
    rewrite api_run in Erun.
    assert (Etitle : JS.trim title = title) by (subst title; apply trim_idem).
    rewrite Etitle in Erun.
    set (create := PostPlaylist oauthAccessToken title (privacy normalized)) in Erun.
    assert (Hcreated : forall ok (st' : State (Session W)) tail,
      log (world st') = log (world st1) ++ Requested create ok :: tail ->
      Forall no_creation tail ->
      files st' = files st ->
      files st' = files st
      /\ log (world st') = log (world st) ++ new_entries st st'
      /\ (forall accessToken title' privacyStatus ok',
            Requested (PostPlaylist accessToken title' privacyStatus) ok'
            ∈ new_entries st st' ->
            Ok (A := option jstring) None = Ok None
            /\ accessToken = oauthAccessToken /\ title' = title
            /\ length (List.filter
                         (fun e => match e with
                                   | Requested (PostPlaylist _ _ _) _ => true
                                   | _ => false
                                   end) (new_entries st st')) = 1)).
    { intros ok st' tail Hlog Htail Hfiles.
      assert (Hl : log (world st')
                   = log (world st) ++ (new1 ++ Requested create ok :: tail))
        by by rewrite Hlog, Hlog1, <- app_assoc.
      rewrite (new_entries_app _ _ _ Hl).
      split; [done|]. split; [done|].
      intros a t p ok' [Hin | Hin]%elem_of_app; [by destruct (Hno1 a t p ok')|].
      apply elem_of_cons in Hin as [Hin | Hin].
      - injection Hin as -> -> -> ->. split; [done|]. split; [done|].
        split; [done|]. rewrite Hcount1. cbn.
        assert (E : List.filter (fun e => match e with
                          | Requested (PostPlaylist _ _ _) _ => true
                          | _ => false
                          end) tail = []).
        { clear -Htail. induction Htail as [|e tail He _ IH]; [done|]. cbn.
          destruct e as [[] ok|]; try done.
          by destruct (He accessToken title privacyStatus ok). }
        by rewrite E.
      - rewrite Forall_forall in Htail. by destruct (Htail _ Hin a t p ok'). }
    destruct (service create (remote (world st1))) as [[data|message] w].
    2:{ subst run. cbn [fst snd].
        split; [done|].
        eapply (Hcreated false _ []); [done | done | done]. }
    cbn [fst snd] in Erun. set (st2 := set_world _ st1) in Erun.
    destruct (nonempty (if Js.truthy data then _ else _)) as [id|] eqn:Eid.
    2:{ subst run. cbn [throw fst snd].
        split; [done|].
        eapply (Hcreated true _ []); [done | done | done]. }
    cbn [ret fst snd] in Erun.
    destruct (waitForPlaylistToBeReady_loop_spec 6 500 oauthAccessToken id st2
                ltac:(lia))
      as (Hf3 & _ & _ & _ & _ & k & ok & _ & Hlog3 & _ & _).
    fold (waitForPlaylistToBeReady oauthAccessToken id) in Hf3, Hlog3.
    unfold bind at 1 in Erun.
    destruct (waitForPlaylistToBeReady oauthAccessToken id st2)
      as [o3 st3] eqn:Ewait. cbn [fst snd] in *.
    set (tail := waiting (GetPlaylistProbe oauthAccessToken id)
                   (take k (backoff (6 - 1) 500))
                 ++ [Requested (GetPlaylistProbe oauthAccessToken id) ok]) in *.
    assert (Htail : Forall no_creation tail).
    { apply Forall_app. split; [|by repeat constructor].
      unfold waiting. apply Forall_forall. intros e Hin.
      apply list_elem_of_In, in_flat_map in Hin as (ms & _ & Hin).
      cbn in Hin. destruct Hin as [<- | [<- | []]]; done. }
    assert (Hlog3' : log (world st3)
      = log (world st1) ++ Requested create true :: tail).
    { rewrite Hlog3. cbn. by rewrite <- app_assoc. }
    destruct o3 as [[]|message|].
    + subst run. cbn [ret set_playlistId fst snd bind].
      destruct (nonempty_Some _ _ Eid) as [_ Hne].
      split.
      { intros _ id' [= <-]. split; [done|]. by apply Hagain. }
      eapply (Hcreated true _ tail); [done | done |].
      cbn. rewrite Hf3. exact Hf1.
    + subst run. cbn [fst snd]. split; [done|].
      eapply (Hcreated true _ tail); [done | done |].
      rewrite Hf3. exact Hf1.
    + subst run. cbn [fst snd]. split; [done|].
      eapply (Hcreated true _ tail); [done | done |].
      rewrite Hf3. exact Hf1.
  - rewrite (bind_throw _ _ _ _ _ Ef) in Erun. subst run. cbn [fst snd].
    rewrite (new_entries_app st _ new1) by done.
    split; [done|]. split; [done|]. split; [done|].
    intros a t p ok Hin. by destruct (Hno1 a t p ok).
  - rewrite (bind_diverge _ _ _ _ Ef) in Erun. subst run. cbn [fst snd].
    rewrite (new_entries_app st _ new1) by done.
    split; [done|]. split; [done|]. split; [done|].
    intros a t p ok Hin. by destruct (Hno1 a t p ok).
Qed.

End TargetPlaylist.

(** ** Example runs of the requests *)

Lemma resolveChannelId_requests_witness :
  let name := str "UCabcdefghijklmnopqrstuv" in
  let st := example_session silent_world in
  Forall (fun c => is_video_id_unit c = true) name
  /\ name <> []
  /\ Api.resolveChannelId (str "https://www.youtube.com/channel/" ++ name) st
     = (Ok name, st).
Proof.
  intros name st.
  assert (Hname : Forall (fun c => is_video_id_unit c = true) name).
  { apply Forall_forall. intros c Hc. apply list_elem_of_In in Hc.
    revert c Hc. apply forallb_forall. vm_compute. reflexivity. }
  assert (Hsome : name <> []) by discriminate.
  split; [exact Hname|]. split; [exact Hsome|].
  exact (proj1 (proj2 (resolveChannelId_requests name Hname Hsome st))).
Defined.

(** A handle costs one request, in both of its forms. *)
Example resolveChannelId_handle :
  let st := example_session silent_world in
  (Api.resolveChannelId (str "https://www.youtube.com/@name") st).1
  = Ok (str "UCxxxxxxxxxxxxxxxxxxxxxx")
  /\ Api.log (world (Api.resolveChannelId (str " @name ") st).2)
     = [Api.Requested (Api.GetChannelByHandle (str "name")) true].
Proof. split; vm_compute; reflexivity. Qed.

(** The first look at a channel takes three requests and finds the two
    live videos among the recent uploads and what the lookup reports; the
    second look takes one. *)
Example fetchLiveVideoIdsViaUploads_twice :
  let st := example_session example_videos_world in
  let first := Api.fetchLiveVideoIdsViaUploads (str "UCx") 50 5 st in
  let second := Api.fetchLiveVideoIdsViaUploads (str "UCx") 50 5 first.2 in
  first.1 = Ok [str "aaaaaaaaaaa"; str "bbbbbbbbbbb"]
  /\ Api.log (world first.2)
     = [Api.Requested (Api.GetUploadsPlaylist (str "UCx")) true;
        Api.Requested
          (Api.GetRecentUploads (str "UUxxxxxxxxxxxxxxxxxxxxxx") 50) true;
        Api.Requested
          (Api.GetVideos [str "aaaaaaaaaaa"; str "ccccccccccc"]) true]
  /\ second.1 = Ok [str "aaaaaaaaaaa"; str "bbbbbbbbbbb"]
  /\ new_entries first.2 second.2
     = [Api.Requested
          (Api.GetVideos [str "aaaaaaaaaaa"; str "bbbbbbbbbbb"]) true].
Proof. repeat split; vm_compute; reflexivity. Qed.

(** A playlist that never becomes ready: six probes, five sleeps, and the
    error of the last probe. *)
Example waitForPlaylistToBeReady_gives_up :
  let st := example_session silent_world in
  let run := Api.waitForPlaylistToBeReady (str "token") (str "PLnew") st in
  run.1 = Throw (str "HTTP 404: playlistNotFound")
  /\ slept (Api.log (world run.2)) = 11500%Z
  /\ length (Api.log (world run.2)) = 11.
Proof. repeat split; vm_compute; reflexivity. Qed.

(** The playlist of the account is found by its title, whatever the case
    and the white space around it; nothing is created, and the second
    call asks nothing. *)
Example resolveTargetPlaylistId_finds_by_title :
  let st := example_session silent_world in
  let first := Api.resolveTargetPlaylistId example_target 5 (str "token") st in
  let second :=
    Api.resolveTargetPlaylistId example_target 5 (str "token") first.2 in
  first.1 = Ok (str "PL1")
  /\ Api.log (world first.2)
     = [Api.Requested (Api.GetMyPlaylists (str "token") None) true]
  /\ second = (Ok (str "PL1"), first.2).
Proof. repeat split; vm_compute; reflexivity. Qed.
